(** * luci/gae: order-preserving primitive serialization and the
      reflection-driven struct codec (PropertyLoadSaver for structs)

    Two Go files are embedded here:
    - the [memory] package's binary helpers ([writeString], [readBytes],
      [writeFloat64], [writeTime], [writeGeoPoint], ...), in [Module Serialize];
    - [service/rawdatastore/datastore_impl.go] (schema construction
      [getStructCodecLocked], [Load]/[loadInner], [Save]/[save], [GetMeta],
      [SetMeta]), in [Module RawDatastore]. *)

From Stdlib Require Import ZArith List Lia Bool Ascii String.
From Stdlib Require Import Floats.SpecFloat.
From stdpp Require Import gmap strings list fin_maps.

(* ===================================================================== *)
(** * Part I: the binary helpers of package [memory] *)
(* ===================================================================== *)

Module Serialize.

Local Open Scope Z_scope.

(** ** Machine integers

    A [uint64] is a [Z] in [0, 2^64); arithmetic wraps. *)

Definition two64 : Z := 2 ^ 64.
Definition two63 : Z := 2 ^ 63.

Definition u64 (x : Z) : Z := x mod two64.

(** [-x] on uint64. *)
Definition neg64 (x : Z) : Z := u64 (- x).
(** [x - y] on uint64. *)
Definition sub64 (x y : Z) : Z := u64 (x - y).
(** [x * y] and [x + y] on uint64. *)
Definition mul64 (x y : Z) : Z := u64 (x * y).
Definition add64 (x y : Z) : Z := u64 (x + y).
(** [int64(x)] for a uint64 [x]: reinterpret the bits. *)
Definition int64_of_u64 (x : Z) : Z := if x <? two63 then x else x - two64.
(** [byte(x)]: truncating conversion. *)
Definition byte_of (x : Z) : Z := x mod 256.

Definition is_u64 (x : Z) : Prop := 0 <= x < two64.
Definition is_byte (x : Z) : Prop := 0 <= x < 256.

(** ** Errors and results *)

Inductive error : Type :=
| EOF                                  (* io.EOF *)
| ErrTooBig (val : Z)                  (* "readBytes: tried to read %d bytes (> 2MB)" *)
| ErrShortRead (val : Z) (n : Z)       (* "readBytes: expected %d bytes but read %d" *)
| ErrUint (why : string).              (* whatever funnybase.ReadUint reports *)

Inductive result (A : Type) : Type :=
| Ok (a : A)
| Err (e : error).
Arguments Ok {A} a.
Arguments Err {A} e.

(** ** [bytes.Buffer]

    Only the unread portion matters: [Write] appends at the end, [Read]
    consumes from the front. *)

Definition Buffer : Type := list Z.

Definition Buffer_Write (buf : Buffer) (p : list Z) : Buffer := buf ++ p.

(** [buf.Read(p)] with [len(p) = n]: the bytes copied into [p], the error
    ([io.EOF] exactly when the buffer is empty and [n > 0]) and the buffer
    left. *)
Definition Buffer_Read (buf : Buffer) (n : nat) : list Z * option error * Buffer :=
  match buf with
  | [] => ([], if Nat.eqb n 0 then None else Some EOF, [])
  | _ => (take n buf, None, drop n buf)
  end.

(** A Go [string] is a sequence of bytes; [string(b)] and [[]byte(s)] copy
    the bytes. *)
Definition bytes_of_string (s : string) : list Z :=
  map (fun a => Z.of_N (N_of_ascii a)) (list_ascii_of_string s).
Definition string_of_bytes (b : list Z) : string :=
  string_of_list_ascii (map (fun x => ascii_of_N (Z.to_N x)) b).

(** ** [encoding/binary.BigEndian] *)

Definition PutUint64 (v : Z) : list Z :=
  [ byte_of (Z.shiftr v 56); byte_of (Z.shiftr v 48); byte_of (Z.shiftr v 40);
    byte_of (Z.shiftr v 32); byte_of (Z.shiftr v 24); byte_of (Z.shiftr v 16);
    byte_of (Z.shiftr v 8); byte_of v ].

(** [Uint64(b)] on an 8-byte slice [b]. *)
Definition Uint64 (b : list Z) : Z :=
  let at_ i := nth i b 0 in
  Z.lor (Z.lor (Z.lor (Z.lor (Z.lor (Z.lor (Z.lor
    (at_ 7%nat)
    (Z.shiftl (at_ 6%nat) 8))
    (Z.shiftl (at_ 5%nat) 16))
    (Z.shiftl (at_ 4%nat) 24))
    (Z.shiftl (at_ 3%nat) 32))
    (Z.shiftl (at_ 2%nat) 40))
    (Z.shiftl (at_ 1%nat) 48))
    (Z.shiftl (at_ 0%nat) 56).

(** ** [time.Time] and [appengine.GeoPoint]

    A [Time] is an instant: seconds since the Unix epoch (an int64) and a
    nanosecond offset in [0, 10^9).  The location is not modelled: the code
    drops it. *)

Record Time : Type := mkTime { Unix : Z; Nanosecond : Z }.

(** [time.Unix(sec, nsec)], with the normalisation of the standard library. *)
Definition time_Unix (sec nsec : Z) : Time :=
  if (nsec <? 0) || (1000000000 <=? nsec) then
    let n := Z.quot nsec 1000000000 in
    let sec := sec + n in
    let nsec := nsec - n * 1000000000 in
    if nsec <? 0 then mkTime (sec - 1) (nsec + 1000000000) else mkTime sec nsec
  else mkTime sec nsec.

(** A float64 is represented by its IEEE-754 bit pattern, a uint64:
    [math.Float64bits] and [math.Float64frombits] are the identity on this
    representation. *)
Definition float64 : Type := Z.
Definition Float64bits (v : float64) : Z := v.
Definition Float64frombits (b : Z) : float64 := b.

Record GeoPoint : Type := mkGeoPoint { Lat : float64; Lng : float64 }.

(** The value a bit pattern denotes, as a [spec_float] of the Standard
    Library (sign, 11 exponent bits, 52 fraction bits). *)
Definition float64_value (b : Z) : spec_float :=
  let s := 0 <? b / 2 ^ 63 in
  let e := (b / 2 ^ 52) mod 2 ^ 11 in
  let m := b mod 2 ^ 52 in
  if e =? 2047 then (if m =? 0 then S754_infinity s else S754_nan)
  else if e =? 0 then (if m =? 0 then S754_zero s else S754_finite s (Z.to_pos m) (-1074))
  else S754_finite s (Z.to_pos (m + 2 ^ 52)) (e - 1075).

(** [a < b] on float64 (false as soon as one side is a NaN). *)
Definition float64_lt (a b : float64) : bool :=
  SFltb (float64_value a) (float64_value b).

(** Lexicographic comparison of byte strings as unsigned bytes
    ([bytes.Compare(a, b) < 0]). *)
Fixpoint bytes_lt (a b : list Z) : bool :=
  match a, b with
  | _, [] => false
  | [], _ :: _ => true
  | x :: a', y :: b' => (x <? y) || ((x =? y) && bytes_lt a' b')
  end.

(** ** The helpers themselves

    [funnybase.WriteUint] and [funnybase.ReadUint] belong to another
    repository (luci-go); they are parameters here.  [WriteUint v] is the
    byte string appended to the buffer, [ReadUint buf] the value or error
    together with the buffer left. *)

Section Helpers.

Variable WriteUint : Z -> list Z.
Variable ReadUint : Buffer -> result Z * Buffer.

Definition writeString (buf : Buffer) (s : string) : Buffer :=
  let buf := Buffer_Write buf (WriteUint (u64 (Z.of_nat (String.length s)))) in
  Buffer_Write buf (bytes_of_string s).

Definition writeBytes (buf : Buffer) (b : list Z) : Buffer :=
  let buf := Buffer_Write buf (WriteUint (u64 (Z.of_nat (List.length b)))) in
  Buffer_Write buf b.

Definition readBytes (buf : Buffer) : result (list Z) * Buffer :=
  match ReadUint buf with
  | (Err e, buf) => (Err e, buf)
  | (Ok val, buf) =>
      if val >? 2 * 1024 * 1024 then (Err (ErrTooBig val), buf)
      else
        let '(retBuf, _, buf) := Buffer_Read buf (Z.to_nat val) in
        let n := Z.of_nat (List.length retBuf) in
        if negb (n =? val) then (Err (ErrShortRead val n), buf)
        else (Ok retBuf, buf)
  end.

Definition readString (buf : Buffer) : result string * Buffer :=
  match readBytes buf with
  | (Err e, buf) => (Err e, buf)
  | (Ok b, buf) => (Ok (string_of_bytes b), buf)
  end.

Definition writeFloat64 (buf : Buffer) (v : float64) : Buffer :=
  let bits := Float64bits v in
  let bits := Z.lxor bits (Z.lor (neg64 (Z.shiftr bits 63)) (Z.shiftl 1 63)) in
  Buffer_Write buf (PutUint64 bits).

Definition readFloat64 (buf : Buffer) : result float64 * Buffer :=
  let '(got, err, buf) := Buffer_Read buf 8 in
  match err with
  | Some e => (Err e, buf)
  | None =>
      (* [data] is 8 zero bytes overwritten by what was read *)
      let data := got ++ repeat 0 (8 - List.length got)%nat in
      let bits := Uint64 data in
      (Ok (Float64frombits
             (Z.lxor bits (Z.lor (sub64 (Z.shiftr bits 63) 1) (Z.shiftl 1 63)))),
       buf)
  end.

Definition writeTime (buf : Buffer) (t : Time) : Buffer :=
  Buffer_Write buf
    (WriteUint (add64 (mul64 (u64 (Unix t)) 1000000)
                      (u64 (Nanosecond t / 1000)))).

Definition readTime (buf : Buffer) : result Time * Buffer :=
  match ReadUint buf with
  | (Err e, buf) => (Err e, buf)
  | (Ok v, buf) =>
      (Ok (time_Unix (int64_of_u64 (v / 1000000))
                     (int64_of_u64 (mul64 (v mod 1000000) 1000))), buf)
  end.

Definition writeGeoPoint (buf : Buffer) (gp : GeoPoint) : Buffer :=
  let buf := writeFloat64 buf (Lat gp) in
  writeFloat64 buf (Lng gp).

Definition readGeoPoint (buf : Buffer) : result GeoPoint * Buffer :=
  match readFloat64 buf with
  | (Err e, buf) => (Err e, buf)
  | (Ok lat, buf) =>
      match readFloat64 buf with
      | (Err e, buf) => (Err e, buf)   (* pt.Lat is set, err is returned *)
      | (Ok lng, buf) => (Ok (mkGeoPoint lat lng), buf)
      end
  end.

End Helpers.

(** Truncation of a [Time] to microsecond resolution. *)
Definition truncate_micro (t : Time) : Time :=
  mkTime (Unix t) (Nanosecond t / 1000 * 1000).

(** A [Time] the [time] package can hand out: int64 seconds, nanoseconds in
    range. *)
Definition valid_Time (t : Time) : Prop :=
  - two63 <= Unix t < two63 /\ 0 <= Nanosecond t < 1000000000.

(** ** A stand-in for [funnybase]

    Modelled from the spec: the unsigned varint of the external package
    [funnybase] (its source is not part of this repository), which the spec
    describes as a variable-length, self-describing, length-prefixed
    big-endian unsigned integer.  One byte holds the number [n <= 8] of
    significant bytes, then the [n] bytes follow, most significant first.
    It serves to show that what is assumed of [WriteUint]/[ReadUint] can be
    met, and to run the helpers on concrete inputs. *)

Module Funnybase.

Fixpoint sizeOf (fuel : nat) (v : Z) : nat :=
  match fuel with
  | O => O
  | S f => if v =? 0 then O else S (sizeOf f (v / 256))
  end.

Fixpoint beBytes (n : nat) (v : Z) : list Z :=
  match n with
  | O => []
  | S k => (v / 256 ^ Z.of_nat k) mod 256 :: beBytes k v
  end.

Definition beVal (l : list Z) : Z := fold_left (fun acc b => acc * 256 + b) l 0.

Definition WriteUint (v : Z) : list Z :=
  let n := sizeOf 8 v in Z.of_nat n :: beBytes n v.

Definition ReadUint (buf : Buffer) : result Z * Buffer :=
  match buf with
  | [] => (Err EOF, [])
  | n :: tl =>
      if (n <? 0) || (8 <? n) then (Err (ErrUint "bad length"), tl)
      else if (List.length tl <? Z.to_nat n)%nat then (Err EOF, [])
      else (Ok (beVal (take (Z.to_nat n) tl)), drop (Z.to_nat n) tl)
  end.

End Funnybase.

End Serialize.

(* ===================================================================== *)
(** * Part II: [service/rawdatastore/datastore_impl.go] *)
(* ===================================================================== *)

Module RawDatastore.

Abbreviation float64 := Serialize.float64.
Abbreviation Time := Serialize.Time.

(** Entities with more than this many indexed properties will not be saved. *)
Definition maxIndexedProperties : Z := 20000.

(** ** Go types, as [reflect.Type] shows them *)

Inductive IntKind : Type := KInt | KInt8 | KInt16 | KInt32 | KInt64.
Inductive FloatKind : Type := KFloat32 | KFloat64.

Inductive GoType : Type :=
| TInt (k : IntKind)
| TBool
| TString
| TFloat (k : FloatKind)
| TUint8
| TInterface (id : string)                    (* an interface type *)
| TSlice (elem : GoType)
| TStruct (id : string)                       (* a struct type, by identity *)
| TDefined (id : string) (underlying : GoType) (* [type id underlying], not a struct *)
| TOther (id : string).                       (* pointers, maps, unsigned integers, ... *)

Inductive Kind : Type :=
| Int | Int8 | Int16 | Int32 | Int64 | Bool | String_ | Float32 | Float64
| Uint8 | Interface | Slice | Struct | OtherKind.

Fixpoint kindOf (t : GoType) : Kind :=
  match t with
  | TInt KInt => Int | TInt KInt8 => Int8 | TInt KInt16 => Int16
  | TInt KInt32 => Int32 | TInt KInt64 => Int64
  | TBool => Bool
  | TString => String_
  | TFloat KFloat32 => Float32 | TFloat KFloat64 => Float64
  | TUint8 => Uint8
  | TInterface _ => Interface
  | TSlice _ => Slice
  | TStruct _ => Struct
  | TDefined _ u => kindOf u
  | TOther _ => OtherKind
  end.

(** [t.Elem()] of a slice type. *)
Fixpoint elemOf (t : GoType) : option GoType :=
  match t with
  | TSlice e => Some e
  | TDefined _ u => elemOf u
  | _ => None
  end.

#[global] Instance IntKind_eq_dec : EqDecision IntKind.
Proof. solve_decision. Defined.
#[global] Instance FloatKind_eq_dec : EqDecision FloatKind.
Proof. solve_decision. Defined.
#[global] Instance GoType_eq_dec : EqDecision GoType.
Proof. solve_decision. Defined.
#[global] Instance Kind_eq_dec : EqDecision Kind.
Proof. solve_decision. Defined.

Definition typeOfKey : GoType := TInterface "Key".
Definition typeOfTime : GoType := TStruct "time.Time".
Definition typeOfGeoPoint : GoType := TStruct "GeoPoint".
Definition typeOfString : GoType := TString.
Definition typeOfInt64 : GoType := TInt KInt64.
Definition typeOfToggle : GoType := TDefined "Toggle" TUint8.

(** [reflect.StructField], with [Tag] standing for [f.Tag.Get("gae")]. *)
Record StructField : Type := mkStructField {
  Name : string;
  PkgPath : string;
  Tag : string;
  Anonymous : bool;
  Type_ : GoType
}.

(** What the program declares: the fields of each struct type (a type with
    no entry has no field), and the method sets that matter. *)
Record TypeEnv : Type := mkTypeEnv {
  structFields : gmap string (list StructField);
  (** [reflect.PtrTo(t).Implements(typeOfPropertyConverter)] *)
  implementsPropertyConverter : GoType -> bool;
  (** [t.Implements(typeOfKey)] *)
  implementsKey : GoType -> bool;
  (** whether [PropertyTypeOf(UpconvertUnderlyingType(zero of t), false)]
      succeeds; both functions live outside this file *)
  propertyTypeOK : GoType -> bool
}.

Definition fieldsOf (env : TypeEnv) (id : string) : list StructField :=
  default [] (structFields env !! id).

(** ** Values, as [reflect.Value] shows them *)

Definition Key : Type := string.

(** Modelled from the spec: the tri-state toggle of metadata fields
    (absent / on / off); its declaration is outside this file.  [Auto] is
    the zero value. *)
Inductive Toggle : Type := Auto | On | Off.
#[global] Instance Toggle_eq_dec : EqDecision Toggle.
Proof. solve_decision. Defined.

Inductive Value : Type :=
| mkValue (vtype : GoType) (vdata : Data)
with Data : Type :=
| DInt (x : Z)
| DBool (b : bool)
| DString (s : string)
| DFloat (x : float64)
| DToggle (t : Toggle)
| DIface (k : option Key)         (* an interface holding nil or a key *)
| DTime (t : Time)
| DBytes (b : list Z)
| DSlice (elems : list Value)
| DFields (fields : list Value)   (* a struct *)
| DOpaque (tag : nat).            (* anything else *)

Definition vtype (v : Value) : GoType := match v with mkValue t _ => t end.
Definition vdata (v : Value) : Data := match v with mkValue _ d => d end.

(** [v.Field(i)]; [None] where reflect panics. *)
Definition Field (v : Value) (i : nat) : option Value :=
  match vdata v with
  | DFields fs => fs !! i
  | _ => None
  end.

(** Storing through the settable [v.Field(i)]. *)
Definition setField (v : Value) (i : nat) (x : Value) : Value :=
  match v with
  | mkValue t (DFields fs) => mkValue t (DFields (<[i := x]> fs))
  | _ => v
  end.

(** [v.Len()], [v.Index(j)] and the elements of a slice. *)
Definition elemsOf (v : Value) : list Value :=
  match vdata v with
  | DSlice vs => vs
  | _ => []
  end.

Definition setElems (v : Value) (vs : list Value) : Value :=
  mkValue (vtype v) (DSlice vs).

(** ** Properties *)

Inductive IndexSetting : Type := ShouldIndex | NoIndex.
#[global] Instance IndexSetting_eq_dec : EqDecision IndexSetting.
Proof. solve_decision. Defined.

(** What [p.Value()] can hold. *)
Inductive PropertyValue : Type :=
| PVNull
| PVInt (x : Z)
| PVFloat (x : float64)
| PVBool (b : bool)
| PVString (s : string)
| PVBSKey (s : string)            (* blobstore.Key *)
| PVBytes (b : list Z)
| PVByteString (b : list Z)
| PVKey (k : Key)
| PVTime (t : Time)
| PVGeoPoint (lat lng : float64).

Record Property : Type := mkProperty {
  propValue : PropertyValue;
  propIndexSetting : IndexSetting
}.

(** An [interface{}] as [GetMeta] returns it and [SetMeta]/[SetValue]
    receive it. *)
Inductive Iface : Type :=
| INil
| IString (s : string)
| IInt64 (x : Z)
| IBool (b : bool)
| IValue (v : Value).             (* [v.Interface()] *)

(** ** Errors *)

Inductive ConvertMetaError : Type :=
| BadInt (val : string)           (* strconv.ParseInt failed *)
| BadToggle (val : string)        (* "Toggle field has bad/missing default, got %q" *)
| BadMetaType (t : GoType) (val : string).
                                  (* "helper: meta field with bad type/value %s/%q" *)

Inductive SchemaError : Type :=
| errRecursiveStruct              (* "(internal): struct type is recursively defined" *)
| ErrMetaMultiple (name : string) (* "meta field %q set multiple times" *)
| ErrMetaBadType (name : string) (why : ConvertMetaError)
                                  (* "meta field %q has bad type: %s" *)
| ErrInvalidName (name : string)  (* "struct tag has invalid property name: %q" *)
| ErrNonConcrete (field : string) (t : GoType)
                                  (* "field %q has non-concrete interface type %s" *)
| ErrFieldRecursive (field : string)
                                  (* "field %q is recursively defined" *)
| ErrFieldProblem (field : string) (sub : SchemaError)
                                  (* "field %q has problem: %s" *)
| ErrSliceOfSlices (field : string)
                                  (* "flattening nested structs leads to a slice of slices: field %q" *)
| ErrRepeatedName (name : string) (* "struct tag has repeated property name: %q" *)
| ErrInvalidType (name : string) (t : GoType).
                                  (* "field %q has invalid type: %s" *)

#[global] Instance ConvertMetaError_eq_dec : EqDecision ConvertMetaError.
Proof. solve_decision. Defined.
#[global] Instance SchemaError_eq_dec : EqDecision SchemaError.
Proof. solve_decision. Defined.

(** Why a property could not be stored in a field ([""] is [None]). *)
Inductive Reason : Type :=
| NoSuchField                     (* "no such struct field" *)
| RequiresSlice                   (* "multiple-valued property requires a slice field type" *)
| TypeMismatch (val : PropertyValue) (t : GoType)
                                  (* typeMismatchReason(val, v) *)
| Overflows (val : PropertyValue) (t : GoType)
                                  (* "value %v overflows struct field of type %v" *)
| ConvError (msg : string).       (* conv.FromProperty(p).Error() *)

Record ErrFieldMismatch : Type := mkErrFieldMismatch {
  StructType : GoType;
  FieldName : string;
  MismatchReason : Reason
}.

Inductive Error : Type :=
| Schema (e : SchemaError)                    (* p.Problem() *)
| ErrTooManyIndexed                           (* "gae: too many indexed properties" *)
| ErrMetaFieldUnset
| ErrMetaUnexported (key : string)            (* "gae/helper: cannot set meta %q: unexported field" *)
| MultiError (errs : list ErrFieldMismatch)
| External (msg : string).                    (* from SetValue or ToProperty *)

(** A call either returns or panics. *)
Inductive exec (A : Type) : Type :=
| Return (a : A)
| Panic.
Arguments Return {A} a.
Arguments Panic {A}.

#[global] Instance exec_bind : MBind exec :=
  fun A B k m => match m with Return a => k a | Panic => Panic end.
#[global] Instance exec_ret : MRet exec := fun A a => Return a.

(** ** The codec *)

Inductive structCodec : Type :=
| mkStructCodec (byMeta : gmap string nat) (byName : gmap string nat)
                (byIndex : list structTag) (hasSlice : bool)
                (problem : option SchemaError)
with structTag : Type :=
| mkStructTag (name : string) (idxSetting : IndexSetting) (isSlice : bool)
              (substructCodec : option structCodec) (convert : bool)
              (metaVal : Iface) (canSet : bool).

Definition byMeta (c : structCodec) := let 'mkStructCodec m _ _ _ _ := c in m.
Definition byName (c : structCodec) := let 'mkStructCodec _ n _ _ _ := c in n.
Definition byIndex (c : structCodec) := let 'mkStructCodec _ _ l _ _ := c in l.
Definition hasSlice (c : structCodec) := let 'mkStructCodec _ _ _ h _ := c in h.
Definition problem (c : structCodec) := let 'mkStructCodec _ _ _ _ p := c in p.

Definition name (st : structTag) := let 'mkStructTag n _ _ _ _ _ _ := st in n.
Definition idxSetting (st : structTag) := let 'mkStructTag _ i _ _ _ _ _ := st in i.
Definition isSlice (st : structTag) := let 'mkStructTag _ _ s _ _ _ _ := st in s.
Definition substructCodec (st : structTag) := let 'mkStructTag _ _ _ c _ _ _ := st in c.
Definition convert (st : structTag) := let 'mkStructTag _ _ _ _ c _ _ := st in c.
Definition metaVal (st : structTag) := let 'mkStructTag _ _ _ _ _ m _ := st in m.
Definition canSet (st : structTag) := let 'mkStructTag _ _ _ _ _ _ c := st in c.

(** [structPLS.Problem]. *)
Definition Problem (c : structCodec) : option SchemaError := problem c.

(** [structCodecs], keyed by the identity of the struct type. *)
Abbreviation Cache := (gmap string structCodec).

(** ** Strings *)

(** [strings.Index(s, ",")] and the two halves [s[:i]], [s[i+1:]]; without
    a comma the second half is absent. *)
Fixpoint cutComma (s : string) : string * option string :=
  match s with
  | EmptyString => (EmptyString, None)
  | String c s' =>
      if Ascii.eqb c ","%char then (EmptyString, Some s')
      else let '(a, b) := cutComma s' in (String c a, b)
  end.

(** [strings.Split(s, ".")]. *)
Fixpoint splitDot (s : string) : list string :=
  match s with
  | EmptyString => [EmptyString]
  | String c s' =>
      if Ascii.eqb c "."%char then EmptyString :: splitDot s'
      else match splitDot s' with
           | h :: t => String c h :: t
           | [] => [String c EmptyString]
           end
  end.

(** [s[n:]]; [None] where the slice expression panics. *)
Fixpoint sliceFrom (n : nat) (s : string) : option string :=
  match n, s with
  | O, _ => Some s
  | S _, EmptyString => None
  | S n', String _ s' => sliceFrom n' s'
  end.

(** ** Runes *)

(** A Unicode code point, and [utf8.RuneError]. *)
Definition rune : Type := Z.
Definition RuneError : rune := 65533%Z.

Definition byteOf (c : ascii) : Z := Z.of_N (N_of_ascii c).

Definition inRange (lo hi b : Z) : bool := ((lo <=? b) && (b <=? hi))%Z.

(** What a first byte above 0x7F announces: the size of the sequence and the
    range its second byte must be in ([first] and [acceptRanges] of package
    [utf8]); nothing for a byte that starts no sequence. *)
Definition leadByte (b0 : Z) : option (nat * Z * Z) :=
  if inRange 194 223 b0 then Some (2%nat, 128, 191)%Z
  else if (b0 =? 224)%Z then Some (3%nat, 160, 191)%Z
  else if inRange 225 236 b0 then Some (3%nat, 128, 191)%Z
  else if (b0 =? 237)%Z then Some (3%nat, 128, 159)%Z
  else if inRange 238 239 b0 then Some (3%nat, 128, 191)%Z
  else if (b0 =? 240)%Z then Some (4%nat, 144, 191)%Z
  else if inRange 241 243 b0 then Some (4%nat, 128, 191)%Z
  else if (b0 =? 244)%Z then Some (4%nat, 128, 143)%Z
  else None.

(** [for _, c := range s]: the runes of a string, decoded as UTF-8.  A byte
    that does not start a well-formed sequence yields [RuneError] and is
    passed alone. *)
Fixpoint runesOf (s : string) : list rune :=
  match s with
  | EmptyString => []
  | String c0 s1 =>
      let b0 := byteOf c0 in
      if (b0 <? 128)%Z then b0 :: runesOf s1
      else
        match leadByte b0, s1 with
        | Some (size, lo, hi), String c1 s2 =>
            let b1 := byteOf c1 in
            if negb (inRange lo hi b1) then RuneError :: runesOf s1
            else
              match size, s2 with
              | 2%nat, _ => ((b0 mod 32) * 64 + b1 mod 64)%Z :: runesOf s2
              | _, String c2 s3 =>
                  let b2 := byteOf c2 in
                  if negb (inRange 128 191 b2) then RuneError :: runesOf s1
                  else
                    match size, s3 with
                    | 3%nat, _ =>
                        ((b0 mod 16) * 4096 + (b1 mod 64) * 64 + b2 mod 64)%Z
                        :: runesOf s3
                    | _, String c3 s4 =>
                        let b3 := byteOf c3 in
                        if negb (inRange 128 191 b3) then RuneError :: runesOf s1
                        else ((b0 mod 8) * 262144 + (b1 mod 64) * 4096
                              + (b2 mod 64) * 64 + b3 mod 64)%Z :: runesOf s4
                    | _, EmptyString => RuneError :: runesOf s1
                    end
              | _, EmptyString => RuneError :: runesOf s1
              end
        | _, _ => RuneError :: runesOf s1
        end
  end.

Section Schema.

(** [unicode.IsLetter] and [unicode.IsDigit]. *)
Variable IsLetter : rune -> bool.
Variable IsDigit : rune -> bool.
(** [strconv.ParseInt(val, 10, 64)]. *)
Variable ParseInt : string -> option Z.
(** The order in which [range] visits a map. *)
Variable mapRange : forall A : Type, gmap string A -> list (string * A).

Variable env : TypeEnv.

(** The runes after the first one ([95] is ['_']). *)
Fixpoint validSegmentTail (rs : list rune) : bool :=
  match rs with
  | [] => true
  | c :: rs' =>
      if negb (c =? 95)%Z && negb (IsLetter c) && negb (IsDigit c)
      then false else validSegmentTail rs'
  end.

(** The body of the loop over the segments: [s == ""], then
    [for _, c := range s]. *)
Definition validSegment (s : string) : bool :=
  match runesOf s with
  | [] => false
  | c :: rs =>
      if negb (c =? 95)%Z && negb (IsLetter c) then false
      else validSegmentTail rs
  end.

(** [validPropertyName] returns whether [name] consists of one or more valid
    Go identifiers joined by ".". *)
Definition validPropertyName (name : string) : bool :=
  if decide (name = EmptyString) then false
  else forallb validSegment (splitDot name).

Definition convertMeta (val : string) (t : GoType) : Iface + ConvertMetaError :=
  if decide (t = typeOfString) then inl (IString val)
  else if decide (t = typeOfInt64) then
    if decide (val = EmptyString) then inl (IInt64 0)
    else match ParseInt val with
         | Some x => inl (IInt64 x)
         | None => inr (BadInt val)
         end
  else if decide (t = typeOfToggle) then
    if decide (val = "on" \/ val = "On" \/ val = "true")%string then inl (IBool true)
    else if decide (val = "off" \/ val = "Off" \/ val = "false")%string then inl (IBool false)
    else inr (BadToggle val)
  else inr (BadMetaType t val).

(** The identity under which a struct type is cached. *)
Definition structId (t : GoType) : string :=
  match t with
  | TStruct id => id
  | TDefined id _ => id
  | _ => EmptyString
  end.

Definition zeroTag : structTag :=
  mkStructTag EmptyString ShouldIndex false None false INil false.


(** The codec under construction: the tables filled so far and the tags of
    the fields already visited, in order. *)
Record Building : Type := mkBuilding {
  b_cache : Cache;
  b_byMeta : gmap string nat;
  b_byName : gmap string nat;
  b_tags : list structTag;
  b_hasSlice : bool
}.

(** One iteration of the field loop: on to the next field with the tag of
    this one, or out of the function with a problem. *)
Inductive Step : Type :=
| Next (cache : Cache) (bm bn : gmap string nat) (hs : bool) (st : structTag)
| Fail (cache : Cache) (hs : bool) (e : SchemaError)
| NoFuel.

(** [for relName := range sub.byName { ... c.byName[absName] = i }]. *)
Fixpoint addNames (prefix : string) (i : nat) (rel : list (string * nat))
    (bn : gmap string nat) : gmap string nat + SchemaError :=
  match rel with
  | [] => inl bn
  | (relName, _) :: rel' =>
      let absName := (prefix +:+ relName)%string in
      match bn !! absName with
      | Some _ => inr (ErrRepeatedName absName)
      | None => addNames prefix i rel' (<[absName := i]> bn)
      end
  end.

Definition finishTag (st : structTag) (nm opts : string) : structTag :=
  let 'mkStructTag _ ix sl sub cv mv cs := st in
  mkStructTag nm (if decide (opts = "noindex"%string) then NoIndex else ix)
              sl sub cv mv cs.

Definition skipTag (st : structTag) : structTag :=
  let 'mkStructTag _ ix sl sub cv mv cs := st in
  mkStructTag "-" ix sl sub cv mv cs.

(** What the type of a field makes of it: [convert], [isSlice],
    [substructType] and [c.hasSlice] as the type switch leaves them, or the
    problem of an interface type. *)
Definition fieldShape (f : StructField) (hs : bool)
    : (bool * bool * option GoType * bool) + SchemaError :=
  let ft := Type_ f in
  if implementsPropertyConverter env ft then inl (true, false, None, hs)
  else match kindOf ft with
       | Struct =>
           if decide (ft <> typeOfTime /\ ft <> typeOfGeoPoint)
           then inl (false, false, Some ft, hs)
           else inl (false, false, None, hs)
       | Slice =>
           let el := default (TOther "") (elemOf ft) in
           let sl := negb (bool_decide (kindOf el = Uint8)) in
           if implementsPropertyConverter env el
           then inl (true, sl, None, hs || sl)
           else if decide (kindOf el = Struct)
           then inl (false, sl, Some el, hs || sl)
           else inl (false, sl, None, hs || sl)
       | Interface =>
           if decide (ft <> typeOfKey) then inr (ErrNonConcrete (Name f) ft)
           else inl (false, false, None, hs)
       | _ => inl (false, false, None, hs)
       end.

(** The part of the loop body after the tag has been read and the field
    found exported: the field's type decides. *)
Definition fieldByType
    (rec : Cache -> string -> option (Cache * structCodec))
    (i : nat) (f : StructField) (nm opts : string)
    (cache : Cache) (bm bn : gmap string nat) (hs : bool) (cs : bool) : Step :=
  let ft := Type_ f in
  match fieldShape f hs with
  | inr e => Fail cache hs e
  | inl (cv, sl, Some substructType, hs) =>
      match rec cache (structId substructType) with
      | None => NoFuel
      | Some (cache, sub) =>
          match problem sub with
          | Some e =>
              if decide (e = errRecursiveStruct)
              then Fail cache hs (ErrFieldRecursive (Name f))
              else Fail cache hs (ErrFieldProblem (Name f) e)
          | None =>
              if sl && hasSlice sub then Fail cache hs (ErrSliceOfSlices (Name f))
              else
                let hs := hs || hasSlice sub in
                let nm := if decide (nm <> EmptyString) then (nm +:+ ".")%string else nm in
                match addNames nm i (mapRange nat (byName sub)) bn with
                | inr e => Fail cache hs e
                | inl bn =>
                    Next cache bm bn hs
                      (finishTag (mkStructTag EmptyString ShouldIndex sl (Some sub) cv INil cs)
                                 nm opts)
                end
          end
      end
  | inl (cv, sl, None, hs) =>
      let t := if sl then default (TOther "") (elemOf ft) else ft in
      if negb cv && negb (propertyTypeOK env t) then Fail cache hs (ErrInvalidType nm ft)
      else match bn !! nm with
           | Some _ => Fail cache hs (ErrRepeatedName nm)
           | None =>
               Next cache bm (<[nm := i]> bn) hs
                 (finishTag (mkStructTag EmptyString ShouldIndex sl None cv INil cs) nm opts)
           end
  end.

(** The [switch] on the tag of a field: a metadata field ([$name]), an
    excluded one (["-"]), an invalid name, or a name to go on with. *)
Inductive TagCase : Type :=
| TagMeta (nm opts : string)
| TagExcluded
| TagInvalid (nm : string)
| TagName (nm opts : string).

Definition readTag (f : StructField) : TagCase :=
  let '(nm, opts) :=
    match cutComma (Tag f) with
    | (a, Some b) => (a, b)
    | (a, None) => (a, EmptyString)
    end in
  match nm with
  | EmptyString => TagName (if negb (Anonymous f) then Name f else nm) opts
  | String c rest =>
      if Ascii.eqb c "$"%char then TagMeta rest opts
      else if decide (nm = "-"%string) then TagExcluded
      else if negb (validPropertyName nm) then TagInvalid nm
      else TagName nm opts
  end.

(** The body of [for i := range c.byIndex]. *)
Definition buildField
    (rec : Cache -> string -> option (Cache * structCodec))
    (i : nat) (f : StructField)
    (cache : Cache) (bm bn : gmap string nat) (hs : bool) : Step :=
  let cs := bool_decide (PkgPath f = EmptyString) in   (* blank == exported *)
  let st := mkStructTag EmptyString ShouldIndex false None false INil cs in
  match readTag f with
  | TagMeta nm opts =>
      match bm !! nm with
      | Some _ => Fail cache hs (ErrMetaMultiple ("$" +:+ nm))
      | None =>
          let bm := <[nm := i]> bm in
          match convertMeta opts (Type_ f) with
          | inr err => Fail cache hs (ErrMetaBadType ("$" +:+ nm) err)
          | inl mv =>
              Next cache bm bn hs
                (skipTag (mkStructTag EmptyString ShouldIndex false None false mv cs))
          end
      end
  | TagExcluded => Next cache bm bn hs (skipTag st)
  | TagInvalid nm => Fail cache hs (ErrInvalidName nm)
  | TagName nm opts =>
      if negb cs then Next cache bm bn hs (skipTag st)
      else fieldByType rec i f nm opts cache bm bn hs cs
  end.

(** The struct type a field makes the construction descend into, if any. *)
Definition nestedType (f : StructField) : option GoType :=
  match readTag f with
  | TagName _ _ =>
      if bool_decide (PkgPath f = EmptyString) then
        match fieldShape f false with
        | inl (_, _, sub, _) => sub
        | inr _ => None
        end
      else None
  | _ => None
  end.

(** What the field loop leaves. *)
Inductive Built : Type :=
| Complete (b : Building)
| Problematic (cache : Cache) (hs : bool) (e : SchemaError)
| Starved.

Fixpoint buildFields
    (rec : Cache -> string -> option (Cache * structCodec))
    (fields : list StructField) (i : nat) (b : Building) : Built :=
  match fields with
  | [] => Complete b
  | f :: fields' =>
      match buildField rec i f (b_cache b) (b_byMeta b) (b_byName b) (b_hasSlice b) with
      | NoFuel => Starved
      | Fail cache hs e => Problematic cache hs e
      | Next cache bm bn hs st =>
          buildFields rec fields' (S i) (mkBuilding cache bm bn (b_tags b ++ [st]) hs)
      end
  end.

(** [getStructCodecLocked].  The map [structCodecs] is threaded through.
    While a type is under construction its cache entry is the codec being
    built, whose [problem] is [errRecursiveStruct] until the function
    returns; nothing else of that entry is read meanwhile, so its tables
    are entered as they stand at the start.  On return the entry is the
    finished codec: with a problem, its tables are freed.  [None] means
    the recursion budget [fuel] ran out. *)
Fixpoint getStructCodecLocked (fuel : nat) (cache : Cache) (t : string)
    : option (Cache * structCodec) :=
  match cache !! t with
  | Some c => Some (cache, c)
  | None =>
      match fuel with
      | O => None
      | S fuel' =>
          let fields := fieldsOf env t in
          let c := mkStructCodec ∅ ∅ (replicate (List.length fields) zeroTag) false
                                 (Some errRecursiveStruct) in
          let cache := <[t := c]> cache in
          match buildFields (getStructCodecLocked fuel') fields 0
                            (mkBuilding cache ∅ ∅ [] false) with
          | Starved => None
          | Problematic cache hs e =>
              let c := mkStructCodec ∅ ∅ [] hs (Some e) in
              Some (<[t := c]> cache, c)
          | Complete b =>
              let c := mkStructCodec (b_byMeta b) (b_byName b) (b_tags b)
                                     (b_hasSlice b) None in
              Some (<[t := c]> (b_cache b), c)
          end
      end
  end.

End Schema.


(** ** Load and save *)

Abbreviation PropertyMap := (gmap string (list Property)).

Section LoadSave.

Variable env : TypeEnv.
(** [reflect.New(t).Elem()] and [reflect.Zero(t)]: the zero value of a type. *)
Variable zeroValue : GoType -> Value.
(** [reflect.DeepEqual] on two values of one type. *)
Variable DeepEqual : Value -> Value -> bool.
(** The [PropertyConverter] methods of the types that have them:
    [FromProperty] leaves the receiver as it made it, and the text of its
    error if any; [ToProperty] yields a property or the text of an error. *)
Variable FromProperty : Value -> Property -> Value * option string.
Variable ToProperty : Value -> Property + string.
(** [Property.SetValue] on a fresh property. *)
Variable SetValue : Iface -> IndexSetting -> Property + string.
(** The order in which [range] visits a map. *)
Variable mapRange : forall A : Type, gmap string A -> list (string * A).

Definition zeroTime : Time := Serialize.mkTime (-62135596800) 0.

Definition setData (v : Value) (d : Data) : Value := mkValue (vtype v) d.

(** [v.OverflowInt(x)], by the kind of [v]; [int] is 64 bits wide. *)
Definition OverflowInt (k : Kind) (x : Z) : bool :=
  let bits : Z :=
    match k with
    | Int8 => 8%Z | Int16 => 16%Z | Int32 => 32%Z | _ => 64%Z
    end in
  negb ((- 2 ^ (bits - 1) <=? x)%Z && (x <? 2 ^ (bits - 1))%Z).

(** [v.OverflowFloat(x)]: for a float32 field, whether
    [MaxFloat32 < |x| <= MaxFloat64], read off the bit pattern. *)
Definition OverflowFloat (k : Kind) (x : float64) : bool :=
  match k with
  | Float32 =>
      let a := (x mod 2 ^ 63)%Z in
      (5183643170566569984 <? a)%Z && (a <=? 9218868437227405311)%Z
  | _ => false
  end.

(** The bit pattern of a float64 value that is not a NaN. *)
Definition float64_bits (f : spec_float) : float64 :=
  let sign (s : bool) : Z := (if s then 2 ^ 63 else 0)%Z in
  match f with
  | S754_zero s => sign s
  | S754_infinity s => (sign s + 2047 * 2 ^ 52)%Z
  | S754_nan => (2047 * 2 ^ 52 + 2 ^ 51)%Z
  | S754_finite s m e =>
      let shift := (53 - (Z.log2 (Z.pos m) + 1))%Z in
      if (1 <=? e - shift + 1075)%Z
      then (sign s + (e - shift + 1075) * 2 ^ 52
            + (Z.pos m * 2 ^ shift - 2 ^ 52))%Z
      else (sign s + Z.pos m * 2 ^ (e + 1074))%Z
  end.

(** [float64(float32(x))], what a float32 field holds after
    [v.SetFloat(x)]: [x] rounded to the nearest float32, ties to even
    (24 bits of precision, exponents up to 128).  The zeros and the
    infinities are kept; a NaN keeps its sign and the upper 23 bits of its
    payload, and is made quiet, as the conversion instructions do. *)
Definition roundFloat32 (x : float64) : float64 :=
  match Serialize.float64_value x with
  | S754_finite s m e => float64_bits (binary_round 24 128 s m e)
  | S754_nan => Z.lor (x / 2 ^ 29 * 2 ^ 29) (2 ^ 51)%Z
  | _ => x
  end.

(** The text of an error of [FromProperty], [""] included, as a reason. *)
Definition reasonOf (err : option string) : option Reason :=
  match err with
  | None => None
  | Some msg => if decide (msg = EmptyString) then None else Some (ConvError msg)
  end.

(** The [switch knd] of [loadInner]: store [pVal] in the plain value [v]. *)
Definition coerce (v : Value) (pVal : PropertyValue) : exec (option Reason * Value) :=
  let knd := if implementsKey env (vtype v) then Interface else kindOf (vtype v) in
  let mismatch := Return (Some (TypeMismatch pVal (vtype v)), v) in
  match knd with
  | Int | Int8 | Int16 | Int32 | Int64 =>
      match (match pVal with PVInt x => Some x | PVNull => Some 0%Z | _ => None end) with
      | None => mismatch
      | Some x =>
          if OverflowInt knd x then Return (Some (Overflows pVal (vtype v)), v)
          else Return (None, setData v (DInt x))
      end
  | Bool =>
      match (match pVal with PVBool x => Some x | PVNull => Some false | _ => None end) with
      | None => mismatch
      | Some x => Return (None, setData v (DBool x))
      end
  | String_ =>
      match pVal with
      | PVBSKey x => Return (None, setData v (DString x))
      | PVString x => Return (None, setData v (DString x))
      | PVNull => Return (None, v)
      | _ => mismatch
      end
  | Float32 | Float64 =>
      match (match pVal with PVFloat x => Some x | PVNull => Some 0%Z | _ => None end) with
      | None => mismatch
      | Some x =>
          if OverflowFloat knd x then Return (Some (Overflows pVal (vtype v)), v)
          else
            (* v.SetFloat(x) *)
            Return (None, setData v (DFloat (match knd with
                                             | Float32 => roundFloat32 x
                                             | _ => x
                                             end)))
      end
  | Interface =>
      match pVal with
      | PVKey x => Return (None, setData v (DIface (Some x)))
      | PVNull => Return (None, v)
      | _ => mismatch
      end
  | Struct =>
      if decide (vtype v = typeOfTime) then
        match (match pVal with PVTime x => Some x | PVNull => Some zeroTime | _ => None end) with
        | None => mismatch
        | Some x => Return (None, setData v (DTime x))
        end
      else if decide (vtype v = typeOfGeoPoint) then
        match (match pVal with
               | PVGeoPoint lat lng => Some (lat, lng)
               | PVNull => Some (0%Z, 0%Z)
               | _ => None
               end) with
        | None => mismatch
        | Some (lat, lng) =>
            Return (None, setData v (DFields [mkValue (TFloat KFloat64) (DFloat lat);
                                              mkValue (TFloat KFloat64) (DFloat lng)]))
        end
      else Panic
  | Slice =>
      match pVal with
      | PVBytes x | PVByteString x =>
          (* v.SetBytes panics unless the elements are bytes *)
          if decide (kindOf <$> elemOf (vtype v) = Some Uint8)
          then Return (None, setData v (DBytes x))
          else Panic
      | _ => Panic
      end
  | _ => Panic
  end.

(** [loadInner] once the field [v] that the name designates is found. *)
Definition loadLeaf (v : Value) (p : Property) (requireSlice : bool)
    : exec (option Reason * Value) :=
  if implementsPropertyConverter env (vtype v) then
    let '(v', err) := FromProperty v p in Return (reasonOf err, v')
  else
    match elemOf (vtype v) with
    | Some elemT =>
        if decide (kindOf (vtype v) = Slice /\ kindOf elemT <> Uint8) then
          let slice := v in
          let v := zeroValue elemT in
          '(r, v) ←
            (if implementsPropertyConverter env (vtype v) then
               let '(v', err) := FromProperty v p in Return (reasonOf err, v')
             else coerce v (propValue p));
          match r with
          | Some r => Return (Some r, slice)
          | None => Return (None, setData slice (DSlice (elemsOf slice ++ [v])))
          end
        else if requireSlice then Return (Some RequiresSlice, v)
        else coerce v (propValue p)
    | None =>
        if requireSlice then Return (Some RequiresSlice, v)
        else coerce v (propValue p)
    end.

(** The body of the loop of [loadInner] once [fieldIndex] and the field [v]
    are known: [st := codec.byIndex[fieldIndex]] and what follows.  [rec]
    is [loadInner] itself, entered again with the codec of the nested
    struct (the next turn of the loop). *)
Fixpoint loadAt
    (rec : structCodec -> Value -> nat -> string -> Property -> bool
           -> exec (option Reason * Value))
    (structValue : Value) (fieldIndex : nat) (v : Value) (index : nat)
    (name_ : string) (p : Property) (requireSlice : bool)
    (tags : list structTag) (i : nat) {struct tags}
    : exec (option Reason * Value) :=
  match tags, i with
  | [], _ => Panic
  | _ :: tags', S i' =>
      loadAt rec structValue fieldIndex v index name_ p requireSlice tags' i'
  | st :: _, O =>
      match substructCodec st with
      | None =>
          '(r, v') ← loadLeaf v p requireSlice;
          Return (r, setField structValue fieldIndex v')
      | Some sub =>
          (* Strip the "I." from "I.X". *)
          match sliceFrom (String.length (name st)) name_ with
          | None => Panic
          | Some rest =>
              if decide (kindOf (vtype v) = Slice) then
                let vs := elemsOf v in
                let vs := vs ++ replicate (S index - List.length vs)
                              (zeroValue (default (TOther "") (elemOf (vtype v)))) in
                match vs !! index with
                | None => Panic
                | Some el =>
                    '(r, el') ← rec sub el index rest p false;
                    Return (r, setField structValue fieldIndex
                                 (setElems v (<[index := el']> vs)))
                end
              else
                '(r, v') ← rec sub v index rest p requireSlice;
                Return (r, setField structValue fieldIndex v')
          end
      end
  end.

Fixpoint loadInner (codec : structCodec) (structValue : Value) (index : nat)
    (name_ : string) (p : Property) (requireSlice : bool) {struct codec}
    : exec (option Reason * Value) :=
  match byName codec !! name_ with
  | None => Return (Some NoSuchField, structValue)
  | Some fieldIndex =>
      match Field structValue fieldIndex with
      | None => Panic
      | Some v =>
          loadAt (fun sub sv ix nm p rs => loadInner sub sv ix nm p rs)
                 structValue fieldIndex v index name_ p requireSlice
                 (byIndex codec) fieldIndex
      end
  end.

(** [for i, prop := range props]. *)
Fixpoint loadValues (c : structCodec) (name_ : string) (multiple : bool)
    (props : list Property) (i : nat) (o : Value) (convFailures : list ErrFieldMismatch)
    : exec (Value * list ErrFieldMismatch) :=
  match props with
  | [] => Return (o, convFailures)
  | prop :: props' =>
      '(reason, o') ← loadInner c o i name_ prop multiple;
      loadValues c name_ multiple props' (S i) o'
        (match reason with
         | Some r => convFailures ++ [mkErrFieldMismatch (vtype o) name_ r]
         | None => convFailures
         end)
  end.

(** [for name, props := range propMap]. *)
Fixpoint loadEntries (c : structCodec) (entries : list (string * list Property))
    (o : Value) (convFailures : list ErrFieldMismatch)
    : exec (Value * list ErrFieldMismatch) :=
  match entries with
  | [] => Return (o, convFailures)
  | (name_, props) :: entries' =>
      '(o', fails) ← loadValues c name_ (1 <? List.length props) props 0 o convFailures;
      loadEntries c entries' o' fails
  end.

(** [structPLS.Load]: the struct as the call leaves it, and the error. *)
Definition Load (c : structCodec) (o : Value) (propMap : PropertyMap)
    : exec (Value * option Error) :=
  match Problem c with
  | Some err => Return (o, Some (Schema err))
  | None =>
      '(o', convFailures) ← loadEntries c (mapRange _ propMap) o [];
      match convFailures with
      | [] => Return (o', None)
      | _ => Return (o', Some (MultiError convFailures))
      end
  end.

(** [idxCount > maxIndexedProperties], with the ceiling as a parameter so
    that the save without a ceiling can be named. *)
Definition over (ceiling : option Z) (idxCount : Z) : bool :=
  match ceiling with
  | Some m => (m <? idxCount)%Z
  | None => false
  end.

(** [for j := 0; j < v.Len(); j++ { saveProp(..., v.Index(j), ...) }]. *)
Fixpoint saveElems
    (saveProp : Value -> PropertyMap -> Z -> exec (Error + PropertyMap * Z))
    (elems : list Value) (propMap : PropertyMap) (idxCount : Z)
    : exec (Error + PropertyMap * Z) :=
  match elems with
  | [] => Return (inr (propMap, idxCount))
  | v :: elems' =>
      r ← saveProp v propMap idxCount;
      match r with
      | inl err => Return (inl err)
      | inr (propMap, idxCount) => saveElems saveProp elems' propMap idxCount
      end
  end.

(** The part of [saveProp] for a field that is not a nested struct. *)
Definition saveLeaf (ceiling : option Z) (st : structTag) (name_ : string)
    (si : IndexSetting) (v : Value) (propMap : PropertyMap) (idxCount : Z)
    : exec (Error + PropertyMap * Z) :=
  r ← (if convert st then
         if implementsPropertyConverter env (vtype v) then Return (ToProperty v)
         else Panic
       else Return (SetValue (IValue v) si));
  match r with
  | inr msg => Return (inl (External msg))
  | inl prop =>
      let propMap := <[name_ := default [] (propMap !! name_) ++ [prop]]> propMap in
      if decide (propIndexSetting prop = ShouldIndex) then
        let idxCount := (idxCount + 1)%Z in
        if over ceiling idxCount then Return (inl ErrTooManyIndexed)
        else Return (inr (propMap, idxCount))
      else Return (inr (propMap, idxCount))
  end.

(** [saveProp]: [rec] is [save] itself, entered for a nested struct. *)
Definition saveProp
    (rec : structCodec -> Value -> PropertyMap -> string -> IndexSetting
           -> exec (Error + PropertyMap * Z))
    (ceiling : option Z) (st : structTag) (name_ : string) (si : IndexSetting)
    (v : Value) (propMap : PropertyMap) (idxCount : Z)
    : exec (Error + PropertyMap * Z) :=
  match substructCodec st with
  | Some sub =>
      r ← rec sub v propMap name_ si;
      match r with
      | inl err => Return (inl err)
      | inr (propMap, count) =>
          let idxCount := (idxCount + count)%Z in
          if over ceiling idxCount then Return (inl ErrTooManyIndexed)
          else Return (inr (propMap, idxCount))
      end
  | None => saveLeaf ceiling st name_ si v propMap idxCount
  end.

(** [for i, st := range p.c.byIndex]. *)
Fixpoint saveFields
    (rec : structCodec -> Value -> PropertyMap -> string -> IndexSetting
           -> exec (Error + PropertyMap * Z))
    (ceiling : option Z) (o : Value) (prefix : string) (idx : IndexSetting)
    (tags : list structTag) (i : nat) (propMap : PropertyMap) (idxCount : Z)
    {struct tags} : exec (Error + PropertyMap * Z) :=
  match tags with
  | [] => Return (inr (propMap, idxCount))
  | st :: tags' =>
      if decide (name st = "-"%string)
      then saveFields rec ceiling o prefix idx tags' (S i) propMap idxCount
      else
        let name_ :=
          if decide (prefix <> EmptyString) then (prefix +:+ name st)%string
          else name st in
        match Field o i with
        | None => Panic
        | Some v =>
            let is1 := if decide (idxSetting st = NoIndex) then NoIndex else idx in
            r ← (if isSlice st then
                   match vdata v with
                   | DSlice elems =>
                       saveElems (saveProp rec ceiling st name_ is1) elems propMap idxCount
                   | _ => Panic
                   end
                 else saveProp rec ceiling st name_ is1 v propMap idxCount);
            match r with
            | inl err => Return (inl err)
            | inr (propMap, idxCount) =>
                saveFields rec ceiling o prefix idx tags' (S i) propMap idxCount
            end
        end
  end.

(** [structPLS.save]: the property map as extended and the count of
    should-index properties, or the error. *)
Fixpoint saveWith (ceiling : option Z) (c : structCodec) (o : Value)
    (propMap : PropertyMap) (prefix : string) (idx : IndexSetting) {struct c}
    : exec (Error + PropertyMap * Z) :=
  match Problem c with
  | Some err => Return (inl (Schema err))
  | None =>
      saveFields (fun sub v pm nm si => saveWith ceiling sub v pm nm si)
                 ceiling o prefix idx (byIndex c) 0%nat propMap 0%Z
  end.

Definition save : structCodec -> Value -> PropertyMap -> string -> IndexSetting
                  -> exec (Error + PropertyMap * Z) :=
  saveWith (Some maxIndexedProperties).

(** [structPLS.GetMeta]. *)
Definition GetMeta (c : structCodec) (o : Value) (key : string) : exec (Iface + Error) :=
  match Problem c with
  | Some err => Return (inr (Schema err))
  | None =>
      match byMeta c !! key with
      | None => Return (inr ErrMetaFieldUnset)
      | Some idx =>
          match byIndex c !! idx, Field o idx with
          | Some st, Some f =>
              if canSet st && negb (DeepEqual (zeroValue (vtype f)) f) then
                match f with
                | mkValue t (DToggle bf) =>
                    if decide (t = typeOfToggle)
                    then Return (inl (IBool (bool_decide (bf = On))))
                    else Return (inl (IValue f))
                | _ => Return (inl (IValue f))
                end
              else Return (inl (metaVal st))
          | _, _ => Panic
          end
      end
  end.

(** [reflect.ValueOf(val)] for what [SetMeta] may be given. *)
Definition valueOfIface (val : Iface) : option Value :=
  match val with
  | INil => None
  | IString s => Some (mkValue typeOfString (DString s))
  | IInt64 x => Some (mkValue typeOfInt64 (DInt x))
  | IBool b => Some (mkValue TBool (DBool b))
  | IValue v => Some v
  end.

(** [structPLS.SetMeta]: the struct as the call leaves it, and the error.
    [Set] panics unless the value has the type of the field. *)
Definition SetMeta (c : structCodec) (o : Value) (key : string) (val : Iface)
    : exec (Value * option Error) :=
  match Problem c with
  | Some err => Return (o, Some (Schema err))
  | None =>
      match byMeta c !! key with
      | None => Return (o, Some ErrMetaFieldUnset)
      | Some idx =>
          match byIndex c !! idx with
          | None => Panic
          | Some st =>
              if negb (canSet st) then Return (o, Some (ErrMetaUnexported key))
              else
                (* setting a BoolField *)
                let val :=
                  match val with
                  | IBool b => IValue (mkValue typeOfToggle (DToggle (if b then On else Off)))
                  | _ => val
                  end in
                match Field o idx, valueOfIface val with
                | Some f, Some x =>
                    if decide (vtype x = vtype f) then Return (setField o idx x, None)
                    else Panic
                | _, _ => Panic
                end
          end
      end
  end.

(** [for k := range p.c.byMeta] of [Save]. *)
Fixpoint saveMeta (c : structCodec) (o : Value) (keys : list (string * nat))
    (ret : PropertyMap) : exec (Error + PropertyMap) :=
  match keys with
  | [] => Return (inr ret)
  | (k, _) :: keys' =>
      r ← GetMeta c o k;
      match r with
      | inr err => Return (inl err)
      | inl val =>
          match SetValue val NoIndex with
          | inr msg => Return (inl (External msg))
          | inl p => saveMeta c o keys' (<[("$" +:+ k)%string := [p]]> ret)
          end
      end
  end.

(** [structPLS.Save]. *)
Definition Save (c : structCodec) (o : Value) (withMeta : bool)
    : exec (Error + PropertyMap) :=
  r ← save c o ∅ EmptyString ShouldIndex;
  match r with
  | inl err => Return (inl err)
  | inr (ret, _) =>
      if withMeta then saveMeta c o (mapRange _ (byMeta c)) ret
      else Return (inr ret)
  end.

End LoadSave.


(** ** Stand-ins for what lies outside the file

    Used to run the functions above on concrete inputs and to show that
    what the theorems assume can be met. *)

Module Standin.

(** [unicode.IsLetter] and [unicode.IsDigit] on the runes up to U+00FF (the
    letters and decimal digits of ASCII and Latin-1); no rune above is taken
    for a letter or a digit here. *)
Definition IsLetter (c : rune) : bool :=
  (inRange 65 90 c || inRange 97 122 c
   || (c =? 170) || (c =? 181) || (c =? 186)
   || inRange 192 214 c || inRange 216 246 c || inRange 248 255 c)%Z.

Definition IsDigit (c : rune) : bool := inRange 48 57 c.

(** The decimal digits of [s] as a number; nothing if [s] holds another
    byte. *)
Fixpoint parseDigits (s : string) (acc : Z) : option Z :=
  match s with
  | EmptyString => Some acc
  | String c s' =>
      if inRange 48 57 (byteOf c)
      then parseDigits s' (acc * 10 + (byteOf c - 48))%Z
      else None
  end.

(** [strconv.ParseInt(s, 10, 64)]: an optional sign ['+'] or ['-'], then
    decimal digits, at least one, for a number in [-2^63, 2^63); nothing
    where [ParseInt] returns a syntax or a range error. *)
Definition ParseInt (s : string) : option Z :=
  let '(neg, digits) :=
    match s with
    | String c s' =>
        if Ascii.eqb c "-"%char then (true, s')
        else if Ascii.eqb c "+"%char then (false, s')
        else (false, s)
    | EmptyString => (false, s)
    end in
  if decide (digits = EmptyString) then None
  else
    match parseDigits digits 0%Z with
    | None => None
    | Some un =>
        if neg then (if (un <=? 2 ^ 63)%Z then Some (- un)%Z else None)
        else (if (un <? 2 ^ 63)%Z then Some un else None)
    end.

Definition mapRange (A : Type) (m : gmap string A) : list (string * A) :=
  map_to_list m.

(** Zero values; [fuel] bounds the nesting of struct types. *)
Fixpoint zeroValue (env : TypeEnv) (fuel : nat) (t : GoType) : Value :=
  mkValue t
    (match fuel with
     | O => DOpaque 0
     | S fuel' =>
         (fix data (u : GoType) : Data :=
            match u with
            | TInt _ => DInt 0
            | TBool => DBool false
            | TString => DString EmptyString
            | TFloat _ => DFloat 0%Z
            | TUint8 => DInt 0
            | TInterface _ => DIface None
            | TSlice e => if decide (kindOf e = Uint8) then DBytes [] else DSlice []
            | TStruct id =>
                if decide (u = typeOfTime) then DTime (Serialize.mkTime (-62135596800) 0)
                else DFields (map (fun f => zeroValue env fuel' (Type_ f)) (fieldsOf env id))
            | TDefined id u' => if decide (u = typeOfToggle) then DToggle Auto else data u'
            | TOther _ => DOpaque 0
            end) t
     end).

(** Structural equality of values. *)
Fixpoint Value_eqb (a b : Value) {struct a} : bool :=
  match a, b with
  | mkValue t d, mkValue t' d' =>
      bool_decide (t = t') &&
      match d, d' with
      | DInt x, DInt y => bool_decide (x = y)
      | DBool x, DBool y => bool_decide (x = y)
      | DString x, DString y => bool_decide (x = y)
      | DFloat x, DFloat y => bool_decide (x = y)
      | DToggle x, DToggle y => bool_decide (x = y)
      | DIface x, DIface y => bool_decide (x = y)
      | DTime x, DTime y =>
          bool_decide (Serialize.Unix x = Serialize.Unix y) &&
          bool_decide (Serialize.Nanosecond x = Serialize.Nanosecond y)
      | DBytes x, DBytes y => bool_decide (x = y)
      | DSlice x, DSlice y | DFields x, DFields y =>
          (fix all2 (l l' : list Value) {struct l} : bool :=
             match l, l' with
             | [], [] => true
             | u :: l, u' :: l' => Value_eqb u u' && all2 l l'
             | _, _ => false
             end) x y
      | DOpaque x, DOpaque y => bool_decide (x = y)
      | _, _ => false
      end
  end.

(** No type has a converter of its own here. *)
Definition FromProperty (v : Value) (p : Property) : Value * option string :=
  (v, Some "no converter"%string).
Definition ToProperty (v : Value) : Property + string :=
  inr "no converter"%string.

(** Modelled from the spec: [Property.SetValue], which is outside this
    file: the value becomes the property value of its variant and the
    requested index setting is kept. *)
Definition SetValue (val : Iface) (si : IndexSetting) : Property + string :=
  match val with
  | INil => inl (mkProperty PVNull si)
  | IString s => inl (mkProperty (PVString s) si)
  | IInt64 x => inl (mkProperty (PVInt x) si)
  | IBool b => inl (mkProperty (PVBool b) si)
  | IValue (mkValue t d) =>
      match d with
      | DInt x => inl (mkProperty (PVInt x) si)
      | DBool b => inl (mkProperty (PVBool b) si)
      | DString s => inl (mkProperty (PVString s) si)
      | DFloat x => inl (mkProperty (PVFloat x) si)
      | DIface (Some k) => inl (mkProperty (PVKey k) si)
      | DIface None => inl (mkProperty PVNull si)
      | DTime x => inl (mkProperty (PVTime x) si)
      | DBytes b => inl (mkProperty (PVBytes b) si)
      | DFields [mkValue _ (DFloat lat); mkValue _ (DFloat lng)] =>
          if decide (t = typeOfGeoPoint) then inl (mkProperty (PVGeoPoint lat lng) si)
          else inr "bad type"%string
      | _ => inr "bad type"%string
      end
  end.

(** The types [PropertyTypeOf] accepts once upconverted. *)
Definition propertyTypeOK (t : GoType) : bool :=
  match kindOf t with
  | Int | Int8 | Int16 | Int32 | Int64 | Bool | String_ | Float32 | Float64 => true
  | Interface => bool_decide (t = typeOfKey)
  | Struct => bool_decide (t = typeOfTime \/ t = typeOfGeoPoint)
  | Slice => bool_decide (kindOf <$> elemOf t = Some Uint8)
  | _ => false
  end.

Definition mkEnv (decls : list (string * list StructField)) : TypeEnv :=
  mkTypeEnv (list_to_map decls) (fun _ => false)
            (fun t => bool_decide (t = typeOfKey)) propertyTypeOK.

(** An exported field without tag, and a field with everything given. *)
Definition exported (nm : string) (t : GoType) : StructField :=
  mkStructField nm EmptyString EmptyString false t.
Definition tagged (nm tag : string) (t : GoType) : StructField :=
  mkStructField nm EmptyString tag false t.
Definition unexported (nm tag : string) (t : GoType) : StructField :=
  mkStructField nm "main" tag false t.

(** A small program:
<<
    type Inner struct { X int64 }
    type Outer struct { I Inner; J string; K int64 }
    type Node struct { Kids []Node }
    type A struct { B B }
    type B struct { As []A }
    type Clash struct { I Inner; Y int64 `gae:"I.X"` }
    type Shadow struct { Y int64 `gae:"I.X"`; I Inner }
    type Hidden struct { x int64; Y int64 }
    type BadTag struct { x int64 `gae:"1x"`; Y int64 }
    type Excluded struct { x int64 `gae:"-"`; Y int64 }
    type Many struct { Vals []int64 }
    type Flat struct { A int64; B string; C bool }
>> *)
Definition program : TypeEnv :=
  mkEnv
    [ ("Inner", [exported "X" (TInt KInt64)]);
      ("Outer", [exported "I" (TStruct "Inner"); exported "J" TString;
                 exported "K" (TInt KInt64)]);
      ("Node", [exported "Kids" (TSlice (TStruct "Node"))]);
      ("A", [exported "B" (TStruct "B")]);
      ("B", [exported "As" (TSlice (TStruct "A"))]);
      ("Clash", [exported "I" (TStruct "Inner"); tagged "Y" "I.X" (TInt KInt64)]);
      ("Shadow", [tagged "Y" "I.X" (TInt KInt64); exported "I" (TStruct "Inner")]);
      ("Hidden", [unexported "x" EmptyString (TInt KInt64); exported "Y" (TInt KInt64)]);
      ("BadTag", [unexported "x" "1x" (TInt KInt64); exported "Y" (TInt KInt64)]);
      ("Excluded", [unexported "x" "-" (TInt KInt64); exported "Y" (TInt KInt64)]);
      ("Many", [exported "Vals" (TSlice (TInt KInt64))]);
      ("Flat", [exported "A" (TInt KInt64); exported "B" TString; exported "C" TBool]) ]%string.

Definition getCodec (fuel : nat) (cache : Cache) (t : string)
    : option (Cache * structCodec) :=
  getStructCodecLocked IsLetter IsDigit ParseInt mapRange program fuel cache t.

(** The codec of a type of [program], built from an empty cache. *)
Definition codecOf (t : string) : structCodec :=
  default (mkStructCodec ∅ ∅ [] false None) (snd <$> getCodec 8 ∅ t).

Definition zero : GoType -> Value := zeroValue program 4.

Definition int64Value (x : Z) : Value := mkValue (TInt KInt64) (DInt x).
Definition stringValue (s : string) : Value := mkValue TString (DString s).
Definition boolValue (b : bool) : Value := mkValue TBool (DBool b).

(** [Flat{A: 7, B: "foo", C: true}]. *)
Definition flat7 : Value :=
  mkValue (TStruct "Flat")
    (DFields [int64Value 7; stringValue "foo"; boolValue true]).

(** [Outer{I: Inner{X: 1}, J: "j", K: 2}]. *)
Definition outer1 : Value :=
  mkValue (TStruct "Outer")
    (DFields [mkValue (TStruct "Inner") (DFields [int64Value 1]);
              stringValue "j"; int64Value 2]).


Definition indexed (v : PropertyValue) : Property := mkProperty v ShouldIndex.


End Standin.


End RawDatastore.


(* ===================================================================== *)
(** * Part III: properties of the binary helpers *)
(* ===================================================================== *)

Module SerializeTheory.

Import Serialize.
Local Open Scope Z_scope.

(** ** Bit-level facts *)

Lemma testbit_small (a n i : Z) :
  0 <= n -> 0 <= a < 2 ^ n -> n <= i -> Z.testbit a i = false.
Proof.
  intros Hn Ha Hi.
  rewrite <- (Z.mod_small a (2 ^ n)) by lia.
  rewrite Z.testbit_mod_pow2 by lia.
  destruct (Z.ltb_spec i n); [lia | reflexivity].
Qed.

Lemma lxor_ones_sub (n a : Z) :
  0 <= n -> 0 <= a < 2 ^ n -> Z.lxor a (Z.ones n) = Z.ones n - a.
Proof.
  intros Hn Ha.
  assert (E : Z.ones n - a = Z.lnot a mod 2 ^ n).
  { unfold Z.lnot. rewrite Z.ones_equiv.
    apply Z.mod_unique with (q := -1); lia. }
  rewrite E. apply Z.bits_inj'. intros i Hi.
  rewrite Z.lxor_spec, Z.testbit_ones_nonneg, Z.testbit_mod_pow2 by lia.
  rewrite Z.lnot_spec by lia.
  destruct (Z.ltb_spec i n); simpl.
  - now rewrite xorb_true_r.
  - rewrite (testbit_small a n i) by lia. reflexivity.
Qed.

Lemma lxor_pow2_add (n a : Z) :
  0 <= n -> 0 <= a < 2 ^ n -> Z.lxor a (2 ^ n) = a + 2 ^ n.
Proof.
  intros Hn Ha. symmetry. apply Z.add_nocarry_lxor.
  apply Z.bits_inj'. intros i Hi.
  rewrite Z.land_spec, Z.bits_0, Z.pow2_bits_eqb by lia.
  destruct (Z.eqb_spec n i); simpl.
  - subst. rewrite (testbit_small a i i); auto; lia.
  - apply andb_false_r.
Qed.

Lemma lxor_pow2_sub (n x : Z) :
  0 <= n -> 2 ^ n <= x < 2 ^ (n + 1) -> Z.lxor x (2 ^ n) = x - 2 ^ n.
Proof.
  intros Hn Hx.
  assert (P : 2 ^ (n + 1) = 2 * 2 ^ n) by (rewrite Z.pow_add_r by lia; lia).
  replace x with ((x - 2 ^ n) + 2 ^ n) at 1 by lia.
  rewrite <- (lxor_pow2_add n (x - 2 ^ n)) by lia.
  rewrite Z.lxor_assoc, Z.lxor_nilpotent, Z.lxor_0_r. reflexivity.
Qed.

Lemma lor_shiftl_add (x b k : Z) :
  0 <= k -> 0 <= x < 2 ^ k -> Z.lor x (Z.shiftl b k) = x + b * 2 ^ k.
Proof.
  intros Hk Hx.
  rewrite <- (Z.shiftl_mul_pow2 b k) by lia.
  rewrite <- Z.add_lor_land.
  assert (E : Z.land x (Z.shiftl b k) = 0).
  { apply Z.bits_inj'. intros i Hi.
    rewrite Z.land_spec, Z.bits_0.
    destruct (Z.lt_ge_cases i k).
    - rewrite Z.shiftl_spec_low by lia. apply andb_false_r.
    - rewrite (testbit_small x k i) by lia. reflexivity. }
  rewrite E. lia.
Qed.

(** The transform of [writeFloat64] on the sign-magnitude pattern. *)
Definition flip (b : Z) : Z :=
  Z.lxor b (Z.lor (neg64 (Z.shiftr b 63)) (Z.shiftl 1 63)).

(** The inverse transform of [readFloat64]. *)
Definition unflip (b : Z) : Z :=
  Z.lxor b (Z.lor (sub64 (Z.shiftr b 63) 1) (Z.shiftl 1 63)).

Lemma flip_nonneg (b : Z) : 0 <= b < two63 -> flip b = b + two63.
Proof.
  intros Hb. unfold flip, neg64, u64, two63, two64 in *.
  rewrite Z.shiftr_div_pow2 by lia.
  rewrite Z.div_small by lia. simpl (- 0). rewrite Z.mod_0_l by lia.
  rewrite Z.lor_0_l. change (Z.shiftl 1 63) with (2 ^ 63).
  apply lxor_pow2_add; lia.
Qed.

Lemma flip_neg (b : Z) : two63 <= b < two64 -> flip b = two64 - 1 - b.
Proof.
  intros Hb. unfold flip, neg64, u64, two63, two64 in *.
  rewrite Z.shiftr_div_pow2 by lia.
  assert (E : b / 2 ^ 63 = 1) by (symmetry; apply Z.div_unique with (r := b - 2 ^ 63); lia).
  rewrite E.
  change (Z.lor ((- (1)) mod 2 ^ 64) (Z.shiftl 1 63)) with (Z.ones 64).
  rewrite lxor_ones_sub by lia.
  rewrite Z.ones_equiv. lia.
Qed.

Lemma unflip_high (x : Z) : two63 <= x < two64 -> unflip x = x - two63.
Proof.
  intros Hx. unfold unflip, sub64, u64, two63, two64 in *.
  rewrite Z.shiftr_div_pow2 by lia.
  assert (E : x / 2 ^ 63 = 1) by (symmetry; apply Z.div_unique with (r := x - 2 ^ 63); lia).
  rewrite E.
  change (Z.lor ((1 - 1) mod 2 ^ 64) (Z.shiftl 1 63)) with (2 ^ 63).
  apply lxor_pow2_sub; lia.
Qed.

Lemma unflip_low (x : Z) : 0 <= x < two63 -> unflip x = two64 - 1 - x.
Proof.
  intros Hx. unfold unflip, sub64, u64, two63, two64 in *.
  rewrite Z.shiftr_div_pow2 by lia.
  rewrite Z.div_small by lia.
  change (Z.lor ((0 - 1) mod 2 ^ 64) (Z.shiftl 1 63)) with (Z.ones 64).
  rewrite lxor_ones_sub by lia.
  rewrite Z.ones_equiv. lia.
Qed.

Lemma flip_range (b : Z) : is_u64 b -> is_u64 (flip b).
Proof.
  unfold is_u64. intros Hb.
  destruct (Z.lt_ge_cases b two63).
  - rewrite flip_nonneg by lia. unfold two63, two64 in *. lia.
  - rewrite flip_neg by lia. unfold two63, two64 in *. lia.
Qed.

Lemma unflip_flip (b : Z) : is_u64 b -> unflip (flip b) = b.
Proof.
  unfold is_u64. intros Hb.
  destruct (Z.lt_ge_cases b two63).
  - rewrite flip_nonneg by lia. rewrite unflip_high; unfold two63, two64 in *; lia.
  - rewrite flip_neg by lia. rewrite unflip_low; unfold two63, two64 in *; lia.
Qed.

(** ** Big-endian bytes *)

Lemma byte_of_range (x : Z) : is_byte (byte_of x).
Proof. unfold is_byte, byte_of. apply Z.mod_pos_bound. lia. Qed.

Lemma PutUint64_bytes (v : Z) : Forall is_byte (PutUint64 v).
Proof. unfold PutUint64. repeat constructor; apply byte_of_range. Qed.

Lemma PutUint64_length (v : Z) : List.length (PutUint64 v) = 8%nat.
Proof. reflexivity. Qed.

Lemma Uint64_PutUint64 (v : Z) : is_u64 v -> Uint64 (PutUint64 v) = v.
Proof.
  unfold is_u64, two64. intros Hv.
  unfold Uint64, PutUint64, nth, byte_of.
  rewrite !Z.shiftr_div_pow2 by lia.
  pose proof (Z.mod_pos_bound v 256 ltac:(lia)).
  pose proof (Z.mod_pos_bound (v / 2 ^ 8) 256 ltac:(lia)).
  pose proof (Z.mod_pos_bound (v / 2 ^ 16) 256 ltac:(lia)).
  pose proof (Z.mod_pos_bound (v / 2 ^ 24) 256 ltac:(lia)).
  pose proof (Z.mod_pos_bound (v / 2 ^ 32) 256 ltac:(lia)).
  pose proof (Z.mod_pos_bound (v / 2 ^ 40) 256 ltac:(lia)).
  pose proof (Z.mod_pos_bound (v / 2 ^ 48) 256 ltac:(lia)).
  pose proof (Z.mod_pos_bound (v / 2 ^ 56) 256 ltac:(lia)).
  rewrite (lor_shiftl_add _ _ 8) by lia.
  rewrite (lor_shiftl_add _ _ 16) by lia.
  rewrite (lor_shiftl_add _ _ 24) by lia.
  rewrite (lor_shiftl_add _ _ 32) by lia.
  rewrite (lor_shiftl_add _ _ 40) by lia.
  rewrite (lor_shiftl_add _ _ 48) by lia.
  rewrite (lor_shiftl_add _ _ 56) by lia.
  clear - Hv.
  replace (v / 2 ^ 56) with (v / 2 ^ 48 / 256) by (rewrite Z.div_div by lia; reflexivity).
  replace (v / 2 ^ 48) with (v / 2 ^ 40 / 256) by (rewrite Z.div_div by lia; reflexivity).
  replace (v / 2 ^ 40) with (v / 2 ^ 32 / 256) by (rewrite Z.div_div by lia; reflexivity).
  replace (v / 2 ^ 32) with (v / 2 ^ 24 / 256) by (rewrite Z.div_div by lia; reflexivity).
  replace (v / 2 ^ 24) with (v / 2 ^ 16 / 256) by (rewrite Z.div_div by lia; reflexivity).
  replace (v / 2 ^ 16) with (v / 2 ^ 8 / 256) by (rewrite Z.div_div by lia; reflexivity).
  change (2 ^ 8) with 256.
  Z.div_mod_to_equations. lia.
Qed.

(** The number a byte string denotes, most significant byte first. *)
Abbreviation beVal := Funnybase.beVal.

Lemma beVal_acc (l : list Z) (acc : Z) :
  fold_left (fun a b => a * 256 + b) l acc
  = acc * 256 ^ Z.of_nat (List.length l) + beVal l.
Proof.
  unfold beVal. revert acc.
  induction l as [|x l IH]; intros acc.
  - simpl. lia.
  - cbn [fold_left List.length]. rewrite IH. rewrite (IH (0 * 256 + x)).
    rewrite Nat2Z.inj_succ, Z.pow_succ_r by lia. ring.
Qed.

Lemma beVal_cons (x : Z) (l : list Z) :
  beVal (x :: l) = x * 256 ^ Z.of_nat (List.length l) + beVal l.
Proof. unfold beVal at 1. cbn [fold_left]. rewrite beVal_acc. ring. Qed.

Lemma beVal_bound (l : list Z) :
  Forall is_byte l -> 0 <= beVal l < 256 ^ Z.of_nat (List.length l).
Proof.
  induction 1 as [|x l Hx Hl IH].
  - unfold Funnybase.beVal. simpl. lia.
  - rewrite beVal_cons. cbn [List.length].
    rewrite Nat2Z.inj_succ, Z.pow_succ_r by lia.
    unfold is_byte in Hx. nia.
Qed.

Lemma bytes_lt_beVal (a b : list Z) :
  List.length a = List.length b -> Forall is_byte a -> Forall is_byte b ->
  beVal a < beVal b -> bytes_lt a b = true.
Proof.
  revert b. induction a as [|x a IH]; intros [|y b] Hlen Ha Hb Hlt;
    try discriminate.
  inversion Ha as [|? ? Hx Ha']; inversion Hb as [|? ? Hy Hb']; subst.
  injection Hlen as Hlen.
  rewrite !beVal_cons, Hlen in Hlt.
  pose proof (beVal_bound a Ha') as Ba. pose proof (beVal_bound b Hb') as Bb.
  rewrite Hlen in Ba.
  cbn [bytes_lt].
  destruct (Z.ltb_spec x y) as [|Hge]; [reflexivity|].
  destruct (Z.eqb_spec x y) as [->|Hne].
  - cbn. apply IH; auto. lia.
  - exfalso. nia.
Qed.

Lemma beVal_PutUint64 (v : Z) : is_u64 v -> beVal (PutUint64 v) = v.
Proof.
  unfold is_u64, two64. intros Hv.
  unfold beVal, PutUint64, byte_of. cbn [fold_left].
  rewrite !Z.shiftr_div_pow2 by lia.
  replace (v / 2 ^ 56) with (v / 2 ^ 48 / 256) by (rewrite Z.div_div by lia; reflexivity).
  replace (v / 2 ^ 48) with (v / 2 ^ 40 / 256) by (rewrite Z.div_div by lia; reflexivity).
  replace (v / 2 ^ 40) with (v / 2 ^ 32 / 256) by (rewrite Z.div_div by lia; reflexivity).
  replace (v / 2 ^ 32) with (v / 2 ^ 24 / 256) by (rewrite Z.div_div by lia; reflexivity).
  replace (v / 2 ^ 24) with (v / 2 ^ 16 / 256) by (rewrite Z.div_div by lia; reflexivity).
  replace (v / 2 ^ 16) with (v / 2 ^ 8 / 256) by (rewrite Z.div_div by lia; reflexivity).
  change (2 ^ 8) with 256.
  Z.div_mod_to_equations. lia.
Qed.

(** Unsigned order of uint64 values is the lexicographic order of their
    big-endian bytes. *)
Lemma PutUint64_lt (x y : Z) :
  is_u64 x -> is_u64 y -> x < y -> bytes_lt (PutUint64 x) (PutUint64 y) = true.
Proof.
  intros Hx Hy Hlt. apply bytes_lt_beVal.
  - reflexivity.
  - apply PutUint64_bytes.
  - apply PutUint64_bytes.
  - now rewrite !beVal_PutUint64.
Qed.

(** ** The order of float64 values and of their transformed patterns *)

Lemma float64_fields (a : Z) :
  is_u64 a ->
  a = (a / 2 ^ 63) * 2 ^ 63 + ((a / 2 ^ 52) mod 2 ^ 11) * 2 ^ 52 + a mod 2 ^ 52
  /\ 0 <= a / 2 ^ 63 <= 1
  /\ 0 <= (a / 2 ^ 52) mod 2 ^ 11 < 2048
  /\ 0 <= a mod 2 ^ 52 < 2 ^ 52.
Proof.
  unfold is_u64, two64. intros Ha.
  replace (a / 2 ^ 63) with (a / 2 ^ 52 / 2 ^ 11)
    by (rewrite Z.div_div by lia; reflexivity).
  change (2 ^ 11) with 2048.
  Z.div_mod_to_equations. lia.
Qed.

(** The key under which [writeFloat64] stores a pattern with sign [s],
    biased exponent [e] and fraction [m]. *)
Definition key_of_fields (s e m : Z) : Z :=
  if 0 <? s then two63 - 1 - (e * 2 ^ 52 + m) else e * 2 ^ 52 + m + two63.

Lemma flip_fields (a : Z) :
  is_u64 a ->
  flip a = key_of_fields (a / 2 ^ 63) ((a / 2 ^ 52) mod 2 ^ 11) (a mod 2 ^ 52).
Proof.
  intros Ha. destruct (float64_fields a Ha) as (E & Hs & He & Hm).
  unfold key_of_fields. unfold is_u64, two64 in Ha.
  destruct (Z.ltb_spec 0 (a / 2 ^ 63)).
  - rewrite flip_neg by (unfold two63, two64; lia). unfold two63, two64. lia.
  - rewrite flip_nonneg by (unfold two63; lia). unfold two63. lia.
Qed.

Definition fields_value (sg e m : Z) : spec_float :=
  let s := 0 <? sg in
  if e =? 2047 then (if m =? 0 then S754_infinity s else S754_nan)
  else if e =? 0 then (if m =? 0 then S754_zero s else S754_finite s (Z.to_pos m) (-1074))
  else S754_finite s (Z.to_pos (m + 2 ^ 52)) (e - 1075).

Lemma compare_cont_to_pos (x y : Z) :
  0 < x -> 0 < y ->
  Pos.compare_cont Eq (Z.to_pos x) (Z.to_pos y) = (x ?= y).
Proof.
  intros Hx Hy.
  change (Pos.compare_cont Eq (Z.to_pos x) (Z.to_pos y))
    with (Pos.compare (Z.to_pos x) (Z.to_pos y)).
  rewrite Pos2Z.inj_compare, !Z2Pos.id by lia. reflexivity.
Qed.

Ltac finite_cmp H :=
  rewrite ?compare_cont_to_pos in H by lia;
  repeat match type of H with
  | context [Z.compare ?x ?y] => destruct (Z.compare_spec x y); simpl in H
  end.

Lemma fields_lt (s1 e1 m1 s2 e2 m2 : Z) :
  0 <= s1 <= 1 -> 0 <= e1 < 2048 -> 0 <= m1 < 2 ^ 52 ->
  0 <= s2 <= 1 -> 0 <= e2 < 2048 -> 0 <= m2 < 2 ^ 52 ->
  SFltb (fields_value s1 e1 m1) (fields_value s2 e2 m2) = true ->
  key_of_fields s1 e1 m1 < key_of_fields s2 e2 m2.
Proof.
  intros Hs1 He1 Hm1 Hs2 He2 Hm2.
  unfold fields_value, key_of_fields, SFltb, SFcompare, two63.
  destruct (Z.ltb_spec 0 s1), (Z.ltb_spec 0 s2);
  destruct (Z.eqb_spec e1 2047), (Z.eqb_spec e2 2047);
  destruct (Z.eqb_spec m1 0), (Z.eqb_spec m2 0);
  destruct (Z.eqb_spec e1 0), (Z.eqb_spec e2 0);
  intros Hlt; try discriminate Hlt; try lia;
  finite_cmp Hlt; try discriminate Hlt; lia.
Qed.

Lemma float64_lt_flip (a b : Z) :
  is_u64 a -> is_u64 b -> float64_lt a b = true -> flip a < flip b.
Proof.
  intros Ha Hb H.
  rewrite (flip_fields a Ha), (flip_fields b Hb).
  destruct (float64_fields a Ha) as (_ & ? & ? & ?).
  destruct (float64_fields b Hb) as (_ & ? & ? & ?).
  apply fields_lt; auto.
Qed.

(** ** Strings as bytes *)

Lemma bytes_of_string_length (s : string) :
  List.length (bytes_of_string s) = String.length s.
Proof.
  unfold bytes_of_string. rewrite length_map.
  induction s; simpl; congruence.
Qed.

Lemma string_of_bytes_of_string (s : string) :
  string_of_bytes (bytes_of_string s) = s.
Proof.
  unfold string_of_bytes, bytes_of_string.
  rewrite map_map.
  rewrite (map_ext _ (fun a => a)), map_id.
  - apply string_of_list_ascii_of_string.
  - intros a. rewrite N2Z.id. apply ascii_N_embedding.
Qed.

(** ** The stand-in varint round-trips *)

Lemma beBytes_length (n : nat) (v : Z) : List.length (Funnybase.beBytes n v) = n.
Proof. induction n; simpl; congruence. Qed.

Lemma beVal_beBytes (n : nat) (v : Z) :
  beVal (Funnybase.beBytes n v) = v mod 256 ^ Z.of_nat n.
Proof.
  induction n as [|k IH].
  - simpl. unfold Funnybase.beVal. simpl. now rewrite Z.mod_1_r.
  - cbn [Funnybase.beBytes]. rewrite beVal_cons, beBytes_length, IH.
    rewrite Nat2Z.inj_succ, Z.pow_succ_r by lia.
    rewrite (Z.mul_comm 256), Z.rem_mul_r by lia. lia.
Qed.

Lemma sizeOf_le (fuel : nat) (v : Z) : (Funnybase.sizeOf fuel v <= fuel)%nat.
Proof.
  revert v. induction fuel as [|f IH]; intros v; simpl; [lia|].
  destruct (v =? 0); [lia|]. specialize (IH (v / 256)). lia.
Qed.

Lemma sizeOf_bound (fuel : nat) (v : Z) :
  0 <= v < 256 ^ Z.of_nat fuel -> v < 256 ^ Z.of_nat (Funnybase.sizeOf fuel v).
Proof.
  revert v. induction fuel as [|f IH]; intros v Hv.
  - simpl in *. lia.
  - cbn [Funnybase.sizeOf]. destruct (Z.eqb_spec v 0) as [->|Hne].
    + simpl. lia.
    + rewrite Nat2Z.inj_succ, Z.pow_succ_r in * by lia.
      assert (Hq : 0 <= v / 256 < 256 ^ Z.of_nat f)
        by (split; [apply Z.div_pos; lia | apply Z.div_lt_upper_bound; lia]).
      specialize (IH _ Hq).
      pose proof (Z.div_mod v 256 ltac:(lia)).
      pose proof (Z.mod_pos_bound v 256 ltac:(lia)). nia.
Qed.

Lemma Funnybase_roundtrip (v : Z) (rest : Buffer) :
  is_u64 v ->
  Funnybase.ReadUint (Funnybase.WriteUint v ++ rest) = (Ok v, rest).
Proof.
  unfold is_u64, two64. intros Hv.
  unfold Funnybase.WriteUint, Funnybase.ReadUint. cbn [app].
  pose proof (sizeOf_le 8 v) as Hle.
  pose proof (sizeOf_bound 8 v ltac:(simpl; lia)) as Hb.
  set (n := Funnybase.sizeOf 8 v) in *.
  destruct (Z.ltb_spec (Z.of_nat n) 0); [lia|].
  destruct (Z.ltb_spec 8 (Z.of_nat n)); [lia|]. cbn [orb].
  rewrite Nat2Z.id.
  destruct (Nat.ltb_spec (List.length (Funnybase.beBytes n v ++ rest)) n) as [Hl|_].
  - rewrite length_app, beBytes_length in Hl. lia.
  - rewrite take_app_length' by (symmetry; apply beBytes_length).
    rewrite drop_app_length' by (symmetry; apply beBytes_length).
    rewrite beVal_beBytes, Z.mod_small by lia. reflexivity.
Qed.

(** ** Writers append *)

Lemma bytes_lt_app_same (p a b : list Z) :
  bytes_lt (p ++ a) (p ++ b) = bytes_lt a b.
Proof.
  induction p as [|x p IH]; [reflexivity|].
  cbn [app bytes_lt]. rewrite Z.ltb_irrefl, Z.eqb_refl. exact IH.
Qed.

Lemma writeFloat64_app (buf : Buffer) (v : float64) :
  writeFloat64 buf v = buf ++ PutUint64 (flip v).
Proof. reflexivity. Qed.

(** C1. Order preservation of the float64 encoding: whenever [a < b] as
    float64 values (so neither is a NaN), the bytes [writeFloat64] appends
    for [a] are lexicographically smaller, as unsigned bytes, than those it
    appends for [b]; this holds whatever the buffer held before. *)
Theorem writeFloat64_order_preserving (buf : Buffer) (a b : float64) :
  is_u64 a -> is_u64 b ->
  float64_lt a b = true ->
  bytes_lt (writeFloat64 buf a) (writeFloat64 buf b) = true.
Proof.
  intros Ha Hb Hlt.
  rewrite !writeFloat64_app, bytes_lt_app_same.
  apply PutUint64_lt; auto using flip_range, float64_lt_flip.
Qed.

(** -1.0 < 1.0: patterns 0xBFF0000000000000 and 0x3FF0000000000000. *)
Lemma writeFloat64_order_preserving_witness :
  float64_lt 13830554455654793216 4607182418800017408 = true /\
  bytes_lt (writeFloat64 [] 13830554455654793216)
           (writeFloat64 [] 4607182418800017408) = true.
Proof.
  split; [vm_compute; reflexivity|].
  apply (writeFloat64_order_preserving [] 13830554455654793216 4607182418800017408).
  - unfold is_u64, two64. lia.
  - unfold is_u64, two64. lia.
  - vm_compute. reflexivity.
Defined.

(** ** [readBytes] and [readString] *)

Section Reading.

Variable WriteUint : Z -> list Z.
Variable ReadUint : Buffer -> result Z * Buffer.

Lemma readBytes_too_big (buf rest : Buffer) (val : Z) :
  ReadUint buf = (Ok val, rest) -> val > 2 * 1024 * 1024 ->
  readBytes ReadUint buf = (Err (ErrTooBig val), rest).
Proof.
  intros HR Hbig. unfold readBytes. rewrite HR.
  destruct (Z.gtb_spec val (2 * 1024 * 1024)); [reflexivity | lia].
Qed.

Lemma readBytes_short (buf rest : Buffer) (val : Z) :
  ReadUint buf = (Ok val, rest) -> val <= 2 * 1024 * 1024 ->
  Z.of_nat (List.length rest) < val ->
  readBytes ReadUint buf
  = (Err (ErrShortRead val (Z.of_nat (List.length rest))), []).
Proof.
  intros HR Hsmall Hshort. unfold readBytes. rewrite HR.
  destruct (Z.gtb_spec val (2 * 1024 * 1024)); [lia|].
  unfold Buffer_Read. destruct rest as [|x rest'].
  - cbn [List.length] in *. destruct (Z.eqb_spec (Z.of_nat 0) val); [lia|].
    reflexivity.
  - rewrite take_ge, drop_ge by lia.
    destruct (Z.eqb_spec (Z.of_nat (List.length (x :: rest'))) val); [lia|].
    reflexivity.
Qed.

Lemma readBytes_exact (buf rest : Buffer) (b : list Z) :
  ReadUint buf = (Ok (Z.of_nat (List.length b)), b ++ rest) ->
  Z.of_nat (List.length b) <= 2 * 1024 * 1024 ->
  readBytes ReadUint buf = (Ok b, rest).
Proof.
  intros HR Hsmall. unfold readBytes. rewrite HR.
  destruct (Z.gtb_spec (Z.of_nat (List.length b)) (2 * 1024 * 1024)); [lia|].
  rewrite Nat2Z.id. unfold Buffer_Read.
  destruct (b ++ rest) as [|x l] eqn:E.
  - apply app_eq_nil in E as [-> ->]. reflexivity.
  - rewrite <- E. rewrite take_app_length, drop_app_length.
    now rewrite Z.eqb_refl.
Qed.

(** C6. Size-limit enforcement of [readBytes]/[readString]: when the length
    prefix read by [ReadUint] exceeds 2 MiB, decoding fails with the
    size-limit error and the buffer is left exactly as [ReadUint] left it;
    when the prefix is within the limit but fewer bytes remain than it
    declares, decoding fails with the short-read error. *)
Theorem readBytes_size_limit (buf rest : Buffer) (val : Z) :
  ReadUint buf = (Ok val, rest) ->
  (val > 2 * 1024 * 1024 ->
     readBytes ReadUint buf = (Err (ErrTooBig val), rest) /\
     readString ReadUint buf = (Err (ErrTooBig val), rest)) /\
  (val <= 2 * 1024 * 1024 -> Z.of_nat (List.length rest) < val ->
     readBytes ReadUint buf
     = (Err (ErrShortRead val (Z.of_nat (List.length rest))), []) /\
     readString ReadUint buf
     = (Err (ErrShortRead val (Z.of_nat (List.length rest))), [])).
Proof.
  intros HR. split.
  - intros Hbig. unfold readString.
    rewrite (readBytes_too_big _ _ _ HR Hbig). auto.
  - intros Hsmall Hshort. unfold readString.
    rewrite (readBytes_short _ _ _ HR Hsmall Hshort). auto.
Qed.

End Reading.

(** A prefix declaring 3,000,000 bytes followed by three bytes, and a prefix
    declaring 5 bytes followed by three bytes. *)
Lemma readBytes_size_limit_witness :
  (Funnybase.ReadUint (Funnybase.WriteUint 3000000 ++ [1; 2; 3])
     = (Ok 3000000, [1; 2; 3]) /\
   readBytes Funnybase.ReadUint (Funnybase.WriteUint 3000000 ++ [1; 2; 3])
     = (Err (ErrTooBig 3000000), [1; 2; 3])) /\
  (Funnybase.ReadUint (Funnybase.WriteUint 5 ++ [1; 2; 3]) = (Ok 5, [1; 2; 3]) /\
   readBytes Funnybase.ReadUint (Funnybase.WriteUint 5 ++ [1; 2; 3])
     = (Err (ErrShortRead 5 3), [])).
Proof.
  split; (split; [reflexivity|]).
  - refine (proj1 (proj1 (readBytes_size_limit Funnybase.ReadUint
              (Funnybase.WriteUint 3000000 ++ [1; 2; 3]) [1; 2; 3] 3000000 _) _)).
    + reflexivity.
    + lia.
  - refine (proj1 (proj2 (readBytes_size_limit Funnybase.ReadUint
              (Funnybase.WriteUint 5 ++ [1; 2; 3]) [1; 2; 3] 5 _) _ _)).
    + reflexivity.
    + lia.
    + simpl. lia.
Defined.

(** ** Round trips *)

Section RoundTrip.

Variable WriteUint : Z -> list Z.
Variable ReadUint : Buffer -> result Z * Buffer.

(** What is assumed of [funnybase]: reading back what was written yields the
    value and leaves what followed. *)
Hypothesis ReadUint_WriteUint :
  forall (v : Z) (rest : Buffer),
    is_u64 v -> ReadUint (WriteUint v ++ rest) = (Ok v, rest).

Lemma u64_small (x : Z) : 0 <= x < two64 -> u64 x = x.
Proof. intros H. unfold u64. apply Z.mod_small. exact H. Qed.

Lemma u64_length (n : nat) :
  Z.of_nat n <= 2 * 1024 * 1024 -> u64 (Z.of_nat n) = Z.of_nat n.
Proof. intros H. apply u64_small. unfold two64. lia. Qed.

Lemma readBytes_writeBytes (b : list Z) (rest : Buffer) :
  Z.of_nat (List.length b) <= 2 * 1024 * 1024 ->
  readBytes ReadUint (writeBytes WriteUint [] b ++ rest) = (Ok b, rest).
Proof.
  intros Hlen. unfold writeBytes, Buffer_Write. cbn [app].
  rewrite u64_length by exact Hlen.
  apply readBytes_exact; [|exact Hlen].
  rewrite <- app_assoc. apply ReadUint_WriteUint.
  unfold is_u64, two64. lia.
Qed.

Lemma readString_writeString (s : string) (rest : Buffer) :
  Z.of_nat (String.length s) <= 2 * 1024 * 1024 ->
  readString ReadUint (writeString WriteUint [] s ++ rest) = (Ok s, rest).
Proof.
  intros Hlen. unfold readString.
  replace (writeString WriteUint [] s)
    with (writeBytes WriteUint [] (bytes_of_string s))
    by (unfold writeString, writeBytes; now rewrite bytes_of_string_length).
  rewrite readBytes_writeBytes by (now rewrite bytes_of_string_length).
  now rewrite string_of_bytes_of_string.
Qed.

Lemma readFloat64_writeFloat64 (v : float64) (rest : Buffer) :
  is_u64 v -> readFloat64 (writeFloat64 [] v ++ rest) = (Ok v, rest).
Proof.
  intros Hv. rewrite writeFloat64_app. cbn [app].
  unfold readFloat64.
  change (Buffer_Read (PutUint64 (flip v) ++ rest) 8)
    with (PutUint64 (flip v), @None error, rest).
  cbv iota beta.
  change (PutUint64 (flip v) ++ repeat 0 (8 - List.length (PutUint64 (flip v)))%nat)
    with (PutUint64 (flip v) ++ []).
  rewrite app_nil_r, Uint64_PutUint64 by (apply flip_range, Hv).
  fold (unflip (flip v)). rewrite unflip_flip by exact Hv. reflexivity.
Qed.

Lemma readGeoPoint_writeGeoPoint (gp : GeoPoint) (rest : Buffer) :
  is_u64 (Lat gp) -> is_u64 (Lng gp) ->
  readGeoPoint (writeGeoPoint [] gp ++ rest) = (Ok gp, rest).
Proof.
  intros Hlat Hlng. unfold writeGeoPoint, readGeoPoint.
  rewrite (writeFloat64_app (writeFloat64 [] (Lat gp))), <- app_assoc.
  rewrite readFloat64_writeFloat64 by exact Hlat.
  change (PutUint64 (flip (Lng gp))) with (writeFloat64 [] (Lng gp)).
  rewrite readFloat64_writeFloat64 by exact Hlng.
  now destruct gp.
Qed.

Lemma readTime_writeTime (t : Time) (rest : Buffer) :
  valid_Time t -> 0 <= Unix t ->
  Unix t * 1000000 + Nanosecond t / 1000 < two64 ->
  readTime ReadUint (writeTime WriteUint [] t ++ rest)
  = (Ok (truncate_micro t), rest).
Proof.
  unfold valid_Time. intros [Hs Hn] Hpos Hfit.
  destruct t as [sec nsec]. cbn [Unix Nanosecond] in *.
  assert (Hus : 0 <= nsec / 1000 < 1000000)
    by (split; [apply Z.div_pos; lia | apply Z.div_lt_upper_bound; lia]).
  unfold writeTime, Buffer_Write, add64, mul64. cbn [app Unix Nanosecond].
  assert (H63 : two63 < two64) by (unfold two63, two64; lia).
  rewrite (u64_small sec), (u64_small (nsec / 1000)) by lia.
  rewrite (u64_small (sec * 1000000)), (u64_small (sec * 1000000 + _)) by lia.
  unfold readTime. rewrite ReadUint_WriteUint by (unfold is_u64; lia).
  assert (Hq : (sec * 1000000 + nsec / 1000) / 1000000 = sec)
    by (symmetry; apply Z.div_unique with (r := nsec / 1000); lia).
  assert (Hr : (sec * 1000000 + nsec / 1000) mod 1000000 = nsec / 1000)
    by (symmetry; apply Z.mod_unique with (q := sec); lia).
  rewrite Hq, Hr. unfold mul64.
  assert (Hm : 0 <= nsec / 1000 * 1000 < 1000000000) by lia.
  rewrite (u64_small (nsec / 1000 * 1000)) by (unfold two64; lia).
  unfold int64_of_u64.
  destruct (Z.ltb_spec sec two63); [|lia].
  destruct (Z.ltb_spec (nsec / 1000 * 1000) two63); [|unfold two63 in *; lia].
  unfold time_Unix, truncate_micro. cbn [Unix Nanosecond].
  destruct (Z.ltb_spec (nsec / 1000 * 1000) 0); [lia|].
  destruct (Z.leb_spec 1000000000 (nsec / 1000 * 1000)); [lia|].
  reflexivity.
Qed.

(** C2 (as amended). Round trip of the primitive encodings, for any varint
    that round-trips: a string or byte sequence of at most 2 MiB, a float64
    (as a bit pattern), a geo-point, and a timestamp at or after the Unix
    epoch whose microsecond count fits 64 bits are decoded back from their
    encoding, the timestamp truncated to microseconds; what followed the
    encoding is left in the buffer. *)
Theorem primitive_round_trip :
  (forall (s : string) (rest : Buffer),
      Z.of_nat (String.length s) <= 2 * 1024 * 1024 ->
      readString ReadUint (writeString WriteUint [] s ++ rest) = (Ok s, rest)) /\
  (forall (b : list Z) (rest : Buffer),
      Z.of_nat (List.length b) <= 2 * 1024 * 1024 ->
      readBytes ReadUint (writeBytes WriteUint [] b ++ rest) = (Ok b, rest)) /\
  (forall (v : float64) (rest : Buffer),
      is_u64 v -> readFloat64 (writeFloat64 [] v ++ rest) = (Ok v, rest)) /\
  (forall (gp : GeoPoint) (rest : Buffer),
      is_u64 (Lat gp) -> is_u64 (Lng gp) ->
      readGeoPoint (writeGeoPoint [] gp ++ rest) = (Ok gp, rest)) /\
  (forall (t : Time) (rest : Buffer),
      valid_Time t -> 0 <= Unix t ->
      Unix t * 1000000 + Nanosecond t / 1000 < two64 ->
      readTime ReadUint (writeTime WriteUint [] t ++ rest)
      = (Ok (truncate_micro t), rest)).
Proof.
  split; [|split; [|split; [|split]]].
  - apply readString_writeString.
  - apply readBytes_writeBytes.
  - apply readFloat64_writeFloat64.
  - apply readGeoPoint_writeGeoPoint.
  - apply readTime_writeTime.
Qed.

(** Beyond 2 MiB the decoder refuses what the encoder wrote. *)
Lemma readBytes_writeBytes_too_long (b : list Z) (rest : Buffer) :
  2 * 1024 * 1024 < Z.of_nat (List.length b) < two64 ->
  readBytes ReadUint (writeBytes WriteUint [] b ++ rest)
  = (Err (ErrTooBig (Z.of_nat (List.length b))), b ++ rest).
Proof.
  intros Hlen. unfold writeBytes, Buffer_Write. cbn [app].
  rewrite u64_small by lia. rewrite <- app_assoc.
  apply readBytes_too_big; [|lia].
  apply ReadUint_WriteUint. unfold is_u64. lia.
Qed.

End RoundTrip.

(** The string "abc", three bytes, 1.5, a geo-point and a timestamp with
    sub-microsecond digits, through the stand-in varint. *)
Lemma primitive_round_trip_witness :
  readString Funnybase.ReadUint (writeString Funnybase.WriteUint [] "abc" ++ [7])
    = (Ok "abc"%string, [7]) /\
  readBytes Funnybase.ReadUint (writeBytes Funnybase.WriteUint [] [1; 2; 3] ++ [7])
    = (Ok [1; 2; 3], [7]) /\
  readFloat64 (writeFloat64 [] 4609434218613702656 ++ [7])
    = (Ok 4609434218613702656, [7]) /\
  readGeoPoint (writeGeoPoint [] (mkGeoPoint 4609434218613702656 13830554455654793216) ++ [7])
    = (Ok (mkGeoPoint 4609434218613702656 13830554455654793216), [7]) /\
  readTime Funnybase.ReadUint
    (writeTime Funnybase.WriteUint [] (mkTime 1445470000 123456789) ++ [7])
    = (Ok (mkTime 1445470000 123456000), [7]).
Proof.
  destruct (primitive_round_trip Funnybase.WriteUint Funnybase.ReadUint
              Funnybase_roundtrip) as (Hs & Hb & Hf & Hg & Ht).
  split; [|split; [|split; [|split]]].
  - apply Hs. simpl. lia.
  - apply Hb. simpl. lia.
  - apply Hf. unfold is_u64, two64. lia.
  - apply Hg; unfold is_u64, two64; simpl; lia.
  - apply (Ht (mkTime 1445470000 123456789)).
    + unfold valid_Time, two63. cbn [Unix Nanosecond]. lia.
    + cbn [Unix]. lia.
    + unfold two64. cbn [Unix Nanosecond]. Z.div_mod_to_equations. lia.
Defined.

(** A byte sequence of 2 MiB + 1 bytes is encoded, but decoding the result
    fails with the size-limit error instead of yielding it back. *)
Lemma readBytes_refuses_what_writeBytes_wrote :
  let b := repeat 0 (Z.to_nat 2097153) in
  readBytes Funnybase.ReadUint (writeBytes Funnybase.WriteUint [] b)
  <> (Ok b, []).
Proof.
  intros b.
  assert (Hlen : Z.of_nat (List.length b) = 2097153).
  { unfold b. rewrite repeat_length. apply Z2Nat.id. lia. }
  clearbody b.
  rewrite <- (app_nil_r (writeBytes _ _ _)).
  rewrite (readBytes_writeBytes_too_long Funnybase.WriteUint Funnybase.ReadUint
             Funnybase_roundtrip)
    by (rewrite Hlen; unfold two64; lia).
  discriminate.
Qed.

(** A timestamp one second before the epoch does not survive either: its
    seconds are converted to uint64 before the multiplication and wrap. *)
Lemma round_trip_of_pre_epoch_time :
  readTime Funnybase.ReadUint (writeTime Funnybase.WriteUint [] (mkTime (-1) 0))
  = (Ok (mkTime 18446744073708 551616000), []).
Proof. vm_compute. reflexivity. Qed.

(** Two values that are encoded but not decoded back: 2 MiB + 1 zero bytes,
    and the timestamp one second before the Unix epoch, which has no
    sub-microsecond digits to lose. *)
Lemma round_trip_fails_outside_bounds :
  (let b := repeat 0 (Z.to_nat 2097153) in
   readBytes Funnybase.ReadUint (writeBytes Funnybase.WriteUint [] b) <> (Ok b, [])) /\
  (valid_Time (mkTime (-1) 0) /\
   truncate_micro (mkTime (-1) 0) = mkTime (-1) 0 /\
   readTime Funnybase.ReadUint (writeTime Funnybase.WriteUint [] (mkTime (-1) 0))
   <> (Ok (truncate_micro (mkTime (-1) 0)), [])).
Proof.
  split; [exact readBytes_refuses_what_writeBytes_wrote|].
  split; [unfold valid_Time, two63; cbn [Unix Nanosecond]; lia|].
  split; [reflexivity|].
  rewrite round_trip_of_pre_epoch_time. discriminate.
Qed.

End SerializeTheory.


(* ===================================================================== *)
(** * Part IV: properties of the struct codec *)
(* ===================================================================== *)

Module RawDatastoreTheory.

Import RawDatastore.

(** ** Induction on codecs, through the nested codecs of their tags *)

Section CodecInduction.

Variable P : structCodec -> Prop.
Hypothesis step :
  forall bm bn tags hs pr,
    Forall (fun st => forall sub, substructCodec st = Some sub -> P sub) tags ->
    P (mkStructCodec bm bn tags hs pr).

Lemma structCodec_nested_ind : forall c : structCodec, P c.
Proof.
  fix IH 1. intros [bm bn tags hs pr]. apply step.
  induction tags as [|st tags IHtags]; constructor; [|exact IHtags].
  intros sub E. destruct st as [? ? ? [sub0|] ? ? ?]; simpl in E.
  - injection E as <-. apply IH.
  - discriminate.
Qed.

End CodecInduction.

(** The number of codecs in a codec: itself and those nested in its tags. *)
Fixpoint codecSize (c : structCodec) : nat :=
  match c with
  | mkStructCodec _ _ tags _ _ =>
      S ((fix sizes (l : list structTag) : nat :=
            match l with
            | [] => 0
            | mkStructTag _ _ _ (Some sub) _ _ _ :: l' => codecSize sub + sizes l'
            | mkStructTag _ _ _ None _ _ _ :: l' => sizes l'
            end) tags)
  end.

Lemma codecSize_nested (c : structCodec) (st : structTag) (sub : structCodec) :
  st ∈ byIndex c -> substructCodec st = Some sub -> codecSize sub < codecSize c.
Proof.
  destruct c as [bm bn tags hs pr]. cbn [byIndex codecSize]. intros Hin Hsub.
  apply Nat.lt_succ_r.
  induction tags as [|st0 tags IH]; [inversion Hin|].
  apply elem_of_cons in Hin as [<-|Hin].
  - destruct st as [? ? ? [sub0|] ? ? ?]; cbn in Hsub; [|discriminate].
    injection Hsub as ->. lia.
  - specialize (IH Hin). destruct st0 as [? ? ? [sub0|] ? ? ?]; lia.
Qed.

(** ** Struct values *)

Lemma vtype_setField (o : Value) (i : nat) (x : Value) :
  vtype (setField o i x) = vtype o.
Proof. destruct o as [t []]; reflexivity. Qed.

Lemma Field_setField_ne (o : Value) (i j : nat) (x : Value) :
  i <> j -> Field (setField o i x) j = Field o j.
Proof.
  intros Hne. destruct o as [t []]; try reflexivity.
  cbn. now apply list_lookup_insert_ne.
Qed.

Lemma Field_setField_eq (o : Value) (i : nat) (v x : Value) :
  Field o i = Some v -> Field (setField o i x) i = Some x.
Proof.
  destruct o as [t []]; try discriminate. cbn. intros H.
  apply list_lookup_insert_eq. eapply lookup_lt_Some, H.
Qed.

Lemma setField_same (o : Value) (i : nat) (v : Value) :
  Field o i = Some v -> setField o i v = o.
Proof.
  destruct o as [t []]; try discriminate. cbn. intros H.
  f_equal. f_equal. now apply list_insert_id.
Qed.

Lemma sliceFrom_app (a b : string) :
  sliceFrom (String.length a) (a +:+ b) = Some b.
Proof. induction a as [|c a IH]; [now destruct b | exact IH]. Qed.

(** ** Schema construction *)

Section BuildTheory.

Variable IsLetter : rune -> bool.
Variable IsDigit : rune -> bool.
Variable ParseInt : string -> option Z.
Variable mapRange : forall A : Type, gmap string A -> list (string * A).
Variable env : TypeEnv.

Local Abbreviation fieldByType := (fieldByType mapRange env).
Local Abbreviation buildField := (buildField IsLetter IsDigit ParseInt mapRange env).
Local Abbreviation buildFields := (buildFields IsLetter IsDigit ParseInt mapRange env).
Local Abbreviation getStructCodecLocked :=
  (getStructCodecLocked IsLetter IsDigit ParseInt mapRange env).
Local Abbreviation readTag := (readTag IsLetter IsDigit).
Local Abbreviation nestedType := (nestedType IsLetter IsDigit env).

(** *** The cache *)

Definition startCodec (t : string) : structCodec :=
  mkStructCodec ∅ ∅ (replicate (List.length (fieldsOf env t)) zeroTag) false
                (Some errRecursiveStruct).

Definition startBuilding (cache : Cache) (t : string) : Building :=
  mkBuilding (<[t := startCodec t]> cache) ∅ ∅ [] false.

Lemma getStructCodecLocked_O (cache : Cache) (t : string) :
  getStructCodecLocked 0 cache t
  = match cache !! t with Some c => Some (cache, c) | None => None end.
Proof. reflexivity. Qed.

Lemma getStructCodecLocked_S (fuel : nat) (cache : Cache) (t : string) :
  getStructCodecLocked (S fuel) cache t
  = match cache !! t with
    | Some c => Some (cache, c)
    | None =>
        match buildFields (getStructCodecLocked fuel) (fieldsOf env t) 0
                          (startBuilding cache t) with
        | Starved => None
        | Problematic cache hs e =>
            Some (<[t := mkStructCodec ∅ ∅ [] hs (Some e)]> cache,
                  mkStructCodec ∅ ∅ [] hs (Some e))
        | Complete b =>
            Some (<[t := mkStructCodec (b_byMeta b) (b_byName b) (b_tags b)
                                       (b_hasSlice b) None]> (b_cache b),
                  mkStructCodec (b_byMeta b) (b_byName b) (b_tags b)
                                (b_hasSlice b) None)
        end
    end.
Proof. reflexivity. Qed.

Lemma getStructCodecLocked_hit (fuel : nat) (cache : Cache) (t : string) c :
  cache !! t = Some c -> getStructCodecLocked fuel cache t = Some (cache, c).
Proof.
  intros H. destruct fuel;
    [rewrite getStructCodecLocked_O|rewrite getStructCodecLocked_S]; now rewrite H.
Qed.

Lemma getStructCodecLocked_cached (fuel : nat) (cache cache' : Cache) (t : string) c :
  getStructCodecLocked fuel cache t = Some (cache', c) -> cache' !! t = Some c.
Proof.
  destruct fuel as [|fuel];
    [rewrite getStructCodecLocked_O|rewrite getStructCodecLocked_S].
  - destruct (cache !! t) eqn:E; [|discriminate]. now intros [= <- <-].
  - destruct (cache !! t) eqn:E; [now intros [= <- <-]|].
    destruct (buildFields _ _ _ _) as [b|cache2 hs e|];
      [| |discriminate]; intros [= <- <-]; apply lookup_insert_eq.
Qed.

(** A function that only ever adds entries to the cache. *)
Definition preserving (rec : Cache -> string -> option (Cache * structCodec)) : Prop :=
  forall cache k cache' c, rec cache k = Some (cache', c) -> cache ⊆ cache'.

Lemma buildField_cache rec i f cache bm bn hs :
  preserving rec ->
  match buildField rec i f cache bm bn hs with
  | Next cache' _ _ _ _ | Fail cache' _ _ => cache ⊆ cache'
  | NoFuel => True
  end.
Proof.
  intros Hrec. unfold RawDatastore.buildField.
  destruct (readTag f) as [nm opts| |nm|nm opts]; try reflexivity.
  - destruct (bm !! nm); [reflexivity|]. destruct (convertMeta _ _ _); reflexivity.
  - destruct (negb _); [reflexivity|]. unfold RawDatastore.fieldByType.
    destruct (fieldShape env f hs) as [[[[cv sl] [u|]] hs']|e]; try reflexivity.
    + destruct (rec cache (structId u)) as [[cache' sub]|] eqn:E; [|exact I].
      apply Hrec in E.
      destruct (problem sub) as [e|].
      * destruct (decide _); exact E.
      * destruct (sl && hasSlice sub); [exact E|].
        destruct (addNames _ _ _ _); exact E.
    + destruct (negb cv && _); [reflexivity|]. destruct (bn !! nm); reflexivity.
Qed.

Lemma buildFields_cache rec fields i b :
  preserving rec ->
  match buildFields rec fields i b with
  | Complete b' => b_cache b ⊆ b_cache b'
  | Problematic cache' _ _ => b_cache b ⊆ cache'
  | Starved => True
  end.
Proof.
  intros Hrec. revert i b. induction fields as [|f fields IH]; intros i b.
  - cbn. reflexivity.
  - cbn [RawDatastore.buildFields].
    pose proof (buildField_cache rec i f (b_cache b) (b_byMeta b) (b_byName b)
                  (b_hasSlice b) Hrec) as H1.
    destruct (buildField rec i f _ _ _ _) as [cache' bm' bn' hs' st|cache' hs' e|];
      [|exact H1|exact I].
    specialize (IH (S i) (mkBuilding cache' bm' bn' (b_tags b ++ [st]) hs')).
    destruct (buildFields rec fields _ _) as [b'|cache2 hs2 e2|]; [| |exact I];
      cbn in IH; etransitivity; eassumption.
Qed.

Lemma getStructCodecLocked_preserving (fuel : nat) :
  preserving (getStructCodecLocked fuel).
Proof.
  induction fuel as [|fuel IH]; intros cache t cache' c;
    [rewrite getStructCodecLocked_O|rewrite getStructCodecLocked_S].
  - destruct (cache !! t); [|discriminate]. now intros [= <- <-].
  - destruct (cache !! t) eqn:E; [now intros [= <- <-]|].
    pose proof (buildFields_cache (getStructCodecLocked fuel) (fieldsOf env t) 0
                  (startBuilding cache t) IH) as H.
    assert (Hsub : forall cache2 c2, <[t := startCodec t]> cache ⊆ cache2 ->
                     cache ⊆ <[t := c2]> cache2).
    { intros cache2 c2 H2. apply map_subseteq_spec. intros k v Hk.
      assert (Hne : t <> k) by congruence.
      rewrite lookup_insert_ne by exact Hne.
      apply (lookup_weaken _ _ _ _ (eq_trans (lookup_insert_ne _ t k _ Hne) Hk) H2). }
    destruct (buildFields _ _ _ _) as [b|cache2 hs e|];
      [| |discriminate]; cbn in H; intros [= <- <-]; apply Hsub, H.
Qed.

(** *** The field loop *)

Lemma buildFields_app rec fields1 fields2 i b :
  buildFields rec (fields1 ++ fields2) i b
  = match buildFields rec fields1 i b with
    | Complete b1 => buildFields rec fields2 (i + List.length fields1) b1
    | other => other
    end.
Proof.
  revert i b. induction fields1 as [|f fields1 IH]; intros i b.
  - cbn. now rewrite Nat.add_0_r.
  - cbn [app RawDatastore.buildFields List.length].
    destruct (buildField rec i f _ _ _ _) as [cache' bm' bn' hs' st|cache' hs' e|];
      try reflexivity.
    rewrite IH. now rewrite Nat.add_succ_r.
Qed.

(** The type switch does not depend on [c.hasSlice], which it only
    accumulates. *)
Lemma fieldShape_hasSlice (f : StructField) (hs : bool) :
  fieldShape env f hs
  = match fieldShape env f false with
    | inl (cv, sl, sub, h0) => inl (cv, sl, sub, hs || h0)
    | inr e => inr e
    end.
Proof.
  unfold fieldShape.
  destruct (implementsPropertyConverter env (Type_ f));
    [cbv iota beta; now rewrite orb_false_r|].
  destruct (kindOf (Type_ f)); try (cbv iota beta; now rewrite orb_false_r).
  - destruct (decide _); cbv iota beta; now rewrite ?orb_false_r.
  - cbv zeta. destruct (implementsPropertyConverter env _); [reflexivity|].
    destruct (decide _); reflexivity.
  - destruct (decide _); cbv iota beta; now rewrite ?orb_false_r.
Qed.

(** On a field that makes the construction descend into the struct type
    [u], the loop body is the nested construction and what follows it. *)
Lemma buildField_nested rec i f cache bm bn hs u :
  nestedType f = Some u ->
  exists nm opts cv sl hs',
    readTag f = TagName nm opts /\
    fieldShape env f hs = inl (cv, sl, Some u, hs') /\
    buildField rec i f cache bm bn hs
    = match rec cache (structId u) with
      | None => NoFuel
      | Some (cache, sub) =>
          match problem sub with
          | Some e =>
              if decide (e = errRecursiveStruct)
              then Fail cache hs' (ErrFieldRecursive (Name f))
              else Fail cache hs' (ErrFieldProblem (Name f) e)
          | None =>
              if sl && hasSlice sub then Fail cache hs' (ErrSliceOfSlices (Name f))
              else
                let nm' := if decide (nm <> EmptyString) then (nm +:+ ".")%string else nm in
                match addNames nm' i (mapRange nat (byName sub)) bn with
                | inr e => Fail cache (hs' || hasSlice sub) e
                | inl bn' =>
                    Next cache bm bn' (hs' || hasSlice sub)
                      (finishTag (mkStructTag EmptyString ShouldIndex sl (Some sub) cv INil true)
                                 nm' opts)
                end
          end
      end.
Proof.
  unfold RawDatastore.nestedType, RawDatastore.buildField.
  destruct (readTag f) as [| | |nm opts]; try discriminate.
  destruct (bool_decide (PkgPath f = EmptyString)); [|discriminate].
  rewrite (fieldShape_hasSlice f hs).
  destruct (fieldShape env f false) as [[[[cv sl] sub] h0]|e] eqn:E; [|discriminate].
  intros ->. exists nm, opts, cv, sl, (hs || h0).
  split; [reflexivity|]. split; [reflexivity|].
  cbn [negb]. unfold RawDatastore.fieldByType.
  rewrite (fieldShape_hasSlice f hs), E. reflexivity.
Qed.

(** During the construction of [t] its cache entry stays the codec under
    construction. *)
Lemma under_construction_stays (fuel : nat) (cache : Cache) (t : string)
    (fields : list StructField) (b : Building) :
  buildFields (getStructCodecLocked fuel) fields 0 (startBuilding cache t) = Complete b ->
  b_cache b !! t = Some (startCodec t).
Proof.
  intros H.
  pose proof (buildFields_cache (getStructCodecLocked fuel) fields 0
                (startBuilding cache t) (getStructCodecLocked_preserving fuel)) as Hc.
  rewrite H in Hc. eapply lookup_weaken; [|exact Hc]. apply lookup_insert_eq.
Qed.

Lemma addNames_error prefix i rel bn e :
  addNames prefix i rel bn = inr e ->
  exists r, r ∈ rel.*1 /\ e = ErrRepeatedName (prefix +:+ r).
Proof.
  revert bn. induction rel as [|[r j] rel IH]; intros bn; [discriminate|].
  cbn [addNames]. destruct (bn !! (prefix +:+ r)).
  - intros [= <-]. exists r. split; [left|reflexivity].
  - intros H. apply IH in H as (r' & Hin & ->). exists r'. split; [now right|reflexivity].
Qed.

Lemma buildField_fail_not_recursive rec i f cache bm bn hs cache' hs' e :
  buildField rec i f cache bm bn hs = Fail cache' hs' e -> e <> errRecursiveStruct.
Proof.
  assert (Hdone : forall c1 h1 e1, e1 <> errRecursiveStruct ->
            Fail c1 h1 e1 = Fail cache' hs' e -> e <> errRecursiveStruct)
    by (intros c1 h1 e1 Hne [= <- <- <-]; exact Hne).
  assert (Hnext : forall c1 m1 n1 h1 st, Next c1 m1 n1 h1 st = Fail cache' hs' e ->
                                          e <> errRecursiveStruct)
    by (intros; discriminate).
  assert (Hstarved : NoFuel = Fail cache' hs' e -> e <> errRecursiveStruct)
    by (intros; discriminate).
  unfold RawDatastore.buildField.
  destruct (readTag f) as [nm opts| |nm|nm opts]; try apply Hnext.
  - destruct (bm !! nm); [apply Hdone; discriminate|].
    destruct (convertMeta _ _ _); [apply Hnext|apply Hdone; discriminate].
  - apply Hdone; discriminate.
  - destruct (negb _); [apply Hnext|]. unfold RawDatastore.fieldByType.
    destruct (fieldShape env f hs) as [[[[cv sl] [u|]] hs1]|e1] eqn:Es.
    + destruct (rec cache (structId u)) as [[cache1 sub]|]; [|apply Hstarved].
      destruct (problem sub) as [e1|].
      * destruct (decide _); apply Hdone; discriminate.
      * destruct (sl && hasSlice sub); [apply Hdone; discriminate|].
        destruct (addNames _ _ _ _) as [bn1|e1] eqn:E; [apply Hnext|].
        apply addNames_error in E as (r & _ & ->). apply Hdone; discriminate.
    + destruct (negb cv && _); [apply Hdone; discriminate|].
      destruct (bn !! nm); [apply Hdone; discriminate|apply Hnext].
    + apply Hdone. unfold fieldShape in Es.
      destruct (implementsPropertyConverter env (Type_ f)); [discriminate Es|].
      destruct (kindOf (Type_ f)); try discriminate Es.
      * destruct (decide _); [|discriminate Es]. injection Es as <-. discriminate.
      * cbv zeta in Es. destruct (implementsPropertyConverter env _); [discriminate Es|].
        destruct (decide _); discriminate Es.
      * destruct (decide _); discriminate Es.
Qed.

(** A codec that a construction has finished never carries the mark of a
    construction under way. *)
Lemma finished_is_not_recursive (fuel : nat) (cache cache' : Cache) (t : string) c :
  cache !! t = None ->
  getStructCodecLocked fuel cache t = Some (cache', c) ->
  problem c <> Some errRecursiveStruct.
Proof.
  intros Hmiss Hget. destruct fuel as [|fuel].
  - rewrite getStructCodecLocked_O, Hmiss in Hget. discriminate.
  - rewrite getStructCodecLocked_S, Hmiss in Hget.
    destruct (buildFields _ _ _ _) as [b|cache2 hs e|] eqn:E; [| |discriminate].
    + injection Hget as <- <-. discriminate.
    + injection Hget as <- <-. cbn. intros [= ->].
      clear Hmiss. revert E. generalize (startBuilding cache t). generalize 0.
      induction (fieldsOf env t) as [|f fields IH]; intros i b0; [discriminate|].
      cbn [RawDatastore.buildFields].
      destruct (buildField _ i f _ _ _ _) as [c1 bm1 bn1 hs1 st|c1 hs1 e1|] eqn:E1;
        [apply IH| |discriminate].
      intros [= <- <- ->]. eapply buildField_fail_not_recursive; eauto.
Qed.

(** *** Recursive definitions *)

(** An error that reports a recursive definition: the field that refers to
    a type under construction, possibly under the fields through which the
    construction came to it. *)
Inductive reportsRecursion : SchemaError -> Prop :=
| reports_field (field : string) : reportsRecursion (ErrFieldRecursive field)
| reports_under (field : string) (e : SchemaError) :
    reportsRecursion e -> reportsRecursion (ErrFieldProblem field e).

Lemma reportsRecursion_not_mark (e : SchemaError) :
  reportsRecursion e -> e <> errRecursiveStruct.
Proof. intros H. inversion H; discriminate. Qed.

(** Let the construction of the schema of
    [t] have come, without problem, to a field [f] that makes it descend
    into the struct type [u].
    - If [u] is under construction at that moment (as [t] itself always is),
      the construction of [t] returns a codec whose problem is "field [f] is
      recursively defined", with its tables freed.
    - If the construction of [u] returns a codec whose problem reports a
      recursive definition, the construction of [t] returns a codec whose
      problem is that report under field [f].
    In both cases the codec is the one the cache then holds for [t], so any
    later construction attempt returns the same codec and error. *)
Lemma recursion_reported_at_field (fuel : nat) (cache : Cache) (t : string)
    (pre post : list StructField) (f : StructField) (b : Building) (u : GoType) :
  cache !! t = None ->
  fieldsOf env t = pre ++ f :: post ->
  buildFields (getStructCodecLocked fuel) pre 0 (startBuilding cache t) = Complete b ->
  nestedType f = Some u ->
  (* [t] itself is under construction *)
  b_cache b !! t = Some (startCodec t) /\
  (* [u] under construction *)
  (forall cu, b_cache b !! structId u = Some cu ->
              problem cu = Some errRecursiveStruct ->
     exists cache' c,
       getStructCodecLocked (S fuel) cache t = Some (cache', c) /\
       problem c = Some (ErrFieldRecursive (Name f)) /\
       byIndex c = [] /\ byName c = ∅ /\ byMeta c = ∅ /\
       forall fuel', getStructCodecLocked fuel' cache' t = Some (cache', c)) /\
  (* the construction of [u] reports a recursive definition *)
  (forall cache2 sub e,
     getStructCodecLocked fuel (b_cache b) (structId u) = Some (cache2, sub) ->
     problem sub = Some e -> reportsRecursion e ->
     exists cache' c,
       getStructCodecLocked (S fuel) cache t = Some (cache', c) /\
       problem c = Some (ErrFieldProblem (Name f) e) /\
       reportsRecursion (ErrFieldProblem (Name f) e) /\
       byIndex c = [] /\ byName c = ∅ /\ byMeta c = ∅ /\
       forall fuel', getStructCodecLocked fuel' cache' t = Some (cache', c)).
Proof.
  intros Hmiss Hfields Hpre Hnested.
  split; [eapply under_construction_stays, Hpre|].
  assert (Hrun : forall step,
    buildField (getStructCodecLocked fuel) (List.length pre) f (b_cache b)
               (b_byMeta b) (b_byName b) (b_hasSlice b) = step ->
    forall cache2 hs e, step = Fail cache2 hs e ->
    getStructCodecLocked (S fuel) cache t
    = Some (<[t := mkStructCodec ∅ ∅ [] hs (Some e)]> cache2,
            mkStructCodec ∅ ∅ [] hs (Some e))).
  { intros step Hstep cache2 hs e ->.
    rewrite getStructCodecLocked_S, Hmiss, Hfields, buildFields_app, Hpre.
    cbn [RawDatastore.buildFields Nat.add]. now rewrite Hstep. }
  destruct (buildField_nested (getStructCodecLocked fuel) (List.length pre) f
              (b_cache b) (b_byMeta b) (b_byName b) (b_hasSlice b) u Hnested)
    as (nm & opts & cv & sl & hs' & _ & _ & Hstep).
  split.
  - intros cu Hcu Hrec.
    rewrite (getStructCodecLocked_hit fuel _ _ _ Hcu), Hrec in Hstep.
    destruct (decide (errRecursiveStruct = errRecursiveStruct)); [|congruence].
    specialize (Hrun _ Hstep _ _ _ eq_refl).
    eexists _, _. split; [exact Hrun|]. repeat split.
    intros fuel'. apply getStructCodecLocked_hit, lookup_insert_eq.
  - intros cache2 sub e Hsub He Hrep.
    rewrite Hsub, He in Hstep.
    destruct (decide (e = errRecursiveStruct)) as [->|_]; [inversion Hrep|].
    specialize (Hrun _ Hstep _ _ _ eq_refl).
    eexists _, _. split; [exact Hrun|]. repeat split.
    + now constructor.
    + intros fuel'. apply getStructCodecLocked_hit, lookup_insert_eq.
Qed.

(** *** Termination: a budget that always suffices *)

(** The struct types the program declares that are not yet in the cache. *)
Definition unbuilt (cache : Cache) : nat :=
  size (dom (structFields env) ∖ dom cache).

Lemma unbuilt_mono (cache cache' : Cache) :
  cache ⊆ cache' -> unbuilt cache' <= unbuilt cache.
Proof.
  intros Hsub. unfold unbuilt. apply subseteq_size.
  apply subseteq_dom in Hsub. set_solver.
Qed.

Lemma unbuilt_insert (cache : Cache) (t : string) (c : structCodec) :
  cache !! t = None -> is_Some (structFields env !! t) ->
  unbuilt (<[t := c]> cache) < unbuilt cache.
Proof.
  intros Hmiss Hdecl. unfold unbuilt. apply subset_size.
  rewrite dom_insert_L.
  apply elem_of_dom in Hdecl. apply not_elem_of_dom in Hmiss.
  set_solver.
Qed.

Lemma buildField_not_starved rec i f cache bm bn hs :
  (forall k, is_Some (rec cache k)) ->
  buildField rec i f cache bm bn hs <> NoFuel.
Proof.
  intros Hrec. unfold RawDatastore.buildField.
  destruct (readTag f) as [nm opts| |nm|nm opts]; try discriminate.
  - destruct (bm !! nm); [discriminate|]. destruct (convertMeta _ _ _); discriminate.
  - destruct (negb _); [discriminate|]. unfold RawDatastore.fieldByType.
    destruct (fieldShape env f hs) as [[[[cv sl] [u|]] hs']|e]; try discriminate.
    + destruct (Hrec (structId u)) as [[cache' sub] ->].
      destruct (problem sub); [destruct (decide _); discriminate|].
      destruct (sl && hasSlice sub); [discriminate|].
      destruct (addNames _ _ _ _); discriminate.
    + destruct (negb cv && _); [discriminate|]. destruct (bn !! nm); discriminate.
Qed.

Lemma buildFields_not_starved rec fields i b :
  preserving rec ->
  (forall cache k, b_cache b ⊆ cache -> is_Some (rec cache k)) ->
  buildFields rec fields i b <> Starved.
Proof.
  intros Hpres. revert i b. induction fields as [|f fields IH]; intros i b Hrec.
  - discriminate.
  - cbn [RawDatastore.buildFields].
    pose proof (buildField_cache rec i f (b_cache b) (b_byMeta b) (b_byName b)
                  (b_hasSlice b) Hpres) as Hc.
    pose proof (buildField_not_starved rec i f (b_cache b) (b_byMeta b) (b_byName b)
                  (b_hasSlice b) (fun k => Hrec _ k (reflexivity _))) as Hn.
    destruct (buildField rec i f _ _ _ _) as [cache' bm' bn' hs' st|cache' hs' e|];
      [|discriminate|contradiction].
    apply IH. cbn. intros cache2 k Hsub. apply Hrec. etransitivity; eassumption.
Qed.

(** With a budget above the number of declared struct types missing from
    the cache, [getStructCodecLocked] returns. *)
Theorem getStructCodecLocked_returns (fuel : nat) (cache : Cache) (t : string) :
  unbuilt cache < fuel -> is_Some (getStructCodecLocked fuel cache t).
Proof.
  revert cache t. induction fuel as [|fuel IH]; intros cache t Hfuel; [lia|].
  rewrite getStructCodecLocked_S.
  destruct (cache !! t) eqn:Emiss; [eauto|].
  destruct (structFields env !! t) as [fields|] eqn:Edecl.
  - assert (Hlt : unbuilt (<[t := startCodec t]> cache) < fuel).
    { pose proof (unbuilt_insert cache t (startCodec t) Emiss ltac:(eauto)). lia. }
    pose proof (buildFields_not_starved (getStructCodecLocked fuel) (fieldsOf env t) 0
                  (startBuilding cache t) (getStructCodecLocked_preserving fuel)) as Hn.
    destruct (buildFields _ _ 0 _); eauto.
    exfalso. apply Hn; [|reflexivity].
    intros cache2 k Hsub. apply IH.
    pose proof (unbuilt_mono _ _ Hsub). cbn in *. lia.
  - unfold fieldsOf. rewrite Edecl. cbn. eauto.
Qed.


(** *** What a finished codec says of its type *)

(** [range] visits every entry of a map once, in some order. *)
Hypothesis mapRange_entries :
  forall (A : Type) (m : gmap string A), mapRange A m ≡ₚ map_to_list m.

Definition exported (f : StructField) : bool := bool_decide (PkgPath f = EmptyString).

(** The name under which the fields of a nested struct are flattened. *)
Definition dotted (nm : string) : string :=
  if decide (nm <> EmptyString) then (nm +:+ ".")%string else nm.

(** The tag of field [f], of index [i], and the table entries it accounts
    for, in a codec with tables [bm] and [bn]; nested codecs are those the
    cache holds. *)
Definition fieldSpec (cache : Cache) (i : nat) (f : StructField) (st : structTag)
    (bm bn : gmap string nat) : Prop :=
  match readTag f with
  | TagMeta nm opts =>
      exists mv, convertMeta ParseInt opts (Type_ f) = inl mv /\
                 st = skipTag (mkStructTag EmptyString ShouldIndex false None false mv
                                           (exported f)) /\
                 bm !! nm = Some i
  | TagExcluded =>
      st = skipTag (mkStructTag EmptyString ShouldIndex false None false INil (exported f))
  | TagInvalid _ => False
  | TagName nm opts =>
      if exported f then
        match fieldShape env f false with
        | inr _ => False
        | inl (cv, sl, None, _) =>
            st = finishTag (mkStructTag EmptyString ShouldIndex sl None cv INil true) nm opts /\
            bn !! nm = Some i
        | inl (cv, sl, Some u, _) =>
            exists sub,
              cache !! structId u = Some sub /\ problem sub = None /\
              st = finishTag (mkStructTag EmptyString ShouldIndex sl (Some sub) cv INil true)
                             (dotted nm) opts /\
              forall rel, is_Some (byName sub !! rel) ->
                          bn !! (dotted nm +:+ rel)%string = Some i
        end
      else st = skipTag (mkStructTag EmptyString ShouldIndex false None false INil false)
  end.

(** A name of the table maps to an exported field that carries a name. *)
Definition namesSpec (fields : list StructField) (bn : gmap string nat) : Prop :=
  forall nm j, bn !! nm = Some j ->
    exists f nm0 opts,
      fields !! j = Some f /\ exported f = true /\ readTag f = TagName nm0 opts.

(** A name of the metadata table maps to the field tagged with it. *)
Definition metasSpec (fields : list StructField) (bm : gmap string nat) : Prop :=
  forall nm j, bm !! nm = Some j ->
    exists f opts, fields !! j = Some f /\ readTag f = TagMeta nm opts.

Definition codecSpec (cache : Cache) (t : string) (c : structCodec) : Prop :=
  List.length (byIndex c) = List.length (fieldsOf env t) /\
  (forall i f, fieldsOf env t !! i = Some f ->
     exists st, byIndex c !! i = Some st /\ fieldSpec cache i f st (byMeta c) (byName c)) /\
  namesSpec (fieldsOf env t) (byName c) /\
  metasSpec (fieldsOf env t) (byMeta c).

(** Every codec without problem of the cache describes its type. *)
Definition sound (cache : Cache) : Prop :=
  forall k ck, cache !! k = Some ck -> problem ck = None -> codecSpec cache k ck.

(** The codecs without problem of [cache] are in [cache'], unchanged. *)
Definition keeps (cache cache' : Cache) : Prop :=
  forall k ck, cache !! k = Some ck -> problem ck = None -> cache' !! k = Some ck.

Lemma keeps_refl cache : keeps cache cache.
Proof. intros k ck H _. exact H. Qed.

Lemma keeps_trans c1 c2 c3 : keeps c1 c2 -> keeps c2 c3 -> keeps c1 c3.
Proof. intros H12 H23 k ck H Hp. apply H23; auto. Qed.

Lemma subseteq_keeps (cache cache' : Cache) : cache ⊆ cache' -> keeps cache cache'.
Proof. intros Hsub k ck H _. eapply lookup_weaken; eauto. Qed.

Lemma fieldSpec_mono cache cache' i f st bm bm' bn bn' :
  keeps cache cache' -> bm ⊆ bm' -> bn ⊆ bn' ->
  fieldSpec cache i f st bm bn -> fieldSpec cache' i f st bm' bn'.
Proof.
  intros Hc Hm Hn. unfold fieldSpec.
  destruct (readTag f) as [nm opts| |nm|nm opts]; auto.
  - intros (mv & ? & ? & ?). exists mv. repeat split; auto.
    eapply lookup_weaken; eauto.
  - destruct (exported f); auto.
    destruct (fieldShape env f false) as [[[[cv sl] [u|]] h0]|e]; auto.
    + intros (sub & Hsub & Hp & Hst & Hrel). exists sub. repeat split; auto.
      intros rel Hr. eapply lookup_weaken; eauto.
    + intros [? ?]. split; auto. eapply lookup_weaken; eauto.
Qed.

Lemma codecSpec_mono cache cache' t c :
  keeps cache cache' -> codecSpec cache t c -> codecSpec cache' t c.
Proof.
  intros Hc (Hlen & Hf & Hn). split; [exact Hlen|]. split; [|exact Hn].
  intros i f Hi. destruct (Hf i f Hi) as (st & Hst & Hspec).
  exists st. split; [exact Hst|].
  eapply fieldSpec_mono; eauto.
Qed.

Lemma sound_keeps_step (cache : Cache) (t : string) (c : structCodec) :
  sound cache ->
  (forall c0, cache !! t = Some c0 -> problem c0 <> None) ->
  (problem c = None -> codecSpec cache t c) ->
  sound (<[t := c]> cache).
Proof.
  intros Hs Ht Hc.
  assert (Hk : keeps cache (<[t := c]> cache)).
  { intros k ck Hk Hp. destruct (decide (t = k)) as [<-|Hne].
    - exfalso. eapply Ht; eauto.
    - now rewrite lookup_insert_ne. }
  intros k ck Hlook Hp. destruct (decide (t = k)) as [<-|Hne].
  - rewrite lookup_insert_eq in Hlook. injection Hlook as <-.
    eapply codecSpec_mono; eauto.
  - rewrite lookup_insert_ne in Hlook by exact Hne.
    eapply codecSpec_mono; eauto.
Qed.


(** *** The field loop establishes the specification *)

Lemma mapRange_names (m : gmap string nat) (r : string) :
  r ∈ (mapRange nat m).*1 <-> is_Some (m !! r).
Proof.
  rewrite mapRange_entries. split.
  - intros ([r' j] & -> & Hin)%list_elem_of_fmap. exists j.
    now apply elem_of_map_to_list.
  - intros [j Hj]. apply list_elem_of_fmap. exists (r, j).
    split; [reflexivity|]. now apply elem_of_map_to_list.
Qed.

Lemma addNames_ok prefix i rel bn bn' :
  addNames prefix i rel bn = inl bn' ->
  bn ⊆ bn' /\
  (forall r, r ∈ rel.*1 -> bn' !! (prefix +:+ r)%string = Some i) /\
  (forall nm j, bn' !! nm = Some j -> bn !! nm = Some j \/ j = i).
Proof.
  revert bn. induction rel as [|[r j0] rel IH]; intros bn.
  - cbn. intros [= <-]. split; [reflexivity|]. split; [|auto].
    intros r Hr. inversion Hr.
  - cbn [addNames]. destruct (bn !! (prefix +:+ r)%string) eqn:E; [discriminate|].
    intros H. apply IH in H as (Hsub & Hall & Hinv).
    assert (Hsub0 : bn ⊆ <[(prefix +:+ r)%string := i]> bn) by now apply insert_subseteq.
    split; [etransitivity; eassumption|]. split.
    + intros r' [->|Hr']%elem_of_cons.
      * eapply lookup_weaken; [apply lookup_insert_eq|exact Hsub].
      * now apply Hall.
    + intros nm j Hj. destruct (Hinv nm j Hj) as [Hold| ->]; [|now right].
      destruct (decide ((prefix +:+ r)%string = nm)) as [<-|Hne].
      * rewrite lookup_insert_eq in Hold. injection Hold as <-. now right.
      * rewrite lookup_insert_ne in Hold by exact Hne. now left.
Qed.

(** What is asked of the function that builds nested codecs. *)
Record builder (rec : Cache -> string -> option (Cache * structCodec)) : Prop := {
  builder_preserving : preserving rec;
  builder_cached : forall cache k cache' c,
      rec cache k = Some (cache', c) -> cache' !! k = Some c;
  builder_sound : forall cache k cache' c,
      sound cache -> rec cache k = Some (cache', c) -> sound cache'
}.

Lemma buildField_sound rec i f cache bm bn hs :
  builder rec -> sound cache ->
  match buildField rec i f cache bm bn hs with
  | Next cache' _ _ _ _ | Fail cache' _ _ => sound cache'
  | NoFuel => True
  end.
Proof.
  intros Hrec Hs. unfold RawDatastore.buildField.
  destruct (RawDatastore.readTag _ _ f) as [nm opts| |nm|nm opts]; try exact Hs.
  - destruct (bm !! nm); [exact Hs|]. destruct (convertMeta _ _ _); exact Hs.
  - destruct (negb _); [exact Hs|]. unfold RawDatastore.fieldByType.
    destruct (fieldShape env f hs) as [[[[cv sl] [u|]] hs']|e]; try exact Hs.
    + destruct (rec cache (structId u)) as [[cache' sub]|] eqn:E; [|exact I].
      apply (builder_sound _ Hrec) in E; [|exact Hs].
      destruct (problem sub) as [e|].
      * destruct (decide _); exact E.
      * destruct (sl && hasSlice sub); [exact E|].
        destruct (addNames _ _ _ _); exact E.
    + destruct (negb cv && _); [exact Hs|]. destruct (bn !! nm); exact Hs.
Qed.

Lemma buildField_next_spec rec i f cache bm bn hs cache' bm' bn' hs' st :
  builder rec ->
  buildField rec i f cache bm bn hs = Next cache' bm' bn' hs' st ->
  bm ⊆ bm' /\ bn ⊆ bn' /\
  fieldSpec cache' i f st bm' bn' /\
  (forall nm j, bn' !! nm = Some j ->
     bn !! nm = Some j \/
     (j = i /\ exported f = true /\ exists nm0 opts, readTag f = TagName nm0 opts)) /\
  (forall nm j, bm' !! nm = Some j ->
     bm !! nm = Some j \/ (j = i /\ exists opts, readTag f = TagMeta nm opts)).
Proof.
  intros Hrec. unfold RawDatastore.buildField, fieldSpec. fold (exported f).
  destruct (readTag f) as [nm opts| |nm|nm opts] eqn:Etag.
  - destruct (bm !! nm) eqn:Em; [discriminate|].
    destruct (convertMeta _ _ _) as [mv|] eqn:Ec; [|discriminate].
    intros [= <- <- <- <- <-]. split; [now apply insert_subseteq|].
    split; [reflexivity|]. split; [|split; [auto|]].
    + exists mv. split; [reflexivity|]. split; [reflexivity|apply lookup_insert_eq].
    + intros nm' j Hj. destruct (decide (nm = nm')) as [<-|Hne].
      * rewrite lookup_insert_eq in Hj. injection Hj as <-. right. eauto.
      * rewrite lookup_insert_ne in Hj by exact Hne. now left.
  - intros [= <- <- <- <- <-]. repeat split; auto.
  - discriminate.
  - destruct (exported f) eqn:Eexp; cbn [negb].
    2:{ intros [= <- <- <- <- <-]. repeat split; auto. }
    unfold RawDatastore.fieldByType. rewrite fieldShape_hasSlice.
    destruct (fieldShape env f false) as [[[[cv sl] [u|]] h0]|e]; [| |discriminate].
    + destruct (rec cache (structId u)) as [[cache1 sub]|] eqn:E; [|discriminate].
      destruct (problem sub) as [e|] eqn:Ep; [destruct (decide _); discriminate|].
      destruct (sl && hasSlice sub); [discriminate|].
      fold (dotted nm).
      destruct (addNames _ _ _ _) as [bn1|e] eqn:Ea; [|discriminate].
      intros [= <- <- <- <- <-].
      apply addNames_ok in Ea as (Hsub & Hall & Hinv).
      split; [reflexivity|]. split; [exact Hsub|]. split; [|split; [|auto]].
      * exists sub. split; [eapply builder_cached; eauto|]. split; [exact Ep|].
        split; [reflexivity|]. intros rel Hrel. apply Hall. now apply mapRange_names.
      * intros nm' j Hj. destruct (Hinv nm' j Hj) as [?| ->]; [now left|right].
        eauto.
    + destruct (negb cv && _); [discriminate|].
      destruct (bn !! nm) eqn:En; [discriminate|].
      intros [= <- <- <- <- <-].
      split; [reflexivity|]. split; [now apply insert_subseteq|]. split; [|split; [|auto]].
      * split; [reflexivity|apply lookup_insert_eq].
      * intros nm' j Hj. destruct (decide (nm = nm')) as [<-|Hne].
        -- rewrite lookup_insert_eq in Hj. injection Hj as <-. right. eauto.
        -- rewrite lookup_insert_ne in Hj by exact Hne. now left.
Qed.


Lemma buildFields_sound rec fields i b :
  builder rec -> sound (b_cache b) ->
  match buildFields rec fields i b with
  | Complete b' => sound (b_cache b')
  | Problematic cache' _ _ => sound cache'
  | Starved => True
  end.
Proof.
  intros Hrec. revert i b. induction fields as [|f fields IH]; intros i b Hs.
  - exact Hs.
  - cbn [RawDatastore.buildFields].
    pose proof (buildField_sound rec i f (b_cache b) (b_byMeta b) (b_byName b)
                  (b_hasSlice b) Hrec Hs) as H1.
    destruct (buildField rec i f _ _ _ _) as [cache' bm' bn' hs' st|cache' hs' e|];
      [|exact H1|exact I].
    apply IH. exact H1.
Qed.

Lemma buildFields_spec rec fields i b b' :
  builder rec ->
  buildFields rec fields i b = Complete b' ->
  b_byMeta b ⊆ b_byMeta b' /\ b_byName b ⊆ b_byName b' /\
  exists tags,
    b_tags b' = b_tags b ++ tags /\
    List.length tags = List.length fields /\
    (forall k f, fields !! k = Some f ->
       exists st, tags !! k = Some st /\
                  fieldSpec (b_cache b') (i + k) f st (b_byMeta b') (b_byName b')) /\
    (forall nm j, b_byName b' !! nm = Some j ->
       b_byName b !! nm = Some j \/
       exists k f nm0 opts,
         j = i + k /\ fields !! k = Some f /\ exported f = true /\
         readTag f = TagName nm0 opts) /\
    (forall nm j, b_byMeta b' !! nm = Some j ->
       b_byMeta b !! nm = Some j \/
       exists k f opts,
         j = i + k /\ fields !! k = Some f /\ readTag f = TagMeta nm opts).
Proof.
  intros Hrec. revert i b. induction fields as [|f fields IH]; intros i b.
  - cbn. intros [= <-]. split; [reflexivity|]. split; [reflexivity|].
    exists []. rewrite app_nil_r. repeat split; auto. intros k f Hk. inversion Hk.
  - cbn [RawDatastore.buildFields].
    destruct (buildField rec i f _ _ _ _) as [cache1 bm1 bn1 hs1 st|cache1 hs1 e|] eqn:E;
      [|discriminate|discriminate].
    intros Hrest.
    pose proof (buildFields_cache rec fields (S i)
                  (mkBuilding cache1 bm1 bn1 (b_tags b ++ [st]) hs1)
                  (builder_preserving _ Hrec)) as Hcache.
    rewrite Hrest in Hcache. cbn in Hcache.
    apply buildField_next_spec in E as (Hm1 & Hn1 & Hspec1 & Hinv1 & Hmeta1); [|exact Hrec].
    apply IH in Hrest as (Hm2 & Hn2 & tags & Htags & Hlen & Hspec2 & Hinv2 & Hmeta2).
    cbn in Hm2, Hn2, Htags, Hinv2, Hmeta2.
    split; [etransitivity; eassumption|]. split; [etransitivity; eassumption|].
    exists (st :: tags). split; [now rewrite Htags, <- app_assoc|].
    split; [cbn; now rewrite Hlen|]. split; [|split].
    + intros [|k] f' Hk; cbn in Hk.
      * injection Hk as <-. exists st. split; [reflexivity|].
        rewrite Nat.add_0_r.
        eapply fieldSpec_mono; [apply subseteq_keeps, Hcache|exact Hm2|exact Hn2|exact Hspec1].
      * destruct (Hspec2 k f' Hk) as (st' & Hst' & Hsp). exists st'.
        split; [exact Hst'|]. now rewrite Nat.add_succ_r.
    + intros nm j Hj. destruct (Hinv2 nm j Hj) as [Hold|(k & f' & nm0 & opts & -> & Hk & He & Ht)].
      * destruct (Hinv1 nm j Hold) as [?|(-> & He & nm0 & opts & Ht)]; [now left|].
        right. exists 0, f, nm0, opts. rewrite Nat.add_0_r. auto.
      * right. exists (S k), f', nm0, opts. rewrite Nat.add_succ_r. auto.
    + intros nm j Hj. destruct (Hmeta2 nm j Hj) as [Hold|(k & f' & opts & -> & Hk & Ht)].
      * destruct (Hmeta1 nm j Hold) as [?|(-> & opts & Ht)]; [now left|].
        right. exists 0, f, opts. rewrite Nat.add_0_r. auto.
      * right. exists (S k), f', opts. rewrite Nat.add_succ_r. auto.
Qed.

(** During the construction of [t], and whatever its outcome, the cache
    entry of [t] is the codec under construction. *)
Lemma under_construction (rec : Cache -> string -> option (Cache * structCodec))
    (cache : Cache) (t : string) (fields : list StructField) :
  preserving rec ->
  match buildFields rec fields 0 (startBuilding cache t) with
  | Complete b => b_cache b !! t = Some (startCodec t)
  | Problematic cache' _ _ => cache' !! t = Some (startCodec t)
  | Starved => True
  end.
Proof.
  intros Hrec.
  pose proof (buildFields_cache rec fields 0 (startBuilding cache t) Hrec) as Hc.
  destruct (buildFields rec fields 0 _); [| |exact I];
    (eapply lookup_weaken; [|exact Hc]); apply lookup_insert_eq.
Qed.

(** Schema construction is sound: it keeps the cache sound, so the codec it
    returns, when without problem, describes the type. *)
Lemma getStructCodecLocked_builder (fuel : nat) : builder (getStructCodecLocked fuel).
Proof.
  induction fuel as [|fuel IH]; split.
  - apply getStructCodecLocked_preserving.
  - intros. eapply getStructCodecLocked_cached; eauto.
  - intros cache k cache' c Hs. rewrite getStructCodecLocked_O.
    destruct (cache !! k); [|discriminate]. now intros [= <- <-].
  - apply getStructCodecLocked_preserving.
  - intros. eapply getStructCodecLocked_cached; eauto.
  - intros cache t cache' c Hs. rewrite getStructCodecLocked_S.
    destruct (cache !! t) eqn:Emiss; [now intros [= <- <-]|].
    assert (Hs1 : sound (b_cache (startBuilding cache t))).
    { apply sound_keeps_step; [exact Hs|congruence|discriminate]. }
    pose proof (buildFields_sound (getStructCodecLocked fuel) (fieldsOf env t) 0
                  (startBuilding cache t) IH Hs1) as Hs2.
    pose proof (under_construction (getStructCodecLocked fuel) cache t (fieldsOf env t)
                  (builder_preserving _ IH)) as Hu.
    destruct (buildFields _ _ 0 _) as [b|cache2 hs e|] eqn:E; [| |discriminate];
      intros [= <- <-].
    + apply sound_keeps_step; [exact Hs2| |].
      * intros c0 Hc0. rewrite Hu in Hc0. injection Hc0 as <-. discriminate.
      * intros _.
        apply buildFields_spec in E as (_ & _ & tags & Htags & Hlen & Hspec & Hinv & Hmeta);
          [|exact IH].
        cbn in Htags. unfold codecSpec. cbn [byIndex byMeta byName].
        rewrite Htags. split; [exact Hlen|]. split; [|split].
        -- intros i f Hi. destruct (Hspec i f Hi) as (st & Hst & Hsp). eauto.
        -- intros nm j Hj. destruct (Hinv nm j Hj) as [Hold|(k & f & nm0 & opts & -> & ?)].
           ++ cbn in Hold. rewrite lookup_empty in Hold. discriminate.
           ++ exists f, nm0, opts. tauto.
        -- intros nm j Hj. destruct (Hmeta nm j Hj) as [Hold|(k & f & opts & -> & ?)].
           ++ cbn in Hold. rewrite lookup_empty in Hold. discriminate.
           ++ exists f, opts. tauto.
    + apply sound_keeps_step; [exact Hs2| |discriminate].
      intros c0 Hc0. rewrite Hu in Hc0. injection Hc0 as <-. discriminate.
Qed.

Theorem getStructCodecLocked_sound (fuel : nat) (cache cache' : Cache) (t : string) c :
  sound cache ->
  getStructCodecLocked fuel cache t = Some (cache', c) ->
  sound cache' /\ cache' !! t = Some c /\ (problem c = None -> codecSpec cache' t c).
Proof.
  intros Hs Hget.
  pose proof (getStructCodecLocked_builder fuel) as [_ Hc Hsound].
  assert (Hs' : sound cache') by (eapply Hsound; eauto).
  assert (Hc' : cache' !! t = Some c) by (eapply Hc; eauto).
  auto.
Qed.

Lemma sound_empty : sound ∅.
Proof. intros k ck H. rewrite lookup_empty in H. discriminate. Qed.


(** *** A cyclic definition is never accepted *)

(** [t] has a field that makes the construction descend into the struct
    type [u]. *)
Definition descends (t u : string) : Prop :=
  exists f ut, f ∈ fieldsOf env t /\ nestedType f = Some ut /\ structId ut = u.

(** In a sound cache, the codec of a type without problem holds, strictly
    inside it, the codec without problem of every type it descends into. *)
Lemma descends_nested (cache : Cache) (t u : string) (c : structCodec) :
  sound cache -> cache !! t = Some c -> problem c = None -> descends t u ->
  exists sub, cache !! u = Some sub /\ problem sub = None /\
              codecSize sub < codecSize c.
Proof.
  intros Hs Hc Hp (f & ut & Hin & Hn & <-).
  destruct (Hs t c Hc Hp) as (_ & Hf & _ & _).
  apply list_elem_of_lookup in Hin as [i Hi].
  destruct (Hf i f Hi) as (st & Hst & Hspec).
  revert Hn Hspec. unfold fieldSpec, RawDatastore.nestedType. fold (exported f).
  destruct (readTag f) as [| | |nm opts]; try discriminate.
  destruct (exported f); [|discriminate].
  destruct (fieldShape env f false) as [[[[cv sl] [u|]] h0]|e]; try discriminate.
  intros [= ->] (sub & Hsub & Hpsub & -> & _).
  exists sub. split; [exact Hsub|]. split; [exact Hpsub|].
  eapply codecSize_nested; [eapply list_elem_of_lookup_2, Hst|reflexivity].
Qed.

Lemma descends_nested_tc (cache : Cache) (t u : string) (c : structCodec) :
  sound cache -> cache !! t = Some c -> problem c = None -> tc descends t u ->
  exists sub, cache !! u = Some sub /\ problem sub = None /\
              codecSize sub < codecSize c.
Proof.
  intros Hs Hc Hp Htc. revert c Hc Hp.
  induction Htc as [t u Hd|t v u Hd Htc IH]; intros c Hc Hp.
  - eapply descends_nested; eauto.
  - destruct (descends_nested cache t v c Hs Hc Hp Hd) as (cv & Hcv & Hpv & Hlt).
    destruct (IH cv Hcv Hpv) as (sub & Hsub & Hpsub & Hlt').
    exists sub. split; [exact Hsub|]. split; [exact Hpsub|]. lia.
Qed.

(** A type from which a cycle of nested struct fields can be reached has
    no codec without problem in a sound cache. *)
Lemma cyclic_has_problem (cache : Cache) (t u : string) (c : structCodec) :
  sound cache -> cache !! t = Some c ->
  rtc descends t u -> tc descends u u ->
  exists e, problem c = Some e.
Proof.
  intros Hs Hc Hreach Hcycle.
  destruct (problem c) as [e|] eqn:Hp; [eauto|exfalso].
  assert (Hu : exists cu, cache !! u = Some cu /\ problem cu = None).
  { clear Hcycle. revert c Hc Hp.
    induction Hreach as [t|t v u Hd Hreach IH]; intros c Hc Hp; [eauto|].
    destruct (descends_nested cache t v c Hs Hc Hp Hd) as (cv & Hcv & Hpv & _).
    eauto. }
  destruct Hu as (cu & Hcu & Hpu).
  destruct (descends_nested_tc cache u u cu Hs Hcu Hpu Hcycle) as (sub & Hsub & _ & Hlt).
  rewrite Hcu in Hsub. injection Hsub as <-. lia.
Qed.

(** C7. Recursive struct definitions.

    First part.  Let the construction of the schema of [t] have come,
    without problem, to a field [f] that makes it descend into the struct
    type [u].  If [u] is under construction at that moment (as [t] itself
    always is), the construction of [t] returns a codec whose problem is
    "field [f] is recursively defined", with its tables freed.  If the
    construction of [u] returns a codec whose problem reports a recursive
    definition, the construction of [t] returns a codec whose problem is
    that report under field [f].  In both cases the codec is the one the
    cache then holds for [t], so any later construction attempt returns the
    same codec and error.

    Second part.  A cyclic definition is never accepted: whenever a cycle
    of nested struct fields can be reached from [t], the codec that the
    construction returns for [t] has a problem. *)
Theorem recursive_struct_is_reported :
  (forall (fuel : nat) (cache : Cache) (t : string)
          (pre post : list StructField) (f : StructField) (b : Building) (u : GoType),
     cache !! t = None ->
     fieldsOf env t = pre ++ f :: post ->
     buildFields (getStructCodecLocked fuel) pre 0 (startBuilding cache t) = Complete b ->
     nestedType f = Some u ->
     b_cache b !! t = Some (startCodec t) /\
     (forall cu, b_cache b !! structId u = Some cu ->
                 problem cu = Some errRecursiveStruct ->
        exists cache' c,
          getStructCodecLocked (S fuel) cache t = Some (cache', c) /\
          problem c = Some (ErrFieldRecursive (Name f)) /\
          byIndex c = [] /\ byName c = ∅ /\ byMeta c = ∅ /\
          forall fuel', getStructCodecLocked fuel' cache' t = Some (cache', c)) /\
     (forall cache2 sub e,
        getStructCodecLocked fuel (b_cache b) (structId u) = Some (cache2, sub) ->
        problem sub = Some e -> reportsRecursion e ->
        exists cache' c,
          getStructCodecLocked (S fuel) cache t = Some (cache', c) /\
          problem c = Some (ErrFieldProblem (Name f) e) /\
          reportsRecursion (ErrFieldProblem (Name f) e) /\
          byIndex c = [] /\ byName c = ∅ /\ byMeta c = ∅ /\
          forall fuel', getStructCodecLocked fuel' cache' t = Some (cache', c))) /\
  (forall (fuel : nat) (cache cache' : Cache) (t u : string) (c : structCodec),
     sound cache ->
     getStructCodecLocked fuel cache t = Some (cache', c) ->
     rtc descends t u -> tc descends u u ->
     exists e, problem c = Some e /\
               forall fuel', getStructCodecLocked fuel' cache' t = Some (cache', c)).
Proof.
  split.
  - intros fuel cache t pre post f b u. apply recursion_reported_at_field.
  - intros fuel cache cache' t u c Hs Hget Hreach Hcycle.
    destruct (getStructCodecLocked_sound fuel cache cache' t c Hs Hget)
      as (Hs' & Hc' & _).
    destruct (cyclic_has_problem cache' t u c Hs' Hc' Hreach Hcycle) as [e He].
    exists e. split; [exact He|].
    intros fuel'. now apply getStructCodecLocked_hit.
Qed.

(** *** Repeated property names *)

Lemma construction_fails_at (fuel : nat) (cache : Cache) (t : string)
    (pre post : list StructField) (f : StructField) (b : Building)
    (cache2 : Cache) (hs : bool) (e : SchemaError) :
  cache !! t = None ->
  fieldsOf env t = pre ++ f :: post ->
  buildFields (getStructCodecLocked fuel) pre 0 (startBuilding cache t) = Complete b ->
  buildField (getStructCodecLocked fuel) (List.length pre) f (b_cache b)
             (b_byMeta b) (b_byName b) (b_hasSlice b) = Fail cache2 hs e ->
  getStructCodecLocked (S fuel) cache t
  = Some (<[t := mkStructCodec ∅ ∅ [] hs (Some e)]> cache2,
          mkStructCodec ∅ ∅ [] hs (Some e)).
Proof.
  intros Hmiss Hfields Hpre Hstep.
  rewrite getStructCodecLocked_S, Hmiss, Hfields, buildFields_app, Hpre.
  cbn [RawDatastore.buildFields Nat.add]. now rewrite Hstep.
Qed.

Lemma append_cancel_l (p a b : string) : (p +:+ a)%string = (p +:+ b)%string -> a = b.
Proof.
  intros H. pose proof (sliceFrom_app p a) as Ha. rewrite H, sliceFrom_app in Ha.
  now injection Ha.
Qed.

(** The name reported is one the table held before the field was reached,
    whatever the order in which the names of the nested struct come. *)
Lemma addNames_collision prefix i rel bn :
  NoDup rel.*1 ->
  (exists r, r ∈ rel.*1 /\ is_Some (bn !! (prefix +:+ r)%string)) ->
  exists r, r ∈ rel.*1 /\ is_Some (bn !! (prefix +:+ r)%string) /\
            addNames prefix i rel bn = inr (ErrRepeatedName (prefix +:+ r)).
Proof.
  revert bn. induction rel as [|[r0 j0] rel IH]; intros bn Hnd (r & Hin & Hsome).
  - inversion Hin.
  - cbn [addNames]. cbn in Hnd. apply NoDup_cons in Hnd as [Hr0 Hnd].
    destruct (bn !! (prefix +:+ r0)%string) eqn:E.
    + exists r0. split; [left|]. split; [rewrite E; eauto|reflexivity].
    + cbn in Hin. apply elem_of_cons in Hin as [->|Hin].
      * rewrite E in Hsome. destruct Hsome; discriminate.
      * destruct (IH (<[(prefix +:+ r0)%string := i]> bn) Hnd) as (r' & Hin' & Hs' & Hr').
        { exists r. split; [exact Hin|].
          destruct (decide ((prefix +:+ r0)%string = (prefix +:+ r)%string)) as [<-|Hne].
          - rewrite lookup_insert_eq. eauto.
          - now rewrite lookup_insert_ne. }
        exists r'. split; [now right|]. split; [|exact Hr'].
        rewrite lookup_insert_ne in Hs'; [exact Hs'|].
        intros Heq. apply append_cancel_l in Heq. subst r'. contradiction.
Qed.

Lemma mapRange_NoDup (m : gmap string nat) : NoDup (mapRange nat m).*1.
Proof. rewrite mapRange_entries. apply NoDup_fst_map_to_list. Qed.

(** A plain field whose name is already in the table. *)
Lemma buildField_repeated_plain rec i f cache bm bn hs nm opts cv sl h0 :
  exported f = true -> readTag f = TagName nm opts ->
  fieldShape env f false = inl (cv, sl, None, h0) ->
  negb cv && negb (propertyTypeOK env
                     (if sl then default (TOther "") (elemOf (Type_ f)) else Type_ f)) = false ->
  is_Some (bn !! nm) ->
  buildField rec i f cache bm bn hs = Fail cache (hs || h0) (ErrRepeatedName nm).
Proof.
  intros Hexp Htag Hshape Hok [j Hj].
  unfold RawDatastore.buildField. fold (exported f). rewrite Htag, Hexp. cbn [negb].
  unfold RawDatastore.fieldByType. rewrite fieldShape_hasSlice, Hshape, Hok, Hj.
  reflexivity.
Qed.

(** A nested struct one of whose flattened names is already in the table. *)
Lemma buildField_repeated_nested rec i f cache bm bn hs nm opts cv sl u h0 cache1 sub :
  exported f = true -> readTag f = TagName nm opts ->
  fieldShape env f false = inl (cv, sl, Some u, h0) ->
  rec cache (structId u) = Some (cache1, sub) ->
  problem sub = None -> sl && hasSlice sub = false ->
  (exists rel, is_Some (byName sub !! rel) /\
               is_Some (bn !! (dotted nm +:+ rel)%string)) ->
  exists rel,
    is_Some (byName sub !! rel) /\ is_Some (bn !! (dotted nm +:+ rel)%string) /\
    buildField rec i f cache bm bn hs
    = Fail cache1 (hs || h0 || hasSlice sub) (ErrRepeatedName (dotted nm +:+ rel)).
Proof.
  intros Hexp Htag Hshape Hrec Hp Hsl (rel & Hrel & Hsome).
  destruct (addNames_collision (dotted nm) i (mapRange nat (byName sub)) bn
              (mapRange_NoDup _))
    as (r & Hin & Hs & Hadd).
  { exists rel. split; [now apply mapRange_names|exact Hsome]. }
  exists r. split; [now apply mapRange_names|]. split; [exact Hs|].
  unfold RawDatastore.buildField. fold (exported f). rewrite Htag, Hexp. cbn [negb].
  unfold RawDatastore.fieldByType. rewrite fieldShape_hasSlice, Hshape, Hrec, Hp, Hsl.
  fold (dotted nm). now rewrite Hadd.
Qed.

(** A name in the table of a construction under way was put there by an
    earlier field that is exported and carries a name. *)
Lemma name_has_source (fuel : nat) (cache : Cache) (t : string)
    (pre : list StructField) (b : Building) (nm : string) :
  buildFields (getStructCodecLocked fuel) pre 0 (startBuilding cache t) = Complete b ->
  is_Some (b_byName b !! nm) ->
  exists k f0 nm0 opts0,
    b_byName b !! nm = Some k /\ pre !! k = Some f0 /\
    exported f0 = true /\ readTag f0 = TagName nm0 opts0.
Proof.
  intros Hpre [k Hk].
  apply buildFields_spec in Hpre as (_ & _ & tags & _ & _ & _ & Hinv & _);
    [|apply getStructCodecLocked_builder].
  destruct (Hinv nm k Hk) as [Hold|(k' & f0 & nm0 & opts0 & -> & Hf0 & He & Ht)].
  - cbn in Hold. rewrite lookup_empty in Hold. discriminate.
  - exists k', f0, nm0, opts0. auto.
Qed.


End BuildTheory.

(** ** Save *)

Section SaveTheory.

Variable env : TypeEnv.
Variable ToProperty : Value -> Property + string.
Variable SetValue : Iface -> IndexSetting -> Property + string.

Local Abbreviation saveLeaf := (saveLeaf env ToProperty SetValue).
Local Abbreviation saveProp := (saveProp env ToProperty SetValue).
Local Abbreviation saveFields := (saveFields env ToProperty SetValue).
Local Abbreviation saveWith := (saveWith env ToProperty SetValue).
Local Abbreviation save := (save env ToProperty SetValue).

Local Open Scope Z_scope.

Definition limited (m k' : Z) (pm' : PropertyMap) : exec (Error + PropertyMap * Z) :=
  if m <? k' then Return (inl ErrTooManyIndexed) else Return (inr (pm', k')).

(** A step [bounded] of the save with ceiling [m] against the same step
    [free] without a ceiling: whenever the free step goes through, the count
    has not decreased and, if it was within the ceiling before, the bounded
    step gives the same map and count when the count stays within the
    ceiling, and the limit error otherwise. *)
Definition follows (m : Z)
    (free bounded : PropertyMap -> Z -> exec (Error + PropertyMap * Z)) : Prop :=
  forall pm k pm' k',
    0 <= k ->
    free pm k = Return (inr (pm', k')) ->
    k <= k' /\ (k <= m -> bounded pm k = limited m k' pm').

(** The same for a whole [save], which starts its count at 0. *)
Definition codec_follows (m : Z) (c : structCodec) : Prop :=
  forall o pm prefix idx pm' n,
    saveWith None c o pm prefix idx = Return (inr (pm', n)) ->
    0 <= n /\ saveWith (Some m) c o pm prefix idx = limited m n pm'.

Lemma saveLeaf_follows (m : Z) st nm si v :
  follows m (saveLeaf None st nm si v) (saveLeaf (Some m) st nm si v).
Proof.
  intros pm k pm' k' Hk. unfold RawDatastore.saveLeaf, limited.
  destruct (if convert st then _ else _) as [[prop|msg]|]; simpl; try discriminate.
  destruct (decide (propIndexSetting prop = ShouldIndex)); simpl.
  - intros [= <- <-]. split; [lia|reflexivity].
  - intros [= <- <-]. split; [lia|]. intros Hm.
    destruct (Z.ltb_spec m k); [lia|reflexivity].
Qed.

Lemma saveElems_follows (m : Z) free bounded :
  (forall v, follows m (free v) (bounded v)) ->
  forall elems, follows m (saveElems free elems) (saveElems bounded elems).
Proof.
  intros H elems. induction elems as [|v elems IH]; intros pm k pm' k' Hk.
  - simpl. intros [= <- <-]. split; [lia|]. intros Hm. unfold limited.
    destruct (Z.ltb_spec m k); [lia|reflexivity].
  - simpl. destruct (free v pm k) as [[err|[pm1 k1]]|] eqn:E; simpl; try discriminate.
    intros Hrest.
    destruct (H v pm k pm1 k1 Hk E) as [Hle Hb].
    destruct (IH pm1 k1 pm' k' ltac:(lia) Hrest) as [Hle' Hb'].
    split; [lia|]. intros Hm. rewrite (Hb Hm). unfold limited at 1.
    destruct (Z.ltb_spec m k1) as [Hover|Hin]; simpl.
    + unfold limited. destruct (Z.ltb_spec m k'); [reflexivity|lia].
    + apply Hb'. lia.
Qed.

Lemma saveProp_follows (m : Z) free bounded st nm si v :
  (forall sub, substructCodec st = Some sub ->
     forall o pm prefix idx pm' n,
       free sub o pm prefix idx = Return (inr (pm', n)) ->
       0 <= n /\ bounded sub o pm prefix idx = limited m n pm') ->
  follows m (saveProp free None st nm si v) (saveProp bounded (Some m) st nm si v).
Proof.
  intros Hsub. unfold RawDatastore.saveProp.
  destruct (substructCodec st) as [sub|]; [|apply saveLeaf_follows].
  intros pm k pm' k' Hk.
  destruct (free sub v pm nm si) as [[err|[pm1 n]]|] eqn:E; simpl; try discriminate.
  intros [= <- <-].
  destruct (Hsub sub eq_refl _ _ _ _ _ _ E) as [Hn Hb]. rewrite Hb.
  split; [lia|]. intros Hm. unfold limited.
  destruct (Z.ltb_spec m n); simpl.
  - destruct (Z.ltb_spec m (k + n)); [reflexivity|lia].
  - reflexivity.
Qed.

Lemma saveFields_follows (m : Z) free bounded o prefix idx tags :
  Forall (fun st => forall sub, substructCodec st = Some sub ->
     forall o pm prefix idx pm' n,
       free sub o pm prefix idx = Return (inr (pm', n)) ->
       0 <= n /\ bounded sub o pm prefix idx = limited m n pm') tags ->
  forall i,
    follows m (saveFields free None o prefix idx tags i)
              (saveFields bounded (Some m) o prefix idx tags i).
Proof.
  induction 1 as [|st tags Hst Htags IH]; intros i pm k pm' k' Hk.
  - simpl. intros [= <- <-]. split; [lia|]. intros Hm. unfold limited.
    destruct (Z.ltb_spec m k); [lia|reflexivity].
  - cbn [RawDatastore.saveFields].
    destruct (decide (name st = "-"%string)); [apply IH; exact Hk|].
    destruct (Field o i) as [v|]; [|discriminate].
    set (nm := if decide (prefix <> EmptyString) then _ else _).
    set (is1 := if decide (idxSetting st = NoIndex) then _ else _).
    assert (Hstep : follows m
              (fun pm k => if isSlice st then
                             match vdata v with
                             | DSlice elems => saveElems (saveProp free None st nm is1) elems pm k
                             | _ => Panic
                             end
                           else saveProp free None st nm is1 v pm k)
              (fun pm k => if isSlice st then
                             match vdata v with
                             | DSlice elems => saveElems (saveProp bounded (Some m) st nm is1) elems pm k
                             | _ => Panic
                             end
                           else saveProp bounded (Some m) st nm is1 v pm k)).
    { destruct (isSlice st).
      - destruct (vdata v); try (intros ? ? ? ? ?; discriminate).
        apply saveElems_follows. intros v'. apply saveProp_follows, Hst.
      - apply saveProp_follows, Hst. }
    destruct (if isSlice st then _ else _) as [[err|[pm1 k1]]|] eqn:E at 1;
      simpl; try discriminate.
    intros Hrest.
    destruct (Hstep pm k pm1 k1 Hk E) as [Hle Hb].
    destruct (IH (S i) pm1 k1 pm' k' ltac:(lia) Hrest) as [Hle' Hb'].
    split; [lia|]. intros Hm. rewrite (Hb Hm). unfold limited at 1.
    destruct (Z.ltb_spec m k1); simpl.
    + unfold limited. destruct (Z.ltb_spec m k'); [reflexivity|lia].
    + apply Hb'. lia.
Qed.

Lemma saveWith_follows (m : Z) (c : structCodec) : 0 <= m -> codec_follows m c.
Proof.
  intros Hm. induction c as [bm bn tags hs pr IH] using structCodec_nested_ind.
  intros o pm prefix idx pm' n. cbn [RawDatastore.saveWith Problem problem byIndex].
  destruct pr as [e|]; [discriminate|].
  intros Hfree.
  destruct (saveFields_follows m _ _ o prefix idx tags IH 0%nat pm 0 pm' n
              ltac:(lia) Hfree) as [Hn Hb].
  split; [exact Hn|]. apply Hb. exact Hm.
Qed.

(** *** A skipped field is not read *)



(** *** The property map only grows *)

(** Every list of [pm] is a prefix of the list under the same name in [pm']. *)
Definition extends (pm pm' : PropertyMap) : Prop :=
  forall k l, pm !! k = Some l -> exists l', pm' !! k = Some (l ++ l').

Lemma extends_refl pm : extends pm pm.
Proof. intros k l H. exists []. now rewrite app_nil_r. Qed.

Lemma extends_trans pm1 pm2 pm3 : extends pm1 pm2 -> extends pm2 pm3 -> extends pm1 pm3.
Proof.
  intros H12 H23 k l H. destruct (H12 k l H) as (l1 & H1).
  destruct (H23 k _ H1) as (l2 & H2). exists (l1 ++ l2). now rewrite app_assoc.
Qed.

(** What [saveProp] makes of a field that is not a nested struct. *)
Definition converted (st : structTag) (si : IndexSetting) (v : Value)
    : exec (Property + string) :=
  if convert st then
    if implementsPropertyConverter env (vtype v) then Return (ToProperty v) else Panic
  else Return (SetValue (IValue v) si).

Lemma saveLeaf_appends ceiling st nm si v pm k pm' k' :
  saveLeaf ceiling st nm si v pm k = Return (inr (pm', k')) ->
  exists prop,
    converted st si v = Return (inl prop) /\
    pm' = <[nm := default [] (pm !! nm) ++ [prop]]> pm.
Proof.
  unfold RawDatastore.saveLeaf. fold (converted st si v).
  destruct (converted st si v) as [[prop|msg]|]; cbn; try discriminate.
  intros H. exists prop. split; [reflexivity|].
  destruct (decide _); [destruct (over _ _)|]; now injection H.
Qed.

Lemma append_extends (pm : PropertyMap) nm prop :
  extends pm (<[nm := default [] (pm !! nm) ++ [prop]]> pm).
Proof.
  intros k l H. destruct (decide (nm = k)) as [<-|Hne].
  - exists [prop]. rewrite lookup_insert_eq, H. reflexivity.
  - exists []. rewrite lookup_insert_ne by exact Hne. now rewrite app_nil_r.
Qed.

Definition extending
    (step : PropertyMap -> Z -> exec (Error + PropertyMap * Z)) : Prop :=
  forall pm k pm' k', step pm k = Return (inr (pm', k')) -> extends pm pm'.

Lemma saveElems_extending step elems :
  (forall v, extending (step v)) -> extending (saveElems step elems).
Proof.
  intros H. induction elems as [|v elems IH]; intros pm k pm' k'.
  - cbn. intros [= <- <-]. apply extends_refl.
  - cbn. destruct (step v pm k) as [[err|[pm1 k1]]|] eqn:E; cbn; try discriminate.
    intros Hrest. eapply extends_trans; [eapply H, E|eapply IH, Hrest].
Qed.

Lemma saveProp_extending rec ceiling st nm si v :
  (forall sub, substructCodec st = Some sub ->
     forall o pm prefix idx pm' n,
       rec sub o pm prefix idx = Return (inr (pm', n)) -> extends pm pm') ->
  extending (saveProp rec ceiling st nm si v).
Proof.
  intros Hsub pm k pm' k'. unfold RawDatastore.saveProp.
  destruct (substructCodec st) as [sub|].
  - destruct (rec sub v pm nm si) as [[err|[pm1 n]]|] eqn:E; cbn; try discriminate.
    intros H. assert (pm1 = pm') as <- by (destruct (over _ _); now injection H).
    eapply Hsub; eauto.
  - intros H. apply saveLeaf_appends in H as (prop & _ & ->). apply append_extends.
Qed.

(** One turn of the field loop. *)
Definition saveStep rec ceiling (o : Value) (prefix : string) (idx : IndexSetting)
    (st : structTag) (v : Value) : PropertyMap -> Z -> exec (Error + PropertyMap * Z) :=
  fun pm k =>
    if isSlice st then
      match vdata v with
      | DSlice elems =>
          saveElems (saveProp rec ceiling st
                       (if decide (prefix <> EmptyString) then (prefix +:+ name st)%string
                        else name st)
                       (if decide (idxSetting st = NoIndex) then NoIndex else idx))
                    elems pm k
      | _ => Panic
      end
    else saveProp rec ceiling st
           (if decide (prefix <> EmptyString) then (prefix +:+ name st)%string else name st)
           (if decide (idxSetting st = NoIndex) then NoIndex else idx) v pm k.

Lemma saveFields_cons rec ceiling o prefix idx st tags i pm k :
  saveFields rec ceiling o prefix idx (st :: tags) i pm k
  = if decide (name st = "-"%string)
    then saveFields rec ceiling o prefix idx tags (S i) pm k
    else match Field o i with
         | None => Panic
         | Some v =>
             r ← saveStep rec ceiling o prefix idx st v pm k;
             match r with
             | inl err => Return (inl err)
             | inr (pm, k) => saveFields rec ceiling o prefix idx tags (S i) pm k
             end
         end.
Proof. reflexivity. Qed.

Definition rec_extending
    (rec : structCodec -> Value -> PropertyMap -> string -> IndexSetting
           -> exec (Error + PropertyMap * Z)) (st : structTag) : Prop :=
  forall sub, substructCodec st = Some sub ->
    forall o pm prefix idx pm' n,
      rec sub o pm prefix idx = Return (inr (pm', n)) -> extends pm pm'.

Lemma saveStep_extending rec ceiling o prefix idx st v :
  rec_extending rec st -> extending (saveStep rec ceiling o prefix idx st v).
Proof.
  intros Hrec. unfold saveStep. destruct (isSlice st).
  - destruct (vdata v); try (intros ? ? ? ?; discriminate).
    apply saveElems_extending. intros v'. now apply saveProp_extending.
  - now apply saveProp_extending.
Qed.

Lemma saveFields_extending rec ceiling o prefix idx tags i :
  Forall (rec_extending rec) tags ->
  extending (saveFields rec ceiling o prefix idx tags i).
Proof.
  intros H. revert i. induction H as [|st tags Hst Htags IH]; intros i pm k pm' k'.
  - cbn. intros [= <- <-]. apply extends_refl.
  - rewrite saveFields_cons. destruct (decide _); [apply IH|].
    destruct (Field o i) as [v|]; [|discriminate].
    destruct (saveStep rec ceiling o prefix idx st v pm k) as [[err|[pm1 k1]]|] eqn:E;
      cbn; try discriminate.
    intros Hrest. eapply extends_trans; [|eapply IH, Hrest].
    eapply saveStep_extending; eauto.
Qed.

Lemma saveWith_extends ceiling c o pm prefix idx pm' n :
  saveWith ceiling c o pm prefix idx = Return (inr (pm', n)) -> extends pm pm'.
Proof.
  revert o pm prefix idx pm' n.
  induction c as [bm bn tags hs pr IH] using structCodec_nested_ind.
  intros o pm prefix idx pm' n. cbn [RawDatastore.saveWith Problem problem byIndex].
  destruct pr; [discriminate|].
  apply saveFields_extending. eapply Forall_impl; [exact IH|].
  intros st Hst sub Hsub. intros o1 pm1 prefix1 idx1 pm1' n1. now apply Hst.
Qed.

Lemma rec_extending_saveWith ceiling tags :
  Forall (rec_extending (fun sub v pm nm si => saveWith ceiling sub v pm nm si)) tags.
Proof.
  apply Forall_forall. intros st _ sub _ o pm prefix idx pm' n.
  apply saveWith_extends.
Qed.

(** *** Where the value of a field goes *)

(** The field at [tags !! j], when it is a plain one: its property is in the
    list under its name. *)
Lemma saveFields_emits rec ceiling o prefix idx tags i0 pm k pm' k' j st v prop :
  Forall (rec_extending rec) tags ->
  saveFields rec ceiling o prefix idx tags i0 pm k = Return (inr (pm', k')) ->
  tags !! j = Some st ->
  name st <> "-"%string -> substructCodec st = None -> isSlice st = false ->
  Field o (i0 + j) = Some v ->
  converted st (if decide (idxSetting st = NoIndex) then NoIndex else idx) v
    = Return (inl prop) ->
  exists l,
    pm' !! (if decide (prefix <> EmptyString) then (prefix +:+ name st)%string else name st)
      = Some l /\ prop ∈ l.
Proof.
  intros Hrec. revert i0 j pm k.
  induction Hrec as [|st0 tags Hst0 Htags IH]; intros i0 j pm k Hrun Hj Hname Hsub Hsl Hf Hconv;
    [discriminate|].
  revert Hrun. rewrite saveFields_cons.
  destruct j as [|j]; cbn in Hj.
  - injection Hj as ->. rewrite Nat.add_0_r in Hf.
    destruct (decide (name st = "-"%string)); [contradiction|]. rewrite Hf.
    unfold saveStep. rewrite Hsl. unfold RawDatastore.saveProp. rewrite Hsub.
    destruct (saveLeaf _ _ _ _ _ _ _) as [[err|[pm1 k1]]|] eqn:E; cbn;
      try discriminate.
    intros Hrun.
    apply saveLeaf_appends in E as (prop' & Hc & ->).
    rewrite Hconv in Hc. injection Hc as <-.
    apply (saveFields_extending _ _ _ _ _ _ _ Htags) in Hrun.
    destruct (Hrun _ _ (lookup_insert_eq _ _ _)) as (l' & Hl').
    eexists. split; [exact Hl'|]. apply elem_of_app. left. apply elem_of_app. right. left.
  - rewrite <- Nat.add_succ_comm in Hf.
    destruct (decide (name st0 = "-"%string)); [intros Hrun; eapply IH; eauto|].
    destruct (Field o i0) as [v0|]; [|discriminate].
    destruct (saveStep _ _ _ _ _ _ _ _ _) as [[err|[pm1 k1]]|]; cbn;
      try discriminate.
    intros Hrun. eapply IH; eauto.
Qed.

(** The field at [tags !! j], when it is a nested struct (not a slice of
    them): [save] is entered for it, under its flattened name. *)
Lemma saveFields_descends rec ceiling o prefix idx tags i0 pm k pm' k' j st sub v :
  Forall (rec_extending rec) tags ->
  saveFields rec ceiling o prefix idx tags i0 pm k = Return (inr (pm', k')) ->
  tags !! j = Some st ->
  name st <> "-"%string -> substructCodec st = Some sub -> isSlice st = false ->
  Field o (i0 + j) = Some v ->
  exists pm1 pm2 n,
    rec sub v pm1
        (if decide (prefix <> EmptyString) then (prefix +:+ name st)%string else name st)
        (if decide (idxSetting st = NoIndex) then NoIndex else idx)
      = Return (inr (pm2, n)) /\
    extends pm2 pm'.
Proof.
  intros Hrec. revert i0 j pm k.
  induction Hrec as [|st0 tags Hst0 Htags IH]; intros i0 j pm k Hrun Hj Hname Hsub Hsl Hf;
    [discriminate|].
  revert Hrun. rewrite saveFields_cons.
  destruct j as [|j]; cbn in Hj.
  - injection Hj as ->. rewrite Nat.add_0_r in Hf.
    destruct (decide (name st = "-"%string)); [contradiction|]. rewrite Hf.
    unfold saveStep. rewrite Hsl. unfold RawDatastore.saveProp. rewrite Hsub.
    destruct (rec sub v pm _ _) as [[err|[pm1 n1]]|] eqn:E; cbn; try discriminate.
    destruct (over ceiling _); cbn; [discriminate|].
    intros Hrun.
    apply (saveFields_extending _ _ _ _ _ _ _ Htags) in Hrun.
    exists pm, pm1, n1. split; [exact E|exact Hrun].
  - rewrite <- Nat.add_succ_comm in Hf.
    destruct (decide (name st0 = "-"%string)); [intros Hrun; eapply IH; eauto|].
    destruct (Field o i0) as [v0|]; [|discriminate].
    destruct (saveStep _ _ _ _ _ _ _ _ _) as [[err|[pm1 k1]]|]; cbn;
      try discriminate.
    intros Hrun. eapply IH; eauto.
Qed.

(** *** The count is that of the should-index properties added *)

(** The should-index properties of a list, and of a property map. *)
Definition shouldIndexCount (l : list Property) : Z :=
  Z.of_nat (List.length (filter (fun p => propIndexSetting p = ShouldIndex) l)).

Definition indexedCount (pm : PropertyMap) : Z :=
  map_fold (fun _ l acc => acc + shouldIndexCount l) 0 pm.

Definition indexedOne (prop : Property) : Z :=
  if decide (propIndexSetting prop = ShouldIndex) then 1 else 0.

Lemma shouldIndexCount_snoc (l : list Property) (prop : Property) :
  shouldIndexCount (l ++ [prop]) = shouldIndexCount l + indexedOne prop.
Proof.
  unfold shouldIndexCount, indexedOne.
  rewrite filter_app, length_app, Nat2Z.inj_add. f_equal.
  rewrite filter_cons. destruct (decide _); reflexivity.
Qed.

Lemma indexedCount_append (pm : PropertyMap) (nm : string) (prop : Property) :
  indexedCount (<[nm := default [] (pm !! nm) ++ [prop]]> pm)
  = indexedCount pm + indexedOne prop.
Proof.
  unfold indexedCount. destruct (pm !! nm) as [l|] eqn:E; cbn [default].
  - rewrite <- insert_delete_eq.
    rewrite map_fold_insert_L; [|intros; lia|apply lookup_delete_eq].
    rewrite (map_fold_delete_L (fun _ l acc => acc + shouldIndexCount l) 0 nm l pm);
      [|intros; lia|exact E].
    rewrite shouldIndexCount_snoc. unfold id. lia.
  - rewrite map_fold_insert_L; [|intros; lia|exact E].
    rewrite shouldIndexCount_snoc. reflexivity.
Qed.

(** A step adds to the count what it adds of should-index properties. *)
Definition counting
    (step : PropertyMap -> Z -> exec (Error + PropertyMap * Z)) : Prop :=
  forall pm k pm' k',
    step pm k = Return (inr (pm', k')) -> indexedCount pm' - indexedCount pm = k' - k.

Definition rec_counting
    (rec : structCodec -> Value -> PropertyMap -> string -> IndexSetting
           -> exec (Error + PropertyMap * Z)) (st : structTag) : Prop :=
  forall sub, substructCodec st = Some sub ->
    forall o pm prefix idx pm' n,
      rec sub o pm prefix idx = Return (inr (pm', n)) ->
      indexedCount pm' - indexedCount pm = n.

Lemma saveLeaf_counting ceiling st nm si v : counting (saveLeaf ceiling st nm si v).
Proof.
  intros pm k pm' k'. unfold RawDatastore.saveLeaf. fold (converted st si v).
  destruct (converted st si v) as [[prop|msg]|]; cbn; try discriminate.
  pose proof (indexedCount_append pm nm prop) as Hc. unfold indexedOne in Hc.
  destruct (decide _); [destruct (over _ _); [discriminate|]|];
    intros [= <- <-]; lia.
Qed.

Lemma saveElems_counting step elems :
  (forall v, counting (step v)) -> counting (saveElems step elems).
Proof.
  intros H. induction elems as [|v elems IH]; intros pm k pm' k'.
  - cbn. intros [= <- <-]. lia.
  - cbn [saveElems].
    destruct (step v pm k) as [[err|[pm1 k1]]|] eqn:E; cbn; try discriminate.
    intros Hrest. apply H in E. apply IH in Hrest. lia.
Qed.

Lemma saveProp_counting rec ceiling st nm si v :
  rec_counting rec st -> counting (saveProp rec ceiling st nm si v).
Proof.
  intros Hrec pm k pm' k'. unfold RawDatastore.saveProp.
  destruct (substructCodec st) as [sub|] eqn:Esub; [|apply saveLeaf_counting].
  destruct (rec sub v pm nm si) as [[err|[pm1 n1]]|] eqn:E; cbn; try discriminate.
  destruct (over _ _); [discriminate|]. intros [= <- <-].
  apply (Hrec sub Esub) in E. lia.
Qed.

Lemma saveStep_counting rec ceiling o prefix idx st v :
  rec_counting rec st -> counting (saveStep rec ceiling o prefix idx st v).
Proof.
  intros Hrec. unfold saveStep. destruct (isSlice st).
  - destruct (vdata v); try (intros ? ? ? ?; discriminate).
    apply saveElems_counting. intros v'. now apply saveProp_counting.
  - now apply saveProp_counting.
Qed.

Lemma saveFields_counting rec ceiling o prefix idx tags i :
  Forall (rec_counting rec) tags ->
  counting (saveFields rec ceiling o prefix idx tags i).
Proof.
  intros H. revert i. induction H as [|st tags Hst Htags IH]; intros i pm k pm' k'.
  - cbn. intros [= <- <-]. lia.
  - rewrite saveFields_cons. destruct (decide _); [apply IH|].
    destruct (Field o i) as [v|]; [|discriminate].
    destruct (saveStep rec ceiling o prefix idx st v pm k) as [[err|[pm1 k1]]|] eqn:E;
      cbn; try discriminate.
    intros Hrest. apply (saveStep_counting _ _ _ _ _ _ _ Hst) in E.
    apply IH in Hrest. lia.
Qed.

(** [save] returns the number of should-index properties it has added to
    the map, over the whole tree. *)
Lemma saveWith_counts ceiling c o pm prefix idx pm' n :
  saveWith ceiling c o pm prefix idx = Return (inr (pm', n)) ->
  indexedCount pm' = indexedCount pm + n.
Proof.
  revert o pm prefix idx pm' n.
  induction c as [bm bn tags hs pr IH] using structCodec_nested_ind.
  intros o pm prefix idx pm' n. cbn [RawDatastore.saveWith Problem problem byIndex].
  destruct pr; [discriminate|].
  intros Hrun. apply saveFields_counting in Hrun; [lia|].
  eapply Forall_impl; [exact IH|].
  intros st Hst sub Hsub o1 pm1 prefix1 idx1 pm1' n1 Hsubrun.
  apply (Hst sub Hsub) in Hsubrun. lia.
Qed.


Lemma saveWith_unfold ceiling c o pm prefix idx :
  saveWith ceiling c o pm prefix idx
  = match Problem c with
    | Some err => Return (inl (Schema err))
    | None =>
        saveFields (fun sub v pm nm si => saveWith ceiling sub v pm nm si)
                   ceiling o prefix idx (byIndex c) 0%nat pm 0
    end.
Proof. destruct c; reflexivity. Qed.

(** The name under which a field is saved, given the prefix of its struct. *)
Definition savedName (prefix : string) (st : structTag) : string :=
  if decide (prefix <> EmptyString) then (prefix +:+ name st)%string else name st.

(** The index setting a field is saved with, given that of its struct. *)
Definition savedIndex (idx : IndexSetting) (st : structTag) : IndexSetting :=
  if decide (idxSetting st = NoIndex) then NoIndex else idx.

(** The plain field [j] of the nested struct at field [i]: a successful save
    has its property under the name of [i] followed by the name of [j]. *)
Lemma saveWith_nested_emits ceiling c o pm prefix idx pm' n
    i stI sub vI j stX vX prop :
  saveWith ceiling c o pm prefix idx = Return (inr (pm', n)) ->
  byIndex c !! i = Some stI -> name stI <> "-"%string ->
  substructCodec stI = Some sub -> isSlice stI = false ->
  byIndex sub !! j = Some stX -> name stX <> "-"%string ->
  substructCodec stX = None -> isSlice stX = false ->
  Field o i = Some vI -> Field vI j = Some vX ->
  converted stX (savedIndex (savedIndex idx stI) stX) vX = Return (inl prop) ->
  exists l, pm' !! savedName (savedName prefix stI) stX = Some l /\ prop ∈ l.
Proof.
  intros Hrun HI HnI HsubI HslI HX HnX HsubX HslX HvI HvX Hconv.
  rewrite saveWith_unfold in Hrun.
  destruct (Problem c); [discriminate|].
  eapply saveFields_descends in Hrun as (pm1 & pm2 & n1 & Hsub & Hext); eauto;
    [|apply rec_extending_saveWith].
  cbn beta in Hsub. rewrite saveWith_unfold in Hsub.
  destruct (Problem sub); [discriminate|].
  eapply saveFields_emits in Hsub as (l & Hl & Hin); eauto;
    [|apply rec_extending_saveWith].
  destruct (Hext _ _ Hl) as (l' & Hl').
  exists (l ++ l'). split; [exact Hl'|]. apply elem_of_app. now left.
Qed.


End SaveTheory.

Section Ceiling.

Variable env : TypeEnv.
Variable zeroValue : GoType -> Value.
Variable DeepEqual : Value -> Value -> bool.
Variable ToProperty : Value -> Property + string.
Variable SetValue : Iface -> IndexSetting -> Property + string.
Variable mapRange : forall A : Type, gmap string A -> list (string * A).

Local Abbreviation saveWith := (saveWith env ToProperty SetValue).
Local Abbreviation save := (save env ToProperty SetValue).
Local Abbreviation Save := (Save env zeroValue DeepEqual ToProperty SetValue mapRange).
Local Abbreviation saveMeta := (saveMeta zeroValue DeepEqual SetValue).

Local Open Scope Z_scope.

(** C3. The ceiling on indexed properties.  Take any record (codec [c],
    value [o]) whose save, were there no ceiling, goes through and counts
    [n] should-index property values over the whole tree, nested records
    included: [n] is the number of should-index property values that the
    save adds to the map.  If [n] exceeds 20,000, [save] and [Save] fail
    with the too-many-indexed-properties error; if [n] is at most 20,000
    (exactly 20,000 included), [save] returns the very map and count of the
    unlimited save, and [Save] returns that map (before any metadata). *)
Theorem save_indexed_ceiling (c : structCodec) (o : Value)
    (pm : PropertyMap) (prefix : string) (idx : IndexSetting)
    (pm' : PropertyMap) (n : Z) :
  saveWith None c o pm prefix idx = Return (inr (pm', n)) ->
  indexedCount pm' = indexedCount pm + n /\
  (maxIndexedProperties < n ->
     save c o pm prefix idx = Return (inl ErrTooManyIndexed) /\
     (pm = ∅ -> prefix = EmptyString -> idx = ShouldIndex ->
      forall withMeta, Save c o withMeta = Return (inl ErrTooManyIndexed))) /\
  (n <= maxIndexedProperties ->
     save c o pm prefix idx = Return (inr (pm', n)) /\
     (pm = ∅ -> prefix = EmptyString -> idx = ShouldIndex ->
      Save c o false = Return (inr pm') /\
      Save c o true = saveMeta c o (mapRange _ (byMeta c)) pm')).
Proof.
  intros Hfree.
  destruct (saveWith_follows env ToProperty SetValue maxIndexedProperties c
              ltac:(unfold maxIndexedProperties; lia) _ _ _ _ _ _ Hfree) as [Hn Hb].
  unfold limited in Hb. fold save in Hb.
  split; [eapply saveWith_counts, Hfree|].
  split; intros Hcmp.
  - destruct (Z.ltb_spec maxIndexedProperties n); [|lia].
    split; [exact Hb|]. intros -> -> -> withMeta.
    unfold RawDatastore.Save. fold save. rewrite Hb. reflexivity.
  - destruct (Z.ltb_spec maxIndexedProperties n); [lia|].
    split; [exact Hb|]. intros -> -> ->.
    unfold RawDatastore.Save. fold save. rewrite Hb. split; reflexivity.
Qed.

End Ceiling.

(** *** The ceiling on a record with one repeated field *)

Definition manyCodec : structCodec :=
  mkStructCodec ∅ {[ "Vals"%string := 0%nat ]}
    [mkStructTag "Vals" ShouldIndex true None false INil true] true None.

Definition many (k : nat) : Value :=
  mkValue (TStruct "Many")
    (DFields [mkValue (TSlice (TInt KInt64))
                (DSlice (replicate k (mkValue (TInt KInt64) (DInt 0))))]).

Definition manyStep (pm : PropertyMap) : PropertyMap :=
  <["Vals"%string := default [] (pm !! "Vals"%string)
                     ++ [mkProperty (PVInt 0) ShouldIndex]]> pm.

Lemma manyCodec_is_built :
  snd <$> Standin.getCodec 2 ∅ "Many" = Some manyCodec.
Proof. vm_compute. reflexivity. Qed.

Lemma saveProp_many (pm : PropertyMap) (j : Z) :
  saveProp Standin.program Standin.ToProperty Standin.SetValue
    (fun sub v pm nm si =>
       saveWith Standin.program Standin.ToProperty Standin.SetValue None sub v pm nm si)
    None (mkStructTag "Vals" ShouldIndex true None false INil true)
    "Vals" ShouldIndex (mkValue (TInt KInt64) (DInt 0)) pm j
  = Return (inr (manyStep pm, (j + 1)%Z)).
Proof. reflexivity. Qed.

Lemma saveElems_many (k : nat) (pm : PropertyMap) (j : Z) :
  saveElems
    (saveProp Standin.program Standin.ToProperty Standin.SetValue
       (fun sub v pm nm si =>
          saveWith Standin.program Standin.ToProperty Standin.SetValue None sub v pm nm si)
       None (mkStructTag "Vals" ShouldIndex true None false INil true)
       "Vals" ShouldIndex)
    (replicate k (mkValue (TInt KInt64) (DInt 0))) pm j
  = Return (inr (Nat.iter k manyStep pm, (j + Z.of_nat k)%Z)).
Proof.
  revert pm j. induction k as [|k IH]; intros pm j.
  - simpl. do 3 f_equal. lia.
  - cbn [replicate saveElems]. rewrite saveProp_many.
    cbn [mbind exec_bind]. rewrite IH. rewrite Nat.iter_succ_r.
    do 3 f_equal. lia.
Qed.

Lemma saveWith_many (k : nat) :
  saveWith Standin.program Standin.ToProperty Standin.SetValue None
    manyCodec (many k) ∅ EmptyString ShouldIndex
  = Return (inr (Nat.iter k manyStep ∅, Z.of_nat k)).
Proof.
  change (saveWith Standin.program Standin.ToProperty Standin.SetValue None
            manyCodec (many k) ∅ EmptyString ShouldIndex)
    with (r ← saveElems
            (saveProp Standin.program Standin.ToProperty Standin.SetValue
               (fun sub v pm nm si =>
                  saveWith Standin.program Standin.ToProperty Standin.SetValue
                           None sub v pm nm si)
               None (mkStructTag "Vals" ShouldIndex true None false INil true)
               "Vals" ShouldIndex)
            (replicate k (mkValue (TInt KInt64) (DInt 0))) ∅ 0%Z;
          match r with
          | inl err => Return (inl err)
          | inr (pm, n) => Return (inr (pm, n))
          end).
  rewrite saveElems_many. reflexivity.
Qed.

(** A record of 20,001 indexed values is refused, one of exactly 20,000 is
    saved. *)
Lemma save_indexed_ceiling_witness :
  save Standin.program Standin.ToProperty Standin.SetValue
       manyCodec (many (Z.to_nat 20001)) ∅ EmptyString ShouldIndex
    = Return (inl ErrTooManyIndexed) /\
  save Standin.program Standin.ToProperty Standin.SetValue
       manyCodec (many (Z.to_nat 20000)) ∅ EmptyString ShouldIndex
    = Return (inr (Nat.iter (Z.to_nat 20000) manyStep ∅, 20000%Z)).
Proof.
  split.
  - refine (proj1 (proj1 (proj2 (save_indexed_ceiling Standin.program
              (Standin.zeroValue Standin.program 3) Standin.Value_eqb
              Standin.ToProperty Standin.SetValue Standin.mapRange
              manyCodec (many (Z.to_nat 20001)) ∅ EmptyString ShouldIndex
              (Nat.iter (Z.to_nat 20001) manyStep ∅) 20001%Z _)) _)).
    + rewrite saveWith_many, Z2Nat.id by lia. reflexivity.
    + unfold maxIndexedProperties. lia.
  - refine (proj1 (proj2 (proj2 (save_indexed_ceiling Standin.program
              (Standin.zeroValue Standin.program 3) Standin.Value_eqb
              Standin.ToProperty Standin.SetValue Standin.mapRange
              manyCodec (many (Z.to_nat 20000)) ∅ EmptyString ShouldIndex
              (Nat.iter (Z.to_nat 20000) manyStep ∅) 20000%Z _)) _)).
    + rewrite saveWith_many, Z2Nat.id by lia. reflexivity.
    + unfold maxIndexedProperties. lia.
Defined.

(** ** Load *)

Section LoadTheory.

Variable env : TypeEnv.
Variable zeroValue : GoType -> Value.
Variable FromProperty : Value -> Property -> Value * option string.
Variable mapRange : forall A : Type, gmap string A -> list (string * A).

Local Abbreviation coerce := (coerce env).
Local Abbreviation loadLeaf := (loadLeaf env zeroValue FromProperty).
Local Abbreviation loadAt := (loadAt env zeroValue FromProperty).
Local Abbreviation loadInner := (loadInner env zeroValue FromProperty).
Local Abbreviation loadValues := (loadValues env zeroValue FromProperty).
Local Abbreviation loadEntries := (loadEntries env zeroValue FromProperty).
Local Abbreviation Load := (Load env zeroValue FromProperty mapRange).

Lemma loadAt_lookup rec sv fi v index nm p rs tags i st :
  tags !! i = Some st ->
  loadAt rec sv fi v index nm p rs tags i
  = loadAt rec sv fi v index nm p rs [st] 0.
Proof.
  revert i. induction tags as [|st' tags IH]; intros i H; [discriminate|].
  destruct i as [|i]; cbn in H.
  - injection H as ->. reflexivity.
  - cbn [RawDatastore.loadAt]. now apply IH.
Qed.

Lemma loadInner_unfold codec sv index nm p rs :
  loadInner codec sv index nm p rs
  = match byName codec !! nm with
    | None => Return (Some NoSuchField, sv)
    | Some fi =>
        match Field sv fi with
        | None => Panic
        | Some v =>
            loadAt (fun sub sv ix nm p rs => loadInner sub sv ix nm p rs)
                   sv fi v index nm p rs (byIndex codec) fi
        end
    end.
Proof. destruct codec. reflexivity. Qed.

(** A name that designates a field which is not a nested struct. *)
Lemma loadInner_leaf codec sv index nm p rs fi st v :
  byName codec !! nm = Some fi ->
  byIndex codec !! fi = Some st ->
  substructCodec st = None ->
  Field sv fi = Some v ->
  loadInner codec sv index nm p rs
  = '(r, v') ← loadLeaf v p rs; Return (r, setField sv fi v').
Proof.
  intros Hn Hi Hsub Hf. rewrite loadInner_unfold, Hn, Hf.
  rewrite (loadAt_lookup _ _ _ _ _ _ _ _ _ _ _ Hi).
  cbn [RawDatastore.loadAt]. now rewrite Hsub.
Qed.

(** A name that designates, through a nested struct that is not an element
    of a slice, a field of that struct. *)
Lemma loadInner_nested codec sv index nm p rs fi st sub rest v :
  byName codec !! nm = Some fi ->
  byIndex codec !! fi = Some st ->
  substructCodec st = Some sub ->
  sliceFrom (String.length (name st)) nm = Some rest ->
  Field sv fi = Some v ->
  kindOf (vtype v) <> Slice ->
  loadInner codec sv index nm p rs
  = '(r, v') ← loadInner sub v index rest p rs; Return (r, setField sv fi v').
Proof.
  intros Hn Hi Hsub Hrest Hf Hk. rewrite loadInner_unfold, Hn, Hf.
  rewrite (loadAt_lookup _ _ _ _ _ _ _ _ _ _ _ Hi).
  cbn [RawDatastore.loadAt]. rewrite Hsub, Hrest.
  destruct (decide (kindOf (vtype v) = Slice)); [contradiction|reflexivity].
Qed.

(** Whatever [loadInner] does, it does to the one field its name maps to. *)
Lemma loadAt_shape rec sv fi v index nm p rs tags i r o' :
  loadAt rec sv fi v index nm p rs tags i = Return (r, o') ->
  exists x, o' = setField sv fi x.
Proof.
  revert i. induction tags as [|st tags IH]; intros i; [discriminate|].
  destruct i as [|i]; [|apply IH].
  cbn [RawDatastore.loadAt].
  destruct (substructCodec st) as [sub|].
  - destruct (sliceFrom _ _) as [rest|]; [|discriminate].
    destruct (decide _).
    + destruct (_ !! index) as [el|]; [|discriminate].
      destruct (rec sub el index rest p false) as [[r1 el']|]; [|discriminate].
      cbn. intros [= <- <-]. eauto.
    + destruct (rec sub v index rest p rs) as [[r1 v']|]; [|discriminate].
      cbn. intros [= <- <-]. eauto.
  - destruct (loadLeaf v p rs) as [[r1 v']|]; [|discriminate].
    cbn. intros [= <- <-]. eauto.
Qed.

Lemma loadInner_shape codec sv index nm p rs r o' :
  loadInner codec sv index nm p rs = Return (r, o') ->
  (byName codec !! nm = None /\ o' = sv /\ r = Some NoSuchField) \/
  (exists fi x, byName codec !! nm = Some fi /\ o' = setField sv fi x).
Proof.
  rewrite loadInner_unfold.
  destruct (byName codec !! nm) as [fi|].
  - destruct (Field sv fi) as [v|]; [|discriminate].
    intros H. apply loadAt_shape in H as [x ->]. right. eauto.
  - intros [= <- <-]. left. auto.
Qed.

Lemma loadInner_frame codec sv index nm p rs r o' :
  loadInner codec sv index nm p rs = Return (r, o') ->
  vtype o' = vtype sv /\
  forall j, byName codec !! nm <> Some j -> Field o' j = Field sv j.
Proof.
  intros H. apply loadInner_shape in H as [(_ & -> & _)|(fi & x & Hn & ->)].
  - auto.
  - split; [apply vtype_setField|].
    intros j Hj. apply Field_setField_ne. congruence.
Qed.

(** *** The loops of [Load] *)

Lemma loadValues_frame c nm multiple props i o fails o' fails' :
  loadValues c nm multiple props i o fails = Return (o', fails') ->
  vtype o' = vtype o /\
  (forall j, byName c !! nm <> Some j -> Field o' j = Field o j) /\
  exists new, fails' = fails ++ new /\
              Forall (fun f => FieldName f = nm /\ StructType f = vtype o) new.
Proof.
  revert i o fails. induction props as [|prop props IH]; intros i o fails.
  - cbn. intros [= <- <-]. repeat split; auto. exists []. split; [now rewrite app_nil_r|constructor].
  - cbn [RawDatastore.loadValues].
    destruct (loadInner c o i nm prop multiple) as [[reason o1]|] eqn:E; [|discriminate].
    cbn. intros H. apply IH in H as (Ht & Hf & new & -> & Hnew).
    apply loadInner_frame in E as [Ht1 Hf1].
    split; [congruence|]. split.
    + intros j Hj. rewrite Hf, Hf1; auto.
    + rewrite Ht1 in Hnew.
      destruct reason as [r|].
      * exists (mkErrFieldMismatch (vtype o) nm r :: new).
        split; [now rewrite <- app_assoc|]. constructor; auto.
      * exists new. auto.
Qed.

Lemma loadEntries_app c es1 es2 o fails :
  loadEntries c (es1 ++ es2) o fails
  = '(o1, fails1) ← loadEntries c es1 o fails; loadEntries c es2 o1 fails1.
Proof.
  revert o fails. induction es1 as [|[nm props] es1 IH]; intros o fails.
  - reflexivity.
  - cbn [app RawDatastore.loadEntries].
    destruct (loadValues c nm _ props 0 o fails) as [[o1 f1]|]; [|reflexivity].
    cbn. apply IH.
Qed.

Lemma loadEntries_frame c es o fails o' fails' :
  loadEntries c es o fails = Return (o', fails') ->
  vtype o' = vtype o /\
  (forall j, (forall nm, nm ∈ es.*1 -> byName c !! nm <> Some j) ->
             Field o' j = Field o j) /\
  exists new, fails' = fails ++ new /\
              Forall (fun f => FieldName f ∈ es.*1 /\ StructType f = vtype o) new.
Proof.
  revert o fails. induction es as [|[nm props] es IH]; intros o fails.
  - cbn. intros [= <- <-]. repeat split; auto. exists []. split; [now rewrite app_nil_r|constructor].
  - cbn [RawDatastore.loadEntries].
    destruct (loadValues c nm _ props 0 o fails) as [[o1 f1]|] eqn:E; [|discriminate].
    cbn. intros H. apply IH in H as (Ht & Hf & new & -> & Hnew).
    apply loadValues_frame in E as (Ht1 & Hf1 & new1 & -> & Hnew1).
    split; [congruence|]. split.
    + intros j Hj. rewrite Hf, Hf1.
      * reflexivity.
      * apply Hj. cbn. left.
      * intros nm' Hin. apply Hj. cbn. now right.
    + exists (new1 ++ new). split; [now rewrite app_assoc|].
      apply Forall_app. split.
      * eapply Forall_impl; [exact Hnew1|]. cbn. intros f [-> ?]. split; [left|auto].
      * eapply Forall_impl; [exact Hnew|]. cbn. intros f [? ?].
        split; [now right|congruence].
Qed.

Lemma filter_names_other (nm : string) (l : list ErrFieldMismatch) :
  Forall (fun f => FieldName f <> nm) l ->
  filter (fun f => FieldName f = nm) l = [].
Proof.
  induction 1 as [|f l Hf Hl IH]; [reflexivity|].
  rewrite filter_cons. destruct (decide (FieldName f = nm)); [contradiction|exact IH].
Qed.

(** One single-valued entry whose name designates a plain field [fi], among
    entries none of which designates [fi]: the field ends as [loadLeaf]
    leaves it, and the failures under that name are the one of [loadLeaf],
    if any. *)
Lemma loadEntries_entry c es1 es2 nm p o o' fails' fi st v r v' :
  loadEntries c (es1 ++ (nm, [p]) :: es2) o [] = Return (o', fails') ->
  nm ∉ (es1 ++ es2).*1 ->
  (forall nm', nm' ∈ (es1 ++ es2).*1 -> byName c !! nm' <> Some fi) ->
  byName c !! nm = Some fi ->
  byIndex c !! fi = Some st ->
  substructCodec st = None ->
  Field o fi = Some v ->
  loadLeaf v p false = Return (r, v') ->
  Field o' fi = Some v' /\
  filter (fun f => FieldName f = nm) fails'
  = match r with
    | Some r => [mkErrFieldMismatch (vtype o) nm r]
    | None => []
    end.
Proof.
  intros H Hfresh Hexcl Hn Hi Hsub Hf Hleaf.
  rewrite fmap_app in Hfresh, Hexcl.
  rewrite loadEntries_app in H.
  destruct (loadEntries c es1 o []) as [[o1 f1]|] eqn:E1; [|discriminate].
  cbn [mbind exec_bind RawDatastore.loadEntries] in H.
  apply loadEntries_frame in E1 as (Ht1 & Hf1 & new1 & -> & Hnew1).
  assert (Hfo1 : Field o1 fi = Some v).
  { rewrite Hf1; [exact Hf|]. intros nm' Hin. apply Hexcl, elem_of_app. now left. }
  change (1 <? List.length [p]) with false in H.
  cbn [RawDatastore.loadValues] in H.
  rewrite (loadInner_leaf _ _ _ _ _ _ _ _ _ Hn Hi Hsub Hfo1), Hleaf in H.
  cbn [mbind exec_bind] in H.
  apply loadEntries_frame in H as (Ht2 & Hf2 & new2 & -> & Hnew2).
  split.
  - rewrite Hf2.
    + eapply Field_setField_eq, Hfo1.
    + intros nm' Hin. apply Hexcl, elem_of_app. now right.
  - assert (F1 : filter (fun f => FieldName f = nm) new1 = []).
    { apply filter_names_other.
      eapply Forall_impl; [exact Hnew1|]. intros f [Hin _] E.
      apply Hfresh, elem_of_app. left. now rewrite <- E. }
    assert (F2 : filter (fun f => FieldName f = nm) new2 = []).
    { apply filter_names_other.
      eapply Forall_impl; [exact Hnew2|]. intros f [Hin _] E.
      apply Hfresh, elem_of_app. right. now rewrite <- E. }
    destruct r as [r|]; rewrite !filter_app, F1, F2, ?app_nil_r; cbn [app filter].
    + rewrite filter_cons, Ht1. cbn [FieldName].
      destruct (decide (nm = nm)); [reflexivity|contradiction].
    + reflexivity.
Qed.


(** *** [Load] over a property map *)

(** [range] visits every entry of a map once, in some order. *)
(** *** A field of a nested struct *)

(** The name of a nested struct followed by that of one of its plain fields
    designates that field: the value is loaded into it, in place. *)
Lemma loadInner_flattened c o index prefix nm p rs i stI sub vI j stX vX :
  byName c !! (prefix +:+ nm)%string = Some i ->
  byIndex c !! i = Some stI -> name stI = prefix ->
  substructCodec stI = Some sub ->
  byName sub !! nm = Some j ->
  byIndex sub !! j = Some stX -> substructCodec stX = None ->
  Field o i = Some vI -> kindOf (vtype vI) <> Slice -> Field vI j = Some vX ->
  loadInner c o index (prefix +:+ nm)%string p rs
  = '(r, vX') ← loadLeaf vX p rs; Return (r, setField o i (setField vI j vX')).
Proof.
  intros Hn HI <- HsubI HnX HX HsubX HvI Hk HvX.
  rewrite (loadInner_nested c o index _ p rs i stI sub nm vI Hn HI HsubI
             (sliceFrom_app _ _) HvI Hk).
  rewrite (loadInner_leaf sub vI index nm p rs j stX vX HnX HX HsubX HvX).
  destruct (loadLeaf vX p rs) as [[r v']|]; reflexivity.
Qed.


Hypothesis mapRange_entries :
  forall (A : Type) (m : gmap string A), mapRange A m ≡ₚ map_to_list m.

Lemma mapRange_split (A : Type) (m : gmap string A) (nm : string) (x : A) :
  m !! nm = Some x ->
  exists es1 es2,
    mapRange A m = es1 ++ (nm, x) :: es2 /\
    (nm ∉ (es1 ++ es2).*1) /\
    (forall nm', nm' ∈ (es1 ++ es2).*1 -> nm' <> nm /\ is_Some (m !! nm')).
Proof.
  intros Hm.
  assert (Hin : (nm, x) ∈ mapRange A m)
    by (rewrite mapRange_entries; now apply elem_of_map_to_list).
  apply list_elem_of_split in Hin as (es1 & es2 & E).
  exists es1, es2. split; [exact E|].
  assert (Hnd : NoDup (mapRange A m).*1)
    by (rewrite mapRange_entries; apply NoDup_fst_map_to_list).
  rewrite E, fmap_app, fmap_cons in Hnd. cbn in Hnd.
  apply NoDup_app in Hnd as (Hnd1 & Hdisj & Hnd2).
  apply NoDup_cons in Hnd2 as [Hnot2 _].
  assert (Hfresh : nm ∉ (es1 ++ es2).*1).
  { rewrite fmap_app. intros [H1|H2]%elem_of_app; [|contradiction].
    apply (Hdisj nm H1). left. }
  split; [exact Hfresh|].
  intros nm' Hin. split; [intros ->; contradiction|].
  apply list_elem_of_fmap in Hin as ([nm'' y] & -> & Hy). cbn.
  exists y. apply elem_of_map_to_list. rewrite <- mapRange_entries, E.
  rewrite fmap_app in Hfresh.
  apply elem_of_app in Hy as [Hy|Hy]; apply elem_of_app; [left|right; right]; exact Hy.
Qed.

(** *** The table of conversions *)






Lemma roundFloat32_zero : roundFloat32 0%Z = 0%Z.
Proof. reflexivity. Qed.

(** 0.1 (0x3FB999999999999A) becomes 0x3FB99999A0000000; 1.5 and the
    largest float32 are kept; 1e-300 becomes 0. *)
Lemma roundFloat32_samples :
  (roundFloat32 4591870180066957722%Z = 4591870180174331904%Z) /\
  (roundFloat32 4609434218613702656%Z = 4609434218613702656%Z) /\
  (roundFloat32 5183643170566569984%Z = 5183643170566569984%Z) /\
  (roundFloat32 118062743603489297%Z = 0%Z).
Proof. repeat split; vm_compute; reflexivity. Qed.

(** "é" (0xC3 0xA9) is the rune U+00E9; a lone 0xC3 is [RuneError]. *)
Lemma runesOf_samples :
  (runesOf (String (ascii_of_nat 195) (String (ascii_of_nat 169) "a"))
   = [233%Z; 97%Z]) /\
  (runesOf (String (ascii_of_nat 195) "a") = [RuneError; 97%Z]).
Proof. split; vm_compute; reflexivity. Qed.


(** *** Property maps for plain fields *)












(** *** Null property values *)

Lemma loadLeaf_plain (v : Value) (p : Property) :
  implementsPropertyConverter env (vtype v) = false ->
  kindOf (vtype v) <> Slice ->
  loadLeaf v p false = coerce v (propValue p) /\
  loadLeaf v p true = Return (Some RequiresSlice, v).
Proof.
  intros Hc Hk. unfold RawDatastore.loadLeaf. rewrite Hc.
  destruct (elemOf (vtype v)) as [elemT|]; [|split; reflexivity].
  destruct (decide _) as [[Hs _]|_]; [contradiction|split; reflexivity].
Qed.

(** What the [switch knd] does with a nil property value, kind by kind. *)
Lemma coerce_null (v : Value) :
  implementsKey env (vtype v) = false ->
  match kindOf (vtype v) with
  | Int | Int8 | Int16 | Int32 | Int64 =>
      coerce v PVNull = Return (None, setData v (DInt 0))
  | Bool => coerce v PVNull = Return (None, setData v (DBool false))
  | Float32 | Float64 => coerce v PVNull = Return (None, setData v (DFloat 0%Z))
  | String_ | Interface => coerce v PVNull = Return (None, v)
  | _ => True
  end.
Proof.
  intros Hk. unfold RawDatastore.coerce. rewrite Hk.
  destruct (kindOf (vtype v)); try exact I; reflexivity.
Qed.

Lemma coerce_null_key (v : Value) :
  implementsKey env (vtype v) = true -> coerce v PVNull = Return (None, v).
Proof. intros Hk. unfold RawDatastore.coerce. now rewrite Hk. Qed.


(** The value a plain field of kind [k] is given by a nil property value,
    for the kinds that accept one. *)
Definition nullOutcome (k : Kind) (v : Value) : option Value :=
  match k with
  | Int | Int8 | Int16 | Int32 | Int64 => Some (setData v (DInt 0))
  | Bool => Some (setData v (DBool false))
  | Float32 | Float64 => Some (setData v (DFloat 0%Z))
  | String_ | Interface => Some v
  | _ => None
  end.

(** C10 (as amended).  Loading a null property value into a plain field
    (no converter, not a slice) that its name designates: as the single
    value of its property it is accepted without mismatch, and an integer,
    boolean or float field is set to 0, false or 0.0, while a string field
    and a key-like interface field are left as they were; as one of several
    values of its property it is refused, a repeated field being required. *)
Theorem load_null_value (c : structCodec) (o : Value) (index : nat)
    (nm : string) (p : Property) (fi : nat) (st : structTag) (v v' : Value) :
  byName c !! nm = Some fi ->
  byIndex c !! fi = Some st ->
  substructCodec st = None ->
  Field o fi = Some v ->
  implementsPropertyConverter env (vtype v) = false ->
  kindOf (vtype v) <> Slice ->
  propValue p = PVNull ->
  let k := if implementsKey env (vtype v) then Interface else kindOf (vtype v) in
  nullOutcome k v = Some v' ->
  loadInner c o index nm p false = Return (None, setField o fi v') /\
  (k = String_ \/ k = Interface -> loadInner c o index nm p false = Return (None, o)) /\
  loadInner c o index nm p true = Return (Some RequiresSlice, o).
Proof.
  intros Hn Hi Hsub Hf Hc Hk Hp k Hout.
  rewrite !(loadInner_leaf _ _ _ _ _ _ _ _ _ Hn Hi Hsub Hf).
  destruct (loadLeaf_plain v p Hc Hk) as [-> ->]. rewrite Hp.
  assert (Hco : coerce v PVNull = Return (None, v')).
  { subst k. destruct (implementsKey env (vtype v)) eqn:Ek.
    - injection Hout as <-. now apply coerce_null_key.
    - pose proof (coerce_null v Ek) as H.
      destruct (kindOf (vtype v)); try discriminate Hout;
        injection Hout as <-; exact H. }
  rewrite Hco. cbn [mbind exec_bind].
  split; [reflexivity|]. split.
  - intros Hs. assert (v' = v) as ->.
    { destruct Hs as [E|E]; rewrite E in Hout; now injection Hout. }
    now rewrite (setField_same _ _ _ Hf).
  - now rewrite (setField_same _ _ _ Hf).
Qed.


End LoadTheory.


(** ** A schema error is permanent *)

Section Permanence.

Variable IsLetter : rune -> bool.
Variable IsDigit : rune -> bool.
Variable ParseInt : string -> option Z.
Variable mapRange : forall A : Type, gmap string A -> list (string * A).
Variable env : TypeEnv.
Variable zeroValue : GoType -> Value.
Variable DeepEqual : Value -> Value -> bool.
Variable FromProperty : Value -> Property -> Value * option string.
Variable ToProperty : Value -> Property + string.
Variable SetValue : Iface -> IndexSetting -> Property + string.

Local Abbreviation getStructCodecLocked :=
  (getStructCodecLocked IsLetter IsDigit ParseInt mapRange env).
Local Abbreviation Save := (Save env zeroValue DeepEqual ToProperty SetValue mapRange).
Local Abbreviation Load := (Load env zeroValue FromProperty mapRange).
Local Abbreviation GetMeta := (GetMeta zeroValue DeepEqual).

Lemma problem_frees_tables (fuel : nat) (cache cache' : Cache) (t : string) c e :
  cache !! t = None ->
  getStructCodecLocked fuel cache t = Some (cache', c) ->
  problem c = Some e ->
  byIndex c = [] /\ byName c = ∅ /\ byMeta c = ∅.
Proof.
  intros Hmiss. destruct fuel as [|fuel].
  - rewrite getStructCodecLocked_O, Hmiss. discriminate.
  - rewrite getStructCodecLocked_S, Hmiss.
    destruct (buildFields _ _ _ _ _ _ _ _ _) as [b|cache2 hs e2|]; [| |discriminate].
    + intros [= <- <-]. discriminate.
    + intros [= <- <-] _. auto.
Qed.

Lemma operations_fail_with_problem (c : structCodec) (e : SchemaError) :
  problem c = Some e ->
  forall (o : Value) (pm : PropertyMap) (withMeta : bool) (key : string) (val : Iface),
    Save c o withMeta = Return (inl (Schema e)) /\
    Load c o pm = Return (o, Some (Schema e)) /\
    GetMeta c o key = Return (inr (Schema e)) /\
    SetMeta c o key val = Return (o, Some (Schema e)).
Proof.
  intros Hp o pm withMeta key val.
  unfold RawDatastore.Save, RawDatastore.save, RawDatastore.Load,
    RawDatastore.GetMeta, RawDatastore.SetMeta, Problem.
  destruct c as [bm bn tags hs pr]. cbn in Hp. subst pr.
  cbn [saveWith Problem problem]. auto.
Qed.

(** C4. Once the construction of the schema of a type has recorded an
    error, the cache holds the codec with that error and every later
    request for it returns that same codec without deriving anything again
    (no recursion budget is needed); the field tables of the codec are
    freed; and [Save], [Load], [GetMeta] and [SetMeta] on it fail at once
    with the stored error, leaving the record as it was.  The last part
    holds for any codec carrying that problem, whatever its tables hold. *)
Theorem schema_error_is_permanent (fuel : nat) (cache cache' : Cache)
    (t : string) (c : structCodec) (e : SchemaError) :
  cache !! t = None ->
  getStructCodecLocked fuel cache t = Some (cache', c) ->
  problem c = Some e ->
  (forall fuel', getStructCodecLocked fuel' cache' t = Some (cache', c)) /\
  (byIndex c = [] /\ byName c = ∅ /\ byMeta c = ∅) /\
  (forall c2, problem c2 = problem c ->
   forall (o : Value) (pm : PropertyMap) (withMeta : bool) (key : string) (val : Iface),
     Save c2 o withMeta = Return (inl (Schema e)) /\
     Load c2 o pm = Return (o, Some (Schema e)) /\
     GetMeta c2 o key = Return (inr (Schema e)) /\
     SetMeta c2 o key val = Return (o, Some (Schema e))).
Proof.
  intros Hmiss Hget Hp. split; [|split].
  - intros fuel'. apply getStructCodecLocked_hit.
    eapply getStructCodecLocked_cached, Hget.
  - eapply problem_frees_tables; eauto.
  - intros c2 Hc2. apply operations_fail_with_problem. congruence.
Qed.

End Permanence.


(** ** Nested and unexported fields *)

Section Fields.

Variable IsLetter : rune -> bool.
Variable IsDigit : rune -> bool.
Variable ParseInt : string -> option Z.
Variable mapRange : forall A : Type, gmap string A -> list (string * A).
Variable env : TypeEnv.
Variable zeroValue : GoType -> Value.
Variable DeepEqual : Value -> Value -> bool.
Variable FromProperty : Value -> Property -> Value * option string.
Variable ToProperty : Value -> Property + string.
Variable SetValue : Iface -> IndexSetting -> Property + string.

Hypothesis mapRange_entries :
  forall (A : Type) (m : gmap string A), mapRange A m ≡ₚ map_to_list m.

Local Abbreviation getStructCodecLocked :=
  (getStructCodecLocked IsLetter IsDigit ParseInt mapRange env).
Local Abbreviation buildFields := (buildFields IsLetter IsDigit ParseInt mapRange env).
Local Abbreviation buildField := (buildField IsLetter IsDigit ParseInt mapRange env).
Local Abbreviation readTag := (readTag IsLetter IsDigit).
Local Abbreviation nestedType := (nestedType IsLetter IsDigit env).
Local Abbreviation sound := (sound IsLetter IsDigit ParseInt env).
Local Abbreviation save := (save env ToProperty SetValue).
Local Abbreviation converted := (converted env ToProperty SetValue).
Local Abbreviation Save := (Save env zeroValue DeepEqual ToProperty SetValue mapRange).
Local Abbreviation saveMeta := (saveMeta zeroValue DeepEqual SetValue).
Local Abbreviation GetMeta := (GetMeta zeroValue DeepEqual).
Local Abbreviation Load := (Load env zeroValue FromProperty mapRange).
Local Abbreviation loadInner := (loadInner env zeroValue FromProperty).
Local Abbreviation loadLeaf := (loadLeaf env zeroValue FromProperty).

Lemma dotted_not_dash (nm : string) : dotted nm <> "-"%string.
Proof.
  unfold dotted. destruct (decide (nm <> EmptyString)) as [Hne|He].
  - destruct nm as [|a [|b s]]; [contradiction|discriminate|discriminate].
  - destruct nm; [discriminate|]. exfalso. apply He. discriminate.
Qed.

Lemma savedName_top (st : structTag) : savedName EmptyString st = name st.
Proof. reflexivity. Qed.

Lemma savedName_nested (prefix : string) (st : structTag) :
  savedName prefix st = (prefix +:+ name st)%string.
Proof.
  unfold savedName. destruct (decide (prefix <> EmptyString)) as [|He]; [reflexivity|].
  destruct prefix; [reflexivity|]. exfalso. apply He. discriminate.
Qed.

(** A field of struct kind that the construction descends into. *)
Lemma nested_struct_shape (f : StructField) (u : GoType) :
  nestedType f = Some u -> kindOf (Type_ f) = Struct ->
  exported f = true /\ fieldShape env f false = inl (false, false, Some u, false).
Proof.
  intros Hn Hk. revert Hn. unfold RawDatastore.nestedType. fold (exported f).
  destruct (RawDatastore.readTag _ _ f); try discriminate.
  destruct (exported f); [|discriminate].
  unfold fieldShape. destruct (implementsPropertyConverter env (Type_ f)); [discriminate|].
  rewrite Hk. destruct (decide _); [|discriminate].
  intros [= <-]. auto.
Qed.

(** A named, exported field that the construction does not descend into
    and that is not a slice. *)
Lemma plain_shape (f : StructField) (nm opts : string) cv sl sub h :
  readTag f = TagName nm opts -> exported f = true ->
  nestedType f = None -> kindOf (Type_ f) <> Slice ->
  fieldShape env f false = inl (cv, sl, sub, h) ->
  sl = false /\ sub = None.
Proof.
  intros Htag Hexp Hn Hk Hshape. split.
  - revert Hshape. unfold fieldShape.
    destruct (implementsPropertyConverter env (Type_ f)); [now intros [= _ <- _ _]|].
    destruct (kindOf (Type_ f)); try contradiction;
      repeat (destruct (decide _)); intros [= _ <- _ _] || discriminate; reflexivity.
  - revert Hn. unfold RawDatastore.nestedType. fold (exported f).
    rewrite Htag, Hexp, Hshape. auto.
Qed.





(** C8. Flattening of nested structs.

    First part: in a codec without problem, let [I] be a field of struct
    kind that the construction descended into, named [nmI], and [X] a plain
    field of the nested type, named [nmX].  The tag of [I] is named
    [nmI ++ "."] (just [nmI] when that is empty, for an embedded struct) and
    holds the codec of the nested type; the table of names maps
    [nmI ++ "." ++ nmX] to [I]; loading a property under that name loads
    it into [X] of [I], in place; a successful [save] has the property of
    [X] in the list under that name.

    Second part: when the field loop reaches a field one of whose names is
    already in the table of names, put there by an earlier field, the
    construction returns a codec whose problem is the repeated name, with
    its tables freed; this for a plain field, whose name is its own, and
    for a nested struct, whose names are those of the nested codec after
    the prefix. *)
Theorem nested_field_is_flattened :
  (forall (fuel : nat) (cache cache' : Cache) (t : string) (c : structCodec)
          (i j : nat) (fI fX : StructField) (nmI optsI nmX optsX : string) (u : GoType),
     sound cache ->
     getStructCodecLocked fuel cache t = Some (cache', c) ->
     problem c = None ->
     fieldsOf env t !! i = Some fI ->
     readTag fI = TagName nmI optsI ->
     nestedType fI = Some u -> kindOf (Type_ fI) = Struct ->
     fieldsOf env (structId u) !! j = Some fX ->
     readTag fX = TagName nmX optsX -> exported fX = true ->
     nestedType fX = None -> kindOf (Type_ fX) <> Slice -> nmX <> "-"%string ->
     exists stI sub stX,
       byIndex c !! i = Some stI /\ name stI = dotted nmI /\
       substructCodec stI = Some sub /\ cache' !! structId u = Some sub /\
       byIndex sub !! j = Some stX /\ name stX = nmX /\ substructCodec stX = None /\
       byName sub !! nmX = Some j /\
       byName c !! (dotted nmI +:+ nmX)%string = Some i /\
       (forall o vI vX index p rs,
          Field o i = Some vI -> kindOf (vtype vI) <> Slice -> Field vI j = Some vX ->
          loadInner c o index (dotted nmI +:+ nmX)%string p rs
          = '(r, vX') ← loadLeaf vX p rs;
            Return (r, setField o i (setField vI j vX'))) /\
       (forall o pm idx pm' n vI vX prop,
          save c o pm EmptyString idx = Return (inr (pm', n)) ->
          Field o i = Some vI -> Field vI j = Some vX ->
          converted stX (savedIndex (savedIndex idx stI) stX) vX = Return (inl prop) ->
          exists l, pm' !! (dotted nmI +:+ nmX)%string = Some l /\ prop ∈ l)) /\
  (forall (fuel : nat) (cache : Cache) (t : string) (pre post : list StructField)
          (f : StructField) (b : Building) (nm opts : string),
     cache !! t = None ->
     fieldsOf env t = pre ++ f :: post ->
     buildFields (getStructCodecLocked fuel) pre 0 (startBuilding env cache t) = Complete b ->
     exported f = true -> readTag f = TagName nm opts ->
     (forall cv sl h0,
        fieldShape env f false = inl (cv, sl, None, h0) ->
        negb cv && negb (propertyTypeOK env
                           (if sl then default (TOther "") (elemOf (Type_ f))
                            else Type_ f)) = false ->
        is_Some (b_byName b !! nm) ->
        exists cache' c k f0,
          getStructCodecLocked (S fuel) cache t = Some (cache', c) /\
          cache' !! t = Some c /\
          problem c = Some (ErrRepeatedName nm) /\
          byIndex c = [] /\ byName c = ∅ /\ byMeta c = ∅ /\
          b_byName b !! nm = Some k /\ pre !! k = Some f0 /\ exported f0 = true) /\
     (forall cv sl u h0 cache1 sub,
        fieldShape env f false = inl (cv, sl, Some u, h0) ->
        getStructCodecLocked fuel (b_cache b) (structId u) = Some (cache1, sub) ->
        problem sub = None -> sl && hasSlice sub = false ->
        (exists rel, is_Some (byName sub !! rel) /\
                     is_Some (b_byName b !! (dotted nm +:+ rel)%string)) ->
        exists rel cache' c k f0,
          is_Some (byName sub !! rel) /\
          getStructCodecLocked (S fuel) cache t = Some (cache', c) /\
          cache' !! t = Some c /\
          problem c = Some (ErrRepeatedName (dotted nm +:+ rel)) /\
          byIndex c = [] /\ byName c = ∅ /\ byMeta c = ∅ /\
          b_byName b !! (dotted nm +:+ rel)%string = Some k /\
          pre !! k = Some f0 /\ exported f0 = true)).
Proof.
  split.
  - intros fuel cache cache' t c i j fI fX nmI optsI nmX optsX u
      Hs Hget Hp HfI HtagI HnI HkI HfX HtagX HexpX HnX HkX HdashX.
    destruct (getStructCodecLocked_sound _ _ _ _ _ mapRange_entries
                fuel cache cache' t c Hs Hget) as (Hs' & _ & Hspec).
    destruct (Hspec Hp) as (_ & Hf & _ & _).
    destruct (Hf i fI HfI) as (stI & HstI & HspecI).
    destruct (nested_struct_shape fI u HnI HkI) as [HexpI HshapeI].
    unfold fieldSpec in HspecI. rewrite HtagI, HexpI, HshapeI in HspecI.
    destruct HspecI as (sub & Hsub & Hpsub & HeqI & Hrel).
    destruct (Hs' _ _ Hsub Hpsub) as (_ & Hfsub & _ & _).
    destruct (Hfsub j fX HfX) as (stX & HstX & HspecX).
    unfold fieldSpec in HspecX. rewrite HtagX, HexpX in HspecX.
    destruct (fieldShape env fX false) as [[[[cv sl] sub'] h]|e] eqn:EX; [|contradiction].
    destruct (plain_shape fX nmX optsX cv sl sub' h HtagX HexpX HnX HkX EX) as [-> ->].
    destruct HspecX as [HeqX HnameX].
    assert (HnameI : name stI = dotted nmI) by (subst stI; reflexivity).
    assert (HsubI : substructCodec stI = Some sub) by (subst stI; reflexivity).
    assert (HslI : isSlice stI = false) by (subst stI; reflexivity).
    assert (HnX' : name stX = nmX) by (subst stX; reflexivity).
    assert (HsubX : substructCodec stX = None) by (subst stX; reflexivity).
    assert (HslX : isSlice stX = false) by (subst stX; reflexivity).
    assert (Habs : byName c !! (dotted nmI +:+ nmX)%string = Some i).
    { apply Hrel. rewrite HnameX. eauto. }
    exists stI, sub, stX. repeat (split; [assumption|]). split.
    + intros o vI vX index p rs HvI Hk HvX.
      eapply loadInner_flattened; eauto.
    + intros o pm idx pm' n vI vX prop Hrun HvI HvX Hconv.
      unfold RawDatastore.save in Hrun.
      destruct (saveWith_nested_emits env ToProperty SetValue _ c o pm EmptyString idx
                  pm' n i stI sub vI j stX vX prop Hrun HstI) as (l & Hl & Hin);
        try assumption.
      * rewrite HnameI. apply dotted_not_dash.
      * now rewrite HnX'.
      * rewrite savedName_top, savedName_nested, HnameI, HnX' in Hl. eauto.
  - intros fuel cache t pre post f b nm opts Hmiss Hfields Hpre Hexp Htag. split.
    + intros cv sl h0 Hshape Hok Hsome.
      pose proof (buildField_repeated_plain IsLetter IsDigit ParseInt mapRange env
                    (getStructCodecLocked fuel) (List.length pre) f (b_cache b)
                    (b_byMeta b) (b_byName b) (b_hasSlice b) nm opts cv sl h0
                    Hexp Htag Hshape Hok Hsome) as Hstep.
      pose proof (construction_fails_at _ _ _ _ _ fuel cache t pre post f b _ _ _
                    Hmiss Hfields Hpre Hstep) as Hrun.
      destruct (name_has_source _ _ _ _ _ mapRange_entries fuel cache t pre b nm
                  Hpre Hsome) as (k & f0 & nm0 & opts0 & Hk & Hf0 & He0 & _).
      eexists _, _, k, f0. split; [exact Hrun|].
      split; [apply lookup_insert_eq|]. cbn. auto 10.
    + intros cv sl u h0 cache1 sub Hshape Hrec Hp Hsl Hcoll.
      destruct (buildField_repeated_nested IsLetter IsDigit ParseInt mapRange env
                  mapRange_entries
                  (getStructCodecLocked fuel) (List.length pre) f (b_cache b)
                  (b_byMeta b) (b_byName b) (b_hasSlice b) nm opts cv sl u h0 cache1 sub
                  Hexp Htag Hshape Hrec Hp Hsl Hcoll) as (rel & Hrel & Hsome & Hstep).
      pose proof (construction_fails_at _ _ _ _ _ fuel cache t pre post f b _ _ _
                    Hmiss Hfields Hpre Hstep) as Hrun.
      destruct (name_has_source _ _ _ _ _ mapRange_entries fuel cache t pre b _
                  Hpre Hsome) as (k & f0 & nm0 & opts0 & Hk & Hf0 & He0 & _).
      eexists rel, _, _, k, f0. split; [exact Hrel|]. split; [exact Hrun|].
      split; [apply lookup_insert_eq|]. cbn. auto 10.
Qed.




End Fields.



(** ** Loading on concrete records *)

Local Abbreviation LoadS :=
  (Load Standin.program Standin.zero Standin.FromProperty Standin.mapRange).
Local Abbreviation loadInnerS :=
  (loadInner Standin.program Standin.zero Standin.FromProperty).

Lemma Standin_mapRange_entries (A : Type) (m : gmap string A) :
  Standin.mapRange A m ≡ₚ map_to_list m.
Proof. reflexivity. Qed.

(** A null value for the integer field [A] of [Flat{A: 7, B: "foo", C: true}]
    sets it to 0. *)
Lemma load_null_value_witness :
  loadInnerS (Standin.codecOf "Flat") Standin.flat7 0 "A"
             (Standin.indexed PVNull) false
  = Return (None, setField Standin.flat7 0 (Standin.int64Value 0)).
Proof.
  refine (proj1 (load_null_value Standin.program Standin.zero Standin.FromProperty
                   (Standin.codecOf "Flat") Standin.flat7 0 "A"
                   (Standin.indexed PVNull) 0
                   (mkStructTag "A" ShouldIndex false None false INil true)
                   (Standin.int64Value 7) (Standin.int64Value 0)
                   _ _ _ _ _ _ _ _)).
  - vm_compute. reflexivity.
  - vm_compute. reflexivity.
  - reflexivity.
  - reflexivity.
  - reflexivity.
  - discriminate.
  - reflexivity.
  - reflexivity.
Defined.

(** A null value for the string field [B] of [Flat{A: 7, B: "foo", C: true}]
    is accepted and leaves "foo" in place: the field is not set to "". *)
Lemma load_null_keeps_string :
  LoadS (Standin.codecOf "Flat") Standin.flat7
        {[ "B"%string := [Standin.indexed PVNull] ]}
    = Return (Standin.flat7, None) /\
  Field Standin.flat7 1 = Some (Standin.stringValue "foo") /\
  Standin.stringValue "foo" <> Standin.stringValue "".
Proof.
  split; [vm_compute; reflexivity|]. split; [reflexivity|discriminate].
Qed.

(** One mismatched property (a string for the integer [A]) and two valid
    ones ([B], [C]) for [Flat{A: 7, B: "foo", C: true}]. *)
Definition threeProps : PropertyMap :=
  {[ "A"%string := [Standin.indexed (PVString "seven")];
     "B"%string := [Standin.indexed (PVString "bar")];
     "C"%string := [Standin.indexed (PVBool false)] ]}.

Definition flatLoaded : Value :=
  mkValue (TStruct "Flat")
    (DFields [Standin.int64Value 7; Standin.stringValue "bar"; Standin.boolValue false]).

Lemma Load_threeProps :
  LoadS (Standin.codecOf "Flat") Standin.flat7 threeProps
  = Return (flatLoaded,
            Some (MultiError
                    [mkErrFieldMismatch (TStruct "Flat") "A"
                       (TypeMismatch (PVString "seven") (TInt KInt64))])).
Proof. vm_compute. reflexivity. Qed.










(** ** The schemas of concrete types *)

Local Abbreviation soundS :=
  (sound Standin.IsLetter Standin.IsDigit Standin.ParseInt Standin.program).

(** What the construction leaves in the cache, from an empty one. *)
Definition cacheOf (t : string) : Cache :=
  default ∅ (fst <$> Standin.getCodec 8 ∅ t).

Lemma getCodec_built (t : string) :
  is_Some (Standin.getCodec 8 ∅ t) ->
  Standin.getCodec 8 ∅ t = Some (cacheOf t, Standin.codecOf t).
Proof.
  unfold cacheOf, Standin.codecOf. intros [[cache c] ->]. reflexivity.
Qed.

(** [type Node struct { Kids []Node }]: the codec and the cache that the
    construction leaves. *)
Definition nodeCodec : structCodec :=
  mkStructCodec ∅ ∅ [] true (Some (ErrFieldRecursive "Kids")).

Definition nodeCache : Cache := {[ "Node"%string := nodeCodec ]}.

Lemma getCodec_Node : Standin.getCodec 1 ∅ "Node" = Some (nodeCache, nodeCodec).
Proof. vm_compute. reflexivity. Qed.

(** The schema error of [Node] stays, and fails every operation. *)
Lemma schema_error_is_permanent_witness :
  (forall fuel', Standin.getCodec fuel' nodeCache "Node" = Some (nodeCache, nodeCodec)) /\
  forall (o : Value) (pm : PropertyMap) (withMeta : bool) (key : string) (val : Iface),
    Save Standin.program Standin.zero Standin.Value_eqb Standin.ToProperty
         Standin.SetValue Standin.mapRange nodeCodec o withMeta
    = Return (inl (Schema (ErrFieldRecursive "Kids"))) /\
    LoadS nodeCodec o pm = Return (o, Some (Schema (ErrFieldRecursive "Kids"))) /\
    GetMeta Standin.zero Standin.Value_eqb nodeCodec o key
    = Return (inr (Schema (ErrFieldRecursive "Kids"))) /\
    SetMeta nodeCodec o key val = Return (o, Some (Schema (ErrFieldRecursive "Kids"))).
Proof.
  destruct (schema_error_is_permanent
              Standin.IsLetter Standin.IsDigit Standin.ParseInt Standin.mapRange
              Standin.program Standin.zero Standin.Value_eqb Standin.FromProperty
              Standin.ToProperty Standin.SetValue
              1 ∅ nodeCache "Node" nodeCodec (ErrFieldRecursive "Kids")
              (lookup_empty _) getCodec_Node eq_refl) as (Hhit & _ & Hops).
  split; [exact Hhit|]. intros o pm withMeta key val.
  exact (Hops nodeCodec eq_refl o pm withMeta key val).
Defined.

(** [Node], whose field [Kids] refers to [Node] itself. *)
Lemma Node_descends_Node :
  descends Standin.IsLetter Standin.IsDigit Standin.program "Node" "Node".
Proof.
  exists (Standin.exported "Kids" (TSlice (TStruct "Node"))), (TStruct "Node").
  split; [|split; reflexivity].
  replace (fieldsOf Standin.program "Node")
    with [Standin.exported "Kids" (TSlice (TStruct "Node"))]
    by (vm_compute; reflexivity).
  apply list_elem_of_here.
Qed.

(** [Node], and [type A struct { B B }] with [type B struct { As []A }],
    where the construction of [B] comes back to [A]. *)
Lemma recursive_struct_is_reported_witness :
  (exists cache' c,
     Standin.getCodec 1 ∅ "Node" = Some (cache', c) /\
     problem c = Some (ErrFieldRecursive "Kids") /\
     forall fuel', Standin.getCodec fuel' cache' "Node" = Some (cache', c)) /\
  (exists cache' c,
     Standin.getCodec 2 ∅ "A" = Some (cache', c) /\
     problem c = Some (ErrFieldProblem "B" (ErrFieldRecursive "As")) /\
     forall fuel', Standin.getCodec fuel' cache' "A" = Some (cache', c)) /\
  (exists e, problem nodeCodec = Some e /\
     forall fuel', Standin.getCodec fuel' nodeCache "Node" = Some (nodeCache, nodeCodec)).
Proof.
  destruct (recursive_struct_is_reported
              Standin.IsLetter Standin.IsDigit Standin.ParseInt Standin.mapRange
              Standin.program Standin_mapRange_entries) as [Hfield Hcycle].
  split; [|split].
  - destruct (Hfield 0%nat ∅ "Node"%string [] []
                (Standin.exported "Kids" (TSlice (TStruct "Node")))
                (startBuilding Standin.program ∅ "Node") (TStruct "Node")
                (lookup_empty _) eq_refl eq_refl eq_refl) as (_ & Hdirect & _).
    destruct (Hdirect (startCodec Standin.program "Node"))
      as (cache' & c & Hget & Hp & _ & _ & _ & Hagain);
      [vm_compute; reflexivity|reflexivity|].
    exists cache', c. auto.
  - destruct (Hfield 1%nat ∅ "A"%string [] []
                (Standin.exported "B" (TStruct "B"))
                (startBuilding Standin.program ∅ "A") (TStruct "B")
                (lookup_empty _) eq_refl eq_refl eq_refl) as (_ & _ & Hnested).
    destruct (Hnested
                (<["B"%string := mkStructCodec ∅ ∅ [] true (Some (ErrFieldRecursive "As"))]>
                   (b_cache (startBuilding Standin.program ∅ "A")))
                (mkStructCodec ∅ ∅ [] true (Some (ErrFieldRecursive "As")))
                (ErrFieldRecursive "As"))
      as (cache' & c & Hget & Hp & _ & _ & _ & _ & Hagain);
      [vm_compute; reflexivity|reflexivity|constructor|].
    exists cache', c. auto.
  - apply (Hcycle 1%nat ∅ nodeCache "Node"%string "Node"%string nodeCodec
             (sound_empty _ _ _ _) getCodec_Node (rtc_refl _ _)
             (tc_once _ _ _ Node_descends_Node)).
Defined.


(** [Outer{I: Inner{X: 1}, J: "j", K: 2}] as saved, and as it is after
    loading 9 under ["I.X"]. *)
Definition outerSaved : PropertyMap :=
  {[ "I.X"%string := [Standin.indexed (PVInt 1)];
     "J"%string := [Standin.indexed (PVString "j")];
     "K"%string := [Standin.indexed (PVInt 2)] ]}.

Definition outer9 : Value :=
  mkValue (TStruct "Outer")
    (DFields [mkValue (TStruct "Inner") (DFields [Standin.int64Value 9]);
              Standin.stringValue "j"; Standin.int64Value 2]).

Lemma save_outer1 :
  save Standin.program Standin.ToProperty Standin.SetValue
       (Standin.codecOf "Outer") Standin.outer1 ∅ EmptyString ShouldIndex
  = Return (inr (outerSaved, 3%Z)).
Proof. vm_compute. reflexivity. Qed.

(** The field loop of [Clash] and of [Shadow] before their second field. *)
Definition builtBefore (t : string) (pre : list StructField) : Building :=
  match buildFields Standin.IsLetter Standin.IsDigit Standin.ParseInt Standin.mapRange
                    Standin.program (Standin.getCodec 1) pre 0
                    (startBuilding Standin.program ∅ t) with
  | Complete b => b
  | _ => startBuilding Standin.program ∅ t
  end.

Lemma builtBefore_Clash :
  buildFields Standin.IsLetter Standin.IsDigit Standin.ParseInt Standin.mapRange
              Standin.program (Standin.getCodec 1)
              [Standin.exported "I" (TStruct "Inner")] 0
              (startBuilding Standin.program ∅ "Clash")
  = Complete (builtBefore "Clash" [Standin.exported "I" (TStruct "Inner")]).
Proof. vm_compute. reflexivity. Qed.

Lemma builtBefore_Shadow :
  buildFields Standin.IsLetter Standin.IsDigit Standin.ParseInt Standin.mapRange
              Standin.program (Standin.getCodec 1)
              [Standin.tagged "Y" "I.X" (TInt KInt64)] 0
              (startBuilding Standin.program ∅ "Shadow")
  = Complete (builtBefore "Shadow" [Standin.tagged "Y" "I.X" (TInt KInt64)]).
Proof. vm_compute. reflexivity. Qed.

(** The codec of [Inner], as built while [Shadow] is under construction. *)
Definition innerCodec : structCodec :=
  mkStructCodec ∅ {[ "X"%string := 0%nat ]}
    [mkStructTag "X" ShouldIndex false None false INil true] false None.

Lemma getCodec_Inner_in_Shadow :
  Standin.getCodec 1
    (b_cache (builtBefore "Shadow" [Standin.tagged "Y" "I.X" (TInt KInt64)])) "Inner"
  = Some (<["Inner"%string := innerCodec]>
            (b_cache (builtBefore "Shadow" [Standin.tagged "Y" "I.X" (TInt KInt64)])),
          innerCodec).
Proof. vm_compute. reflexivity. Qed.


(** [Outer], whose field [I] is an [Inner] with field [X]: the name is
    ["I.X"].  [Clash] and [Shadow], where a field tagged ["I.X"] stands after
    and before the nested [I]: the construction fails on the second of the
    two. *)
Lemma nested_field_is_flattened_witness :
  byName (Standin.codecOf "Outer") !! "I.X"%string = Some 0%nat /\
  loadInnerS (Standin.codecOf "Outer") Standin.outer1 0 "I.X"
             (Standin.indexed (PVInt 9)) false
  = Return (None, outer9) /\
  (exists l, outerSaved !! "I.X"%string = Some l /\ Standin.indexed (PVInt 1) ∈ l) /\
  (exists cache' c,
     Standin.getCodec 2 ∅ "Clash" = Some (cache', c) /\
     problem c = Some (ErrRepeatedName "I.X")) /\
  (exists cache' c,
     Standin.getCodec 2 ∅ "Shadow" = Some (cache', c) /\
     problem c = Some (ErrRepeatedName "I.X")).
Proof.
  destruct (nested_field_is_flattened
              Standin.IsLetter Standin.IsDigit Standin.ParseInt Standin.mapRange
              Standin.program Standin.zero Standin.FromProperty Standin.ToProperty
              Standin.SetValue Standin_mapRange_entries) as [Hflat Hclash].
  destruct (Hflat 8%nat ∅ (cacheOf "Outer") "Outer"%string (Standin.codecOf "Outer")
              0%nat 0%nat (Standin.exported "I" (TStruct "Inner"))
              (Standin.exported "X" (TInt KInt64))
              "I"%string EmptyString "X"%string EmptyString (TStruct "Inner")
              (sound_empty _ _ _ _)
              (getCodec_built "Outer" ltac:(vm_compute; eauto))
              ltac:(vm_compute; reflexivity) ltac:(vm_compute; reflexivity)
              ltac:(vm_compute; reflexivity) ltac:(vm_compute; reflexivity)
              ltac:(vm_compute; reflexivity) ltac:(vm_compute; reflexivity)
              ltac:(vm_compute; reflexivity) ltac:(vm_compute; reflexivity)
              ltac:(vm_compute; reflexivity) ltac:(discriminate) ltac:(discriminate))
    as (stI & sub & stX & HstI & _ & Hsub & _ & HstX & _ & _ & _ & Hname & Hload & Hsave).
  split; [|split; [|split; [|split]]].
  - exact Hname.
  - etransitivity.
    + apply (Hload Standin.outer1
               (mkValue (TStruct "Inner") (DFields [Standin.int64Value 1]))
               (Standin.int64Value 1) 0%nat (Standin.indexed (PVInt 9)) false);
        [reflexivity|discriminate|reflexivity].
    + vm_compute. reflexivity.
  - vm_compute in HstI. injection HstI as <-.
    cbn in Hsub. injection Hsub as <-.
    vm_compute in HstX. injection HstX as <-.
    apply (Hsave Standin.outer1 ∅ ShouldIndex outerSaved 3%Z
             (mkValue (TStruct "Inner") (DFields [Standin.int64Value 1]))
             (Standin.int64Value 1) (Standin.indexed (PVInt 1)) save_outer1);
      reflexivity.
  - destruct (Hclash 1%nat ∅ "Clash"%string [Standin.exported "I" (TStruct "Inner")] []
                (Standin.tagged "Y" "I.X" (TInt KInt64))
                (builtBefore "Clash" [Standin.exported "I" (TStruct "Inner")])
                "I.X"%string EmptyString
                (lookup_empty _) eq_refl builtBefore_Clash eq_refl)
      as [Hplain _]; [vm_compute; reflexivity|].
    destruct (Hplain false false false)
      as (cache' & c & k & f0 & Hget & _ & Hp & _);
      [reflexivity|reflexivity|vm_compute; eauto|].
    exists cache', c. auto.
  - destruct (Hclash 1%nat ∅ "Shadow"%string [Standin.tagged "Y" "I.X" (TInt KInt64)] []
                (Standin.exported "I" (TStruct "Inner"))
                (builtBefore "Shadow" [Standin.tagged "Y" "I.X" (TInt KInt64)])
                "I"%string EmptyString
                (lookup_empty _) eq_refl builtBefore_Shadow eq_refl)
      as [_ Hnested]; [vm_compute; reflexivity|].
    destruct (Hnested false false (TStruct "Inner") false _ innerCodec
                eq_refl getCodec_Inner_in_Shadow eq_refl eq_refl)
      as (rel & cache' & c & k & f0 & Hrel & Hget & _ & Hp & _).
    { exists "X"%string. split; vm_compute; eauto. }
    exists cache', c. split; [exact Hget|].
    destruct Hrel as [j Hj]. cbn [byName innerCodec] in Hj.
    apply lookup_singleton_Some in Hj as [<- _]. exact Hp.
Defined.


Local Abbreviation SaveS :=
  (Save Standin.program Standin.zero Standin.Value_eqb Standin.ToProperty
        Standin.SetValue Standin.mapRange).






End RawDatastoreTheory.


(* ===================================================================== *)
(** * Part V: further properties of the binary helpers *)
(* ===================================================================== *)

Module SerializeMore.

Import Serialize SerializeTheory.

Local Open Scope Z_scope.

(** ** The transform of the float64 helpers is a bijection on 8 bytes *)

Lemma unflip_range (x : Z) : is_u64 x -> is_u64 (unflip x).
Proof.
  unfold is_u64. intros Hx.
  destruct (Z.lt_ge_cases x two63).
  - rewrite unflip_low by lia. unfold two63, two64 in *. lia.
  - rewrite unflip_high by lia. unfold two63, two64 in *. lia.
Qed.

Lemma flip_unflip (x : Z) : is_u64 x -> flip (unflip x) = x.
Proof.
  unfold is_u64. intros Hx.
  destruct (Z.lt_ge_cases x two63).
  - rewrite unflip_low by lia. rewrite flip_neg; unfold two63, two64 in *; lia.
  - rewrite unflip_high by lia. rewrite flip_nonneg; unfold two63, two64 in *; lia.
Qed.

Ltac eight_bytes d H :=
  destruct d as [|d0 [|d1 [|d2 [|d3 [|d4 [|d5 [|d6 [|d7 [|d8 d]]]]]]]]];
  try discriminate H.

Lemma Uint64_beVal (d : list Z) :
  Forall is_byte d -> List.length d = 8%nat -> Uint64 d = beVal d.
Proof.
  intros Hb Hlen. eight_bytes d Hlen.
  repeat match goal with
         | H : Forall _ (_ :: _) |- _ => apply Forall_cons in H as [? H]
         end.
  unfold is_byte in *. unfold Uint64, nth, Funnybase.beVal. cbn [fold_left].
  rewrite (lor_shiftl_add _ _ 8) by lia.
  rewrite (lor_shiftl_add _ _ 16) by lia.
  rewrite (lor_shiftl_add _ _ 24) by lia.
  rewrite (lor_shiftl_add _ _ 32) by lia.
  rewrite (lor_shiftl_add _ _ 40) by lia.
  rewrite (lor_shiftl_add _ _ 48) by lia.
  rewrite (lor_shiftl_add _ _ 56) by lia.
  lia.
Qed.

Lemma beVal_inj (a b : list Z) :
  List.length a = List.length b -> Forall is_byte a -> Forall is_byte b ->
  beVal a = beVal b -> a = b.
Proof.
  revert b. induction a as [|x a IH]; intros [|y b] Hlen Ha Hb E;
    try discriminate Hlen; [reflexivity|].
  apply Forall_cons in Ha as [Hx Ha]. apply Forall_cons in Hb as [Hy Hb].
  injection Hlen as Hlen. rewrite !beVal_cons, Hlen in E.
  pose proof (beVal_bound a Ha) as Ba. pose proof (beVal_bound b Hb) as Bb.
  rewrite Hlen in Ba.
  set (P := 256 ^ Z.of_nat (List.length b)) in *.
  assert (x = y) by nia. subst y.
  f_equal. apply IH; auto. lia.
Qed.

Lemma Uint64_range (d : list Z) :
  Forall is_byte d -> List.length d = 8%nat -> is_u64 (Uint64 d).
Proof.
  intros Hb Hlen. rewrite Uint64_beVal by assumption.
  pose proof (beVal_bound d Hb) as B. rewrite Hlen in B. exact B.
Qed.

Lemma PutUint64_Uint64 (d : list Z) :
  Forall is_byte d -> List.length d = 8%nat -> PutUint64 (Uint64 d) = d.
Proof.
  intros Hb Hlen. apply beVal_inj.
  - now rewrite PutUint64_length.
  - apply PutUint64_bytes.
  - exact Hb.
  - rewrite beVal_PutUint64 by now apply Uint64_range.
    now apply Uint64_beVal.
Qed.

Lemma readFloat64_bytes (d rest : Buffer) :
  List.length d = 8%nat ->
  readFloat64 (d ++ rest) = (Ok (unflip (Uint64 d)), rest).
Proof.
  intros Hlen. unfold readFloat64, Buffer_Read.
  destruct (d ++ rest) as [|x l] eqn:E.
  { destruct d; discriminate. }
  rewrite <- E. rewrite (take_app_length' d rest 8 (eq_sym Hlen)).
  rewrite (drop_app_length' d rest 8 (eq_sym Hlen)).
  rewrite Hlen. cbn [Nat.sub repeat]. rewrite app_nil_r. reflexivity.
Qed.

Lemma writeFloat64_bytes (buf d : Buffer) :
  Forall is_byte d -> List.length d = 8%nat ->
  writeFloat64 buf (unflip (Uint64 d)) = buf ++ d.
Proof.
  intros Hb Hlen. rewrite writeFloat64_app.
  rewrite flip_unflip by now apply Uint64_range.
  now rewrite PutUint64_Uint64.
Qed.

(** X1. Decoding then encoding is the identity on 8 bytes: any 8 bytes are
    read by [readFloat64] as a float64 (a bit pattern), without error and
    leaving what follows, and [writeFloat64] writes these very bytes back
    for it.  With the round trip the other way, the encoding is a bijection
    between bit patterns and 8-byte strings. *)
Theorem readFloat64_then_writeFloat64 (d rest : Buffer) :
  Forall is_byte d -> List.length d = 8%nat ->
  exists v, is_u64 v /\
            readFloat64 (d ++ rest) = (Ok v, rest) /\
            forall buf, writeFloat64 buf v = buf ++ d.
Proof.
  intros Hb Hlen. exists (unflip (Uint64 d)). split; [|split].
  - apply unflip_range. now apply Uint64_range.
  - now apply readFloat64_bytes.
  - intros buf. now apply writeFloat64_bytes.
Qed.

Lemma readFloat64_then_writeFloat64_witness :
  exists v, is_u64 v /\
            readFloat64 ([192; 9; 33; 251; 84; 68; 45; 24] ++ [7]) = (Ok v, [7]) /\
            forall buf, writeFloat64 buf v = buf ++ [192; 9; 33; 251; 84; 68; 45; 24].
Proof.
  apply (readFloat64_then_writeFloat64 [192; 9; 33; 251; 84; 68; 45; 24] [7]).
  - repeat constructor; unfold is_byte; lia.
  - reflexivity.
Defined.

(** [readFloat64] on any buffer: only the empty one is refused. *)
Lemma readFloat64_cases (buf : Buffer) :
  readFloat64 buf
  = match buf with
    | [] => (Err EOF, [])
    | _ => (Ok (unflip (Uint64 (take 8 buf
                                ++ repeat 0 (8 - List.length (take 8 buf))%nat))),
            drop 8 buf)
    end.
Proof. destruct buf; reflexivity. Qed.

(** X2. A truncated float64 is not refused: a buffer of 1 to 7 bytes is
    read by [readFloat64] without error, as the float64 whose encoding is
    these bytes followed by zero bytes, and the buffer is left empty; only
    the empty buffer gives [io.EOF]. *)
Theorem readFloat64_short_buffer (d : Buffer) :
  Forall is_byte d -> (List.length d < 8)%nat ->
  match d with
  | [] => readFloat64 d = (Err EOF, [])
  | _ => exists v, is_u64 v /\
                   readFloat64 d = (Ok v, []) /\
                   writeFloat64 [] v = d ++ repeat 0 (8 - List.length d)%nat
  end.
Proof.
  intros Hb Hlen. destruct d as [|x d]; [reflexivity|].
  set (l := x :: d) in *.
  assert (Hpad : Forall is_byte (l ++ repeat 0 (8 - List.length l)%nat)).
  { apply Forall_app. split; [exact Hb|].
    apply Forall_forall. intros y Hy. apply list_elem_of_In, repeat_spec in Hy.
    subst y. unfold is_byte. lia. }
  assert (Hpadlen : List.length (l ++ repeat 0 (8 - List.length l)%nat) = 8%nat).
  { rewrite length_app, repeat_length. lia. }
  exists (unflip (Uint64 (l ++ repeat 0 (8 - List.length l)%nat))). split; [|split].
  - apply unflip_range. now apply Uint64_range.
  - rewrite readFloat64_cases. unfold l at 1.
    rewrite take_ge by lia. rewrite drop_ge by lia. reflexivity.
  - now apply (writeFloat64_bytes []).
Qed.

Lemma readFloat64_short_buffer_witness :
  exists v, is_u64 v /\
            readFloat64 [192; 9; 33] = (Ok v, []) /\
            writeFloat64 [] v = [192; 9; 33; 0; 0; 0; 0; 0].
Proof.
  apply (readFloat64_short_buffer [192; 9; 33]).
  - repeat constructor; unfold is_byte; lia.
  - simpl. lia.
Defined.

(** X3. [readGeoPoint] fails, with [io.EOF] and an empty buffer, exactly on
    the buffers of at most 8 bytes; on any longer buffer it returns a point
    and consumes 16 bytes, or all of a buffer of 9 to 15 bytes. *)
Theorem readGeoPoint_needs_9_bytes (buf : Buffer) :
  ((List.length buf <= 8)%nat -> readGeoPoint buf = (Err EOF, [])) /\
  ((8 < List.length buf)%nat ->
     exists gp, readGeoPoint buf = (Ok gp, drop 16 buf)).
Proof.
  unfold readGeoPoint. rewrite readFloat64_cases. split; intros Hlen.
  - destruct buf as [|x buf]; [reflexivity|].
    rewrite readFloat64_cases, drop_ge by exact Hlen. reflexivity.
  - destruct buf as [|x buf]; [cbn in Hlen; lia|].
    rewrite readFloat64_cases.
    destruct (drop 8 (x :: buf)) as [|y l] eqn:E.
    + apply (f_equal (@List.length Z)) in E. rewrite length_drop in E.
      cbn [List.length] in E, Hlen. lia.
    + rewrite <- E, drop_drop. eexists. reflexivity.
Qed.


(** ** Where the NaNs go *)

Lemma float64_nan_bits (b : Z) :
  is_u64 b -> float64_value b = S754_nan ->
  (b / 2 ^ 52) mod 2 ^ 11 = 2047 /\ b mod 2 ^ 52 <> 0.
Proof.
  intros Hb. unfold float64_value.
  destruct (Z.eqb_spec ((b / 2 ^ 52) mod 2 ^ 11) 2047) as [He|He].
  - destruct (Z.eqb_spec (b mod 2 ^ 52) 0); [discriminate|]. auto.
  - destruct (Z.eqb_spec ((b / 2 ^ 52) mod 2 ^ 11) 0);
      [destruct (Z.eqb_spec (b mod 2 ^ 52) 0)|]; discriminate.
Qed.

Lemma float64_not_nan_bits (b : Z) :
  is_u64 b -> float64_value b <> S754_nan ->
  (b / 2 ^ 52) mod 2 ^ 11 < 2047 \/ b mod 2 ^ 52 = 0.
Proof.
  intros Hb Hn. unfold float64_value in Hn.
  destruct (float64_fields b Hb) as (_ & _ & He & _).
  destruct (Z.eqb_spec ((b / 2 ^ 52) mod 2 ^ 11) 2047) as [E|E]; [|left; lia].
  destruct (Z.eqb_spec (b mod 2 ^ 52) 0); [now right|]. contradiction.
Qed.

(** X4. Where the NaNs are sorted: the encoding of a NaN whose sign bit is
    clear is above the encoding of every float64 that is not a NaN
    (positive infinity included), and that of a NaN whose sign bit is set is
    below all of them (negative infinity included). *)
Theorem writeFloat64_sorts_NaN_outside (buf : Buffer) (a n : float64) :
  is_u64 a -> is_u64 n ->
  float64_value n = S754_nan -> float64_value a <> S754_nan ->
  if n <? two63
  then bytes_lt (writeFloat64 buf a) (writeFloat64 buf n) = true
  else bytes_lt (writeFloat64 buf n) (writeFloat64 buf a) = true.
Proof.
  intros Ha Hn Hnan Hnot.
  destruct (float64_nan_bits n Hn Hnan) as [Hne Hnm].
  pose proof (float64_not_nan_bits a Ha Hnot) as Hae.
  destruct (float64_fields a Ha) as (Ea & Sa & Xa & Ma).
  destruct (float64_fields n Hn) as (En & Sn & Xn & Mn).
  rewrite Hne in En.
  assert (Hkey : if n <? two63 then flip a < flip n else flip n < flip a).
  { unfold is_u64, two64 in Ha, Hn.
    set (sa := a / 2 ^ 63) in *. set (ea := (a / 2 ^ 52) mod 2 ^ 11) in *.
    set (ma := a mod 2 ^ 52) in *.
    set (sn := n / 2 ^ 63) in *. set (mn := n mod 2 ^ 52) in *.
    destruct (Z.ltb_spec n two63) as [Hs|Hs].
    - rewrite (flip_nonneg n) by (unfold two63 in *; lia).
      destruct (Z.lt_ge_cases a two63).
      + rewrite flip_nonneg by lia. unfold two63 in *. lia.
      + rewrite flip_neg by (unfold two64; lia). unfold two63, two64 in *. lia.
    - rewrite (flip_neg n) by (unfold two64; lia).
      destruct (Z.lt_ge_cases a two63).
      + rewrite flip_nonneg by lia. unfold two63, two64 in *. lia.
      + rewrite flip_neg by (unfold two64; lia). unfold two63, two64 in *. lia. }
  destruct (n <? two63); rewrite !writeFloat64_app, bytes_lt_app_same;
    apply PutUint64_lt; auto using flip_range.
Qed.

Lemma writeFloat64_sorts_NaN_outside_witness :
  bytes_lt (writeFloat64 [] 9218868437227405312) (writeFloat64 [] 9221120237041090560)
  = true.
Proof.
  apply (writeFloat64_sorts_NaN_outside [] 9218868437227405312 9221120237041090560).
  - unfold is_u64, two64. lia.
  - unfold is_u64, two64. lia.
  - reflexivity.
  - discriminate.
Defined.


(** ** Reading from arbitrary buffers *)

Section ReadingMore.

Variable ReadUint : Buffer -> result Z * Buffer.

(** X5. [readTime] yields only times at or after the Unix epoch, with whole
    microseconds: whatever uint64 the varint holds, the time returned has
    its seconds in [0, 18446744073709] and its nanoseconds a multiple of
    1000 below one second; an error of the varint is passed on. *)
Theorem readTime_range (buf rest : Buffer) (r : result Z) :
  ReadUint buf = (r, rest) ->
  match r with
  | Err e => readTime ReadUint buf = (Err e, rest)
  | Ok v =>
      is_u64 v ->
      readTime ReadUint buf
      = (Ok (mkTime (v / 1000000) (v mod 1000000 * 1000)), rest) /\
      0 <= v / 1000000 <= 18446744073709 /\
      0 <= v mod 1000000 * 1000 < 1000000000 /\
      (v mod 1000000 * 1000) mod 1000 = 0
  end.
Proof.
  intros Hread. unfold readTime. rewrite Hread. destruct r as [v|e]; [|reflexivity].
  unfold is_u64, two64. intros Hv.
  assert (Hsec : 0 <= v / 1000000 <= 18446744073709).
  { Z.div_mod_to_equations. lia. }
  pose proof (Z.mod_pos_bound v 1000000 ltac:(lia)) as Hmod.
  split; [|split; [exact Hsec|split; [lia|apply Z.mod_mul; lia]]].
  unfold mul64, u64, int64_of_u64, two63, two64.
  rewrite (Z.mod_small (v mod 1000000 * 1000)) by lia.
  destruct (Z.ltb_spec (v / 1000000) (2 ^ 63)); [|lia].
  destruct (Z.ltb_spec (v mod 1000000 * 1000) (2 ^ 63)); [|lia].
  unfold time_Unix.
  destruct (Z.ltb_spec (v mod 1000000 * 1000) 0); [lia|].
  destruct (Z.leb_spec 1000000000 (v mod 1000000 * 1000)); [lia|].
  reflexivity.
Qed.

(** X6. What [readBytes] returns on any input: an error of the varint is
    passed on with the buffer as the varint left it; a declared length of at
    most 2 MiB that the buffer can supply gives exactly that many bytes,
    the next ones, and leaves the rest (a declared length of 0 gives the
    empty sequence even from an empty buffer); [readString] does the same
    and converts the bytes. *)
Theorem readBytes_takes_declared_length (buf rest : Buffer) (r : result Z) :
  ReadUint buf = (r, rest) ->
  match r with
  | Err e =>
      readBytes ReadUint buf = (Err e, rest) /\
      readString ReadUint buf = (Err e, rest)
  | Ok val =>
      0 <= val <= 2 * 1024 * 1024 -> val <= Z.of_nat (List.length rest) ->
      readBytes ReadUint buf
      = (Ok (take (Z.to_nat val) rest), drop (Z.to_nat val) rest) /\
      readString ReadUint buf
      = (Ok (string_of_bytes (take (Z.to_nat val) rest)), drop (Z.to_nat val) rest)
  end.
Proof.
  intros Hread. unfold readString, readBytes. rewrite Hread.
  destruct r as [val|e]; [|auto].
  intros Hval Hlen.
  destruct (Z.gtb_spec val (2 * 1024 * 1024)); [lia|].
  assert (Hread' : Buffer_Read rest (Z.to_nat val)
                   = (take (Z.to_nat val) rest, None, drop (Z.to_nat val) rest)).
  { unfold Buffer_Read. destruct rest as [|x rest]; [|reflexivity].
    cbn [List.length] in Hlen. replace val with 0 by lia. reflexivity. }
  rewrite Hread'. rewrite length_take, Nat2Z.inj_min, Z2Nat.id by lia.
  rewrite Z.min_l by lia. rewrite Z.eqb_refl. cbn [negb]. auto.
Qed.

End ReadingMore.

Lemma readTime_range_witness :
  readTime Funnybase.ReadUint [8; 255; 255; 255; 255; 255; 255; 255; 255]
    = (Ok (mkTime (18446744073709551615 / 1000000)
                  (18446744073709551615 mod 1000000 * 1000)), []) /\
  0 <= 18446744073709551615 / 1000000 <= 18446744073709 /\
  0 <= 18446744073709551615 mod 1000000 * 1000 < 1000000000 /\
  (18446744073709551615 mod 1000000 * 1000) mod 1000 = 0.
Proof.
  apply (readTime_range Funnybase.ReadUint
           [8; 255; 255; 255; 255; 255; 255; 255; 255] []
           (Ok 18446744073709551615) eq_refl).
  unfold is_u64, two64. lia.
Defined.

Lemma readBytes_takes_declared_length_witness :
  readBytes Funnybase.ReadUint [1; 2; 10; 20; 30]
    = (Ok [10; 20], [30]) /\
  readString Funnybase.ReadUint [1; 2; 10; 20; 30]
    = (Ok (string_of_bytes [10; 20]), [30]).
Proof.
  apply (readBytes_takes_declared_length Funnybase.ReadUint
           [1; 2; 10; 20; 30] [10; 20; 30] (Ok 2) eq_refl).
  - lia.
  - simpl. lia.
Defined.



(** ** Values written one after the other *)

Section Sequences.

Variable WriteUint : Z -> list Z.
Variable ReadUint : Buffer -> result Z * Buffer.

Hypothesis ReadUint_WriteUint :
  forall (v : Z) (rest : Buffer),
    is_u64 v -> ReadUint (WriteUint v ++ rest) = (Ok v, rest).

Lemma writeString_app (buf : Buffer) (s : string) :
  writeString WriteUint buf s = buf ++ writeString WriteUint [] s.
Proof. unfold writeString, Buffer_Write. now rewrite app_assoc. Qed.

Lemma writeBytes_app (buf : Buffer) (b : list Z) :
  writeBytes WriteUint buf b = buf ++ writeBytes WriteUint [] b.
Proof. unfold writeBytes, Buffer_Write. now rewrite app_assoc. Qed.

Lemma writeTime_app (buf : Buffer) (t : Time) :
  writeTime WriteUint buf t = buf ++ writeTime WriteUint [] t.
Proof. reflexivity. Qed.

Lemma writeFloat64_app_nil (buf : Buffer) (v : float64) :
  writeFloat64 buf v = buf ++ writeFloat64 [] v.
Proof. now rewrite (writeFloat64_app buf), (writeFloat64_app []). Qed.

Lemma writeGeoPoint_app (buf : Buffer) (gp : GeoPoint) :
  writeGeoPoint buf gp = buf ++ writeGeoPoint [] gp.
Proof.
  unfold writeGeoPoint.
  rewrite (writeFloat64_app_nil (writeFloat64 buf _)).
  rewrite (writeFloat64_app_nil (writeFloat64 [] _)).
  rewrite (writeFloat64_app_nil buf).
  now rewrite <- app_assoc.
Qed.

(** X7. Values written one after the other into a buffer are read back one
    after the other: a string, a byte sequence (each of at most 2 MiB), a
    float64, a geo-point and a timestamp (at or after the epoch) written in
    this order are returned in this order by the readers, each reader
    leaving exactly what the following ones need, and the buffer ends
    empty. *)
Theorem written_in_sequence_read_in_sequence
    (s : string) (b : list Z) (v : float64) (gp : GeoPoint) (t : Time) :
  Z.of_nat (String.length s) <= 2 * 1024 * 1024 ->
  Z.of_nat (List.length b) <= 2 * 1024 * 1024 ->
  is_u64 v -> is_u64 (Lat gp) -> is_u64 (Lng gp) ->
  valid_Time t -> 0 <= Unix t ->
  Unix t * 1000000 + Nanosecond t / 1000 < two64 ->
  exists b1 b2 b3 b4,
    readString ReadUint
      (writeTime WriteUint
         (writeGeoPoint
            (writeFloat64
               (writeBytes WriteUint (writeString WriteUint [] s) b) v) gp) t)
    = (Ok s, b1) /\
    readBytes ReadUint b1 = (Ok b, b2) /\
    readFloat64 b2 = (Ok v, b3) /\
    readGeoPoint b3 = (Ok gp, b4) /\
    readTime ReadUint b4 = (Ok (truncate_micro t), []).
Proof.
  intros Hs Hb Hv Hlat Hlng Ht Hpos Hfit.
  rewrite writeTime_app, writeGeoPoint_app, (writeFloat64_app_nil _ v), writeBytes_app.
  exists (writeBytes WriteUint [] b
          ++ writeFloat64 [] v ++ writeGeoPoint [] gp ++ writeTime WriteUint [] t),
         (writeFloat64 [] v ++ writeGeoPoint [] gp ++ writeTime WriteUint [] t),
         (writeGeoPoint [] gp ++ writeTime WriteUint [] t),
         (writeTime WriteUint [] t).
  split; [|split; [|split; [|split]]].
  - rewrite <- !app_assoc.
    now apply (readString_writeString WriteUint ReadUint ReadUint_WriteUint).
  - now apply (readBytes_writeBytes WriteUint ReadUint ReadUint_WriteUint).
  - now apply readFloat64_writeFloat64.
  - now apply readGeoPoint_writeGeoPoint.
  - rewrite <- (app_nil_r (writeTime WriteUint [] t)).
    now apply (readTime_writeTime WriteUint ReadUint ReadUint_WriteUint).
Qed.

End Sequences.

Lemma written_in_sequence_read_in_sequence_witness :
  exists b1 b2 b3 b4,
    readString Funnybase.ReadUint
      (writeTime Funnybase.WriteUint
         (writeGeoPoint
            (writeFloat64
               (writeBytes Funnybase.WriteUint
                  (writeString Funnybase.WriteUint [] "ab") [1; 2; 3])
               4609434218613702656)
            (mkGeoPoint 4609434218613702656 13830554455654793216))
         (mkTime 1445470000 123456789))
    = (Ok "ab"%string, b1) /\
    readBytes Funnybase.ReadUint b1 = (Ok [1; 2; 3], b2) /\
    readFloat64 b2 = (Ok 4609434218613702656, b3) /\
    readGeoPoint b3
    = (Ok (mkGeoPoint 4609434218613702656 13830554455654793216), b4) /\
    readTime Funnybase.ReadUint b4
    = (Ok (truncate_micro (mkTime 1445470000 123456789)), []).
Proof.
  apply (written_in_sequence_read_in_sequence
           Funnybase.WriteUint Funnybase.ReadUint Funnybase_roundtrip
           "ab" [1; 2; 3] 4609434218613702656
           (mkGeoPoint 4609434218613702656 13830554455654793216)
           (mkTime 1445470000 123456789)).
  - simpl. lia.
  - simpl. lia.
  - unfold is_u64, two64. lia.
  - unfold is_u64, two64. simpl. lia.
  - unfold is_u64, two64. simpl. lia.
  - unfold valid_Time, two63. cbn [Unix Nanosecond]. lia.
  - cbn [Unix]. lia.
  - unfold two64. cbn [Unix Nanosecond]. Z.div_mod_to_equations. lia.
Defined.


(** ** The order of the encodings, read back *)

Lemma bytes_lt_irrefl (a : list Z) : bytes_lt a a = false.
Proof.
  induction a as [|x a IH]; [reflexivity|].
  cbn [bytes_lt]. now rewrite Z.ltb_irrefl, Z.eqb_refl, IH.
Qed.

Lemma bytes_lt_asym (a b : list Z) : bytes_lt a b = true -> bytes_lt b a = false.
Proof.
  revert b. induction a as [|x a IH]; intros [|y b]; cbn [bytes_lt];
    try discriminate; try reflexivity.
  destruct (Z.ltb_spec x y), (Z.ltb_spec y x), (Z.eqb_spec x y), (Z.eqb_spec y x);
    cbn; try lia; try discriminate; try reflexivity.
  apply IH.
Qed.

Lemma PutUint64_lt_iff (x y : Z) :
  is_u64 x -> is_u64 y ->
  bytes_lt (PutUint64 x) (PutUint64 y) = true <-> x < y.
Proof.
  intros Hx Hy. split; [|now apply PutUint64_lt].
  intros Hlt. destruct (Z.lt_trichotomy x y) as [H|[->|H]]; [exact H| |].
  - now rewrite bytes_lt_irrefl in Hlt.
  - apply (PutUint64_lt y x Hy Hx) in H. apply bytes_lt_asym in H. congruence.
Qed.

Ltac finite_cmp_goal :=
  rewrite ?compare_cont_to_pos by lia;
  repeat match goal with
  | |- context [Z.compare ?x ?y] => destruct (Z.compare_spec x y); simpl
  end.

Lemma fields_lt_conv (s1 e1 m1 s2 e2 m2 : Z) :
  0 <= s1 <= 1 -> 0 <= e1 < 2048 -> 0 <= m1 < 2 ^ 52 ->
  0 <= s2 <= 1 -> 0 <= e2 < 2048 -> 0 <= m2 < 2 ^ 52 ->
  fields_value s1 e1 m1 <> S754_nan -> fields_value s2 e2 m2 <> S754_nan ->
  key_of_fields s1 e1 m1 < key_of_fields s2 e2 m2 ->
  SFltb (fields_value s1 e1 m1) (fields_value s2 e2 m2) = true \/
  (s1 = 1 /\ e1 = 0 /\ m1 = 0 /\ s2 = 0 /\ e2 = 0 /\ m2 = 0).
Proof.
  intros Hs1 He1 Hm1 Hs2 He2 Hm2.
  unfold fields_value, key_of_fields, SFltb, SFcompare, two63.
  destruct (Z.ltb_spec 0 s1), (Z.ltb_spec 0 s2);
  destruct (Z.eqb_spec e1 2047), (Z.eqb_spec e2 2047);
  destruct (Z.eqb_spec m1 0), (Z.eqb_spec m2 0);
  destruct (Z.eqb_spec e1 0), (Z.eqb_spec e2 0);
  intros Hn1 Hn2 Hk; try contradiction; try lia;
  first [ solve [right; lia]
        | left; finite_cmp_goal; simpl; solve [reflexivity | lia] ].
Qed.

(** X25. The order of the encodings is that of the values, but for the two
    zeros.  For float64 values [a] and [b] that are not NaNs, the bytes
    written for [a] are below the bytes written for [b] exactly when
    [a < b], or [a] is the negative zero and [b] the positive zero: the
    two zeros, equal as float64 values, are written as different bytes,
    the negative one first. *)
Theorem writeFloat64_order_reflecting (buf : Buffer) (a b : float64) :
  is_u64 a -> is_u64 b ->
  float64_value a <> S754_nan -> float64_value b <> S754_nan ->
  bytes_lt (writeFloat64 buf a) (writeFloat64 buf b) = true <->
  float64_lt a b = true \/ (a = two63 /\ b = 0).
Proof.
  intros Ha Hb Hna Hnb.
  rewrite !writeFloat64_app, bytes_lt_app_same.
  rewrite PutUint64_lt_iff by (apply flip_range; assumption).
  split.
  - rewrite (flip_fields a Ha), (flip_fields b Hb).
    destruct (float64_fields a Ha) as (Ea & Hsa & Hea & Hma).
    destruct (float64_fields b Hb) as (Eb & Hsb & Heb & Hmb).
    intros Hk.
    apply fields_lt_conv in Hk; try assumption.
    destruct Hk as [Hlt|(S1 & E1 & M1 & S2 & E2 & M2)]; [now left|right].
    rewrite S1, E1, M1 in Ea. rewrite S2, E2, M2 in Eb.
    unfold two63. lia.
  - intros [Hlt|[-> ->]]; [now apply float64_lt_flip|].
    vm_compute. reflexivity.
Qed.

Lemma writeFloat64_order_reflecting_witness :
  bytes_lt (writeFloat64 [] two63) (writeFloat64 [] 0) = true /\
  float64_lt two63 0 = false.
Proof.
  split; [|vm_compute; reflexivity].
  apply (writeFloat64_order_reflecting [] two63 0).
  - unfold is_u64, two63, two64. lia.
  - unfold is_u64, two64. lia.
  - discriminate.
  - discriminate.
  - right. split; reflexivity.
Defined.


End SerializeMore.


(* ===================================================================== *)
(** * Part VI: further properties of the struct codec *)
(* ===================================================================== *)

Module RawDatastoreMore.

Import RawDatastore RawDatastoreTheory.

(** ** Property names *)

Section Names.

Variable IsLetter : rune -> bool.
Variable IsDigit : rune -> bool.

Local Abbreviation validSegment := (validSegment IsLetter IsDigit).
Local Abbreviation validPropertyName := (validPropertyName IsLetter IsDigit).

Lemma splitDot_not_nil (s : string) : splitDot s <> [].
Proof.
  induction s as [|c s IH]; [discriminate|]. cbn [splitDot].
  destruct (Ascii.eqb c "."); [discriminate|].
  destruct (splitDot s); discriminate.
Qed.

Lemma splitDot_app_dot (a b : string) :
  splitDot (a +:+ "." +:+ b) = splitDot a ++ splitDot b.
Proof.
  induction a as [|c a IH]; [reflexivity|].
  change (String c a +:+ "." +:+ b)%string with (String c (a +:+ "." +:+ b)).
  cbn [splitDot]. rewrite IH.
  destruct (Ascii.eqb c "."); [reflexivity|].
  pose proof (splitDot_not_nil a) as Ha.
  destruct (splitDot a) as [|h t]; [contradiction|reflexivity].
Qed.

(** The test for the empty name is subsumed by the test of the segments. *)
Lemma validPropertyName_segments (name_ : string) :
  validPropertyName name_ = forallb validSegment (splitDot name_).
Proof.
  unfold RawDatastore.validPropertyName.
  destruct (decide (name_ = EmptyString)) as [->|]; reflexivity.
Qed.

(** X8. Property names and dots: the name [a.b] is valid exactly when [a]
    and [b] both are.  So a name made of a valid name, a dot and a valid
    name (as flattening makes them) is valid, and a valid name does not
    begin or end with a dot, nor hold two dots in a row, the empty name
    being invalid. *)
Theorem validPropertyName_dot (a b : string) :
  validPropertyName (a +:+ "." +:+ b) = validPropertyName a && validPropertyName b.
Proof.
  rewrite !validPropertyName_segments, splitDot_app_dot. apply forallb_app.
Qed.

End Names.

(** ** Schema construction *)

Section Construction.

Variable IsLetter : rune -> bool.
Variable IsDigit : rune -> bool.
Variable ParseInt : string -> option Z.
Variable mapRange : forall A : Type, gmap string A -> list (string * A).
Variable env : TypeEnv.

Local Abbreviation buildField := (buildField IsLetter IsDigit ParseInt mapRange env).
Local Abbreviation buildFields := (buildFields IsLetter IsDigit ParseInt mapRange env).
Local Abbreviation getStructCodecLocked :=
  (getStructCodecLocked IsLetter IsDigit ParseInt mapRange env).
Local Abbreviation readTag := (readTag IsLetter IsDigit).
Local Abbreviation nestedType := (nestedType IsLetter IsDigit env).
Local Abbreviation startBuilding := (startBuilding env).
Local Abbreviation unbuilt := (unbuilt env).

(** X9. The cache of schemas: a request for the codec of a type leaves the
    codec it returns in the cache under that type, keeps every entry the
    cache had as it was, and any later request for the type returns that
    same codec and leaves the cache alone, whatever its recursion budget
    (nothing is derived again). *)
Theorem getStructCodecLocked_caches (fuel : nat) (cache cache' : Cache)
    (t : string) (c : structCodec) :
  getStructCodecLocked fuel cache t = Some (cache', c) ->
  cache' !! t = Some c /\
  (forall k ck, cache !! k = Some ck -> cache' !! k = Some ck) /\
  (forall fuel', getStructCodecLocked fuel' cache' t = Some (cache', c)).
Proof.
  intros Hget.
  assert (Hc : cache' !! t = Some c) by (eapply getStructCodecLocked_cached; eauto).
  split; [exact Hc|]. split.
  - intros k ck Hk. eapply lookup_weaken; [exact Hk|].
    eapply getStructCodecLocked_preserving; eauto.
  - intros fuel'. now apply getStructCodecLocked_hit.
Qed.

(** *** The recursion budget *)

Definition extends_rec (rec1 rec2 : Cache -> string -> option (Cache * structCodec))
    : Prop :=
  forall cache k r, rec1 cache k = Some r -> rec2 cache k = Some r.

Lemma buildField_budget rec1 rec2 i f cache bm bn hs :
  extends_rec rec1 rec2 ->
  buildField rec1 i f cache bm bn hs <> NoFuel ->
  buildField rec2 i f cache bm bn hs = buildField rec1 i f cache bm bn hs.
Proof.
  intros Hrec. unfold RawDatastore.buildField.
  destruct (readTag f) as [nm opts| |nm|nm opts]; try reflexivity.
  destruct (negb _); [reflexivity|]. unfold RawDatastore.fieldByType.
  destruct (fieldShape env f hs) as [[[[cv sl] [u|]] hs']|e]; try reflexivity.
  destruct (rec1 cache (structId u)) as [r|] eqn:E; [|contradiction].
  now rewrite (Hrec _ _ _ E).
Qed.

Lemma buildFields_budget rec1 rec2 fields i b :
  extends_rec rec1 rec2 ->
  buildFields rec1 fields i b <> Starved ->
  buildFields rec2 fields i b = buildFields rec1 fields i b.
Proof.
  intros Hrec. revert i b. induction fields as [|f fields IH]; intros i b; [reflexivity|].
  cbn [RawDatastore.buildFields].
  pose proof (buildField_budget rec1 rec2 i f (b_cache b) (b_byMeta b) (b_byName b)
                (b_hasSlice b) Hrec) as H1.
  destruct (buildField rec1 i f _ _ _ _) as [cache' bm' bn' hs' st|cache' hs' e|];
    intros Hn.
  - rewrite H1 by discriminate. now apply IH.
  - rewrite H1 by discriminate. reflexivity.
  - contradiction.
Qed.

Lemma getStructCodecLocked_budget_S (fuel : nat) :
  extends_rec (getStructCodecLocked fuel) (getStructCodecLocked (S fuel)).
Proof.
  induction fuel as [|fuel IH]; intros cache t r.
  - rewrite getStructCodecLocked_O, getStructCodecLocked_S.
    destruct (cache !! t); [auto|discriminate].
  - rewrite (getStructCodecLocked_S _ _ _ _ _ (S fuel)),
      (getStructCodecLocked_S _ _ _ _ _ fuel).
    destruct (cache !! t); [auto|].
    destruct (buildFields (getStructCodecLocked fuel) _ _ _) eqn:E; try discriminate;
      rewrite (buildFields_budget _ _ _ _ _ IH) by (rewrite E; discriminate);
      rewrite E; auto.
Qed.

Lemma getStructCodecLocked_budget (fuel fuel' : nat) :
  fuel <= fuel' -> extends_rec (getStructCodecLocked fuel) (getStructCodecLocked fuel').
Proof.
  induction 1 as [|fuel' _ IH]; intros cache t r H; [exact H|].
  apply getStructCodecLocked_budget_S. now apply IH.
Qed.

(** X10. Schema construction terminates and its result does not depend on
    the recursion budget: with a budget above the number of declared struct
    types that the cache does not hold yet, the construction returns, for
    any type (cyclic ones included) and any cache, and every larger budget
    gives the same codec and the same cache. *)
Theorem getStructCodecLocked_terminates (fuel : nat) (cache : Cache) (t : string) :
  unbuilt cache < fuel ->
  exists cache' c,
    forall fuel', fuel <= fuel' ->
      getStructCodecLocked fuel' cache t = Some (cache', c).
Proof.
  intros Hfuel.
  destruct (getStructCodecLocked_returns IsLetter IsDigit ParseInt mapRange env
              fuel cache t Hfuel) as [[cache' c] Hget].
  exists cache', c. intros fuel' Hle.
  now apply (getStructCodecLocked_budget fuel fuel' Hle).
Qed.

(** *** Fields that make the construction fail *)

Lemma fails_at (fuel : nat) (cache : Cache) (t : string)
    (pre post : list StructField) (f : StructField) (b : Building)
    (cache2 : Cache) (hs : bool) (e : SchemaError) :
  cache !! t = None ->
  fieldsOf env t = pre ++ f :: post ->
  buildFields (getStructCodecLocked fuel) pre 0 (startBuilding cache t) = Complete b ->
  buildField (getStructCodecLocked fuel) (List.length pre) f (b_cache b)
             (b_byMeta b) (b_byName b) (b_hasSlice b) = Fail cache2 hs e ->
  exists cache' c,
    getStructCodecLocked (S fuel) cache t = Some (cache', c) /\
    cache' !! t = Some c /\
    problem c = Some e /\
    byIndex c = [] /\ byName c = ∅ /\ byMeta c = ∅.
Proof.
  intros Hmiss Hfields Hpre Hstep.
  eexists _, _. split.
  - eapply construction_fails_at; eauto.
  - split; [apply lookup_insert_eq|]. cbn. auto.
Qed.

(** X11. Field types that are refused.  When the field loop comes, without
    problem so far, to an exported field with a property name whose type has
    no converter of its own: a field of an interface type other than [Key]
    makes the construction return the problem "non-concrete interface
    type"; a field that is not a nested struct and whose type (its element
    type, for a slice) is not a property type makes it return the problem
    "invalid type".  The codec returned is cached, with its tables freed. *)
Theorem field_type_is_refused (fuel : nat) (cache : Cache) (t : string)
    (pre post : list StructField) (f : StructField) (b : Building)
    (nm opts : string) :
  cache !! t = None ->
  fieldsOf env t = pre ++ f :: post ->
  buildFields (getStructCodecLocked fuel) pre 0 (startBuilding cache t) = Complete b ->
  exported f = true -> readTag f = TagName nm opts ->
  implementsPropertyConverter env (Type_ f) = false ->
  (kindOf (Type_ f) = Interface -> Type_ f <> typeOfKey ->
     exists cache' c,
       getStructCodecLocked (S fuel) cache t = Some (cache', c) /\
       cache' !! t = Some c /\
       problem c = Some (ErrNonConcrete (Name f) (Type_ f)) /\
       byIndex c = [] /\ byName c = ∅ /\ byMeta c = ∅) /\
  (forall sl h0,
     fieldShape env f false = inl (false, sl, None, h0) ->
     propertyTypeOK env (if sl then default (TOther "") (elemOf (Type_ f))
                         else Type_ f) = false ->
     exists cache' c,
       getStructCodecLocked (S fuel) cache t = Some (cache', c) /\
       cache' !! t = Some c /\
       problem c = Some (ErrInvalidType nm (Type_ f)) /\
       byIndex c = [] /\ byName c = ∅ /\ byMeta c = ∅).
Proof.
  intros Hmiss Hfields Hpre Hexp Htag Hconv. split.
  - intros Hkind Hkey. eapply fails_at; eauto.
    unfold RawDatastore.buildField. fold (exported f). fold (readTag f).
    rewrite Htag, Hexp. cbn [negb]. unfold RawDatastore.fieldByType.
    rewrite fieldShape_hasSlice. unfold fieldShape. rewrite Hconv, Hkind.
    destruct (decide (Type_ f <> typeOfKey)); [reflexivity|contradiction].
  - intros sl h0 Hshape Hbad. eapply fails_at; eauto.
    unfold RawDatastore.buildField. fold (exported f). fold (readTag f).
    rewrite Htag, Hexp. cbn [negb]. unfold RawDatastore.fieldByType.
    rewrite fieldShape_hasSlice, Hshape, Hbad. reflexivity.
Qed.

(** A field that makes the construction descend, when it is a slice. *)
Lemma nested_slice_shape (f : StructField) (u : GoType) :
  nestedType f = Some u -> kindOf (Type_ f) = Slice ->
  fieldShape env f false = inl (false, true, Some u, true).
Proof.
  intros Hn Hk. revert Hn. unfold RawDatastore.nestedType.
  destruct (RawDatastore.readTag _ _ f); try discriminate.
  destruct (bool_decide _); [|discriminate].
  unfold fieldShape. destruct (implementsPropertyConverter env (Type_ f)); [discriminate|].
  rewrite Hk.
  destruct (implementsPropertyConverter env _); [discriminate|].
  destruct (decide (kindOf _ = Struct)) as [E|]; [|discriminate].
  rewrite E. cbn. now intros [= <-].
Qed.

(** X12. Problems of nested structs.  When the field loop comes, without
    problem so far, to a field that makes the construction descend into a
    struct type [u]: if the codec of [u] has a problem [e] (other than
    being under construction), the construction returns the problem "field
    has problem: [e]" naming the field; if the codec of [u] has no problem
    but holds a slice, and the field is itself a slice of [u], it returns
    the problem "slice of slices".  The codec returned is cached, with its
    tables freed. *)
Theorem nested_struct_is_refused (fuel : nat) (cache : Cache) (t : string)
    (pre post : list StructField) (f : StructField) (b : Building)
    (u : GoType) (cache2 : Cache) (sub : structCodec) :
  cache !! t = None ->
  fieldsOf env t = pre ++ f :: post ->
  buildFields (getStructCodecLocked fuel) pre 0 (startBuilding cache t) = Complete b ->
  nestedType f = Some u ->
  getStructCodecLocked fuel (b_cache b) (structId u) = Some (cache2, sub) ->
  (forall e, problem sub = Some e -> e <> errRecursiveStruct ->
     exists cache' c,
       getStructCodecLocked (S fuel) cache t = Some (cache', c) /\
       cache' !! t = Some c /\
       problem c = Some (ErrFieldProblem (Name f) e) /\
       byIndex c = [] /\ byName c = ∅ /\ byMeta c = ∅) /\
  (problem sub = None -> hasSlice sub = true -> kindOf (Type_ f) = Slice ->
     exists cache' c,
       getStructCodecLocked (S fuel) cache t = Some (cache', c) /\
       cache' !! t = Some c /\
       problem c = Some (ErrSliceOfSlices (Name f)) /\
       byIndex c = [] /\ byName c = ∅ /\ byMeta c = ∅).
Proof.
  intros Hmiss Hfields Hpre Hnested Hsub.
  destruct (buildField_nested IsLetter IsDigit ParseInt mapRange env
              (getStructCodecLocked fuel) (List.length pre) f
              (b_cache b) (b_byMeta b) (b_byName b) (b_hasSlice b) u Hnested)
    as (nm & opts & cv & sl & hs' & _ & Hshape & Hstep).
  rewrite Hsub in Hstep. split.
  - intros e He Hne. rewrite He in Hstep.
    destruct (decide (e = errRecursiveStruct)); [contradiction|].
    eapply fails_at; eauto.
  - intros Hp Hhs Hkind. rewrite Hp in Hstep.
    rewrite fieldShape_hasSlice, (nested_slice_shape f u Hnested Hkind) in Hshape.
    injection Hshape as <- <- <-. rewrite Hhs in Hstep. cbn [andb] in Hstep.
    eapply fails_at; eauto.
Qed.


End Construction.

(** ** What a finished schema holds *)

Section Tables.

Variable IsLetter : rune -> bool.
Variable IsDigit : rune -> bool.
Variable ParseInt : string -> option Z.
Variable mapRange : forall A : Type, gmap string A -> list (string * A).
Variable env : TypeEnv.

Hypothesis mapRange_entries :
  forall (A : Type) (m : gmap string A), mapRange A m ≡ₚ map_to_list m.

Local Abbreviation buildField := (buildField IsLetter IsDigit ParseInt mapRange env).
Local Abbreviation buildFields := (buildFields IsLetter IsDigit ParseInt mapRange env).
Local Abbreviation getStructCodecLocked :=
  (getStructCodecLocked IsLetter IsDigit ParseInt mapRange env).
Local Abbreviation readTag := (readTag IsLetter IsDigit).
Local Abbreviation nestedType := (nestedType IsLetter IsDigit env).
Local Abbreviation startBuilding := (startBuilding env).
Local Abbreviation sound := (sound IsLetter IsDigit ParseInt env).
Local Abbreviation convertMeta := (convertMeta ParseInt).

(** The metadata table of a construction under way holds the names of the
    metadata fields visited, and only them. *)
Lemma byMeta_under_way (fuel : nat) (cache : Cache) (t : string)
    (pre : list StructField) (b : Building) (nm : string) :
  buildFields (getStructCodecLocked fuel) pre 0 (startBuilding cache t) = Complete b ->
  is_Some (b_byMeta b !! nm) <->
  exists k f0 opts0, pre !! k = Some f0 /\ readTag f0 = TagMeta nm opts0.
Proof.
  intros Hpre.
  apply (buildFields_spec IsLetter IsDigit ParseInt mapRange env mapRange_entries)
    in Hpre as (_ & _ & tags & _ & _ & Hspec & _ & Hmeta);
    [|now apply getStructCodecLocked_builder].
  split.
  - intros [j Hj]. destruct (Hmeta nm j Hj) as [Hold|(k & f0 & opts0 & _ & Hk & Ht)].
    + cbn in Hold. rewrite lookup_empty in Hold. discriminate.
    + eauto.
  - intros (k & f0 & opts0 & Hk & Ht).
    destruct (Hspec k f0 Hk) as (st & _ & Hfs).
    unfold fieldSpec in Hfs. fold (readTag f0) in Hfs. rewrite Ht in Hfs.
    destruct Hfs as (mv & _ & _ & Hbm). eauto.
Qed.

(** X13. Metadata fields that are refused.  When the field loop comes,
    without problem so far, to a field tagged [$nm]: if an earlier field of
    the struct is tagged [$nm] too, the construction returns the problem
    "meta field set multiple times"; if none is, and the default in the tag
    cannot be converted to the type of the field, it returns the problem
    "meta field has bad type".  The conversion fails for every type other
    than string, int64 and Toggle, for a Toggle whose default is not one of
    on, On, true, off, Off, false (so a Toggle needs a default), and for an
    int64 whose default is not empty and does not parse. *)
Theorem meta_field_is_refused (fuel : nat) (cache : Cache) (t : string)
    (pre post : list StructField) (f : StructField) (b : Building)
    (nm opts : string) :
  cache !! t = None ->
  fieldsOf env t = pre ++ f :: post ->
  buildFields (getStructCodecLocked fuel) pre 0 (startBuilding cache t) = Complete b ->
  readTag f = TagMeta nm opts ->
  (forall k f0 opts0, pre !! k = Some f0 -> readTag f0 = TagMeta nm opts0 ->
     exists cache' c,
       getStructCodecLocked (S fuel) cache t = Some (cache', c) /\
       cache' !! t = Some c /\
       problem c = Some (ErrMetaMultiple ("$" +:+ nm)) /\
       byIndex c = [] /\ byName c = ∅ /\ byMeta c = ∅) /\
  ((forall k f0 opts0, pre !! k = Some f0 -> readTag f0 <> TagMeta nm opts0) ->
   forall err, convertMeta opts (Type_ f) = inr err ->
     exists cache' c,
       getStructCodecLocked (S fuel) cache t = Some (cache', c) /\
       cache' !! t = Some c /\
       problem c = Some (ErrMetaBadType ("$" +:+ nm) err) /\
       byIndex c = [] /\ byName c = ∅ /\ byMeta c = ∅) /\
  (Type_ f <> typeOfString -> Type_ f <> typeOfInt64 -> Type_ f <> typeOfToggle ->
     convertMeta opts (Type_ f) = inr (BadMetaType (Type_ f) opts)) /\
  (Type_ f = typeOfToggle ->
     ~ (opts = "on" \/ opts = "On" \/ opts = "true")%string ->
     ~ (opts = "off" \/ opts = "Off" \/ opts = "false")%string ->
     convertMeta opts (Type_ f) = inr (BadToggle opts)) /\
  (Type_ f = typeOfInt64 -> opts <> EmptyString -> ParseInt opts = None ->
     convertMeta opts (Type_ f) = inr (BadInt opts)).
Proof.
  intros Hmiss Hfields Hpre Htag.
  pose proof (byMeta_under_way fuel cache t pre b nm Hpre) as Hbm.
  split; [|split; [|split; [|split]]].
  - intros k f0 opts0 Hk Ht.
    destruct (proj2 Hbm) as [j Hj]; [eauto|].
    eapply fails_at; eauto.
    unfold RawDatastore.buildField. fold (readTag f). now rewrite Htag, Hj.
  - intros Hnone err Herr.
    assert (Hj : b_byMeta b !! nm = None).
    { destruct (b_byMeta b !! nm) eqn:E; [|reflexivity].
      destruct (proj1 Hbm) as (k & f0 & opts0 & Hk & Ht); [eauto|].
      now destruct (Hnone k f0 opts0 Hk). }
    eapply fails_at; eauto.
    unfold RawDatastore.buildField. fold (readTag f). now rewrite Htag, Hj, Herr.
  - intros H1 H2 H3. unfold RawDatastore.convertMeta.
    repeat (destruct (decide _); [contradiction|]). reflexivity.
  - intros -> H1 H2. unfold RawDatastore.convertMeta.
    destruct (decide (typeOfToggle = typeOfString)); [discriminate|].
    destruct (decide (typeOfToggle = typeOfInt64)); [discriminate|].
    destruct (decide (typeOfToggle = typeOfToggle)); [|contradiction].
    destruct (decide _); [contradiction|]. destruct (decide _); [contradiction|].
    reflexivity.
  - intros -> H1 H2. unfold RawDatastore.convertMeta.
    destruct (decide (typeOfInt64 = typeOfString)); [discriminate|].
    destruct (decide (typeOfInt64 = typeOfInt64)); [|contradiction].
    destruct (decide _); [contradiction|]. now rewrite H2.
Qed.

(** X14. The tables of a finished schema.  A codec that the construction
    returns without problem, from a sound cache (the empty one is), has one
    tag per field of the type, in order, and
    - the table of names maps a name only to an exported field with a
      property name, the table of metadata a key only to the field tagged
      with [$key];
    - a metadata field is skipped by [save] (its tag is named ["-"]), is in
      the table of metadata, and its tag holds the default of the struct
      tag, converted;
    - an excluded field and an unexported one are skipped;
    - an exported field with property name [nm] that is not a nested struct
      has a tag named [nm], is in the table of names under [nm], and is not
      indexed exactly when its option is [noindex];
    - a nested struct field has a tag named [nm.], that holds the codec
      cached for the nested type, and is in the table of names under [nm.]
      followed by each name of the nested codec.
    The cache the construction leaves is sound again. *)
Theorem finished_schema_tables (fuel : nat) (cache cache' : Cache)
    (t : string) (c : structCodec) :
  sound cache ->
  getStructCodecLocked fuel cache t = Some (cache', c) ->
  problem c = None ->
  sound cache' /\
  List.length (byIndex c) = List.length (fieldsOf env t) /\
  (forall nm i, byName c !! nm = Some i ->
     exists f nm0 opts,
       fieldsOf env t !! i = Some f /\ exported f = true /\
       readTag f = TagName nm0 opts) /\
  (forall key i, byMeta c !! key = Some i ->
     exists f opts, fieldsOf env t !! i = Some f /\ readTag f = TagMeta key opts) /\
  (forall i f, fieldsOf env t !! i = Some f ->
     exists st,
       byIndex c !! i = Some st /\ canSet st = exported f /\
       match readTag f with
       | TagMeta key opts =>
           name st = "-"%string /\ byMeta c !! key = Some i /\
           convertMeta opts (Type_ f) = inl (metaVal st)
       | TagExcluded => name st = "-"%string
       | TagInvalid _ => False
       | TagName nm opts =>
           if exported f then
             idxSetting st
             = (if decide (opts = "noindex"%string) then NoIndex else ShouldIndex) /\
             match nestedType f with
             | None =>
                 name st = nm /\ substructCodec st = None /\ byName c !! nm = Some i
             | Some u =>
                 name st = dotted nm /\
                 exists sub,
                   substructCodec st = Some sub /\
                   cache' !! structId u = Some sub /\ problem sub = None /\
                   forall rel, is_Some (byName sub !! rel) ->
                               byName c !! (dotted nm +:+ rel)%string = Some i
             end
           else name st = "-"%string
       end).
Proof.
  intros Hs Hget Hp.
  destruct (getStructCodecLocked_sound IsLetter IsDigit ParseInt mapRange env
              mapRange_entries fuel cache cache' t c Hs Hget) as (Hs' & _ & Hspec).
  destruct (Hspec Hp) as (Hlen & Hfields & Hnames & Hmetas).
  split; [exact Hs'|]. split; [exact Hlen|]. split; [exact Hnames|].
  split; [exact Hmetas|].
  intros i f Hi. destruct (Hfields i f Hi) as (st & Hst & Hfs).
  exists st. split; [exact Hst|].
  unfold fieldSpec in Hfs. fold (readTag f) in Hfs.
  unfold RawDatastore.nestedType. fold (readTag f). fold (exported f).
  destruct (readTag f) as [key opts| |nm|nm opts].
  - destruct Hfs as (mv & Hmv & -> & Hbm). cbn. auto.
  - subst st. cbn. auto.
  - contradiction.
  - destruct (exported f); [|subst st; cbn; auto].
    destruct (fieldShape env f false) as [[[[cv sl] [u|]] h0]|e]; [| |contradiction].
    + destruct Hfs as (sub & Hsub & Hpsub & -> & Hrel). cbn. eauto 10.
    + destruct Hfs as [-> Hbn]. cbn. auto.
Qed.


End Tables.


(** ** Load *)

Section Loading.

Variable env : TypeEnv.
Variable zeroValue : GoType -> Value.
Variable FromProperty : Value -> Property -> Value * option string.
Variable mapRange : forall A : Type, gmap string A -> list (string * A).

Local Abbreviation coerce := (coerce env).
Local Abbreviation loadLeaf := (loadLeaf env zeroValue FromProperty).
Local Abbreviation loadInner := (loadInner env zeroValue FromProperty).
Local Abbreviation loadValues := (loadValues env zeroValue FromProperty).
Local Abbreviation loadEntries := (loadEntries env zeroValue FromProperty).
Local Abbreviation Load := (Load env zeroValue FromProperty mapRange).

(** *** Names the struct does not have *)

Definition noSuchField (t : GoType) (e : string * list Property)
    : list ErrFieldMismatch :=
  map (fun _ => mkErrFieldMismatch t e.1 NoSuchField) e.2.

Lemma loadValues_unknown c nm multiple props i o fails :
  byName c !! nm = None ->
  loadValues c nm multiple props i o fails
  = Return (o, fails ++ noSuchField (vtype o) (nm, props)).
Proof.
  intros Hnone. unfold noSuchField. cbn [fst snd].
  revert i fails. induction props as [|p props IH]; intros i fails.
  - cbn. now rewrite app_nil_r.
  - cbn [RawDatastore.loadValues map]. rewrite loadInner_unfold, Hnone.
    cbn [mbind exec_bind]. rewrite IH, <- app_assoc. reflexivity.
Qed.

Lemma loadEntries_unknown c es o fails :
  (forall nm, nm ∈ es.*1 -> byName c !! nm = None) ->
  loadEntries c es o fails
  = Return (o, fails ++ concat (map (noSuchField (vtype o)) es)).
Proof.
  revert fails. induction es as [|[nm props] es IH]; intros fails Hnone.
  - cbn. now rewrite app_nil_r.
  - cbn [RawDatastore.loadEntries]. rewrite loadValues_unknown by (apply Hnone; left).
    cbn [mbind exec_bind]. rewrite IH by (intros nm' Hin; apply Hnone; now right).
    cbn [map concat]. now rewrite <- app_assoc.
Qed.

(** *** Values that are refused *)

Lemma coerce_refused (v : Value) (pVal : PropertyValue) (r : Reason) (v' : Value) :
  coerce v pVal = Return (Some r, v') -> v' = v.
Proof.
  unfold RawDatastore.coerce. intros H.
  repeat (case_match; try discriminate); simplify_eq; reflexivity.
Qed.

Lemma loadLeaf_refused (v : Value) (p : Property) (rs : bool) (r : Reason) (v' : Value) :
  implementsPropertyConverter env (vtype v) = false ->
  loadLeaf v p rs = Return (Some r, v') -> v' = v.
Proof.
  intros Hconv. unfold RawDatastore.loadLeaf. rewrite Hconv.
  destruct (elemOf (vtype v)) as [elemT|].
  - destruct (decide _) as [Hslice|].
    + destruct (implementsPropertyConverter env (vtype (zeroValue elemT))).
      * destruct (FromProperty _ p) as [z err]. cbn.
        destruct (reasonOf err); now intros [= _ <-].
      * destruct (coerce (zeroValue elemT) (propValue p)) as [[[r0|] z]|]; cbn;
          try discriminate; now intros [= _ <-].
    + destruct rs; [now intros [= _ <-]|apply coerce_refused].
  - destruct rs; [now intros [= _ <-]|apply coerce_refused].
Qed.

(** X17. A value that is refused changes nothing: when [loadInner] finds a
    mismatch for a field that is not a nested struct and whose type has no
    converter of its own, whatever the reason (type mismatch, overflow, a
    single-valued field given one of several values, or a refusal by the
    converter of the elements of a slice), the record is returned as it
    was. *)
Theorem refused_value_changes_nothing (c : structCodec) (o : Value) (index : nat)
    (nm : string) (p : Property) (rs : bool) (fi : nat) (st : structTag)
    (v : Value) (r : Reason) (o' : Value) :
  byName c !! nm = Some fi ->
  byIndex c !! fi = Some st ->
  substructCodec st = None ->
  Field o fi = Some v ->
  implementsPropertyConverter env (vtype v) = false ->
  loadInner c o index nm p rs = Return (Some r, o') ->
  o' = o.
Proof.
  intros Hn Hi Hsub Hf Hconv.
  rewrite (loadInner_leaf env zeroValue FromProperty c o index nm p rs fi st v
             Hn Hi Hsub Hf).
  destruct (loadLeaf v p rs) as [[r0 v']|] eqn:E; [|discriminate].
  cbn. intros [= -> <-].
  apply loadLeaf_refused in E; [|exact Hconv]. subst v'.
  now apply setField_same.
Qed.

(** *** Integers *)

(** The width of the integers of a kind ([int] is 64 bits wide). *)
Definition bitsOf (k : Kind) : Z :=
  match k with Int8 => 8 | Int16 => 16 | Int32 => 32 | _ => 64 end%Z.

Definition isIntKind (k : Kind) : Prop :=
  k = Int \/ k = Int8 \/ k = Int16 \/ k = Int32 \/ k = Int64.

(** X18. Integers are range-checked: an integer property loaded alone into
    an integer field (not a nested struct, no converter, not a key) is
    stored when it fits the width of the field (8, 16, 32 or 64 bits,
    signed), and otherwise refused with the reason "overflows", the record
    being left as it was. *)
Theorem load_integer_in_range (c : structCodec) (o : Value) (index : nat)
    (nm : string) (p : Property) (fi : nat) (st : structTag) (v : Value) (x : Z) :
  byName c !! nm = Some fi ->
  byIndex c !! fi = Some st ->
  substructCodec st = None ->
  Field o fi = Some v ->
  implementsPropertyConverter env (vtype v) = false ->
  implementsKey env (vtype v) = false ->
  isIntKind (kindOf (vtype v)) ->
  propValue p = PVInt x ->
  ((- 2 ^ (bitsOf (kindOf (vtype v)) - 1) <= x < 2 ^ (bitsOf (kindOf (vtype v)) - 1))%Z ->
     loadInner c o index nm p false
     = Return (None, setField o fi (setData v (DInt x)))) /\
  (~ (- 2 ^ (bitsOf (kindOf (vtype v)) - 1) <= x < 2 ^ (bitsOf (kindOf (vtype v)) - 1))%Z ->
     loadInner c o index nm p false
     = Return (Some (Overflows (PVInt x) (vtype v)), o)).
Proof.
  intros Hn Hi Hsub Hf Hconv Hkey Hkind Hp.
  rewrite (loadInner_leaf env zeroValue FromProperty c o index nm p false fi st v
             Hn Hi Hsub Hf).
  assert (Hleaf : loadLeaf v p false = coerce v (PVInt x)).
  { unfold RawDatastore.loadLeaf. rewrite Hconv, Hp.
    destruct (elemOf (vtype v)); [|reflexivity].
    destruct (decide _) as [[Hs _]|]; [|reflexivity].
    destruct Hkind as [E|[E|[E|[E|E]]]]; congruence. }
  rewrite Hleaf. unfold RawDatastore.coerce. rewrite Hkey.
  assert (Hover : OverflowInt (kindOf (vtype v)) x
                  = negb ((- 2 ^ (bitsOf (kindOf (vtype v)) - 1) <=? x)%Z
                          && (x <? 2 ^ (bitsOf (kindOf (vtype v)) - 1))%Z)).
  { unfold OverflowInt, bitsOf. destruct (kindOf (vtype v)); reflexivity. }
  split; intros Hrange.
  - assert (Hno : OverflowInt (kindOf (vtype v)) x = false).
    { rewrite Hover. destruct (Z.leb_spec (- 2 ^ (bitsOf (kindOf (vtype v)) - 1)) x);
        [|lia].
      destruct (Z.ltb_spec x (2 ^ (bitsOf (kindOf (vtype v)) - 1))); [reflexivity|lia]. }
    destruct Hkind as [E|[E|[E|[E|E]]]]; rewrite E in *; cbn; rewrite Hno; reflexivity.
  - assert (Hyes : OverflowInt (kindOf (vtype v)) x = true).
    { rewrite Hover. destruct (Z.leb_spec (- 2 ^ (bitsOf (kindOf (vtype v)) - 1)) x);
        [|reflexivity].
      destruct (Z.ltb_spec x (2 ^ (bitsOf (kindOf (vtype v)) - 1))); [lia|reflexivity]. }
    destruct Hkind as [E|[E|[E|[E|E]]]]; rewrite E in *; cbn; rewrite Hyes; cbn;
      now rewrite (setField_same o fi v Hf).
Qed.


(** [range] visits every entry of a map once, in some order. *)
Hypothesis mapRange_entries :
  forall (A : Type) (m : gmap string A), mapRange A m ≡ₚ map_to_list m.

Lemma mapRange_dom (A : Type) (m : gmap string A) (nm : string) :
  nm ∈ (mapRange A m).*1 <-> is_Some (m !! nm).
Proof.
  rewrite mapRange_entries. split.
  - intros ([nm' x] & -> & Hin)%list_elem_of_fmap. exists x.
    now apply elem_of_map_to_list.
  - intros [x Hx]. apply list_elem_of_fmap. exists (nm, x).
    split; [reflexivity|]. now apply elem_of_map_to_list.
Qed.

(** X15. Properties the struct has no field for: when no name of the
    property map is a name of the codec, [Load] returns the record as it
    was, with one mismatch "no such struct field" per value of the map,
    naming the property, all in one multi-error (no error at all when the
    map holds no value). *)
Theorem Load_of_unknown_names (c : structCodec) (o : Value) (pm : PropertyMap) :
  Problem c = None ->
  (forall nm, is_Some (pm !! nm) -> byName c !! nm = None) ->
  Load c o pm
  = Return (o, match concat (map (noSuchField (vtype o)) (mapRange _ pm)) with
               | [] => None
               | fails => Some (MultiError fails)
               end).
Proof.
  intros Hp Hnone. unfold RawDatastore.Load. rewrite Hp.
  rewrite loadEntries_unknown by (intros nm Hin; now apply Hnone, mapRange_dom).
  cbn [mbind exec_bind app].
  destruct (concat _); reflexivity.
Qed.

(** X16. What [Load] leaves alone: the record keeps its type, every field
    that no name of the property map designates in the table of names is
    as it was, and the empty map changes nothing and gives no error other
    than the problem of the codec, if it has one. *)
Theorem Load_touches_only_named_fields (c : structCodec) (o : Value)
    (pm : PropertyMap) (o' : Value) (err : option Error) :
  Load c o pm = Return (o', err) ->
  vtype o' = vtype o /\
  (forall j, (forall nm, is_Some (pm !! nm) -> byName c !! nm <> Some j) ->
             Field o' j = Field o j) /\
  (pm = ∅ ->
   o' = o /\
   err = match Problem c with Some e => Some (Schema e) | None => None end).
Proof.
  unfold RawDatastore.Load. destruct (Problem c) as [e|].
  { intros [= <- <-]. auto. }
  destruct (loadEntries c (mapRange _ pm) o []) as [[o1 fails]|] eqn:E; [|discriminate].
  cbn [mbind exec_bind]. intros Hret.
  assert (o1 = o') as <- by (destruct fails; now injection Hret).
  pose proof E as E'.
  apply loadEntries_frame in E as (Ht & Hframe & _).
  split; [exact Ht|]. split.
  - intros j Hj. apply Hframe. intros nm Hin. now apply Hj, mapRange_dom.
  - intros ->.
    assert (Hnil : mapRange (list Property) ∅ = []).
    { apply Permutation.Permutation_nil. symmetry.
      rewrite mapRange_entries, map_to_list_empty. reflexivity. }
    rewrite Hnil in E'. cbn in E'. injection E' as <- <-.
    now injection Hret as <-.
Qed.

(** *** Slices *)

Lemma setField_setField (o : Value) (i : nat) (x y : Value) :
  setField (setField o i x) i y = setField o i y.
Proof.
  destruct o as [t []]; try reflexivity. cbn. now rewrite list_insert_insert_eq.
Qed.

Lemma loadValues_appends (c : structCodec) (nm : string) (multiple : bool)
    (fi : nat) (st : structTag) (elemT : GoType) (props : list Property)
    (zs : list Value) :
  byName c !! nm = Some fi ->
  byIndex c !! fi = Some st ->
  substructCodec st = None ->
  kindOf elemT <> Uint8 ->
  implementsPropertyConverter env (vtype (zeroValue elemT)) = false ->
  Forall2 (fun p z => coerce (zeroValue elemT) (propValue p) = Return (None, z))
          props zs ->
  forall (i : nat) (o : Value) (fails : list ErrFieldMismatch) (t : GoType)
         (vs : list Value),
    Field o fi = Some (mkValue t (DSlice vs)) ->
    kindOf t = Slice -> elemOf t = Some elemT ->
    implementsPropertyConverter env t = false ->
    loadValues c nm multiple props i o fails
    = Return (setField o fi (mkValue t (DSlice (vs ++ zs))), fails).
Proof.
  intros Hn Hi Hsub Hbyte Hconvz Hall.
  induction Hall as [|p z props zs Hp Hall IH]; intros i o fails t vs Hf Hk He Hconv.
  - cbn. rewrite app_nil_r, (setField_same o fi _ Hf). reflexivity.
  - cbn [RawDatastore.loadValues].
    rewrite (loadInner_leaf env zeroValue FromProperty c o i nm p multiple fi st _
               Hn Hi Hsub Hf).
    unfold RawDatastore.loadLeaf. cbn [vtype]. rewrite Hconv, He.
    destruct (decide (kindOf t = Slice /\ kindOf elemT <> Uint8)) as [_|Hno];
      [|exfalso; apply Hno; auto].
    rewrite Hconvz, Hp. cbn [mbind exec_bind]. unfold setData, elemsOf. cbn [vtype vdata].
    rewrite (IH (S i) _ fails t (vs ++ [z]));
      [|eapply Field_setField_eq; eauto|exact Hk|exact He|exact Hconv].
    now rewrite setField_setField, <- app_assoc.
Qed.

(** X19. [Load] appends to slices: the values of a property loaded into a
    slice field (not a slice of bytes, no converter) are appended to what
    the slice holds already, in the order of the property, whether the
    property has one value or several; nothing the slice held is dropped or
    replaced.  This for the loop over the values of one property, and so
    for the [Load] of a map with that one property. *)
Theorem Load_appends_to_slice (c : structCodec) (o : Value) (nm : string)
    (fi : nat) (st : structTag) (t elemT : GoType) (vs : list Value)
    (props : list Property) (zs : list Value) :
  byName c !! nm = Some fi ->
  byIndex c !! fi = Some st ->
  substructCodec st = None ->
  Field o fi = Some (mkValue t (DSlice vs)) ->
  kindOf t = Slice -> elemOf t = Some elemT -> kindOf elemT <> Uint8 ->
  implementsPropertyConverter env t = false ->
  implementsPropertyConverter env (vtype (zeroValue elemT)) = false ->
  Forall2 (fun p z => coerce (zeroValue elemT) (propValue p) = Return (None, z))
          props zs ->
  (forall multiple i fails,
     loadValues c nm multiple props i o fails
     = Return (setField o fi (mkValue t (DSlice (vs ++ zs))), fails)) /\
  (Problem c = None ->
   Load c o {[ nm := props ]}
   = Return (setField o fi (mkValue t (DSlice (vs ++ zs))), None)).
Proof.
  intros Hn Hi Hsub Hf Hk He Hbyte Hconv Hconvz Hall.
  assert (Hloop : forall multiple i fails,
             loadValues c nm multiple props i o fails
             = Return (setField o fi (mkValue t (DSlice (vs ++ zs))), fails)).
  { intros multiple i fails. eapply loadValues_appends; eauto. }
  split; [exact Hloop|].
  intros Hp. unfold RawDatastore.Load. rewrite Hp.
  assert (Hone : mapRange (list Property) {[ nm := props ]} = [(nm, props)]).
  { apply Permutation.Permutation_length_1_inv. symmetry.
    rewrite mapRange_entries, map_to_list_singleton. reflexivity. }
  rewrite Hone. cbn [RawDatastore.loadEntries]. rewrite Hloop. reflexivity.
Qed.


End Loading.


(** ** Metadata *)

Section Meta.

Variable IsLetter : rune -> bool.
Variable IsDigit : rune -> bool.
Variable ParseInt : string -> option Z.
Variable mapRange : forall A : Type, gmap string A -> list (string * A).
Variable env : TypeEnv.
Variable zeroValue : GoType -> Value.
Variable DeepEqual : Value -> Value -> bool.

Hypothesis mapRange_entries :
  forall (A : Type) (m : gmap string A), mapRange A m ≡ₚ map_to_list m.

Local Abbreviation getStructCodecLocked :=
  (getStructCodecLocked IsLetter IsDigit ParseInt mapRange env).
Local Abbreviation readTag := (readTag IsLetter IsDigit).
Local Abbreviation sound := (sound IsLetter IsDigit ParseInt env).
Local Abbreviation convertMeta := (convertMeta ParseInt).
Local Abbreviation GetMeta := (GetMeta zeroValue DeepEqual).

(** What [GetMeta] makes of a field that is not at its zero value: a
    [Toggle] is shown as a bool. *)
Definition shown (f : Value) : Iface :=
  match f with
  | mkValue t (DToggle bf) =>
      if decide (t = typeOfToggle) then IBool (bool_decide (bf = On)) else IValue f
  | _ => IValue f
  end.

(** What [SetMeta] stores for a value: a bool becomes a [Toggle]. *)
Definition stored (val : Iface) : option Value :=
  valueOfIface
    match val with
    | IBool b => IValue (mkValue typeOfToggle (DToggle (if b then On else Off)))
    | _ => val
    end.

(** X20. [SetMeta] then [GetMeta]: when [SetMeta] succeeds it has stored the
    value in the field of the key and changed no other field, and [GetMeta]
    for that key then returns the value stored, a [Toggle] shown as the bool
    that was given, unless the value stored is the zero value of its type,
    in which case [GetMeta] returns the default of the struct tag instead.
    When [SetMeta] fails, the record is as it was. *)
Theorem SetMeta_then_GetMeta (c : structCodec) (o : Value) (key : string)
    (val : Iface) (o' : Value) (err : option Error) :
  SetMeta c o key val = Return (o', err) ->
  match err with
  | Some _ => o' = o
  | None =>
      exists idx st x,
        byMeta c !! key = Some idx /\ byIndex c !! idx = Some st /\
        canSet st = true /\ stored val = Some x /\
        o' = setField o idx x /\ Field o' idx = Some x /\
        (forall j, j <> idx -> Field o' j = Field o j) /\
        GetMeta c o' key
        = Return (inl (if DeepEqual (zeroValue (vtype x)) x then metaVal st
                       else shown x)) /\
        (forall b, val = IBool b ->
           DeepEqual (zeroValue typeOfToggle) x = false ->
           GetMeta c o' key = Return (inl (IBool b)))
  end.
Proof.
  unfold RawDatastore.SetMeta.
  destruct (Problem c) as [e|] eqn:Hp; [now intros [= <- <-]|].
  destruct (byMeta c !! key) as [idx|] eqn:Hk; [|now intros [= <- <-]].
  destruct (byIndex c !! idx) as [st|] eqn:Hi; [|discriminate].
  destruct (canSet st) eqn:Hcs; cbn [negb]; [|now intros [= <- <-]].
  destruct (Field o idx) as [f|] eqn:Hf; [|discriminate].
  fold (stored val). destruct (stored val) as [x|] eqn:Hx; [|discriminate].
  destruct (decide (vtype x = vtype f)) as [Ht|]; [|discriminate].
  intros [= <- <-].
  assert (Hf' : Field (setField o idx x) idx = Some x)
    by (eapply Field_setField_eq; eauto).
  assert (Hget : GetMeta c (setField o idx x) key
                 = Return (inl (if DeepEqual (zeroValue (vtype x)) x then metaVal st
                                else shown x))).
  { unfold RawDatastore.GetMeta. rewrite Hp, Hk, Hi, Hf', Hcs. cbn [andb].
    destruct (DeepEqual (zeroValue (vtype x)) x); cbn [negb]; [reflexivity|].
    unfold shown. destruct x as [t []]; try reflexivity.
    destruct (decide (t = typeOfToggle)); reflexivity. }
  exists idx, st, x. repeat (split; [first [assumption|reflexivity]|]). split.
  - intros j Hj. apply Field_setField_ne. congruence.
  - split; [exact Hget|]. intros b -> Hz. rewrite Hget.
    unfold stored in Hx. cbn in Hx. injection Hx as <-. cbn [vtype].
    rewrite Hz. cbn. destruct (decide (typeOfToggle = typeOfToggle)); [|contradiction].
    destruct b; reflexivity.
Qed.

(** X21. The default of a metadata field: in a codec built without
    problem from a sound cache, [GetMeta] for the key of a field tagged
    [$key,default] returns the default of the tag, converted to the type of
    the field, when the field is unexported or holds the zero value of its
    type, and what the field holds otherwise. *)
Theorem GetMeta_default (fuel : nat) (cache cache' : Cache) (t : string)
    (c : structCodec) (o : Value) (i : nat) (f : StructField)
    (key opts : string) (v : Value) :
  sound cache ->
  getStructCodecLocked fuel cache t = Some (cache', c) ->
  problem c = None ->
  fieldsOf env t !! i = Some f ->
  readTag f = TagMeta key opts ->
  Field o i = Some v ->
  exists mv,
    convertMeta opts (Type_ f) = inl mv /\
    GetMeta c o key
    = Return (inl (if exported f && negb (DeepEqual (zeroValue (vtype v)) v)
                   then shown v else mv)).
Proof.
  intros Hs Hget Hp Hi Htag Hv.
  destruct (getStructCodecLocked_sound IsLetter IsDigit ParseInt mapRange env
              mapRange_entries fuel cache cache' t c Hs Hget) as (_ & _ & Hspec).
  destruct (Hspec Hp) as (_ & Hfields & _ & _).
  destruct (Hfields i f Hi) as (st & Hst & Hfs).
  unfold fieldSpec in Hfs. fold (readTag f) in Hfs. rewrite Htag in Hfs.
  destruct Hfs as (mv & Hmv & -> & Hbm).
  exists mv. split; [exact Hmv|].
  unfold RawDatastore.GetMeta, Problem. rewrite Hp, Hbm, Hst, Hv. cbn [canSet skipTag metaVal].
  destruct (exported f && negb _); [|reflexivity].
  unfold shown. destruct v as [tv []]; try reflexivity.
  destruct (decide (tv = typeOfToggle)); reflexivity.
Qed.

End Meta.


(** ** Save *)

(** No field of the codec, or of a codec nested in it, is saved through a
    converter of its own. *)
Fixpoint noConverter (c : structCodec) : Prop :=
  match c with
  | mkStructCodec _ _ tags _ _ =>
      (fix all (l : list structTag) : Prop :=
         match l with
         | [] => True
         | mkStructTag _ _ _ sub cv _ _ :: l' =>
             match sub with
             | Some s => noConverter s
             | None => cv = false
             end /\ all l'
         end) tags
  end.

Lemma noConverter_tags (c : structCodec) :
  noConverter c ->
  Forall (fun st => match substructCodec st with
                    | Some s => noConverter s
                    | None => convert st = false
                    end) (byIndex c).
Proof.
  destruct c as [bm bn tags hs pr]. cbn [noConverter byIndex].
  induction tags as [|[nm0 i0 sl0 sub cv mv cs] tags IH]; [constructor|].
  intros [Hst Hrest]. constructor; [exact Hst|exact (IH Hrest)].
Qed.

Section Saving.

Variable env : TypeEnv.
Variable zeroValue : GoType -> Value.
Variable DeepEqual : Value -> Value -> bool.
Variable ToProperty : Value -> Property + string.
Variable SetValue : Iface -> IndexSetting -> Property + string.
Variable mapRange : forall A : Type, gmap string A -> list (string * A).

Local Abbreviation saveLeaf := (saveLeaf env ToProperty SetValue).
Local Abbreviation saveProp := (saveProp env ToProperty SetValue).
Local Abbreviation saveFields := (saveFields env ToProperty SetValue).
Local Abbreviation saveWith := (saveWith env ToProperty SetValue).
Local Abbreviation save := (save env ToProperty SetValue).
Local Abbreviation Save := (Save env zeroValue DeepEqual ToProperty SetValue mapRange).
Local Abbreviation saveMeta := (saveMeta zeroValue DeepEqual SetValue).
Local Abbreviation GetMeta := (GetMeta zeroValue DeepEqual).

(** *** Under [NoIndex] *)

(** A step that leaves the count as it was. *)
Definition uncounted
    (step : PropertyMap -> Z -> exec (Error + PropertyMap * Z)) : Prop :=
  forall pm k pm' k', step pm k = Return (inr (pm', k')) -> k' = k.

Lemma saveElems_uncounted step elems :
  (forall v, uncounted (step v)) -> uncounted (saveElems step elems).
Proof.
  intros H. induction elems as [|v elems IH]; intros pm k pm' k'.
  - cbn. now intros [= <- <-].
  - cbn [saveElems].
    destruct (step v pm k) as [[err|[pm1 k1]]|] eqn:E; cbn; try discriminate.
    intros Hrest. apply H in E. apply IH in Hrest. congruence.
Qed.

Lemma saveProp_uncounted rec ceiling st nm v :
  (forall val p, SetValue val NoIndex = inl p -> propIndexSetting p = NoIndex) ->
  match substructCodec st with
  | Some sub =>
      forall o pm prefix pm' n,
        rec sub o pm prefix NoIndex = Return (inr (pm', n)) -> n = 0%Z
  | None => convert st = false
  end ->
  uncounted (saveProp rec ceiling st nm NoIndex v).
Proof.
  intros Hset Hst pm k pm' k'. unfold RawDatastore.saveProp.
  destruct (substructCodec st) as [sub|].
  - destruct (rec sub v pm nm NoIndex) as [[err|[pm1 n1]]|] eqn:E; cbn; try discriminate.
    apply Hst in E. subst n1.
    destruct (over _ _); [discriminate|]. intros [= _ <-]. lia.
  - unfold RawDatastore.saveLeaf. rewrite Hst. cbn.
    destruct (SetValue (IValue v) NoIndex) as [prop|msg] eqn:E; [|discriminate].
    rewrite (Hset _ _ E).
    destruct (decide (NoIndex = ShouldIndex)); [discriminate|]. now intros [= _ <-].
Qed.

Lemma saveFields_uncounted rec ceiling o prefix tags i :
  (forall val p, SetValue val NoIndex = inl p -> propIndexSetting p = NoIndex) ->
  Forall (fun st => match substructCodec st with
                    | Some sub =>
                        forall o pm prefix pm' n,
                          rec sub o pm prefix NoIndex = Return (inr (pm', n)) -> n = 0%Z
                    | None => convert st = false
                    end) tags ->
  uncounted (saveFields rec ceiling o prefix NoIndex tags i).
Proof.
  intros Hset H. revert i. induction H as [|st tags Hst Htags IH]; intros i pm k pm' k'.
  - cbn. now intros [= <- <-].
  - rewrite saveFields_cons. destruct (decide _); [apply IH|].
    destruct (Field o i) as [v|]; [|discriminate].
    destruct (saveStep _ _ _ _ _ _ _ _ _ _ _) as [[err|[pm1 k1]]|] eqn:E;
      cbn; try discriminate.
    intros Hrest. apply IH in Hrest. subst k'.
    revert E. unfold saveStep.
    assert (Hsi : (if decide (idxSetting st = NoIndex) then NoIndex else NoIndex) = NoIndex)
      by (destruct (decide _); reflexivity).
    rewrite Hsi.
    destruct (isSlice st).
    + destruct (vdata v); try discriminate.
      apply saveElems_uncounted. intros v'. now apply saveProp_uncounted.
    + now apply saveProp_uncounted.
Qed.

(** X22. Nothing saved under [NoIndex] is indexed.  When [save] is entered
    with the setting [NoIndex], as it is for a nested struct whose field is
    tagged [noindex], every field below inherits the setting, through any
    depth of nesting and whatever its own tag says: provided no field is
    saved through a converter of its own and [SetValue] leaves a property it
    is asked not to index unindexed, the count returned is 0 and the map
    holds as many should-index properties as before. *)
Theorem save_noindex_is_inherited (ceiling : option Z) (c : structCodec) (o : Value)
    (pm : PropertyMap) (prefix : string) (pm' : PropertyMap) (n : Z) :
  (forall val p, SetValue val NoIndex = inl p -> propIndexSetting p = NoIndex) ->
  noConverter c ->
  saveWith ceiling c o pm prefix NoIndex = Return (inr (pm', n)) ->
  n = 0%Z /\ indexedCount pm' = indexedCount pm.
Proof.
  intros Hset Hnc Hrun.
  assert (Hn : n = 0%Z).
  { revert o pm prefix pm' n Hnc Hrun.
    induction c as [bm bn tags hs pr IH] using structCodec_nested_ind.
    intros o pm prefix pm' n Hnc.
    apply noConverter_tags in Hnc. cbn [byIndex] in Hnc.
    cbn [RawDatastore.saveWith Problem problem byIndex].
    destruct pr; [discriminate|].
    apply saveFields_uncounted; [exact Hset|].
    apply Forall_forall. intros st Hin.
    rewrite Forall_forall in IH, Hnc. specialize (IH st Hin). specialize (Hnc st Hin).
    destruct (substructCodec st) as [sub|]; [|exact Hnc].
    intros o1 pm1 prefix1 pm1' n1. now apply (IH sub eq_refl). }
  split; [exact Hn|].
  apply saveWith_counts in Hrun. lia.
Qed.

(** *** With metadata *)

Lemma saveMeta_entries (c : structCodec) (o : Value) (keys : list (string * nat)) :
  NoDup keys.*1 ->
  forall ret pm,
    saveMeta c o keys ret = Return (inr pm) ->
    (forall k, k ∈ keys.*1 ->
       exists val p,
         GetMeta c o k = Return (inl val) /\ SetValue val NoIndex = inl p /\
         pm !! ("$" +:+ k)%string = Some [p]) /\
    (forall nm, (forall k, k ∈ keys.*1 -> nm <> ("$" +:+ k)%string) ->
                pm !! nm = ret !! nm).
Proof.
  induction keys as [|[k i] keys IH]; intros Hnd ret pm.
  - cbn. intros [= <-]. split; [intros k Hk; inversion Hk|reflexivity].
  - cbn [RawDatastore.saveMeta fmap list_fmap fst] in *.
    apply NoDup_cons in Hnd as [Hk Hnd].
    destruct (GetMeta c o k) as [[val|err]|] eqn:Eget; cbn; try discriminate.
    destruct (SetValue val NoIndex) as [p|msg] eqn:Eset; [|discriminate].
    intros Hrest. destruct (IH Hnd _ _ Hrest) as [Hkeys Hother]. split.
    + intros k' Hk'. apply elem_of_cons in Hk' as [->|Hk']; [|now apply Hkeys].
      exists val, p. split; [exact Eget|]. split; [exact Eset|].
      rewrite Hother, lookup_insert_eq; [reflexivity|].
      intros k' Hk' Heq. apply append_cancel_l in Heq. subst k'. contradiction.
    + intros nm Hnm. rewrite Hother by (intros k' Hk'; apply Hnm; now right).
      apply lookup_insert_ne. intros Heq. apply (Hnm k); [now left|now symmetry].
Qed.

(** [range] visits every entry of a map once, in some order. *)
Hypothesis mapRange_entries :
  forall (A : Type) (m : gmap string A), mapRange A m ≡ₚ map_to_list m.

(** X23. [Save] with metadata is [Save] without, and the metadata.  When
    [Save(false)] fails, [Save(true)] fails with the same error.  When
    [Save(false)] returns a map and [Save(true)] one too, the latter holds,
    for every key [k] of the table of metadata, under the name [$k], the one
    property that [SetValue] made, with the setting [NoIndex], of what
    [GetMeta] returns for [k]; under every other name it holds what the map
    of [Save(false)] holds. *)
Theorem Save_with_metadata (c : structCodec) (o : Value) :
  (forall e, Save c o false = Return (inl e) -> Save c o true = Return (inl e)) /\
  (forall ret pm,
     Save c o false = Return (inr ret) -> Save c o true = Return (inr pm) ->
     (forall k, is_Some (byMeta c !! k) ->
        exists val p,
          GetMeta c o k = Return (inl val) /\ SetValue val NoIndex = inl p /\
          pm !! ("$" +:+ k)%string = Some [p]) /\
     (forall nm, (forall k, is_Some (byMeta c !! k) -> nm <> ("$" +:+ k)%string) ->
                 pm !! nm = ret !! nm)).
Proof.
  unfold RawDatastore.Save.
  destruct (RawDatastore.save _ _ _ c o ∅ EmptyString ShouldIndex)
    as [[err|[ret0 n]]|]; cbn.
  - split; [auto|]. intros ret pm [=].
  - split; [intros e [=]|]. intros ret pm [= <-] Hmeta.
    assert (Hdom : forall k, k ∈ (mapRange nat (byMeta c)).*1 <-> is_Some (byMeta c !! k)).
    { intros k. rewrite mapRange_entries. split.
      - intros ([k' i] & -> & Hin)%list_elem_of_fmap. exists i.
        now apply elem_of_map_to_list.
      - intros [i Hi]. apply list_elem_of_fmap. exists (k, i).
        split; [reflexivity|]. now apply elem_of_map_to_list. }
    apply saveMeta_entries in Hmeta as [Hkeys Hother].
    + split.
      * intros k Hk. now apply Hkeys, Hdom.
      * intros nm Hnm. apply Hother. intros k Hk. now apply Hnm, Hdom.
    + rewrite mapRange_entries. apply NoDup_fst_map_to_list.
  - split; intros; discriminate.
Qed.

End Saving.


(** ** Save, then Load *)

Section RoundTrip.

Variable env : TypeEnv.
Variable zeroValue : GoType -> Value.
Variable DeepEqual : Value -> Value -> bool.
Variable FromProperty : Value -> Property -> Value * option string.
Variable ToProperty : Value -> Property + string.
Variable SetValue : Iface -> IndexSetting -> Property + string.
Variable mapRange : forall A : Type, gmap string A -> list (string * A).

Local Abbreviation saveFields := (saveFields env ToProperty SetValue).
Local Abbreviation saveWith := (saveWith env ToProperty SetValue).
Local Abbreviation converted := (converted env ToProperty SetValue).
Local Abbreviation Save := (Save env zeroValue DeepEqual ToProperty SetValue mapRange).
Local Abbreviation loadLeaf := (loadLeaf env zeroValue FromProperty).
Local Abbreviation loadInner := (loadInner env zeroValue FromProperty).
Local Abbreviation loadValues := (loadValues env zeroValue FromProperty).
Local Abbreviation loadEntries := (loadEntries env zeroValue FromProperty).
Local Abbreviation Load := (Load env zeroValue FromProperty mapRange).

(** A codec without nested structs and slices: every field that is saved is
    a single value, under a name that the table of names maps back to it
    (as the construction makes it for such fields). *)
Definition flat (c : structCodec) : Prop :=
  forall i st, byIndex c !! i = Some st -> name st <> "-"%string ->
    substructCodec st = None /\ isSlice st = false /\ byName c !! name st = Some i.

(** What the field loop of [save] leaves in the map, for such fields. *)
Lemma saveFields_flat rec ceiling o tags :
  forall i0 pm k pm' k',
    (forall j st, tags !! j = Some st -> name st <> "-"%string ->
       substructCodec st = None /\ isSlice st = false /\ pm !! name st = None) ->
    (forall j1 j2 st1 st2, tags !! j1 = Some st1 -> tags !! j2 = Some st2 ->
       name st1 <> "-"%string -> name st1 = name st2 -> j1 = j2) ->
    saveFields rec ceiling o EmptyString ShouldIndex tags i0 pm k
    = Return (inr (pm', k')) ->
    (forall j st, tags !! j = Some st -> name st <> "-"%string ->
       exists v p,
         Field o (i0 + j) = Some v /\
         converted st (savedIndex ShouldIndex st) v = Return (inl p) /\
         pm' !! name st = Some [p]) /\
    (forall nm,
       (forall j st, tags !! j = Some st -> name st <> "-"%string -> name st <> nm) ->
       pm' !! nm = pm !! nm).
Proof.
  induction tags as [|st0 tags IH]; intros i0 pm k pm' k' Hflat Hinj.
  - cbn. intros [= <- <-]. split; [intros j st Hj; discriminate|reflexivity].
  - rewrite saveFields_cons.
    assert (Hflat' : forall pm1 : PropertyMap,
               (forall nm, nm <> name st0 -> pm1 !! nm = pm !! nm) ->
               forall j st, tags !! j = Some st -> name st <> "-"%string ->
                 substructCodec st = None /\ isSlice st = false /\ pm1 !! name st = None).
    { intros pm1 Hpm1 j st Hj Hname.
      destruct (Hflat (S j) st Hj Hname) as (Hsub & Hsl & Hnone).
      repeat split; try assumption.
      destruct (decide (name st = name st0)) as [E|E].
      - specialize (Hinj (S j) 0%nat st st0 Hj eq_refl Hname E). discriminate.
      - now rewrite Hpm1. }
    assert (Hinj' : forall j1 j2 st1 st2, tags !! j1 = Some st1 -> tags !! j2 = Some st2 ->
               name st1 <> "-"%string -> name st1 = name st2 -> j1 = j2).
    { intros j1 j2 st1 st2 H1 H2 Hn E.
      specialize (Hinj (S j1) (S j2) st1 st2 H1 H2 Hn E). lia. }
    destruct (decide (name st0 = "-"%string)) as [Hskip|Hname].
    + intros Hrun.
      destruct (IH (S i0) pm k pm' k') as [Hsaved Hother];
        [|exact Hinj'|exact Hrun|].
      { intros j st Hj Hn. exact (Hflat (S j) st Hj Hn). }
      split.
      * intros [|j] st Hj Hn; cbn in Hj.
        -- injection Hj as ->. contradiction.
        -- rewrite <- Nat.add_succ_comm. now apply Hsaved.
      * intros nm Hnm. apply Hother. intros j st Hj Hn. exact (Hnm (S j) st Hj Hn).
    + destruct (Hflat 0%nat st0 eq_refl Hname) as (Hsub0 & Hsl0 & Hnone0).
      destruct (Field o i0) as [v|] eqn:Hf; [|discriminate].
      unfold saveStep. rewrite Hsl0. unfold RawDatastore.saveProp. rewrite Hsub0.
      destruct (decide (EmptyString <> EmptyString)) as [Hne|_]; [now destruct Hne|].
      fold (savedIndex ShouldIndex st0).
      destruct (RawDatastore.saveLeaf _ _ _ _ _ _ _ _ _ _) as [[err|[pm1 k1]]|] eqn:E;
        cbn; try discriminate.
      intros Hrun.
      apply saveLeaf_appends in E as (prop & Hconv & ->).
      rewrite Hnone0 in Hrun. cbn [default app] in Hrun.
      destruct (IH (S i0) (<[name st0 := [prop]]> pm) k1 pm' k') as [Hsaved Hother];
        [|exact Hinj'|exact Hrun|].
      { apply Hflat'. intros nm Hne. apply lookup_insert_ne. congruence. }
      split.
      * intros [|j] st Hj Hn; cbn in Hj.
        -- injection Hj as <-. exists v, prop. rewrite Nat.add_0_r.
           repeat split; [exact Hf|exact Hconv|].
           rewrite Hother, lookup_insert_eq; [reflexivity|].
           intros j st Hj Hn' E'.
           specialize (Hinj (S j) 0%nat st st0 Hj eq_refl Hn' E'). discriminate.
        -- rewrite <- Nat.add_succ_comm. now apply Hsaved.
      * intros nm Hnm. rewrite Hother by (intros j st Hj Hn; exact (Hnm (S j) st Hj Hn)).
        apply lookup_insert_ne. exact (Hnm 0%nat st0 eq_refl Hname).
Qed.

(** The loop of [Load] over entries of one value each, for plain fields
    that are different from one entry to the next. *)
Lemma loadEntries_singles (c : structCodec) (es : list (string * list Property)) :
  NoDup es.*1 ->
  forall o fails,
    (forall nm props, (nm, props) ∈ es ->
       exists i st v2 v p,
         props = [p] /\ byName c !! nm = Some i /\ byIndex c !! i = Some st /\
         substructCodec st = None /\ Field o i = Some v2 /\
         loadLeaf v2 p false = Return (None, v) /\
         forall nm', nm' ∈ es.*1 -> byName c !! nm' = Some i -> nm' = nm) ->
    exists o',
      loadEntries c es o fails = Return (o', fails) /\
      (forall nm p i v2 v,
         (nm, [p]) ∈ es -> byName c !! nm = Some i -> Field o i = Some v2 ->
         loadLeaf v2 p false = Return (None, v) -> Field o' i = Some v) /\
      (forall j, (forall nm, nm ∈ es.*1 -> byName c !! nm <> Some j) ->
                 Field o' j = Field o j).
Proof.
  induction es as [|[nm props] es IH]; intros Hnd o fails Hes.
  - exists o. split; [reflexivity|]. split; [|reflexivity].
    intros nm p i v2 v Hin. inversion Hin.
  - cbn [fmap list_fmap fst] in Hnd. apply NoDup_cons in Hnd as [Hfresh Hnd].
    destruct (Hes nm props) as (i & st & v2 & v & p & -> & Hn & Hi & Hsub & Hf & Hleaf & Hinj);
      [now left|].
    cbn [RawDatastore.loadEntries RawDatastore.loadValues List.length].
    rewrite (loadInner_leaf env zeroValue FromProperty c o 0 nm p (1 <? 1)%nat i st v2
               Hn Hi Hsub Hf).
    change (1 <? 1)%nat with false. rewrite Hleaf. cbn [mbind exec_bind].
    assert (Hother : forall nm', nm' ∈ es.*1 -> byName c !! nm' <> Some i).
    { intros nm' Hin' E. apply Hfresh.
      rewrite <- (Hinj nm'); [exact Hin'|now right|exact E]. }
    destruct (IH Hnd (setField o i v) fails) as (o' & Hrun & Hset & Hframe).
    { intros nm1 props1 Hin1.
      destruct (Hes nm1 props1) as (i1 & st1 & w2 & w & p1 & -> & Hn1 & Hi1 & Hsub1 & Hf1
                                    & Hleaf1 & Hinj1); [now right|].
      exists i1, st1, w2, w, p1. repeat split; try assumption.
      - rewrite Field_setField_ne; [exact Hf1|].
        intros <-. apply (Hother nm1); [|exact Hn1].
        apply list_elem_of_fmap. exists (nm1, [p1]). auto.
      - intros nm' Hin'. apply Hinj1. now right. }
    exists o'. split; [exact Hrun|]. split.
    + intros nm1 p1 i1 w2 w Hin1 Hn1 Hf1 Hleaf1.
      apply elem_of_cons in Hin1 as [[= -> ->]|Hin1].
      * rewrite Hn in Hn1. injection Hn1 as <-.
        rewrite Hf in Hf1. injection Hf1 as <-.
        rewrite Hleaf in Hleaf1. injection Hleaf1 as <-.
        rewrite Hframe by exact Hother.
        eapply Field_setField_eq, Hf.
      * apply (Hset nm1 p1 i1 w2 w Hin1 Hn1); [|exact Hleaf1].
        rewrite Field_setField_ne; [exact Hf1|].
        intros <-. apply (Hother nm1); [|exact Hn1].
        apply list_elem_of_fmap. exists (nm1, [p1]). auto.
    + intros j Hj. rewrite Hframe by (intros nm' Hin'; apply Hj; now right).
      apply Field_setField_ne. intros <-. apply (Hj nm); [now left|exact Hn].
Qed.

(** [range] visits every entry of a map once, in some order. *)
Hypothesis mapRange_entries :
  forall (A : Type) (m : gmap string A), mapRange A m ≡ₚ map_to_list m.

(** X24. [Save], then [Load].  For a codec without problem, nested structs
    and slices: when the property that [Save] makes of each field it saves
    is one that the conversion of [loadInner] reads back, into the field of
    a record [o2], as the value saved, then [Load] of the map that
    [Save(false)] returned for [o], into [o2], returns no error, in whatever
    order the map is visited, and leaves every saved field as it is in [o]
    and every skipped field as it was in [o2]. *)
Theorem Save_then_Load (c : structCodec) (o o2 : Value) (pm : PropertyMap) :
  Problem c = None ->
  flat c ->
  (forall i st v p,
     byIndex c !! i = Some st -> name st <> "-"%string -> Field o i = Some v ->
     converted st (savedIndex ShouldIndex st) v = Return (inl p) ->
     exists v2, Field o2 i = Some v2 /\ loadLeaf v2 p false = Return (None, v)) ->
  Save c o false = Return (inr pm) ->
  exists o',
    Load c o2 pm = Return (o', None) /\
    forall i st, byIndex c !! i = Some st ->
      Field o' i = if decide (name st = "-"%string) then Field o2 i else Field o i.
Proof.
  intros Hp Hflat Hback. unfold RawDatastore.Save, RawDatastore.save.
  rewrite saveWith_unfold, Hp.
  destruct (RawDatastore.saveFields _ _ _ _ _ _ _ _ _ _ _ _)
    as [[err|[ret n]]|] eqn:Hrun; cbn; try discriminate.
  intros [= ->].
  apply saveFields_flat in Hrun as [Hsaved Hother].
  2:{ intros j st Hj Hn. destruct (Hflat j st Hj Hn) as (Hsub & Hsl & _).
      split; [exact Hsub|]. split; [exact Hsl|]. apply lookup_empty. }
  2:{ intros j1 j2 st1 st2 H1 H2 Hn E.
      destruct (Hflat j1 st1 H1 Hn) as (_ & _ & Hb1).
      destruct (Hflat j2 st2 H2) as (_ & _ & Hb2); [congruence|].
      rewrite E in Hb1. congruence. }
  (* every entry of the map is the property of a saved field *)
  assert (Hentry : forall nm props, pm !! nm = Some props ->
             exists i st v p,
               byIndex c !! i = Some st /\ name st = nm /\ nm <> "-"%string /\
               Field o i = Some v /\
               converted st (savedIndex ShouldIndex st) v = Return (inl p) /\
               props = [p]).
  { intros nm props Hnm.
    destruct (decide (Exists (fun st => name st <> "-"%string /\ name st = nm)
                             (byIndex c))) as [Hex|Hno].
    - apply Exists_exists in Hex as (st & Hin & Hn & <-).
      apply list_elem_of_lookup in Hin as [j Hj].
      destruct (Hsaved j st Hj Hn) as (v & p & Hf & Hconv & Hl).
      rewrite Hl in Hnm. injection Hnm as <-.
      exists j, st, v, p. auto 10.
    - rewrite Hother, lookup_empty in Hnm; [discriminate|].
      intros j st Hj Hn E. apply Hno, Exists_exists. exists st.
      split; [|auto]. apply list_elem_of_lookup. eauto. }
  unfold RawDatastore.Load. rewrite Hp.
  destruct (loadEntries_singles c (mapRange _ pm)) with (o := o2) (fails := @nil ErrFieldMismatch)
    as (o' & Hload & Hset & Hframe).
  { rewrite mapRange_entries. apply NoDup_fst_map_to_list. }
  { intros nm props Hin. rewrite mapRange_entries in Hin.
    apply elem_of_map_to_list in Hin.
    destruct (Hentry nm props Hin) as (i & st & v & p & Hi & <- & Hn & Hf & Hconv & ->).
    destruct (Hflat i st Hi Hn) as (Hsub & _ & Hb).
    destruct (Hback i st v p Hi Hn Hf Hconv) as (v2 & Hf2 & Hleaf).
    exists i, st, v2, v, p. repeat split; try assumption.
    intros nm' Hin' Hb'.
    apply list_elem_of_fmap in Hin' as ([nm1 props1] & -> & Hin1).
    rewrite mapRange_entries in Hin1. apply elem_of_map_to_list in Hin1.
    destruct (Hentry nm1 props1 Hin1) as (i1 & st1 & _ & _ & Hi1 & <- & Hn1 & _).
    destruct (Hflat i1 st1 Hi1 Hn1) as (_ & _ & Hb1).
    cbn [fst] in *. rewrite Hb1 in Hb'. injection Hb' as ->. congruence. }
  exists o'. rewrite Hload. cbn [mbind exec_bind]. split; [reflexivity|].
  intros i st Hi. destruct (decide (name st = "-"%string)) as [Hskip|Hn].
  - apply Hframe. intros nm Hin Hb.
    apply list_elem_of_fmap in Hin as ([nm1 props1] & -> & Hin1).
    rewrite mapRange_entries in Hin1. apply elem_of_map_to_list in Hin1.
    destruct (Hentry nm1 props1 Hin1) as (i1 & st1 & _ & _ & Hi1 & <- & Hn1 & _).
    destruct (Hflat i1 st1 Hi1 Hn1) as (_ & _ & Hb1).
    cbn [fst] in *. rewrite Hb1 in Hb. injection Hb as ->. congruence.
  - destruct (Hsaved i st Hi Hn) as (v & p & Hf & Hconv & Hl).
    cbn [Nat.add] in Hf. rewrite Hf.
    destruct (Hflat i st Hi Hn) as (_ & _ & Hb).
    destruct (Hback i st v p Hi Hn Hf Hconv) as (v2 & Hf2 & Hleaf).
    apply (Hset (name st) p i v2 v); try assumption.
    rewrite mapRange_entries. now apply elem_of_map_to_list.
Qed.


End RoundTrip.


(** ** Load: bytes, and slices of structs *)

Section LoadingSlices.

Variable env : TypeEnv.
Variable zeroValue : GoType -> Value.
Variable FromProperty : Value -> Property -> Value * option string.

Local Abbreviation coerce := (coerce env).
Local Abbreviation loadLeaf := (loadLeaf env zeroValue FromProperty).
Local Abbreviation loadInner := (loadInner env zeroValue FromProperty).

(** X26. A field of bytes.  For a [[]byte] field (not a nested struct, no
    converter, not a key): one of several values is refused with the reason
    "requires a slice", the record being left as it was; a single value that
    is a [[]byte] or a [ByteString] is stored; a single value of any other
    type, the null value included, makes [loadInner] panic ("impossible")
    instead of returning a type mismatch. *)
Theorem load_bytes_field (c : structCodec) (o : Value) (index : nat) (nm : string)
    (p : Property) (fi : nat) (st : structTag) (v : Value) (elemT : GoType) :
  byName c !! nm = Some fi ->
  byIndex c !! fi = Some st ->
  substructCodec st = None ->
  Field o fi = Some v ->
  implementsPropertyConverter env (vtype v) = false ->
  implementsKey env (vtype v) = false ->
  kindOf (vtype v) = Slice -> elemOf (vtype v) = Some elemT -> kindOf elemT = Uint8 ->
  loadInner c o index nm p true = Return (Some RequiresSlice, o) /\
  (forall x, propValue p = PVBytes x \/ propValue p = PVByteString x ->
     loadInner c o index nm p false
     = Return (None, setField o fi (setData v (DBytes x)))) /\
  ((forall x, propValue p <> PVBytes x /\ propValue p <> PVByteString x) ->
   loadInner c o index nm p false = Panic).
Proof.
  intros Hn Hi Hsub Hf Hconv Hkey Hk He Hbyte.
  assert (Hleaf : forall rs,
             loadLeaf v p rs
             = if rs then Return (Some RequiresSlice, v) else coerce v (propValue p)).
  { intros rs. unfold RawDatastore.loadLeaf. rewrite Hconv, He.
    destruct (decide _) as [[_ Hno]|_]; [contradiction|reflexivity]. }
  rewrite !(loadInner_leaf env zeroValue FromProperty c o index nm p _ fi st v
              Hn Hi Hsub Hf), !Hleaf.
  split; [cbn; now rewrite (setField_same o fi v Hf)|].
  unfold RawDatastore.coerce. rewrite Hkey, Hk, He. cbn [fmap option_fmap option_map].
  destruct (decide (Some (kindOf elemT) = Some Uint8)) as [_|Hno]; [|congruence].
  split.
  - intros x [-> | ->]; reflexivity.
  - intros Hother. destruct (propValue p) as [| | | | | | | | | |] eqn:E;
      try reflexivity; destruct (Hother b); congruence.
Qed.

(** X27. A slice of structs grows to the index of the value.  When the
    name designates, through a field that is a slice of nested structs, a
    field of the [index]-th element, the slice is first extended with zero
    elements up to that index; the value is then loaded into that element,
    never requiring a slice of it; the elements the slice held at other
    places are kept.  The slice stays extended when the value is refused. *)
Theorem load_grows_slice_of_structs (c : structCodec) (o : Value) (index : nat)
    (nm : string) (p : Property) (rs : bool) (fi : nat) (st : structTag)
    (sub : structCodec) (rest : string) (v : Value) (elemT : GoType)
    (r : option Reason) (o' : Value) :
  byName c !! nm = Some fi ->
  byIndex c !! fi = Some st ->
  substructCodec st = Some sub ->
  sliceFrom (String.length (name st)) nm = Some rest ->
  Field o fi = Some v ->
  kindOf (vtype v) = Slice -> elemOf (vtype v) = Some elemT ->
  loadInner c o index nm p rs = Return (r, o') ->
  exists el el' l',
    o' = setField o fi (setElems v l') /\
    List.length l' = Nat.max (List.length (elemsOf v)) (S index) /\
    el = default (zeroValue elemT) (elemsOf v !! index) /\
    loadInner sub el index rest p false = Return (r, el') /\
    l' !! index = Some el' /\
    forall j, j <> index ->
      l' !! j = if decide (j < List.length (elemsOf v))%nat then elemsOf v !! j
                else if decide (j < S index)%nat then Some (zeroValue elemT)
                else None.
Proof.
  intros Hn Hi Hsub Hrest Hf Hk He.
  rewrite loadInner_unfold, Hn, Hf.
  rewrite (loadAt_lookup env zeroValue FromProperty _ _ _ _ _ _ _ _ _ _ _ Hi).
  cbn [RawDatastore.loadAt]. rewrite Hsub, Hrest, He. cbn [default]. unfold id.
  destruct (decide (kindOf (vtype v) = Slice)) as [_|]; [|contradiction].
  set (vs := elemsOf v ++ replicate (S index - List.length (elemsOf v)) (zeroValue elemT)).
  assert (Hlen : List.length vs = Nat.max (List.length (elemsOf v)) (S index)).
  { unfold vs. rewrite length_app, length_replicate. lia. }
  assert (Hvs : forall j,
             vs !! j = if decide (j < List.length (elemsOf v))%nat then elemsOf v !! j
                       else if decide (j < S index)%nat then Some (zeroValue elemT)
                       else None).
  { intros j. unfold vs. destruct (decide (j < List.length (elemsOf v))%nat).
    - now apply lookup_app_l.
    - rewrite lookup_app_r by lia. destruct (decide (j < S index)%nat).
      + apply lookup_replicate_2. lia.
      + apply lookup_replicate_None. lia. }
  destruct (vs !! index) as [el|] eqn:Hel.
  2:{ apply lookup_ge_None in Hel. lia. }
  destruct (loadInner sub el index rest p false) as [[r1 el']|] eqn:Hrun;
    cbn [mbind exec_bind]; [|discriminate].
  intros [= <- <-].
  exists el, el', (<[index := el']> vs).
  split; [reflexivity|]. split; [now rewrite length_insert|]. split.
  - rewrite Hvs in Hel. destruct (decide (index < List.length (elemsOf v))%nat).
    + now rewrite Hel.
    + rewrite (lookup_ge_None_2 (elemsOf v) index) by lia. cbn.
      destruct (decide (index < S index)%nat); [now injection Hel|lia].
  - split; [exact Hrun|]. split.
    + apply list_lookup_insert_eq. lia.
    + intros j Hj. rewrite list_lookup_insert_ne by congruence. apply Hvs.
Qed.

End LoadingSlices.


(** ** Save: slices *)

Section SavingSlices.

Variable env : TypeEnv.
Variable ToProperty : Value -> Property + string.
Variable SetValue : Iface -> IndexSetting -> Property + string.

Local Abbreviation saveProp := (saveProp env ToProperty SetValue).
Local Abbreviation saveFields := (saveFields env ToProperty SetValue).
Local Abbreviation saveWith := (saveWith env ToProperty SetValue).
Local Abbreviation converted := (converted env ToProperty SetValue).

(** The loop over the elements of a slice of plain values. *)
Lemma saveElems_plain rec ceiling st nm si :
  substructCodec st = None ->
  forall elems pm k pm' k',
    saveElems (saveProp rec ceiling st nm si) elems pm k = Return (inr (pm', k')) ->
    exists props,
      Forall2 (fun v p => converted st si v = Return (inl p)) elems props /\
      pm' = match props with
            | [] => pm
            | _ => <[nm := default [] (pm !! nm) ++ props]> pm
            end.
Proof.
  intros Hsub. induction elems as [|v elems IH]; intros pm k pm' k'.
  - cbn. intros [= <- <-]. exists []. split; [constructor|reflexivity].
  - cbn [saveElems].
    assert (Hleaf : saveProp rec ceiling st nm si v pm k
                    = RawDatastore.saveLeaf env ToProperty SetValue ceiling st nm si v pm k)
      by (unfold RawDatastore.saveProp; now rewrite Hsub).
    rewrite Hleaf.
    destruct (RawDatastore.saveLeaf env ToProperty SetValue ceiling st nm si v pm k)
      as [[err|[pm1 k1]]|] eqn:E; cbn; try discriminate.
    intros Hrest. apply saveLeaf_appends in E as (prop & Hconv & ->).
    apply IH in Hrest as (props & Hall & ->).
    exists (prop :: props). split; [now constructor|].
    destruct props as [|p2 props]; [reflexivity|].
    rewrite lookup_insert_eq. cbn [default].
    rewrite insert_insert_eq. unfold id. now rewrite <- app_assoc.
Qed.

Lemma saveFields_slice rec ceiling o prefix idx tags :
  Forall (rec_extending rec) tags ->
  forall i0 j pm k pm' k' st v elems,
    saveFields rec ceiling o prefix idx tags i0 pm k = Return (inr (pm', k')) ->
    tags !! j = Some st ->
    name st <> "-"%string -> substructCodec st = None -> isSlice st = true ->
    Field o (i0 + j) = Some v -> vdata v = DSlice elems ->
    exists props before after,
      Forall2 (fun v p => converted st (savedIndex idx st) v = Return (inl p))
              elems props /\
      default [] (pm' !! savedName prefix st) = before ++ props ++ after.
Proof.
  intros Hrec.
  induction Hrec as [|st0 tags Hst0 Htags IH];
    intros i0 j pm k pm' k' st v elems Hrun Hj Hname Hsub Hsl Hf Hd; [discriminate|].
  revert Hrun. rewrite saveFields_cons.
  destruct j as [|j]; cbn in Hj.
  - injection Hj as ->. rewrite Nat.add_0_r in Hf.
    destruct (decide (name st = "-"%string)); [contradiction|]. rewrite Hf.
    unfold saveStep. rewrite Hsl, Hd.
    fold (savedName prefix st). fold (savedIndex idx st).
    destruct (saveElems _ _ _ _) as [[err|[pm1 k1]]|] eqn:E; cbn; try discriminate.
    intros Hrun.
    apply saveElems_plain in E as (props & Hall & ->); [|exact Hsub].
    apply (saveFields_extending _ _ _ _ _ _ _ _ _ _ Htags) in Hrun.
    exists props. destruct props as [|p1 props].
    + exists [], (default [] (pm' !! savedName prefix st)). split; [exact Hall|reflexivity].
    + destruct (Hrun _ _ (lookup_insert_eq _ _ _)) as (l' & Hl').
      exists (default [] (pm !! savedName prefix st)), l'.
      split; [exact Hall|]. rewrite Hl'. cbn [default]. now rewrite <- app_assoc.
  - rewrite <- Nat.add_succ_comm in Hf.
    destruct (decide (name st0 = "-"%string)); [intros Hrun; eapply IH; eauto|].
    destruct (Field o i0) as [v0|]; [|discriminate].
    destruct (saveStep _ _ _ _ _ _ _ _ _ _ _ _) as [[err|[pm1 k1]]|]; cbn;
      try discriminate.
    intros Hrun. eapply IH; eauto.
Qed.

(** X28. A slice is saved element by element, in order.  When [save]
    succeeds, a field that is a slice of plain values has one property per
    element, made of the elements in the order of the slice (by [SetValue],
    or by the converter of the field), and these properties stand together,
    in that order, in the list under the name of the field; an empty slice
    adds nothing. *)
Theorem save_slice_in_order (ceiling : option Z) (c : structCodec) (o : Value)
    (pm : PropertyMap) (prefix : string) (idx : IndexSetting)
    (pm' : PropertyMap) (n : Z) (i : nat) (st : structTag) (v : Value)
    (elems : list Value) :
  saveWith ceiling c o pm prefix idx = Return (inr (pm', n)) ->
  byIndex c !! i = Some st ->
  name st <> "-"%string -> substructCodec st = None -> isSlice st = true ->
  Field o i = Some v -> vdata v = DSlice elems ->
  exists props before after,
    Forall2 (fun v p => converted st (savedIndex idx st) v = Return (inl p))
            elems props /\
    default [] (pm' !! savedName prefix st) = before ++ props ++ after.
Proof.
  intros Hrun Hi Hname Hsub Hsl Hf Hd.
  rewrite saveWith_unfold in Hrun. destruct (Problem c); [discriminate|].
  eapply saveFields_slice in Hrun; eauto. apply rec_extending_saveWith.
Qed.

End SavingSlices.


(** ** Concrete records *)

(** A second small program:
<<
    type Stringer interface { String() string }
    type Boxed struct { V Stringer }
    type Mapped struct { M map[string]int }
    type Node struct { Kids []Node }
    type Holder struct { N Node }
    type Row struct { Cells []int64 }
    type Table struct { Rows []Row }
    type TwoIDs struct { ID int64 `gae:"$id"`; Other int64 `gae:"$id"` }
    type BadKind struct { Kind float64 `gae:"$kind"` }
    type Entity struct {
        ID    int64    `gae:"$id,7"`
        Kind  string   `gae:"$kind,Thing"`
        Flag  Toggle   `gae:"$flag,on"`
        Small int8
        Tags  []string `gae:"tags,noindex"`
    }
    type Blob struct { Data []byte }
    type Member struct { Name string }
    type Team struct { Members []Member }
>> *)
Definition program2 : TypeEnv :=
  Standin.mkEnv
    [ ("Boxed", [Standin.exported "V" (TInterface "Stringer")]);
      ("Mapped", [Standin.exported "M" (TOther "map[string]int")]);
      ("Node", [Standin.exported "Kids" (TSlice (TStruct "Node"))]);
      ("Holder", [Standin.exported "N" (TStruct "Node")]);
      ("Row", [Standin.exported "Cells" (TSlice (TInt KInt64))]);
      ("Table", [Standin.exported "Rows" (TSlice (TStruct "Row"))]);
      ("TwoIDs", [Standin.tagged "ID" "$id" (TInt KInt64);
                  Standin.tagged "Other" "$id" (TInt KInt64)]);
      ("BadKind", [Standin.tagged "Kind" "$kind" (TFloat KFloat64)]);
      ("Entity", [Standin.tagged "ID" "$id,7" (TInt KInt64);
                  Standin.tagged "Kind" "$kind,Thing" TString;
                  Standin.tagged "Flag" "$flag,on" typeOfToggle;
                  Standin.exported "Small" (TInt KInt8);
                  Standin.tagged "Tags" "tags,noindex" (TSlice TString)]);
      ("Blob", [Standin.exported "Data" (TSlice TUint8)]);
      ("Member", [Standin.exported "Name" TString]);
      ("Team", [Standin.exported "Members" (TSlice (TStruct "Member"))]) ]%string.

Definition getCodec2 (fuel : nat) (cache : Cache) (t : string)
    : option (Cache * structCodec) :=
  getStructCodecLocked Standin.IsLetter Standin.IsDigit Standin.ParseInt
                       Standin.mapRange program2 fuel cache t.

Definition codecOf2 (t : string) : structCodec :=
  default (mkStructCodec ∅ ∅ [] false None) (snd <$> getCodec2 8 ∅ t).

Definition cacheOf2 (t : string) : Cache :=
  default ∅ (fst <$> getCodec2 8 ∅ t).

Lemma getCodec2_built (t : string) :
  is_Some (getCodec2 8 ∅ t) -> getCodec2 8 ∅ t = Some (cacheOf2 t, codecOf2 t).
Proof. unfold cacheOf2, codecOf2. intros [[cache c] ->]. reflexivity. Qed.

Definition zero2 : GoType -> Value := Standin.zeroValue program2 4.

Local Abbreviation loadInner2 := (loadInner program2 zero2 Standin.FromProperty).
Local Abbreviation Load2 := (Load program2 zero2 Standin.FromProperty Standin.mapRange).
Local Abbreviation GetMeta2 := (GetMeta zero2 Standin.Value_eqb).
Local Abbreviation sound2 :=
  (sound Standin.IsLetter Standin.IsDigit Standin.ParseInt program2).

(** [Entity{Small: 5, Tags: []string{"a"}}]. *)
Definition entity1 : Value :=
  mkValue (TStruct "Entity")
    (DFields [Standin.int64Value 0; Standin.stringValue "";
              mkValue typeOfToggle (DToggle Auto);
              mkValue (TInt KInt8) (DInt 5);
              mkValue (TSlice TString) (DSlice [Standin.stringValue "a"])]).

(** *** Schemas *)

Lemma getStructCodecLocked_caches_witness :
  cacheOf "Outer" !! "Outer"%string = Some (Standin.codecOf "Outer") /\
  (forall k ck, (∅ : Cache) !! k = Some ck -> cacheOf "Outer" !! k = Some ck) /\
  (forall fuel',
     Standin.getCodec fuel' (cacheOf "Outer") "Outer"
     = Some (cacheOf "Outer", Standin.codecOf "Outer")).
Proof.
  apply (getStructCodecLocked_caches
           Standin.IsLetter Standin.IsDigit Standin.ParseInt Standin.mapRange
           Standin.program 8 ∅ (cacheOf "Outer") "Outer" (Standin.codecOf "Outer")).
  apply getCodec_built. vm_compute. eauto.
Defined.

Lemma getStructCodecLocked_terminates_witness :
  exists cache' c,
    forall fuel', 13 <= fuel' -> Standin.getCodec fuel' ∅ "A" = Some (cache', c).
Proof.
  apply (getStructCodecLocked_terminates
           Standin.IsLetter Standin.IsDigit Standin.ParseInt Standin.mapRange
           Standin.program 13 ∅ "A").
  vm_compute. lia.
Defined.

Lemma field_type_is_refused_witness :
  (exists cache' c,
     getCodec2 1 ∅ "Boxed" = Some (cache', c) /\
     problem c = Some (ErrNonConcrete "V" (TInterface "Stringer"))) /\
  (exists cache' c,
     getCodec2 1 ∅ "Mapped" = Some (cache', c) /\
     problem c = Some (ErrInvalidType "M" (TOther "map[string]int"))).
Proof.
  split.
  - destruct (field_type_is_refused
                Standin.IsLetter Standin.IsDigit Standin.ParseInt Standin.mapRange
                program2 0 ∅ "Boxed" [] []
                (Standin.exported "V" (TInterface "Stringer"))
                (startBuilding program2 ∅ "Boxed") "V" EmptyString
                (lookup_empty _) eq_refl eq_refl eq_refl eq_refl eq_refl)
      as [Hiface _].
    destruct Hiface as (cache' & c & Hget & _ & Hp & _);
      [reflexivity|discriminate|].
    exists cache', c. auto.
  - destruct (field_type_is_refused
                Standin.IsLetter Standin.IsDigit Standin.ParseInt Standin.mapRange
                program2 0 ∅ "Mapped" [] []
                (Standin.exported "M" (TOther "map[string]int"))
                (startBuilding program2 ∅ "Mapped") "M" EmptyString
                (lookup_empty _) eq_refl eq_refl eq_refl eq_refl eq_refl)
      as [_ Htype].
    destruct (Htype false false) as (cache' & c & Hget & _ & Hp & _);
      [reflexivity|reflexivity|].
    exists cache', c. auto.
Defined.

(** The codec of [Node] and of [Row], as built while [Holder] and [Table]
    are under construction. *)
Definition nodeCodec2 : structCodec :=
  mkStructCodec ∅ ∅ [] true (Some (ErrFieldRecursive "Kids")).

Definition rowCodec : structCodec :=
  mkStructCodec ∅ {[ "Cells"%string := 0%nat ]}
    [mkStructTag "Cells" ShouldIndex true None false INil true] true None.

Lemma getCodec2_Node_in_Holder :
  getCodec2 1 (b_cache (startBuilding program2 ∅ "Holder")) "Node"
  = Some (<["Node"%string := nodeCodec2]>
            (b_cache (startBuilding program2 ∅ "Holder")), nodeCodec2).
Proof. vm_compute. reflexivity. Qed.

Lemma getCodec2_Row_in_Table :
  getCodec2 1 (b_cache (startBuilding program2 ∅ "Table")) "Row"
  = Some (<["Row"%string := rowCodec]>
            (b_cache (startBuilding program2 ∅ "Table")), rowCodec).
Proof. vm_compute. reflexivity. Qed.

Lemma nested_struct_is_refused_witness :
  (exists cache' c,
     getCodec2 2 ∅ "Holder" = Some (cache', c) /\
     problem c = Some (ErrFieldProblem "N" (ErrFieldRecursive "Kids"))) /\
  (exists cache' c,
     getCodec2 2 ∅ "Table" = Some (cache', c) /\
     problem c = Some (ErrSliceOfSlices "Rows")).
Proof.
  split.
  - destruct (nested_struct_is_refused
                Standin.IsLetter Standin.IsDigit Standin.ParseInt Standin.mapRange
                program2 1 ∅ "Holder" [] []
                (Standin.exported "N" (TStruct "Node"))
                (startBuilding program2 ∅ "Holder") (TStruct "Node") _ nodeCodec2
                (lookup_empty _) eq_refl eq_refl eq_refl getCodec2_Node_in_Holder)
      as [Hproblem _].
    destruct (Hproblem (ErrFieldRecursive "Kids")) as (cache' & c & Hget & _ & Hp & _);
      [reflexivity|discriminate|].
    exists cache', c. auto.
  - destruct (nested_struct_is_refused
                Standin.IsLetter Standin.IsDigit Standin.ParseInt Standin.mapRange
                program2 1 ∅ "Table" [] []
                (Standin.exported "Rows" (TSlice (TStruct "Row")))
                (startBuilding program2 ∅ "Table") (TStruct "Row") _ rowCodec
                (lookup_empty _) eq_refl eq_refl eq_refl getCodec2_Row_in_Table)
      as [_ Hslices].
    destruct Hslices as (cache' & c & Hget & _ & Hp & _);
      [reflexivity|reflexivity|reflexivity|].
    exists cache', c. auto.
Defined.


Definition twoIDsBefore : Building :=
  match buildFields Standin.IsLetter Standin.IsDigit Standin.ParseInt Standin.mapRange
                    program2 (getCodec2 0)
                    [Standin.tagged "ID" "$id" (TInt KInt64)] 0
                    (startBuilding program2 ∅ "TwoIDs") with
  | Complete b => b
  | _ => startBuilding program2 ∅ "TwoIDs"
  end.

Lemma twoIDsBefore_built :
  buildFields Standin.IsLetter Standin.IsDigit Standin.ParseInt Standin.mapRange
              program2 (getCodec2 0)
              [Standin.tagged "ID" "$id" (TInt KInt64)] 0
              (startBuilding program2 ∅ "TwoIDs")
  = Complete twoIDsBefore.
Proof. vm_compute. reflexivity. Qed.

Lemma meta_field_is_refused_witness :
  (exists cache' c,
     getCodec2 1 ∅ "TwoIDs" = Some (cache', c) /\
     problem c = Some (ErrMetaMultiple "$id")) /\
  (exists cache' c,
     getCodec2 1 ∅ "BadKind" = Some (cache', c) /\
     problem c = Some (ErrMetaBadType "$kind" (BadMetaType (TFloat KFloat64) ""))).
Proof.
  split.
  - destruct (meta_field_is_refused
                Standin.IsLetter Standin.IsDigit Standin.ParseInt Standin.mapRange
                program2 Standin_mapRange_entries 0 ∅ "TwoIDs"
                [Standin.tagged "ID" "$id" (TInt KInt64)] []
                (Standin.tagged "Other" "$id" (TInt KInt64))
                twoIDsBefore "id" EmptyString
                (lookup_empty _) eq_refl twoIDsBefore_built eq_refl)
      as [Htwice _].
    destruct (Htwice 0%nat (Standin.tagged "ID" "$id" (TInt KInt64)) EmptyString)
      as (cache' & c & Hget & _ & Hp & _); [reflexivity|reflexivity|].
    exists cache', c. auto.
  - destruct (meta_field_is_refused
                Standin.IsLetter Standin.IsDigit Standin.ParseInt Standin.mapRange
                program2 Standin_mapRange_entries 0 ∅ "BadKind" [] []
                (Standin.tagged "Kind" "$kind" (TFloat KFloat64))
                (startBuilding program2 ∅ "BadKind") "kind" EmptyString
                (lookup_empty _) eq_refl eq_refl eq_refl)
      as (_ & Hbad & Hconv & _).
    assert (Hnone : forall k f0 opts0,
               ([] : list StructField) !! k = Some f0 ->
               readTag Standin.IsLetter Standin.IsDigit f0 <> TagMeta "kind" opts0)
      by (intros k f0 opts0 Hk; destruct k; discriminate Hk).
    destruct (Hbad Hnone (BadMetaType (TFloat KFloat64) ""))
      as (cache' & c & Hget & _ & Hp & _).
    { apply Hconv; discriminate. }
    exists cache', c. auto.
Defined.

Lemma getCodec2_Entity :
  getCodec2 8 ∅ "Entity" = Some (cacheOf2 "Entity", codecOf2 "Entity").
Proof. apply getCodec2_built. vm_compute. eauto. Qed.

Lemma finished_schema_tables_witness :
  sound2 (cacheOf2 "Entity") /\
  List.length (byIndex (codecOf2 "Entity")) = 5%nat /\
  exists st,
    byIndex (codecOf2 "Entity") !! 4%nat = Some st /\ canSet st = true /\
    idxSetting st = NoIndex /\ name st = "tags"%string /\
    substructCodec st = None /\
    byName (codecOf2 "Entity") !! "tags"%string = Some 4%nat.
Proof.
  destruct (finished_schema_tables
              Standin.IsLetter Standin.IsDigit Standin.ParseInt Standin.mapRange
              program2 Standin_mapRange_entries 8 ∅ (cacheOf2 "Entity") "Entity"
              (codecOf2 "Entity") (sound_empty _ _ _ _) getCodec2_Entity eq_refl)
    as (Hs & Hlen & _ & _ & Hfields).
  split; [exact Hs|]. split; [exact Hlen|].
  destruct (Hfields 4%nat (Standin.tagged "Tags" "tags,noindex" (TSlice TString))
                    eq_refl) as (st & Hst & Hcs & Hidx & Hname & Hsub & Hbn).
  exists st. repeat (split; [assumption|]). exact Hbn.
Defined.

(** *** Load *)

Lemma Load_of_unknown_names_witness :
  Load2 (codecOf2 "Entity") entity1 {[ "nope"%string := [Standin.indexed (PVInt 1)] ]}
  = Return (entity1,
            Some (MultiError [mkErrFieldMismatch (TStruct "Entity") "nope" NoSuchField])).
Proof.
  rewrite (Load_of_unknown_names program2 zero2 Standin.FromProperty Standin.mapRange
             Standin_mapRange_entries).
  - reflexivity.
  - reflexivity.
  - intros nm [x Hx]. apply lookup_singleton_Some in Hx as [<- _]. reflexivity.
Defined.

(** [entity1] with [Small] set to 9. *)
Definition entity2 : Value :=
  mkValue (TStruct "Entity")
    (DFields [Standin.int64Value 0; Standin.stringValue "";
              mkValue typeOfToggle (DToggle Auto);
              mkValue (TInt KInt8) (DInt 9);
              mkValue (TSlice TString) (DSlice [Standin.stringValue "a"])]).

Lemma Load_Small :
  Load2 (codecOf2 "Entity") entity1 {[ "Small"%string := [Standin.indexed (PVInt 9)] ]}
  = Return (entity2, None).
Proof. vm_compute. reflexivity. Qed.

Lemma Load_touches_only_named_fields_witness :
  vtype entity2 = vtype entity1 /\
  (forall j, j <> 3%nat -> Field entity2 j = Field entity1 j).
Proof.
  destruct (Load_touches_only_named_fields
              program2 zero2 Standin.FromProperty Standin.mapRange
              Standin_mapRange_entries (codecOf2 "Entity") entity1
              {[ "Small"%string := [Standin.indexed (PVInt 9)] ]} entity2 None Load_Small)
    as (Ht & Hframe & _).
  split; [exact Ht|].
  intros j Hj. apply Hframe.
  intros nm [x Hx]. apply lookup_singleton_Some in Hx as [<- _].
  assert (Hn : byName (codecOf2 "Entity") !! "Small"%string = Some 3%nat)
    by (vm_compute; reflexivity).
  rewrite Hn. congruence.
Defined.

Lemma Entity_Small :
  exists st,
    byName (codecOf2 "Entity") !! "Small"%string = Some 3%nat /\
    byIndex (codecOf2 "Entity") !! 3%nat = Some st /\ substructCodec st = None.
Proof. eexists. repeat split; vm_compute; reflexivity. Qed.

Lemma refused_value_changes_nothing_witness :
  loadInner2 (codecOf2 "Entity") entity1 0 "Small" (Standin.indexed (PVString "x")) false
  = Return (Some (TypeMismatch (PVString "x") (TInt KInt8)), entity1) /\
  entity1 = entity1.
Proof.
  assert (Hload : loadInner2 (codecOf2 "Entity") entity1 0 "Small"
                             (Standin.indexed (PVString "x")) false
                  = Return (Some (TypeMismatch (PVString "x") (TInt KInt8)), entity1))
    by (vm_compute; reflexivity).
  split; [exact Hload|].
  destruct Entity_Small as (st & Hn & Hi & Hsub).
  exact (refused_value_changes_nothing
           program2 zero2 Standin.FromProperty (codecOf2 "Entity") entity1 0 "Small"
           (Standin.indexed (PVString "x")) false 3 st (mkValue (TInt KInt8) (DInt 5))
           (TypeMismatch (PVString "x") (TInt KInt8)) entity1
           Hn Hi Hsub eq_refl eq_refl Hload).
Defined.

Lemma load_integer_in_range_witness :
  loadInner2 (codecOf2 "Entity") entity1 0 "Small" (Standin.indexed (PVInt 127)) false
  = Return (None, setField entity1 3 (mkValue (TInt KInt8) (DInt 127))) /\
  loadInner2 (codecOf2 "Entity") entity1 0 "Small" (Standin.indexed (PVInt 128)) false
  = Return (Some (Overflows (PVInt 128) (TInt KInt8)), entity1).
Proof.
  destruct Entity_Small as (st & Hn & Hi & Hsub).
  split.
  - apply (load_integer_in_range
             program2 zero2 Standin.FromProperty (codecOf2 "Entity") entity1 0 "Small"
             (Standin.indexed (PVInt 127)) 3 st (mkValue (TInt KInt8) (DInt 5)) 127
             Hn Hi Hsub eq_refl eq_refl eq_refl
             (or_intror (or_introl eq_refl)) eq_refl).
    cbn. lia.
  - apply (load_integer_in_range
             program2 zero2 Standin.FromProperty (codecOf2 "Entity") entity1 0 "Small"
             (Standin.indexed (PVInt 128)) 3 st (mkValue (TInt KInt8) (DInt 5)) 128
             Hn Hi Hsub eq_refl eq_refl eq_refl
             (or_intror (or_introl eq_refl)) eq_refl).
    cbn. lia.
Defined.

Lemma Entity_tags :
  exists st,
    byName (codecOf2 "Entity") !! "tags"%string = Some 4%nat /\
    byIndex (codecOf2 "Entity") !! 4%nat = Some st /\ substructCodec st = None.
Proof. eexists. repeat split; vm_compute; reflexivity. Qed.

Lemma Load_appends_to_slice_witness :
  Load2 (codecOf2 "Entity") entity1
        {[ "tags"%string := [Standin.indexed (PVString "b");
                             Standin.indexed (PVString "c")] ]}
  = Return (setField entity1 4
              (mkValue (TSlice TString)
                 (DSlice [Standin.stringValue "a"; Standin.stringValue "b";
                          Standin.stringValue "c"])), None).
Proof.
  destruct Entity_tags as (st & Hn & Hi & Hsub).
  apply (Load_appends_to_slice
           program2 zero2 Standin.FromProperty Standin.mapRange Standin_mapRange_entries
           (codecOf2 "Entity") entity1 "tags" 4 st (TSlice TString) TString
           [Standin.stringValue "a"]
           [Standin.indexed (PVString "b"); Standin.indexed (PVString "c")]
           [Standin.stringValue "b"; Standin.stringValue "c"]
           Hn Hi Hsub eq_refl eq_refl eq_refl).
  - discriminate.
  - reflexivity.
  - reflexivity.
  - repeat constructor.
  - reflexivity.
Defined.

(** *** Metadata *)

Lemma SetMeta_flag :
  SetMeta (codecOf2 "Entity") entity1 "flag" (IBool false)
  = Return (setField entity1 2 (mkValue typeOfToggle (DToggle Off)), None).
Proof. vm_compute. reflexivity. Qed.

Lemma SetMeta_then_GetMeta_witness :
  GetMeta2 (codecOf2 "Entity")
           (setField entity1 2 (mkValue typeOfToggle (DToggle Off))) "flag"
  = Return (inl (IBool false)).
Proof.
  destruct (SetMeta_then_GetMeta zero2 Standin.Value_eqb (codecOf2 "Entity") entity1
              "flag" (IBool false) _ None SetMeta_flag)
    as (idx & st & x & _ & _ & _ & Hx & _ & _ & _ & _ & Hbool).
  apply (Hbool false eq_refl).
  injection Hx as <-. reflexivity.
Defined.

Lemma GetMeta_default_witness :
  GetMeta2 (codecOf2 "Entity") entity1 "kind" = Return (inl (IString "Thing")).
Proof.
  destruct (GetMeta_default
              Standin.IsLetter Standin.IsDigit Standin.ParseInt Standin.mapRange
              program2 zero2 Standin.Value_eqb Standin_mapRange_entries
              8 ∅ (cacheOf2 "Entity") "Entity" (codecOf2 "Entity") entity1 1
              (Standin.tagged "Kind" "$kind,Thing" TString) "kind" "Thing"
              (Standin.stringValue "")
              (sound_empty _ _ _ _) getCodec2_Entity eq_refl eq_refl eq_refl eq_refl)
    as (mv & Hmv & Hget).
  injection Hmv as <-. exact Hget.
Defined.


(** *** Save *)

Local Abbreviation SaveS :=
  (Save Standin.program Standin.zero Standin.Value_eqb Standin.ToProperty
        Standin.SetValue Standin.mapRange).
Local Abbreviation Save2 :=
  (Save program2 zero2 Standin.Value_eqb Standin.ToProperty Standin.SetValue
        Standin.mapRange).

(** What [save] puts in the map for [outer1] under the prefix ["P."], when
    it is entered with [NoIndex]. *)
Definition outerUnindexed : PropertyMap :=
  list_to_map
    [("P.I.X", [mkProperty (PVInt 1) NoIndex]);
     ("P.J", [mkProperty (PVString "j") NoIndex]);
     ("P.K", [mkProperty (PVInt 2) NoIndex])]%string.

Lemma save_outer1_unindexed :
  saveWith Standin.program Standin.ToProperty Standin.SetValue None
           (Standin.codecOf "Outer") Standin.outer1 ∅ "P." NoIndex
  = Return (inr (outerUnindexed, 0%Z)).
Proof. vm_compute. reflexivity. Qed.

Lemma Standin_SetValue_NoIndex (val : Iface) (p : Property) :
  Standin.SetValue val NoIndex = inl p -> propIndexSetting p = NoIndex.
Proof.
  unfold Standin.SetValue. intros H.
  repeat (case_match; try discriminate); simplify_eq; reflexivity.
Qed.

Lemma save_noindex_is_inherited_witness :
  0%Z = 0%Z /\ indexedCount outerUnindexed = indexedCount ∅.
Proof.
  apply (save_noindex_is_inherited
           Standin.program Standin.ToProperty Standin.SetValue None
           (Standin.codecOf "Outer") Standin.outer1 ∅ "P." outerUnindexed 0).
  - exact Standin_SetValue_NoIndex.
  - vm_compute. tauto.
  - exact save_outer1_unindexed.
Defined.

Definition entitySaved : PropertyMap :=
  list_to_map
    [("Small", [Standin.indexed (PVInt 5)]);
     ("tags", [mkProperty (PVString "a") NoIndex])]%string.

Definition entitySavedMeta : PropertyMap :=
  list_to_map
    [("Small", [Standin.indexed (PVInt 5)]);
     ("tags", [mkProperty (PVString "a") NoIndex]);
     ("$id", [mkProperty (PVInt 7) NoIndex]);
     ("$kind", [mkProperty (PVString "Thing") NoIndex]);
     ("$flag", [mkProperty (PVBool true) NoIndex])]%string.

Lemma Save_entity1 :
  Save2 (codecOf2 "Entity") entity1 false = Return (inr entitySaved) /\
  Save2 (codecOf2 "Entity") entity1 true = Return (inr entitySavedMeta).
Proof. split; vm_compute; reflexivity. Qed.

Lemma Save_with_metadata_witness :
  (exists val p,
     GetMeta2 (codecOf2 "Entity") entity1 "kind" = Return (inl val) /\
     Standin.SetValue val NoIndex = inl p /\
     entitySavedMeta !! "$kind"%string = Some [p]) /\
  entitySavedMeta !! "Small"%string = entitySaved !! "Small"%string.
Proof.
  destruct (Save_with_metadata
              program2 zero2 Standin.Value_eqb Standin.ToProperty Standin.SetValue
              Standin.mapRange Standin_mapRange_entries (codecOf2 "Entity") entity1)
    as [_ Hmeta].
  destruct (Hmeta entitySaved entitySavedMeta (proj1 Save_entity1) (proj2 Save_entity1))
    as [Hkeys Hother].
  split.
  - apply Hkeys. vm_compute. eauto.
  - apply Hother. intros k _ Heq.
    change ("$" +:+ k)%string with (String "$" k) in Heq. discriminate.
Defined.

(** *** Save, then Load *)

Definition flatSaved : PropertyMap :=
  list_to_map
    [("A", [Standin.indexed (PVInt 7)]);
     ("B", [Standin.indexed (PVString "foo")]);
     ("C", [Standin.indexed (PVBool true)])]%string.

Lemma Save_flat7 :
  SaveS (Standin.codecOf "Flat") Standin.flat7 false = Return (inr flatSaved).
Proof. vm_compute. reflexivity. Qed.

Lemma flat_Flat : flat (Standin.codecOf "Flat").
Proof.
  intros i st Hi Hn.
  destruct i as [|[|[|i]]]; vm_compute in Hi; try discriminate;
    injection Hi as <-; repeat split; vm_compute; reflexivity.
Qed.

Lemma Save_then_Load_witness :
  exists o',
    Load Standin.program Standin.zero Standin.FromProperty Standin.mapRange
         (Standin.codecOf "Flat") (Standin.zero (TStruct "Flat")) flatSaved
    = Return (o', None) /\
    Field o' 0 = Some (Standin.int64Value 7) /\
    Field o' 1 = Some (Standin.stringValue "foo") /\
    Field o' 2 = Some (Standin.boolValue true).
Proof.
  destruct (Save_then_Load
              Standin.program Standin.zero Standin.Value_eqb Standin.FromProperty
              Standin.ToProperty Standin.SetValue Standin.mapRange
              Standin_mapRange_entries (Standin.codecOf "Flat") Standin.flat7
              (Standin.zero (TStruct "Flat")) flatSaved eq_refl flat_Flat)
    as (o' & Hload & Hfields).
  - intros i st v p Hi Hn Hf Hconv.
    destruct i as [|[|[|i]]]; vm_compute in Hi; try discriminate;
      injection Hi as <-; vm_compute in Hf; injection Hf as <-;
      vm_compute in Hconv; injection Hconv as <-;
      eexists; split; vm_compute; reflexivity.
  - exact Save_flat7.
  - exists o'. split; [exact Hload|].
    pose proof (Hfields 0%nat _ eq_refl) as H0.
    pose proof (Hfields 1%nat _ eq_refl) as H1.
    pose proof (Hfields 2%nat _ eq_refl) as H2.
    auto.
Defined.


(** *** Bytes, and slices *)

(** [Blob{Data: []byte{1, 2}}]. *)
Definition blob1 : Value :=
  mkValue (TStruct "Blob") (DFields [mkValue (TSlice TUint8) (DBytes [1; 2]%Z)]).

Lemma Blob_Data :
  exists st,
    byName (codecOf2 "Blob") !! "Data"%string = Some 0%nat /\
    byIndex (codecOf2 "Blob") !! 0%nat = Some st /\ substructCodec st = None.
Proof. eexists. repeat split; vm_compute; reflexivity. Qed.

Lemma load_bytes_field_witness :
  loadInner2 (codecOf2 "Blob") blob1 0 "Data" (Standin.indexed (PVBytes [3]%Z)) false
  = Return (None, setField blob1 0 (mkValue (TSlice TUint8) (DBytes [3]%Z))) /\
  loadInner2 (codecOf2 "Blob") blob1 0 "Data" (Standin.indexed (PVString "x")) false
  = Panic.
Proof.
  destruct Blob_Data as (st & Hn & Hi & Hsub).
  split.
  - apply (load_bytes_field
             program2 zero2 Standin.FromProperty (codecOf2 "Blob") blob1 0 "Data"
             (Standin.indexed (PVBytes [3]%Z)) 0 st (mkValue (TSlice TUint8) (DBytes [1; 2]%Z))
             TUint8 Hn Hi Hsub eq_refl eq_refl eq_refl eq_refl eq_refl eq_refl).
    now left.
  - apply (load_bytes_field
             program2 zero2 Standin.FromProperty (codecOf2 "Blob") blob1 0 "Data"
             (Standin.indexed (PVString "x")) 0 st (mkValue (TSlice TUint8) (DBytes [1; 2]%Z))
             TUint8 Hn Hi Hsub eq_refl eq_refl eq_refl eq_refl eq_refl eq_refl).
    intros x. split; discriminate.
Defined.

(** [Team{}], and [Team{Members: []Member{{}, {}, {Name: "c"}}}]. *)
Definition team0 : Value :=
  mkValue (TStruct "Team") (DFields [mkValue (TSlice (TStruct "Member")) (DSlice [])]).

Definition team3 : Value :=
  mkValue (TStruct "Team")
    (DFields [mkValue (TSlice (TStruct "Member"))
                (DSlice [mkValue (TStruct "Member") (DFields [Standin.stringValue ""]);
                         mkValue (TStruct "Member") (DFields [Standin.stringValue ""]);
                         mkValue (TStruct "Member") (DFields [Standin.stringValue "c"])])]).

Definition memberCodec : structCodec :=
  mkStructCodec ∅ {[ "Name"%string := 0%nat ]}
    [mkStructTag "Name" ShouldIndex false None false INil true] false None.

Definition membersTag : structTag :=
  mkStructTag "Members." ShouldIndex true (Some memberCodec) false INil true.

Lemma load_Members :
  byName (codecOf2 "Team") !! "Members.Name"%string = Some 0%nat /\
  byIndex (codecOf2 "Team") !! 0%nat = Some membersTag /\
  loadInner2 (codecOf2 "Team") team0 2 "Members.Name" (Standin.indexed (PVString "c")) true
  = Return (None, team3).
Proof. repeat split; vm_compute; reflexivity. Qed.

Lemma load_grows_slice_of_structs_witness :
  exists l',
    team3 = setField team0 0 (mkValue (TSlice (TStruct "Member")) (DSlice l')) /\
    List.length l' = 3%nat /\
    l' !! 0%nat = Some (zero2 (TStruct "Member")) /\
    l' !! 2%nat = Some (mkValue (TStruct "Member") (DFields [Standin.stringValue "c"])).
Proof.
  destruct load_Members as (Hn & Hi & Hload).
  destruct (load_grows_slice_of_structs
              program2 zero2 Standin.FromProperty (codecOf2 "Team") team0 2
              "Members.Name" (Standin.indexed (PVString "c")) true 0 membersTag
              memberCodec "Name" (mkValue (TSlice (TStruct "Member")) (DSlice []))
              (TStruct "Member") None team3 Hn Hi eq_refl eq_refl eq_refl eq_refl
              eq_refl Hload)
    as (el & el' & l' & Ho & Hlen & Hel & Hrun & Hidx & Hrest).
  exists l'. split; [exact Ho|]. split; [exact Hlen|]. split.
  - exact (Hrest 0%nat ltac:(discriminate)).
  - rewrite Hidx. f_equal. subst el. vm_compute in Hrun. now injection Hrun.
Defined.

(** [Entity{Small: 5, Tags: []string{"a", "b"}}]. *)
Definition entity3 : Value :=
  setField entity1 4
    (mkValue (TSlice TString) (DSlice [Standin.stringValue "a"; Standin.stringValue "b"])).

Definition tagsTag : structTag :=
  mkStructTag "tags" NoIndex true None false INil true.

Definition entity3Saved : PropertyMap :=
  list_to_map
    [("Small", [Standin.indexed (PVInt 5)]);
     ("tags", [mkProperty (PVString "a") NoIndex; mkProperty (PVString "b") NoIndex])]%string.

Lemma save_entity3 :
  byIndex (codecOf2 "Entity") !! 4%nat = Some tagsTag /\
  saveWith program2 Standin.ToProperty Standin.SetValue None (codecOf2 "Entity") entity3
           ∅ EmptyString ShouldIndex
  = Return (inr (entity3Saved, 1%Z)).
Proof. split; vm_compute; reflexivity. Qed.

Lemma save_slice_in_order_witness :
  exists props before after,
    Forall2 (fun v p => converted program2 Standin.ToProperty Standin.SetValue tagsTag
                                  (savedIndex ShouldIndex tagsTag) v = Return (inl p))
            [Standin.stringValue "a"; Standin.stringValue "b"] props /\
    default [] (entity3Saved !! savedName EmptyString tagsTag) = before ++ props ++ after.
Proof.
  apply (save_slice_in_order
           program2 Standin.ToProperty Standin.SetValue None (codecOf2 "Entity") entity3
           ∅ EmptyString ShouldIndex entity3Saved 1 4 tagsTag
           (mkValue (TSlice TString)
              (DSlice [Standin.stringValue "a"; Standin.stringValue "b"]))
           [Standin.stringValue "a"; Standin.stringValue "b"]
           (proj2 save_entity3) (proj1 save_entity3)).
  - discriminate.
  - reflexivity.
  - reflexivity.
  - reflexivity.
  - reflexivity.
Defined.


End RawDatastoreMore.
